(** * fuse-memfs: the in-memory filesystem core of [fs.js]

    A shallow embedding of the inode-based [FileSystem] class (the second,
    richer variant in [fs.js]: [Inode], [Entry], [Directory], [File],
    [FileDescriptor], [FileSystem]) and the properties of its link counts,
    block I/O, descriptor table and directory tree.

    JavaScript objects live in a heap: [Inode] and [Entry] objects are
    addressed by references (indices into two append-only lists), so that
    hard links, descriptors and renames alias them as the source does.
    Thrown errors keep the heap as it was at the point of the [throw]. *)

From Stdlib Require Import ZArith Lia Strings.Byte Strings.Ascii.
From stdpp Require Import base list strings.

Open Scope Z_scope.

(** ** JavaScript values and operators used by the source *)

(** Numbers.  The numbers of the source (sizes, offsets, positions, counts)
    are integers held in IEEE doubles; they are modelled by [Z], with [+],
    [*], [/] and [%] as exact integer operations.  The two agree as long as
    the operands and the result lie strictly between [-2^53] and [2^53];
    from [2^53] on the source rounds ([2^53 + 1] is [2^53]) and the model
    does not.  Statements about a sum that can reach that range carry the
    bound as a hypothesis. *)

(** A numeric property that may still be [undefined], or hold [NaN]. *)
Inductive JsValue : Type :=
| Undefined
| NaN
| Num (n : Z).

(** [++x] and [x++] both store [ToNumber(x) + 1] back into [x]. *)
Definition js_incr (v : JsValue) : JsValue :=
  match v with
  | Num n => Num (n + 1)
  | Undefined | NaN => NaN
  end.

(** The relational operator [a < b]: false as soon as one side is [NaN]. *)
Definition js_lt (a b : JsValue) : bool :=
  match a, b with
  | Num x, Num y => x <? y
  | _, _ => false
  end.

(** Strict equality [a === b] on these values: [NaN] equals nothing. *)
Definition js_strict_eq (a b : JsValue) : bool :=
  match a, b with
  | Num x, Num y => x =? y
  | Undefined, Undefined => true
  | _, _ => false
  end.

(** [ToInt32], applied by the bitwise operators to both operands. *)
Definition ToInt32 (z : Z) : Z := (z + 2 ^ 31) mod 2 ^ 32 - 2 ^ 31.

Definition js_or (a b : Z) : Z := Z.lor (ToInt32 a) (ToInt32 b).
Definition js_and (a b : Z) : Z := Z.land (ToInt32 a) (ToInt32 b).

(** [!!x] for a number. *)
Definition truthy (z : Z) : bool := negb (z =? 0).

(** How [Buffer.prototype.slice] and [Array.prototype.slice] normalise an
    index: negative indices count from the end, everything is clamped to
    [0 .. len]. *)
Definition adjustOffset (offset len : Z) : Z :=
  if offset <? 0 then Z.max (offset + len) 0 else Z.min offset len.

Definition js_slice {A} (l : list A) (first last : Z) : list A :=
  let len := Z.of_nat (length l) in
  let s := adjustOffset first len in
  let e := adjustOffset last len in
  take (Z.to_nat (e - s)) (drop (Z.to_nat s) l).

(** [arr[i]] on an array with holes: [None] stands for [undefined]. *)
Definition array_get {A} (arr : list (option A)) (i : Z) : option A :=
  if i <? 0 then None else mjoin (arr !! Z.to_nat i).

(** [arr[i] = v]: in range it overwrites, past the end it extends the array
    with holes.  (A negative [i] would create a non-index property; file
    offsets are non-negative, so that case is left out of the model and the
    array is returned unchanged.)  The largest array index is [2^32 - 2]:
    for [i >= 2^32 - 1] the source also creates a non-index property, which
    [arr[i]] reads back but [length] and [slice] do not see, while the model
    stores an element.  The two agree on arrays of at most [2^32 - 1]
    slots, that is for files written below [(2^32 - 1) * BLOCK_SIZE];
    statements about [slice] on the block array carry that bound. *)
Definition array_set {A} (arr : list (option A)) (i : Z) (v : A) : list (option A) :=
  if i <? 0 then arr
  else if i <? Z.of_nat (length arr) then <[Z.to_nat i := Some v]> arr
  else arr ++ replicate (Z.to_nat i - length arr) None ++ [Some v].

(** ** Buffers *)

Definition Buffer : Type := list byte.

Definition Buffer_length (b : Buffer) : Z := Z.of_nat (length b).

(** [Buffer.alloc(n)]: [n] zero bytes. *)
Definition Buffer_alloc (n : Z) : Buffer := replicate (Z.to_nat n) x00.

(** [b.slice(first, last)] and [b.slice(first)]. *)
Definition Buffer_slice (b : Buffer) (first last : Z) : Buffer := js_slice b first last.
Definition Buffer_slice_from (b : Buffer) (first : Z) : Buffer :=
  js_slice b first (Buffer_length b).

(** [src.copy(target)]: the contents of [target] afterwards.  As many bytes
    as fit are copied to the front of [target]. *)
Definition Buffer_copy (src target : Buffer) : Buffer :=
  take (length target) src ++ drop (length src) target.

(** [src.copy(target.slice(pos))]: a slice is a view on the same memory, so
    the copy lands in [target] from [pos] on. *)
Definition Buffer_copy_at (src target : Buffer) (pos : Z) : Buffer :=
  let s := Z.to_nat (adjustOffset pos (Buffer_length target)) in
  take s target ++ Buffer_copy src (drop s target).

(** [Math.ceil(a / b)] for a positive divisor. *)
Definition ceil_div (a b : Z) : Z := - ((- a) / b).

Definition BLOCK_SIZE : Z := 1024 * 1024.

(** ** The objects of [fs.js] *)

(** A reference to a heap object. *)
Definition ref : Type := nat.

(** A [Date], as milliseconds since the epoch. *)
Definition Time : Type := Z.

(** The JavaScript class an [Entry] object was constructed with; it decides
    which methods the object has. *)
Inductive Class : Type :=
| ClassDirectory
| ClassFile.

Module Inode.
Record t : Type := mk {
  ctime : Time;
  atime : Time;
  mtime : Time;
  mode : Z;
  uid : Z;
  gid : Z;
  ino : JsValue;
  nlink : Z;
  entries : list ref;
  blocks : list (option Buffer);
  size : Z
}.

Definition set_atime (x : Time) (i : t) : t :=
  mk (ctime i) x (mtime i) (mode i) (uid i) (gid i) (ino i) (nlink i) (entries i) (blocks i) (size i).
Definition set_mtime (x : Time) (i : t) : t :=
  mk (ctime i) (atime i) x (mode i) (uid i) (gid i) (ino i) (nlink i) (entries i) (blocks i) (size i).
Definition set_mode (x : Z) (i : t) : t :=
  mk (ctime i) (atime i) (mtime i) x (uid i) (gid i) (ino i) (nlink i) (entries i) (blocks i) (size i).
Definition set_uid (x : Z) (i : t) : t :=
  mk (ctime i) (atime i) (mtime i) (mode i) x (gid i) (ino i) (nlink i) (entries i) (blocks i) (size i).
Definition set_gid (x : Z) (i : t) : t :=
  mk (ctime i) (atime i) (mtime i) (mode i) (uid i) x (ino i) (nlink i) (entries i) (blocks i) (size i).
Definition set_nlink (x : Z) (i : t) : t :=
  mk (ctime i) (atime i) (mtime i) (mode i) (uid i) (gid i) (ino i) x (entries i) (blocks i) (size i).
Definition set_entries (x : list ref) (i : t) : t :=
  mk (ctime i) (atime i) (mtime i) (mode i) (uid i) (gid i) (ino i) (nlink i) x (blocks i) (size i).
Definition set_blocks (x : list (option Buffer)) (i : t) : t :=
  mk (ctime i) (atime i) (mtime i) (mode i) (uid i) (gid i) (ino i) (nlink i) (entries i) x (size i).
Definition set_size (x : Z) (i : t) : t :=
  mk (ctime i) (atime i) (mtime i) (mode i) (uid i) (gid i) (ino i) (nlink i) (entries i) (blocks i) x.
End Inode.

Module Entry.
Record t : Type := mk {
  cls : Class;              (* constructed by [new Directory] or [new File] *)
  fs : bool;                (* [this.fs]: the FileSystem ([true]) or [null] *)
  name : string;
  inode : ref;
  attributes : list (string * Buffer);   (* a [Map], in insertion order *)
  nlink : JsValue           (* not set by the constructor; [link] writes it *)
}.

Definition set_name (x : string) (e : t) : t :=
  mk (cls e) (fs e) x (inode e) (attributes e) (nlink e).
Definition set_attributes (x : list (string * Buffer)) (e : t) : t :=
  mk (cls e) (fs e) (name e) (inode e) x (nlink e).
Definition set_nlink (x : JsValue) (e : t) : t :=
  mk (cls e) (fs e) (name e) (inode e) (attributes e) x.
End Entry.

Module FileDescriptor.
Record t : Type := mk {
  file : option ref;        (* [null] until [open] binds it *)
  id : Z;
  readable : bool;
  writable : bool;
  appending : bool;
  exclusive : bool;
  creating : bool;
  position : Z
}.

Definition set_file (x : option ref) (d : t) : t :=
  mk x (id d) (readable d) (writable d) (appending d) (exclusive d) (creating d) (position d).
Definition set_position (x : Z) (d : t) : t :=
  mk (file d) (id d) (readable d) (writable d) (appending d) (exclusive d) (creating d) x.
End FileDescriptor.

(** The object returned by [stat]. *)
Module Stat.
Record t : Type := mk {
  ctime : Time;
  atime : Time;
  mtime : Time;
  mode : Z;
  size : Z;
  blocks : Z;
  dev : Z;
  rdev : Z;
  nlink : Z;
  ino : JsValue;
  uid : Z;
  gid : Z
}.
End Stat.

(** The [FileSystem] object ([root], [fds], [inodes]) together with the heap
    of [Inode] and [Entry] objects it reaches and the clock that
    [new Date()] reads. *)
Module World.
Record t : Type := mk {
  clock : Time;
  heap_inodes : list Inode.t;
  heap_entries : list Entry.t;
  root : ref;
  fds : list (option FileDescriptor.t);
  inodes : JsValue
}.

Definition set_clock (x : Time) (w : t) : t :=
  mk x (heap_inodes w) (heap_entries w) (root w) (fds w) (inodes w).
Definition set_heap_inodes (x : list Inode.t) (w : t) : t :=
  mk (clock w) x (heap_entries w) (root w) (fds w) (inodes w).
Definition set_heap_entries (x : list Entry.t) (w : t) : t :=
  mk (clock w) (heap_inodes w) x (root w) (fds w) (inodes w).
Definition set_root (x : ref) (w : t) : t :=
  mk (clock w) (heap_inodes w) (heap_entries w) x (fds w) (inodes w).
Definition set_fds (x : list (option FileDescriptor.t)) (w : t) : t :=
  mk (clock w) (heap_inodes w) (heap_entries w) (root w) x (inodes w).
Definition set_inodes (x : JsValue) (w : t) : t :=
  mk (clock w) (heap_inodes w) (heap_entries w) (root w) (fds w) x.
End World.

(** ** Errors *)

(** The eight errors built by [createError], and the two the JavaScript
    runtime raises itself: reading an undeclared identifier and calling a
    method the object does not have. *)
Inductive Error : Type :=
| ENOENT
| ENOTDIR
| EINVAL
| EPERM
| EBADF
| ENOTEMPTY
| EEXIST
| EISDIR
| ReferenceError
| TypeError.

(** [err.errno]: the second argument of [createError]; runtime errors carry
    none. *)
Definition errno (e : Error) : option Z :=
  match e with
  | ENOENT => Some (-2)
  | ENOTDIR => Some (-20)
  | EINVAL => Some (-23)
  | EPERM => Some (-1)
  | EBADF => Some (-9)
  | ENOTEMPTY => Some (-66)
  | EEXIST => Some (-17)
  | EISDIR => Some (-21)
  | ReferenceError | TypeError => None
  end.

(** ** Computations over the heap, with exceptions *)

Inductive Outcome (A : Type) : Type :=
| Return (a : A)
| Throw (e : Error).
Arguments Return {A} a.
Arguments Throw {A} e.

(** A method body: it runs on a world and ends by returning or throwing; in
    both cases the world it leaves behind is the one it had reached. *)
Definition M (A : Type) : Type := World.t -> Outcome A * World.t.

Definition ret {A} (a : A) : M A := fun w => (Return a, w).
Definition throw {A} (e : Error) : M A := fun w => (Throw e, w).
Definition bind {A B} (m : M A) (k : A -> M B) : M B :=
  fun w =>
    match m w with
    | (Return a, w') => k a w'
    | (Throw e, w') => (Throw e, w')
    end.
Definition gets {A} (f : World.t -> A) : M A := fun w => (Return (f w), w).
Definition lift {A} (f : World.t -> Outcome A) : M A := fun w => (f w, w).
Definition modify (f : World.t -> World.t) : M unit := fun w => (Return tt, f w).

(** [if (cond) E(...)] for one of the throwing helpers. *)
Definition throw_if (cond : bool) (e : Error) : M unit :=
  if cond then throw e else ret tt.

Declare Scope fs_scope.
Delimit Scope fs_scope with fs.
Notation "x <- m ;; k" := (bind m (fun x => k))
  (at level 100, m at next level, right associativity) : fs_scope.
Notation "m ;; k" := (bind m (fun _ => k))
  (at level 100, right associativity) : fs_scope.
(** ** The heap *)

#[global] Instance Inode_inhabited : Inhabited Inode.t :=
  populate (Inode.mk 0 0 0 0 0 0 Undefined 0 [] [] 0).
#[global] Instance Entry_inhabited : Inhabited Entry.t :=
  populate (Entry.mk ClassFile false "" 0%nat [] Undefined).

(** Dereferencing.  A reference held by a live object always denotes an
    object (the tree invariant proved below), so the default is never read. *)
Definition get_inode (w : World.t) (r : ref) : Inode.t := World.heap_inodes w !!! r.
Definition get_entry (w : World.t) (r : ref) : Entry.t := World.heap_entries w !!! r.

(** [this.inode] for the entry [e]. *)
Definition inode_of (w : World.t) (e : ref) : Inode.t :=
  get_inode w (Entry.inode (get_entry w e)).

Definition update_inode (r : ref) (f : Inode.t -> Inode.t) (w : World.t) : World.t :=
  World.set_heap_inodes (alter f r (World.heap_inodes w)) w.
Definition update_entry (r : ref) (f : Entry.t -> Entry.t) (w : World.t) : World.t :=
  World.set_heap_entries (alter f r (World.heap_entries w)) w.

Definition alloc_inode (i : Inode.t) : M ref :=
  fun w => (Return (length (World.heap_inodes w)),
            World.set_heap_inodes (World.heap_inodes w ++ [i]) w).
Definition alloc_entry (e : Entry.t) : M ref :=
  fun w => (Return (length (World.heap_entries w)),
            World.set_heap_entries (World.heap_entries w ++ [e]) w).

(** [new Date()]. *)
Definition now : M Time := gets World.clock.

(** ** [File]: the block loops

    Both loops of [File.read] and [File.write] are [while] loops over
    [start] and [offset]; [fuel] bounds the number of iterations and [None]
    means that the bound was reached with the loop condition still true. *)

(** The loop of [File.read].  [size] and [blocks] are [this.inode.size] and
    [this.inode.blocks]; the result is the final [start] and the contents of
    [buffer]. *)
Fixpoint read_loop (fuel : nat) (size : Z) (blocks : list (option Buffer))
    (i o start offset : Z) (buffer : Buffer) : option (Z * Buffer) :=
  if (start <? Buffer_length buffer) && (offset <? size) then
    match fuel with
    | O => None
    | S fuel' =>
      (* let blk = this.inode.blocks[i++] || Buffer.alloc(BLOCK_SIZE) *)
      let blk := default (Buffer_alloc BLOCK_SIZE) (array_get blocks i) in
      let i := i + 1 in
      let blk :=
        if i * BLOCK_SIZE + Buffer_length blk >? size
        then Buffer_slice blk 0 (size - i * BLOCK_SIZE)
        else blk in
      (* if (o) { blk = blk.slice(o); o = 0 } *)
      let blk := if o =? 0 then blk else Buffer_slice_from blk o in
      (* blk.copy(buffer.slice(start)) *)
      let buffer := Buffer_copy_at blk buffer start in
      read_loop fuel' size blocks i 0
        (start + Buffer_length blk) (offset + Buffer_length blk) buffer
    end
  else Some (start, buffer).

(** The loop of [File.write]; the result is the final [start] and the block
    array. *)
Fixpoint write_loop (fuel : nat) (size : Z) (blocks : list (option Buffer))
    (i o start offset : Z) (buffer : Buffer) : option (Z * list (option Buffer)) :=
  if (start <? Buffer_length buffer) && (offset <? size) then
    match fuel with
    | O => None
    | S fuel' =>
      (* if (!this.inode.blocks[i]) this.inode.blocks[i] = Buffer.alloc(BLOCK_SIZE) *)
      let blocks :=
        match array_get blocks i with
        | Some _ => blocks
        | None => array_set blocks i (Buffer_alloc BLOCK_SIZE)
        end in
      (* let blk = this.inode.blocks[i++]; blk is a view on the stored block
         from o on, so the copy is made into the stored block at o *)
      let stored := default (Buffer_alloc BLOCK_SIZE) (array_get blocks i) in
      let blk := if o =? 0 then stored else Buffer_slice_from stored o in
      let stored := Buffer_copy_at (Buffer_slice_from buffer start) stored o in
      let blocks := array_set blocks i stored in
      write_loop fuel' size blocks (i + 1) 0
        (start + Buffer_length blk) (offset + Buffer_length blk) buffer
    end
  else Some (start, blocks).

(** ** The injected constants

    [filesystem-constants] is a separate package: its table for the host
    platform ([c] in the source) and its [parse] function for textual open
    flags are parameters of the development. *)
Record Constants : Type := mkConstants {
  S_IFDIR : Z;
  S_IFREG : Z;
  O_RDONLY : Z;
  O_WRONLY : Z;
  O_RDWR : Z;
  O_ACCMODE : Z;
  O_APPEND : Z;
  O_CREAT : Z;
  O_EXCL : Z;
  parse : string -> Z
}.

(** The flag argument of [open]: a number or a string. *)
Inductive Flag : Type :=
| FlagNumber (n : Z)
| FlagString (s : string).

(** A [Map] from attribute names to values keeps insertion order; [set] on
    a present key keeps its place. *)
Fixpoint Map_set (k : string) (v : Buffer) (m : list (string * Buffer))
    : list (string * Buffer) :=
  match m with
  | [] => [(k, v)]
  | (k', v') :: rest =>
    if String.eqb k' k then (k', v) :: rest else (k', v') :: Map_set k v rest
  end.

Fixpoint Map_get (k : string) (m : list (string * Buffer)) : option Buffer :=
  match m with
  | [] => None
  | (k', v') :: rest => if String.eqb k' k then Some v' else Map_get k rest
  end.

Fixpoint Map_delete (k : string) (m : list (string * Buffer))
    : list (string * Buffer) :=
  match m with
  | [] => []
  | (k', v') :: rest =>
    if String.eqb k' k then rest else (k', v') :: Map_delete k rest
  end.

(** [arr.indexOf(x)] on an array of object references. *)
Fixpoint indexOf (l : list ref) (x : ref) : option nat :=
  match l with
  | [] => None
  | y :: rest => if Nat.eqb y x then Some 0%nat else S <$> indexOf rest x
  end.

Definition Class_eqb (a b : Class) : bool :=
  match a, b with
  | ClassDirectory, ClassDirectory | ClassFile, ClassFile => true
  | _, _ => false
  end.

(** Calling a method that only class [k] defines on the object [e]: a
    [TypeError] when [e] is of the other class. *)
Definition method_of (k : Class) (e : ref) : M unit :=
  fun w =>
    if Class_eqb (Entry.cls (get_entry w e)) k then (Return tt, w)
    else (Throw TypeError, w).

Section Core.
Context (c : Constants).
Local Open Scope fs_scope.

(** ** [Inode] and [Entry] *)

(** [new Inode(fs, mode, opts)]; no caller passes [uid], [gid], [ino] or
    [nlink] in [opts], so they take their defaults.  With an [fs] the
    number is [++fs.inodes]. *)
Definition Inode_new (fs : bool) (mode : Z) : M ref :=
  t <- now ;;
  ino <- (if fs
          then modify (fun w => World.set_inodes (js_incr (World.inodes w)) w) ;;
               gets World.inodes
          else ret (Num 0)) ;;
  alloc_inode (Inode.mk t t t mode 0 0 ino 1 [] [] 0).

(** [new Entry(mode, opts)] as run by the constructor of subclass [k];
    [inode] is [opts.inode]. *)
Definition Entry_new (k : Class) (mode : Z) (fs : bool) (name : string)
    (inode : option ref) : M ref :=
  i <- match inode with
       | Some i => ret i
       | None => Inode_new fs mode
       end ;;
  alloc_entry (Entry.mk k fs name i [] Undefined).

Definition Entry_isDirectory (w : World.t) (e : ref) : bool :=
  truthy (js_and (Inode.mode (inode_of w e)) (S_IFDIR c)).

Definition Entry_isFile (w : World.t) (e : ref) : bool :=
  truthy (js_and (Inode.mode (inode_of w e)) (S_IFREG c)).

Definition Entry_setAttribute (e : ref) (name : string) (val : Buffer) : M unit :=
  modify (update_entry e
    (fun x => Entry.set_attributes (Map_set name val (Entry.attributes x)) x)).

Definition Entry_getAttribute (w : World.t) (e : ref) (name : string) : option Buffer :=
  Map_get name (Entry.attributes (get_entry w e)).

Definition Entry_removeAttribute (e : ref) (name : string) : M unit :=
  modify (update_entry e
    (fun x => Entry.set_attributes (Map_delete name (Entry.attributes x)) x)).

Definition Entry_listAttributes (w : World.t) (e : ref) : list string :=
  fst <$> Entry.attributes (get_entry w e).

Definition Entry_reset (e : ref) : M unit :=
  t <- now ;;
  modify (fun w => update_inode (Entry.inode (get_entry w e))
    (fun i => Inode.set_entries []
                (Inode.set_size 0 (Inode.set_blocks [] (Inode.set_mtime t i)))) w).

Definition Entry_stat (w : World.t) (e : ref) : Stat.t :=
  let i := inode_of w e in
  Stat.mk (Inode.ctime i) (Inode.atime i) (Inode.mtime i) (Inode.mode i)
    (Inode.size i) (ceil_div (Inode.size i) 512) 0 0
    (Inode.nlink i) (Inode.ino i) (Inode.uid i) (Inode.gid i).

Definition Entry_chown (e : ref) (uid gid : Z) : M unit :=
  modify (fun w => update_inode (Entry.inode (get_entry w e))
    (fun i => Inode.set_gid gid (Inode.set_uid uid i)) w).

Definition Entry_chmod (e : ref) (mode : Z) : M unit :=
  w <- gets id ;;
  let mask :=
    if Entry_isDirectory w e then S_IFDIR c
    else if Entry_isFile w e then S_IFREG c
    else 0 in
  modify (update_inode (Entry.inode (get_entry w e))
    (Inode.set_mode (js_or mode mask))).

(** [timeToDate] maps a millisecond count to the [Date] it denotes and
    leaves a [Date] alone; both are a [Time] here. *)
Definition timeToDate (ms : Time) : Time := ms.

Definition Entry_utimes (e : ref) (atime mtime : Time) : M unit :=
  modify (fun w => update_inode (Entry.inode (get_entry w e))
    (fun i => Inode.set_mtime (timeToDate mtime)
                (Inode.set_atime (timeToDate atime) i)) w).

(** ** [Directory] *)

(** [new Directory({ fs, name })]: mode [0 | 0o555 | 0o333 | c.S_IFDIR]. *)
Definition Directory_new (fs : bool) (name : string) : M ref :=
  e <- Entry_new ClassDirectory
         (js_or (js_or (js_or 0 365) 219) (S_IFDIR c)) fs name None ;;
  modify (fun w => update_inode (Entry.inode (get_entry w e)) (Inode.set_size 512) w) ;;
  ret e.

(** [new File({ fs, inode, name })]: mode [0 | 0o444 | 0o222 | c.S_IFREG],
    used only when no [inode] is passed. *)
Definition File_new (fs : bool) (name : string) (inode : option ref) : M ref :=
  Entry_new ClassFile (js_or (js_or (js_or 0 292) 146) (S_IFREG c)) fs name inode.

Definition Directory_isEmpty (w : World.t) (d : ref) : bool :=
  Nat.eqb (length (Inode.entries (inode_of w d))) 0.

Definition Directory_readdir (w : World.t) (d : ref) : list string :=
  (fun e => Entry.name (get_entry w e)) <$> Inode.entries (inode_of w d).

(** The [for ... of] loop of [Directory.get] over [this.inode.entries]. *)
Fixpoint find_name (w : World.t) (name : string) (l : list ref) : option ref :=
  match l with
  | [] => None
  | e :: rest =>
    if String.eqb (Entry.name (get_entry w e)) name then Some e
    else find_name w name rest
  end.

Definition Directory_get (w : World.t) (d : ref) (name : string) : option ref :=
  find_name w name (Inode.entries (inode_of w d)).

Definition Directory_exists (w : World.t) (d : ref) (name : string) : bool :=
  bool_decide (is_Some (Directory_get w d name)).

Definition Directory_push (d e : ref) : M ref :=
  modify (fun w => update_inode (Entry.inode (get_entry w d))
    (fun i => Inode.set_entries (Inode.entries i ++ [e]) i) w) ;;
  t <- now ;;
  modify (fun w => update_inode (Entry.inode (get_entry w d)) (Inode.set_mtime t) w) ;;
  ret e.

Definition Directory_remove (d e : ref) : M unit :=
  w <- gets id ;;
  match indexOf (Inode.entries (inode_of w d)) e with
  | Some i =>
    modify (fun w => update_inode (Entry.inode (get_entry w d))
      (fun n => Inode.set_entries (delete i (Inode.entries n)) n) w) ;;
    t <- now ;;
    modify (fun w => update_inode (Entry.inode (get_entry w d)) (Inode.set_mtime t) w) ;;
    modify (fun w => update_inode (Entry.inode (get_entry w e))
      (fun n => Inode.set_nlink (Inode.nlink n - 1) n) w)
  | None => ret tt
  end.

Definition Directory_mkdir (d : ref) (name : string) : M ref :=
  w <- gets id ;;
  throw_if (Directory_exists w d name) EEXIST ;;
  n <- Directory_new (Entry.fs (get_entry w d)) name ;;
  Directory_push d n.

(** The [mode] argument ends up in the options of [new File], which does
    not read it. *)
Definition Directory_create (d : ref) (name : string) (mode : Z) : M ref :=
  w <- gets id ;;
  match Directory_get w d name with
  | Some exists_ => Entry_reset exists_ ;; ret exists_
  | None =>
    n <- File_new (Entry.fs (get_entry w d)) name None ;;
    Directory_push d n
  end.

Definition Directory_rmdir (d : ref) (name : string) : M unit :=
  w <- gets id ;;
  match Directory_get w d name with
  | None => throw ENOENT
  | Some exists_ =>
    throw_if (negb (Entry_isDirectory w exists_)) ENOTDIR ;;
    method_of ClassDirectory exists_ ;;
    throw_if (negb (Directory_isEmpty w exists_)) ENOTEMPTY ;;
    Directory_remove d exists_
  end.

Definition Directory_unlink (d : ref) (name : string) : M unit :=
  w <- gets id ;;
  match Directory_get w d name with
  | None => throw ENOENT
  | Some exists_ =>
    throw_if (Entry_isDirectory w exists_) EPERM ;;
    Directory_remove d exists_
  end.

(** ** [File] *)

Definition File_truncate (f : ref) (size : Z) : M unit :=
  modify (fun w => update_inode (Entry.inode (get_entry w f)) (Inode.set_size size) w) ;;
  let cnt := ceil_div size BLOCK_SIZE in
  modify (fun w => update_inode (Entry.inode (get_entry w f))
    (fun i => Inode.set_blocks (js_slice (Inode.blocks i) 0 cnt) i) w) ;;
  t <- now ;;
  modify (fun w => update_inode (Entry.inode (get_entry w f)) (Inode.set_mtime t) w).

(** [File.read(offset, buffer)]: the number returned, the contents of
    [buffer] afterwards, and the world; [None] when the loop does not end
    within [fuel] iterations. *)
Definition File_read (fuel : nat) (f : ref) (offset : Z) (buffer : Buffer)
    (w : World.t) : option (Z * Buffer * World.t) :=
  let i := inode_of w f in
  match read_loop fuel (Inode.size i) (Inode.blocks i)
          (offset / BLOCK_SIZE) (Z.rem offset BLOCK_SIZE) 0 offset buffer with
  | None => None
  | Some (start, buffer') =>
    Some (Z.min (Buffer_length buffer) start, buffer',
          update_inode (Entry.inode (get_entry w f))
            (Inode.set_atime (World.clock w)) w)
  end.

(** [File.write(offset, buffer)]: the number returned and the world.  The
    sum [offset + buffer.length] is exact here; in the source it is exact
    while it stays below [2^53]. *)
Definition File_write (fuel : nat) (f : ref) (offset : Z) (buffer : Buffer)
    (w : World.t) : option (Z * World.t) :=
  let i := inode_of w f in
  let size :=
    if offset + Buffer_length buffer >? Inode.size i
    then offset + Buffer_length buffer
    else Inode.size i in
  match write_loop fuel size (Inode.blocks i)
          (offset / BLOCK_SIZE) (Z.rem offset BLOCK_SIZE) 0 offset buffer with
  | None => None
  | Some (start, blocks') =>
    Some (Z.min (Buffer_length buffer) start,
          update_inode (Entry.inode (get_entry w f))
            (fun n => Inode.set_mtime (World.clock w)
                        (Inode.set_blocks blocks' (Inode.set_size size n))) w)
  end.

(** ** [FileDescriptor] *)

Definition FileDescriptor_new (flag : Flag) (id : Z) : FileDescriptor.t :=
  let n := match flag with
           | FlagString s => parse c s
           | FlagNumber n => n
           end in
  let acc := js_and n (O_ACCMODE c) in
  FileDescriptor.mk None id
    ((acc =? O_RDONLY c) || (acc =? O_RDWR c))
    ((acc =? O_WRONLY c) || (acc =? O_RDWR c))
    (truthy (js_and n (O_APPEND c)))
    (truthy (js_and n (O_EXCL c)))
    (truthy (js_and n (O_CREAT c)))
    0.

(** Descriptors are only referenced from [fds]; [k] is the slot of the
    descriptor a method runs on. *)
Definition update_fd (k : nat) (f : FileDescriptor.t -> FileDescriptor.t)
    (w : World.t) : World.t :=
  World.set_fds (alter (fmap f) k (World.fds w)) w.

(** [this.file.m(...)] for a method [m] of [File]: the bound entry, or the
    [TypeError] of calling [m] on [null] or on a [Directory]. *)
Definition FileDescriptor_file (d : FileDescriptor.t) : M ref :=
  match FileDescriptor.file d with
  | None => throw TypeError
  | Some f => method_of ClassFile f ;; ret f
  end.

Definition FileDescriptor_read (fuel : nat) (k : nat) (d : FileDescriptor.t)
    (buffer : Buffer) (w : World.t) : option (Outcome (Z * Buffer) * World.t) :=
  match FileDescriptor_file d w with
  | (Throw e, w1) => Some (Throw e, w1)
  | (Return f, w1) =>
    match File_read fuel f (FileDescriptor.position d) buffer w1 with
    | None => None
    | Some (read, buffer', w2) =>
      Some (Return (read, buffer'),
            update_fd k (fun x => FileDescriptor.set_position
                                    (FileDescriptor.position x + read) x) w2)
    end
  end.

(** [this.position += buffer.length] is exact here; in the source it is
    exact while the sum stays below [2^53]. *)
Definition FileDescriptor_write (fuel : nat) (k : nat) (d : FileDescriptor.t)
    (buffer : Buffer) (w : World.t) : option (Outcome Z * World.t) :=
  match FileDescriptor_file d w with
  | (Throw e, w1) => Some (Throw e, w1)
  | (Return f, w1) =>
    match File_write fuel f (FileDescriptor.position d) buffer w1 with
    | None => None
    | Some (_, w2) =>
      Some (Return (Buffer_length buffer),
            update_fd k (fun x => FileDescriptor.set_position
                                    (FileDescriptor.position x + Buffer_length buffer) x) w2)
    end
  end.

Definition FileDescriptor_truncate (d : FileDescriptor.t) (size : Z) : M unit :=
  f <- FileDescriptor_file d ;;
  File_truncate f size.

Definition FileDescriptor_stat (d : FileDescriptor.t) : M Stat.t :=
  match FileDescriptor.file d with
  | None => throw TypeError
  | Some f => gets (fun w => Entry_stat w f)
  end.

(** ** [FileSystem] *)

(** [path.split('/')]: the pieces between separators, empty ones included. *)
Fixpoint js_split (sep : Ascii.ascii) (s : string) : list string :=
  match s with
  | EmptyString => [EmptyString]
  | String ch rest =>
    if Ascii.eqb ch sep then EmptyString :: js_split sep rest
    else match js_split sep rest with
         | [] => [String ch EmptyString]
         | piece :: more => String ch piece :: more
         end
  end.

(** [split(path)] for a string: [path.split('/').filter(notEmpty)]. *)
Definition split (path : string) : list string :=
  filter (fun s : string => s ≠ "") (js_split "/"%char path).

(** The loop of [lookup] over the components, from the entry [cur]. *)
Fixpoint lookup_from (w : World.t) (cur : ref) (parts : list string) : Outcome ref :=
  match parts with
  | [] => Return cur
  | p :: rest =>
    if negb (Entry_isDirectory w cur) then Throw ENOTDIR
    else if negb (Class_eqb (Entry.cls (get_entry w cur)) ClassDirectory)
    then Throw TypeError                 (* cur.get is not a function *)
    else match Directory_get w cur p with
         | None => Throw ENOENT
         | Some next => lookup_from w next rest
         end
  end.

(** [lookup] on an array of components, and on a path string. *)
Definition FileSystem_lookup_parts (parts : list string) : M ref :=
  lift (fun w => lookup_from w (World.root w) parts).

Definition FileSystem_lookup (path : string) : M ref :=
  FileSystem_lookup_parts (split path).

(** [this.fds[fd - 20]], with the slot it was found in. *)
Definition FileSystem_lookupFd (fd : Z) : M (nat * FileDescriptor.t) :=
  w <- gets id ;;
  match array_get (World.fds w) (fd - 20) with
  | None => throw EBADF
  | Some desc => ret (Z.to_nat (fd - 20), desc)
  end.

(** [_parentDir(path)]: [parts.pop()] takes the last component off. *)
Definition FileSystem_parentDir (path : string) : M (ref * string) :=
  let parts := split path in
  match last parts with
  | None => throw EINVAL
  | Some p =>
    dir <- FileSystem_lookup_parts (removelast parts) ;;
    w <- gets id ;;
    throw_if (negb (Entry_isDirectory w dir)) ENOTDIR ;;
    ret (dir, p)
  end.

(** [new FileSystem()], run at time [t].  The root directory is built
    while [this.inodes] is still unset; [this.fds] and [this.inodes] are
    assigned after it. *)
Definition FileSystem_new (t : Time) : World.t :=
  let this := World.mk t [] [] 0%nat [] Undefined in
  let (made, w) := Directory_new true "" this in
  let root := match made with Return r => r | Throw _ => 0%nat end in
  World.set_inodes (Num 0) (World.set_fds [] (World.set_root root w)).

Definition FileSystem_link (from to : string) : M unit :=
  f <- FileSystem_parentDir from ;;
  t <- FileSystem_parentDir to ;;
  method_of ClassDirectory (fst f) ;;
  w <- gets id ;;
  match Directory_get w (fst f) (snd f) with
  | None => throw ENOENT
  | Some fe =>
    throw_if (Entry_isDirectory w fe) EISDIR ;;
    method_of ClassDirectory (fst t) ;;
    match Directory_get w (fst t) (snd t) with
    | Some _ => throw EEXIST
    | None =>
      (* fe.nlink++ : a property of the Entry, not of its inode *)
      modify (update_entry fe (fun x => Entry.set_nlink (js_incr (Entry.nlink x)) x)) ;;
      (* new File({ fs: this.fs, inode: fe.inode, name: t.name }), where
         this.fs is undefined on a FileSystem *)
      n <- File_new false (snd t) (Some (Entry.inode (get_entry w fe))) ;;
      Directory_push (fst t) n ;;
      ret tt
    end
  end.

Definition FileSystem_rename (from to : string) : M unit :=
  f <- FileSystem_parentDir from ;;
  t <- FileSystem_parentDir to ;;
  method_of ClassDirectory (fst f) ;;
  w <- gets id ;;
  match Directory_get w (fst f) (snd f) with
  | None => throw ENOENT
  | Some fe =>
    method_of ClassDirectory (fst t) ;;
    match Directory_get w (fst t) (snd t) with
    | Some te =>
      throw_if (Entry_isDirectory w te && negb (Entry_isDirectory w fe)) EISDIR ;;
      throw_if (Entry_isDirectory w fe && negb (Entry_isDirectory w te)) ENOTDIR ;;
      (if Entry_isDirectory w fe && Entry_isDirectory w te
       then method_of ClassDirectory te ;;
            throw_if (negb (Directory_isEmpty w te)) ENOTEMPTY
       else ret tt) ;;
      Directory_remove (fst t) te
    | None => ret tt
    end ;;
    modify (update_entry fe (Entry.set_name (snd t))) ;;
    Directory_remove (fst f) fe ;;
    Directory_push (fst t) fe ;;
    ret tt
  end.

Definition FileSystem_stat (path : string) : M Stat.t :=
  e <- FileSystem_lookup path ;;
  gets (fun w => Entry_stat w e).

Definition FileSystem_fstat (fd : Z) : M Stat.t :=
  kd <- FileSystem_lookupFd fd ;;
  FileDescriptor_stat (snd kd).

Definition FileSystem_truncate (path : string) (size : Z) : M unit :=
  e <- FileSystem_lookup path ;;
  method_of ClassFile e ;;
  File_truncate e size.

Definition FileSystem_ftruncate (fd : Z) (size : Z) : M unit :=
  kd <- FileSystem_lookupFd fd ;;
  FileDescriptor_truncate (snd kd) size.

(** [mode] stands for [mode || 0]. *)
Definition FileSystem_open (path : string) (flag : Flag) (mode : Z) : M Z :=
  w0 <- gets id ;;
  let desc := FileDescriptor_new flag (Z.of_nat (length (World.fds w0)) + 20) in
  pn <- FileSystem_parentDir path ;;
  let parent := fst pn in
  let name := snd pn in
  method_of ClassDirectory parent ;;
  w <- gets id ;;
  let file := Directory_get w parent name in
  throw_if (match file with Some f => negb (Entry_isFile w f) | None => false end) EPERM ;;
  throw_if (FileDescriptor.exclusive desc && bool_decide (is_Some file)) EEXIST ;;
  throw_if (FileDescriptor.readable desc && negb (FileDescriptor.writable desc)
            && negb (bool_decide (is_Some file))) ENOENT ;;
  match file with
  | Some f =>
    if negb (FileDescriptor.appending desc) && FileDescriptor.writable desc
    then Entry_reset f else ret tt
  | None => ret tt
  end ;;
  file <- match file with
          | Some f => ret f
          | None =>
            throw_if (negb (FileDescriptor.creating desc)) ENOENT ;;
            Directory_create parent name mode
          end ;;
  w' <- gets id ;;
  let desc :=
    if FileDescriptor.appending desc
    then FileDescriptor.set_position (Inode.size (inode_of w' file)) desc
    else desc in
  let desc := FileDescriptor.set_file (Some file) desc in
  modify (fun w => World.set_fds (World.fds w ++ [Some desc]) w) ;;
  ret (FileDescriptor.id desc).

(** [while (this.fds.length && !this.fds[this.fds.length - 1]) this.fds.pop()],
    read from the end of the array. *)
Fixpoint drop_nulls {A} (reversed : list (option A)) : list (option A) :=
  match reversed with
  | None :: rest => drop_nulls rest
  | _ => reversed
  end.

Definition pop_trailing_nulls {A} (arr : list (option A)) : list (option A) :=
  reverse (drop_nulls (reverse arr)).

Definition FileSystem_close (fd : Z) : M unit :=
  w <- gets id ;;
  match array_get (World.fds w) (fd - 20) with
  | None => throw EBADF
  | Some _ =>
    modify (fun w => World.set_fds (<[Z.to_nat (fd - 20) := None]> (World.fds w)) w) ;;
    modify (fun w => World.set_fds (pop_trailing_nulls (World.fds w)) w)
  end.

(** [buf.slice(offset, offset + length)] is a view on [buf]: what the
    callee wrote into it is put back at the place the view started. *)
Definition write_back (buf : Buffer) (offset : Z) (view : Buffer) : Buffer :=
  let s := Z.to_nat (adjustOffset offset (Buffer_length buf)) in
  take s buf ++ view ++ drop (s + length view) buf.

(** [read(fd, buf, offset = 0, length = buf.length, position)]; an omitted
    argument is [None]. *)
Definition FileSystem_read (fuel : nat) (fd : Z) (buf : Buffer)
    (offset length position : option Z) (w : World.t)
    : option (Outcome (Z * Buffer) * World.t) :=
  match FileSystem_lookupFd fd w with
  | (Throw e, w1) => Some (Throw e, w1)
  | (Return (k, desc), w1) =>
    let desc := match position with
                | Some p => FileDescriptor.set_position p desc
                | None => desc
                end in
    let w2 := update_fd k (fun _ => desc) w1 in
    let off := default 0 offset in
    let len := default (Buffer_length buf) length in
    match FileDescriptor_read fuel k desc (Buffer_slice buf off (off + len)) w2 with
    | None => None
    | Some (Throw e, w3) => Some (Throw e, w3)
    | Some (Return (n, view), w3) => Some (Return (n, write_back buf off view), w3)
    end
  end.

Definition FileSystem_write (fuel : nat) (fd : Z) (buf : Buffer)
    (offset length position : option Z) (w : World.t)
    : option (Outcome Z * World.t) :=
  match FileSystem_lookupFd fd w with
  | (Throw e, w1) => Some (Throw e, w1)
  | (Return (k, desc), w1) =>
    let desc := match position with
                | Some p => FileDescriptor.set_position p desc
                | None => desc
                end in
    let w2 := update_fd k (fun _ => desc) w1 in
    let off := default 0 offset in
    let len := default (Buffer_length buf) length in
    FileDescriptor_write fuel k desc (Buffer_slice buf off (off + len)) w2
  end.

(** [value] stands for [Buffer.from(value)]. *)
Definition FileSystem_setxattr (path name : string) (value : Buffer) : M unit :=
  e <- FileSystem_lookup path ;;
  Entry_setAttribute e name value.

Definition FileSystem_getxattr (path name : string) : M (option Buffer) :=
  e <- FileSystem_lookup path ;;
  gets (fun w => Entry_getAttribute w e name).

Definition FileSystem_listxattr (path : string) : M (list string) :=
  e <- FileSystem_lookup path ;;
  gets (fun w => Entry_listAttributes w e).

Definition FileSystem_removexattr (path name : string) : M unit :=
  e <- FileSystem_lookup path ;;
  Entry_removeAttribute e name.

Definition FileSystem_readdir (path : string) : M (list string) :=
  dir <- FileSystem_lookup path ;;
  w <- gets id ;;
  if Entry_isDirectory w dir
  then method_of ClassDirectory dir ;; ret (Directory_readdir w dir)
  else throw ENOTDIR.

Definition FileSystem_rmdir (path : string) : M unit :=
  pn <- FileSystem_parentDir path ;;
  w <- gets id ;;
  if Entry_isDirectory w (fst pn)
  then method_of ClassDirectory (fst pn) ;; Directory_rmdir (fst pn) (snd pn)
  else throw ENOTDIR.

Definition FileSystem_unlink (path : string) : M unit :=
  pn <- FileSystem_parentDir path ;;
  w <- gets id ;;
  if Entry_isDirectory w (fst pn)
  then method_of ClassDirectory (fst pn) ;; Directory_unlink (fst pn) (snd pn)
  else throw ENOTDIR.

Definition FileSystem_mkdir (path : string) (mode : Z) : M unit :=
  pn <- FileSystem_parentDir path ;;
  w <- gets id ;;
  if Entry_isDirectory w (fst pn)
  then method_of ClassDirectory (fst pn) ;;
       Directory_mkdir (fst pn) (snd pn) ;;
       ret tt
  else throw ENOTDIR.

Definition FileSystem_chmod (path : string) (mode : Z) : M unit :=
  e <- FileSystem_lookup path ;;
  Entry_chmod e mode.

(** [entry.chown(mode, uid, gid)]: no [mode] is in scope in [chown], so
    evaluating the arguments raises a [ReferenceError] before the call. *)
Definition FileSystem_chown (path : string) (uid gid : Z) : M unit :=
  e <- FileSystem_lookup path ;;
  throw ReferenceError.

(** [entry.utimes(mode, atime, ctime)]: likewise. *)
Definition FileSystem_utimes (path : string) (atime ctime : Time) : M unit :=
  e <- FileSystem_lookup path ;;
  throw ReferenceError.

(** ** Runs

    The calls a client can make on a [FileSystem], and the passing of time
    between them. *)
Inductive Op : Type :=
| OpTick (t : Time)
| OpStat (path : string)
| OpFstat (fd : Z)
| OpTruncate (path : string) (size : Z)
| OpFtruncate (fd : Z) (size : Z)
| OpOpen (path : string) (flag : Flag) (mode : Z)
| OpClose (fd : Z)
| OpRead (fd : Z) (buf : Buffer) (offset length position : option Z)
| OpWrite (fd : Z) (buf : Buffer) (offset length position : option Z)
| OpSetxattr (path name : string) (value : Buffer)
| OpGetxattr (path name : string)
| OpListxattr (path : string)
| OpRemovexattr (path name : string)
| OpReaddir (path : string)
| OpRmdir (path : string)
| OpUnlink (path : string)
| OpMkdir (path : string) (mode : Z)
| OpChmod (path : string) (mode : Z)
| OpChown (path : string) (uid gid : Z)
| OpUtimes (path : string) (atime ctime : Time)
| OpLink (from to : string)
| OpRename (from to : string).

(** The world a call leaves behind, whether it returned or threw; [None]
    when it is still running after [fuel] loop iterations. *)
Definition exec (fuel : nat) (op : Op) (w : World.t) : option World.t :=
  match op with
  | OpTick t => Some (World.set_clock t w)
  | OpStat path => Some (snd (FileSystem_stat path w))
  | OpFstat fd => Some (snd (FileSystem_fstat fd w))
  | OpTruncate path size => Some (snd (FileSystem_truncate path size w))
  | OpFtruncate fd size => Some (snd (FileSystem_ftruncate fd size w))
  | OpOpen path flag mode => Some (snd (FileSystem_open path flag mode w))
  | OpClose fd => Some (snd (FileSystem_close fd w))
  | OpRead fd buf offset length position =>
    snd <$> FileSystem_read fuel fd buf offset length position w
  | OpWrite fd buf offset length position =>
    snd <$> FileSystem_write fuel fd buf offset length position w
  | OpSetxattr path name value => Some (snd (FileSystem_setxattr path name value w))
  | OpGetxattr path name => Some (snd (FileSystem_getxattr path name w))
  | OpListxattr path => Some (snd (FileSystem_listxattr path w))
  | OpRemovexattr path name => Some (snd (FileSystem_removexattr path name w))
  | OpReaddir path => Some (snd (FileSystem_readdir path w))
  | OpRmdir path => Some (snd (FileSystem_rmdir path w))
  | OpUnlink path => Some (snd (FileSystem_unlink path w))
  | OpMkdir path mode => Some (snd (FileSystem_mkdir path mode w))
  | OpChmod path mode => Some (snd (FileSystem_chmod path mode w))
  | OpChown path uid gid => Some (snd (FileSystem_chown path uid gid w))
  | OpUtimes path atime ctime => Some (snd (FileSystem_utimes path atime ctime w))
  | OpLink from to => Some (snd (FileSystem_link from to w))
  | OpRename from to => Some (snd (FileSystem_rename from to w))
  end.

(** The worlds a [FileSystem] can be in: the one its constructor builds,
    and those reached from it by calls that have ended. *)
Inductive reachable : World.t -> Prop :=
| reachable_new (t : Time) : reachable (FileSystem_new t)
| reachable_step (w w' : World.t) (op : Op) (fuel : nat) :
    reachable w -> exec fuel op w = Some w' -> reachable w'.

(** A sequence of calls, run one after the other. *)
Fixpoint run (fuel : nat) (ops : list Op) (w : World.t) : option World.t :=
  match ops with
  | [] => Some w
  | op :: rest =>
    match exec fuel op w with
    | None => None
    | Some w' => run fuel rest w'
    end
  end.

End Core.

(** The Linux table of [filesystem-constants]; [parse] stays a parameter. *)
Definition linux (parse : string -> Z) : Constants :=
  mkConstants 16384 32768 0 1 2 3 1024 64 128 parse.

(** * The FUSE operations of [index.js]

    [module.exports(opts)] builds one [FileSystem] and returns the object
    [ops]; each operation calls a method of that [FileSystem] and ends by
    calling its callback [cb] once.  [log] and [console.log] only print. *)

(** What the callback receives: [cb(code)] or [cb(code, value)].  The code
    is [undefined], here [None], when it is the [errno] of an error that
    carries none. *)
Module Reply.
Record t (A : Type) : Type := mk {
  code : option Z;
  value : option A
}.
Arguments mk {A} code value.
Arguments code {A} t.
Arguments value {A} t.
End Reply.

(** The object [statfs] answers with. *)
Module Statfs.
Record t : Type := mk {
  bsize : Z;
  frsize : Z;
  blocks : Z;
  bfree : Z;
  bavail : Z;
  files : Z;
  ffree : Z;
  favail : Z;
  fsid : Z;
  flag : Z;
  namemax : Z
}.
End Statfs.

(** [try { cb(0, fs.m(...)) } catch (err) { cb(err.errno) }] *)
Definition reply_value {A} (r : Outcome A * World.t) : Reply.t A * World.t :=
  match r with
  | (Return a, w) => (Reply.mk (Some 0) (Some a), w)
  | (Throw e, w) => (Reply.mk (errno e) None, w)
  end.

(** [try { fs.m(...); cb(0) } catch (err) { cb(err.errno) }] *)
Definition reply_done {A} (r : Outcome A * World.t) : Reply.t unit * World.t :=
  match r with
  | (Return _, w) => (Reply.mk (Some 0) None, w)
  | (Throw e, w) => (Reply.mk (errno e) None, w)
  end.

Section Ops.
Context (c : Constants).

Definition ops_statfs (path : string) (w : World.t) : Reply.t Statfs.t * World.t :=
  (Reply.mk (Some 0)
     (Some (Statfs.mk 1000000 1000000 1000000 1000000 1000000 1000000
              1000000 1000000 1000000 1000000 1000000)), w).

Definition ops_getxattr (path name : string) (pos : Z) (w : World.t)
    : Reply.t (option Buffer) * World.t :=
  reply_value (FileSystem_getxattr c path name w).

Definition ops_setxattr (path name : string) (value : Buffer) (pos flags : Z)
    (w : World.t) : Reply.t unit * World.t :=
  reply_done (FileSystem_setxattr c path name value w).

Definition ops_removexattr (path name : string) (w : World.t) : Reply.t unit * World.t :=
  reply_done (FileSystem_removexattr c path name w).

Definition ops_listxattr (path : string) (w : World.t) : Reply.t (list string) * World.t :=
  reply_value (FileSystem_listxattr c path w).

Definition ops_readdir (path : string) (w : World.t) : Reply.t (list string) * World.t :=
  reply_value (FileSystem_readdir c path w).

Definition ops_getattr (path : string) (w : World.t) : Reply.t Stat.t * World.t :=
  reply_value (FileSystem_stat c path w).

Definition ops_fgetattr (path : string) (fd : Z) (w : World.t) : Reply.t Stat.t * World.t :=
  reply_value (FileSystem_fstat fd w).

Definition ops_truncate (path : string) (size : Z) (w : World.t) : Reply.t unit * World.t :=
  reply_done (FileSystem_truncate c path size w).

Definition ops_ftruncate (path : string) (fd size : Z) (w : World.t)
    : Reply.t unit * World.t :=
  reply_done (FileSystem_ftruncate fd size w).

Definition ops_link (from to : string) (w : World.t) : Reply.t unit * World.t :=
  reply_done (FileSystem_link c from to w).

Definition ops_rename (from to : string) (w : World.t) : Reply.t unit * World.t :=
  reply_done (FileSystem_rename c from to w).

(** [fs.open(path, fs.constants.O_RDWR | fs.constants.O_CREAT)]: the [mode]
    that [create] receives is not passed on. *)
Definition ops_create (path : string) (mode : Z) (w : World.t) : Reply.t Z * World.t :=
  reply_value (FileSystem_open c path (FlagNumber (js_or (O_RDWR c) (O_CREAT c))) 0 w).

Definition ops_unlink (path : string) (w : World.t) : Reply.t unit * World.t :=
  reply_done (FileSystem_unlink c path w).

Definition ops_open (path : string) (flags : Flag) (w : World.t) : Reply.t Z * World.t :=
  reply_value (FileSystem_open c path flags 0 w).

Definition ops_release (path : string) (fd : Z) (w : World.t) : Reply.t unit * World.t :=
  reply_done (FileSystem_close fd w).

(** [cb(fs.read(fd, buf, 0, len, pos))]: the number of bytes is passed as
    the code; the result also gives [buf] as the call leaves it. *)
Definition ops_read (fuel : nat) (path : string) (fd : Z) (buf : Buffer) (len pos : Z)
    (w : World.t) : option (Reply.t unit * Buffer * World.t) :=
  match FileSystem_read fuel fd buf (Some 0) (Some len) (Some pos) w with
  | None => None
  | Some (Return (n, buf'), w') => Some (Reply.mk (Some n) None, buf', w')
  | Some (Throw e, w') => Some (Reply.mk (errno e) None, buf, w')
  end.

(** [cb(fs.write(fd, buf, 0, len, pos))] *)
Definition ops_write (fuel : nat) (path : string) (fd : Z) (buf : Buffer) (len pos : Z)
    (w : World.t) : option (Reply.t unit * World.t) :=
  match FileSystem_write fuel fd buf (Some 0) (Some len) (Some pos) w with
  | None => None
  | Some (Return n, w') => Some (Reply.mk (Some n) None, w')
  | Some (Throw e, w') => Some (Reply.mk (errno e) None, w')
  end.

Definition ops_mkdir (path : string) (mode : Z) (w : World.t) : Reply.t unit * World.t :=
  reply_done (FileSystem_mkdir c path mode w).

(** ** Sequences of operations *)

(** One call of an operation by the FUSE binding. *)
Inductive Call : Type :=
| CallStatfs (path : string)
| CallGetxattr (path name : string) (pos : Z)
| CallSetxattr (path name : string) (value : Buffer) (pos flags : Z)
| CallRemovexattr (path name : string)
| CallListxattr (path : string)
| CallReaddir (path : string)
| CallGetattr (path : string)
| CallFgetattr (path : string) (fd : Z)
| CallTruncate (path : string) (size : Z)
| CallFtruncate (path : string) (fd size : Z)
| CallLink (from to : string)
| CallRename (from to : string)
| CallCreate (path : string) (mode : Z)
| CallUnlink (path : string)
| CallOpen (path : string) (flags : Flag)
| CallRelease (path : string) (fd : Z)
| CallRead (path : string) (fd : Z) (buf : Buffer) (len pos : Z)
| CallWrite (path : string) (fd : Z) (buf : Buffer) (len pos : Z)
| CallMkdir (path : string) (mode : Z).

Definition answer {A} (r : Reply.t A * World.t) : option (option Z * World.t) :=
  Some (Reply.code (fst r), snd r).

(** The code a call replies with and the world it leaves; [None] when it
    never calls back. *)
Definition ops_call (fuel : nat) (call : Call) (w : World.t)
    : option (option Z * World.t) :=
  match call with
  | CallStatfs path => answer (ops_statfs path w)
  | CallGetxattr path name pos => answer (ops_getxattr path name pos w)
  | CallSetxattr path name value pos flags => answer (ops_setxattr path name value pos flags w)
  | CallRemovexattr path name => answer (ops_removexattr path name w)
  | CallListxattr path => answer (ops_listxattr path w)
  | CallReaddir path => answer (ops_readdir path w)
  | CallGetattr path => answer (ops_getattr path w)
  | CallFgetattr path fd => answer (ops_fgetattr path fd w)
  | CallTruncate path size => answer (ops_truncate path size w)
  | CallFtruncate path fd size => answer (ops_ftruncate path fd size w)
  | CallLink from to => answer (ops_link from to w)
  | CallRename from to => answer (ops_rename from to w)
  | CallCreate path mode => answer (ops_create path mode w)
  | CallUnlink path => answer (ops_unlink path w)
  | CallOpen path flags => answer (ops_open path flags w)
  | CallRelease path fd => answer (ops_release path fd w)
  | CallRead path fd buf len pos =>
    match ops_read fuel path fd buf len pos w with
    | None => None
    | Some (r, _, w') => Some (Reply.code r, w')
    end
  | CallWrite path fd buf len pos =>
    match ops_write fuel path fd buf len pos w with
    | None => None
    | Some (r, w') => Some (Reply.code r, w')
    end
  | CallMkdir path mode => answer (ops_mkdir path mode w)
  end.

(** The world after a sequence of calls on the [FileSystem] that
    [module.exports] built at time [t]. *)
Fixpoint ops_run (fuel : nat) (calls : list Call) (w : World.t) : option World.t :=
  match calls with
  | [] => Some w
  | call :: rest =>
    match ops_call fuel call w with
    | None => None
    | Some (_, w') => ops_run fuel rest w'
    end
  end.

End Ops.

(** * Vocabulary of the properties *)

(** Every block that was allocated is a [Buffer.alloc(BLOCK_SIZE)]. *)
Definition blocks_ok (blocks : list (option Buffer)) : Prop :=
  forall i b, array_get blocks i = Some b -> Buffer_length b = BLOCK_SIZE.

(** The number of bytes one iteration of the read loop takes from block
    [i] of a file of [size] bytes, when it starts [o] bytes into the block. *)
Definition read_chunk (size i o : Z) : Z :=
  let clipped :=
    if (i + 1) * BLOCK_SIZE + BLOCK_SIZE >? size
    then Z.max 0 (adjustOffset (size - (i + 1) * BLOCK_SIZE) BLOCK_SIZE)
    else BLOCK_SIZE in
  if o =? 0 then clipped else Z.max 0 (clipped - adjustOffset o clipped).

(** The block array after one iteration of the write loop on block [i]. *)
Definition write_block (blocks : list (option Buffer)) (i o start : Z)
    (buffer : Buffer) : list (option Buffer) :=
  let blocks :=
    match array_get blocks i with
    | Some _ => blocks
    | None => array_set blocks i (Buffer_alloc BLOCK_SIZE)
    end in
  let stored := default (Buffer_alloc BLOCK_SIZE) (array_get blocks i) in
  array_set blocks i (Buffer_copy_at (Buffer_slice_from buffer start) stored o).

(** ** Concrete worlds *)

(** The Linux constants; the runs below only pass numeric flags. *)
Definition linux0 : Constants := linux (fun _ => 0).

(** [O_RDWR | O_CREAT], the flag the FUSE [create] operation opens with. *)
Definition O_RDWR_O_CREAT : Flag := FlagNumber (js_or 2 64).

(** A new file system in which [/f] has been created: its entry is object
    1 of the entry heap and it is open as descriptor 20. *)
Definition world_f : World.t :=
  snd (FileSystem_open linux0 "/f" O_RDWR_O_CREAT 0 (FileSystem_new linux0 0)).

(** [world_f] after [ftruncate(20, BLOCK_SIZE)]: [/f] is exactly one block
    long. *)
Definition world_f_block : World.t := snd (FileSystem_ftruncate 20 BLOCK_SIZE world_f).

(** The entries bound in the tree: the root and the children of every
    directory inode. *)
Definition bound_entries (w : World.t) : list ref :=
  World.root w :: concat (Inode.entries <$> World.heap_inodes w).

(** The number of bound entries whose [inode] field is the inode [i]. *)
Definition count_links (w : World.t) (i : ref) : nat :=
  length (filter (fun e => Entry.inode (get_entry w e) = i) (bound_entries w)).

(** A new file system after [open("/x", O_RDWR | O_CREAT)] and
    [link("/x", "/y")]. *)
Definition world_x : World.t :=
  snd (FileSystem_open linux0 "/x" O_RDWR_O_CREAT 0 (FileSystem_new linux0 0)).
Definition world_xy : World.t := snd (FileSystem_link linux0 "/x" "/y" world_x).

(** A new file system after [mkdir("/a")]. *)
Definition world_a : World.t :=
  snd (FileSystem_mkdir linux0 "/a" 0 (FileSystem_new linux0 0)).

(** ** Reasoning about method bodies *)

(** [wp m w Q E]: run from [w], the body [m] either returns a value and a
    world that satisfy [Q], or throws an error in a world that satisfy [E]. *)
Definition wp {A} (m : M A) (w : World.t) (Q : A -> World.t -> Prop)
    (E : Error -> World.t -> Prop) : Prop :=
  match m w with
  | (Return a, w') => Q a w'
  | (Throw e, w') => E e w'
  end.

(** ** The directory tree *)

(** The children of the directory inode [i], and the name and the inode of
    the entry [e]. *)
Definition dir_entries (w : World.t) (i : ref) : list ref := Inode.entries (get_inode w i).
Definition entry_name (w : World.t) (e : ref) : string := Entry.name (get_entry w e).
Definition entry_inode (w : World.t) (e : ref) : ref := Entry.inode (get_entry w e).

(** The invariant of the tree: references are live, an Entry object is a
    child of at most one inode, at most once, and the names of the children
    of an inode are pairwise distinct. *)
Record tree_ok (w : World.t) : Prop := mk_tree_ok {
  children_live : forall i e,
    e ∈ dir_entries w i -> (e < length (World.heap_entries w))%nat;
  inodes_live : forall e,
    (e < length (World.heap_entries w))%nat ->
    (entry_inode w e < length (World.heap_inodes w))%nat;
  root_live : (World.root w < length (World.heap_entries w))%nat;
  one_parent : forall i j e, e ∈ dir_entries w i -> e ∈ dir_entries w j -> i = j;
  names_unique : forall i, NoDup (entry_name w <$> dir_entries w i)
}.

(** ** The descriptor table *)

(** The table never ends with a null slot. *)
Definition fds_ok {A} (fds : list (option A)) : Prop := last fds <> Some None.




(** Two states of one descriptor: all but the position agree. *)
Definition same_descriptor (d d' : FileDescriptor.t) : Prop :=
  FileDescriptor.set_position 0 d' = FileDescriptor.set_position 0 d.

(** The invariant of the reachable worlds. *)
Definition Inv (w : World.t) : Prop := tree_ok w /\ fds_ok (World.fds w).

(** What [Directory.remove] does to a list of children: the first
    occurrence of [e], if any, is spliced out. *)
Definition remove_first (e : ref) (l : list ref) : list ref :=
  match indexOf l e with
  | Some k => delete k l
  | None => l
  end.

(** [w1] is [w] after a constructor has allocated the entry [e] under the
    name [name]: one more Entry object, bound to a live inode, and the same
    children everywhere. *)
Definition allocated (w w1 : World.t) (e : ref) (name : string) : Prop :=
  e = length (World.heap_entries w) /\
  (exists x, World.heap_entries w1 = World.heap_entries w ++ [x] /\
             Entry.name x = name /\
             (Entry.inode x < length (World.heap_inodes w1))%nat) /\
  (forall j, dir_entries w1 j = dir_entries w j) /\
  (length (World.heap_inodes w) <= length (World.heap_inodes w1))%nat /\
  World.root w1 = World.root w /\
  World.fds w1 = World.fds w.

(** A method body keeps the tree invariant, whether it returns or throws. *)
Definition keeps_tree {A} (m : M A) : Prop :=
  forall w, tree_ok w -> wp m w (fun _ => tree_ok) (fun _ => tree_ok).

(** A method body leaves the descriptor table alone. *)
Definition fds_neutral {A} (m : M A) : Prop :=
  forall w, World.fds (snd (m w)) = World.fds w.

(** What a call may do to the descriptor table. *)
Definition fds_step (op : Op) (fds fds' : list (option FileDescriptor.t)) : Prop :=
  match op with
  | OpOpen _ _ _ =>
    fds' = fds \/
    exists d, fds' = fds ++ [Some d] /\ FileDescriptor.id d = Z.of_nat (length fds) + 20
  | OpClose fd =>
    match array_get fds (fd - 20) with
    | None => fds' = fds
    | Some _ => fds' = pop_trailing_nulls (<[Z.to_nat (fd - 20) := None]> fds)
    end
  | OpRead fd _ _ _ _ | OpWrite fd _ _ _ _ =>
    fds' = fds \/
    exists d d', array_get fds (fd - 20) = Some d /\ same_descriptor d d' /\
                 fds' = <[Z.to_nat (fd - 20) := Some d']> fds
  | _ => fds' = fds
  end.

(** [O_WRONLY | O_CREAT | O_EXCL] and [O_WRONLY] on Linux. *)
Definition O_WRONLY_O_CREAT_O_EXCL : Flag := FlagNumber (js_or (js_or 1 64) 128).
Definition O_WRONLY_only : Flag := FlagNumber 1.

(** The number whose bits [new FileDescriptor(flag, id)] reads: [flag]
    itself, or [constants.parse(c, flag)] for a string. *)
Definition flag_number (c : Constants) (flag : Flag) : Z :=
  match flag with
  | FlagString s => parse c s
  | FlagNumber n => n
  end.

(** [!!(n & bit)] and [n & c.O_ACCMODE] for the number of a flag. *)
Definition flag_has (c : Constants) (flag : Flag) (bit : Z) : bool :=
  truthy (js_and (flag_number c flag) bit).
Definition flag_access (c : Constants) (flag : Flag) : Z :=
  js_and (flag_number c flag) (O_ACCMODE c).

(** [O_WRONLY | O_EXCL] and [O_WRONLY | O_APPEND] on Linux. *)
Definition O_WRONLY_O_EXCL : Flag := FlagNumber (js_or 1 128).
Definition O_WRONLY_O_APPEND : Flag := FlagNumber (js_or 1 1024).

(** A run that binds, links, renames onto an existing name, renames a path
    onto itself and removes entries in one directory. *)
Definition tree_ops : list Op :=
  [ OpMkdir "/d" 0;
    OpOpen "/d/a" O_RDWR_O_CREAT 0;
    OpOpen "/d/b" O_RDWR_O_CREAT 0;
    OpLink "/d/a" "/d/c";
    OpRename "/d/a" "/d/b";
    OpRename "/d/b" "/d/b";
    OpMkdir "/d/e" 0;
    OpUnlink "/d/c";
    OpOpen "/d/c" O_RDWR_O_CREAT 0;
    OpRmdir "/d/e" ]%string.


(** A run that creates [/f] and makes it five bytes long. *)
Definition five_bytes_ops : list Op :=
  [ OpOpen "/f" O_RDWR_O_CREAT 0; OpFtruncate 20 5 ]%string.

(** The world [five_bytes_ops] leads to. *)
Definition world_five : World.t := snd (FileSystem_ftruncate 20 5 world_f).

(** An invariant of single worlds that a method body keeps, whether it
    returns or throws. *)
Definition preserves (I : World.t -> Prop) {A} (m : M A) : Prop :=
  forall w, I w -> I (snd (m w)).

(** Every block that a file has allocated is a whole block. *)
Definition files_ok (w : World.t) : Prop :=
  forall i, blocks_ok (Inode.blocks (get_inode w i)).

(** The number of bytes one iteration of the write loop advances by, when it
    starts [o] bytes into a block ([o] is negative for a negative offset:
    [blk.slice(o)] then counts from the end of the block). *)
Definition write_advance (o : Z) : Z := if o <? 0 then - o else BLOCK_SIZE - o.

(** The calls other than [read], and the number of loop iterations that is
    enough for a call (only [write] loops). *)
Definition is_read (op : Op) : bool :=
  match op with OpRead _ _ _ _ _ => true | _ => false end.
Definition write_fuel (op : Op) : nat :=
  match op with OpWrite _ buf _ _ _ => length buf | _ => 0%nat end.

(** The bytes of block 0 of a file, allocated or not. *)
Definition first_block (blocks : list (option Buffer)) : Buffer :=
  default (Buffer_alloc BLOCK_SIZE) (array_get blocks 0).

(** Every [Directory] object was constructed with [fs] set, so that the
    objects it creates draw their inode numbers from the counter. *)
Definition dirs_fs (w : World.t) : Prop :=
  forall e, Entry.cls (get_entry w e) = ClassDirectory -> Entry.fs (get_entry w e) = true.

(** The inode numbers in order of creation: [NaN] for the root, then 1, 2,
    and so on up to the counter [this.inodes]. *)
Definition numbers (n : nat) : list JsValue :=
  NaN :: ((fun k => Num (Z.of_nat k)) <$> seq 1 n).

Definition numbered (w : World.t) : Prop :=
  dirs_fs w /\
  exists n : nat,
    World.inodes w = Num (Z.of_nat n) /\
    Inode.ino <$> World.heap_inodes w = numbers n.

(** [numbered], in a method body that has found the entries [D] to be
    [Directory] objects. *)
Definition numbered_with (D : list ref) (w : World.t) : Prop :=
  numbered w /\ Forall (fun d => Entry.cls (get_entry w d) = ClassDirectory) D.

(** The heap holds at least [n] Entry objects. *)
Definition entries_at_least (n : nat) (w : World.t) : Prop :=
  (n <= length (World.heap_entries w))%nat.

(** Every open descriptor is bound to an Entry object of the heap. *)
Definition fds_bound (w : World.t) : Prop :=
  forall k d, World.fds w !! k = Some (Some d) ->
  exists f, FileDescriptor.file d = Some f /\ (f < length (World.heap_entries w))%nat.

(** A run that creates [/f], closes its descriptor and opens the file
    again with [O_RDONLY], and the world it leads to: descriptor 20 is
    readable and not writable. *)
Definition read_only_ops : list Op :=
  [ OpOpen "/f" O_RDWR_O_CREAT 0; OpClose 20; OpOpen "/f" (FlagNumber 0) 0 ]%string.

Definition world_ro : World.t :=
  snd (FileSystem_open linux0 "/f" (FlagNumber 0) 0 (snd (FileSystem_close 20 world_f))).

(** The characters of a string. *)
Fixpoint chars (s : string) : list Ascii.ascii :=
  match s with
  | EmptyString => []
  | String ch rest => ch :: chars rest
  end.

(** A name that can be a component of a path: not empty, and without the
    separator. *)
Definition valid_name (s : string) : Prop :=
  s <> ""%string /\ ~ In "/"%char (chars s).

(** A path without a component: nothing but separators. *)
Definition only_slashes (path : string) : Prop :=
  forall ch, In ch (chars path) -> ch = "/"%char.

(** Two worlds with the same tree: the entries have the same classes, names
    and inodes, and the inodes the same types and children. *)
Definition same_tree (w w' : World.t) : Prop :=
  World.root w' = World.root w /\
  (forall x, Entry.cls (get_entry w' x) = Entry.cls (get_entry w x) /\
             Entry.name (get_entry w' x) = Entry.name (get_entry w x) /\
             Entry.inode (get_entry w' x) = Entry.inode (get_entry w x)) /\
  (forall i, Inode.entries (get_inode w' i) = Inode.entries (get_inode w i)) /\
  (forall i, Inode.mode (get_inode w' i) = Inode.mode (get_inode w i)).

(** The names of a [Map] of attributes, in its order. *)
Definition Map_keys (m : list (string * Buffer)) : list string := fst <$> m.

(** No Entry lists the name of an attribute twice. *)
Definition attrs_ok (w : World.t) : Prop :=
  forall e, NoDup (Map_keys (Entry.attributes (get_entry w e))).

(** The run that leads to [world_xy]. *)
Definition link_ops : list Op :=
  [ OpOpen "/x" O_RDWR_O_CREAT 0; OpLink "/x" "/y" ]%string.

(** Every step of a path resolution in [w] is a step in [w']: a directory
    that yields a child for a name still is a directory and still yields
    that child. *)
Definition steps_kept (c : Constants) (w w' : World.t) : Prop :=
  forall cur p next,
    Entry_isDirectory c w cur = true ->
    Entry.cls (get_entry w cur) = ClassDirectory ->
    Directory_get w cur p = Some next ->
    Entry_isDirectory c w' cur = true /\
    Entry.cls (get_entry w' cur) = ClassDirectory /\
    Directory_get w' cur p = Some next.

(** The type bit [chmod] keeps. *)
Definition chmod_mask (c : Constants) (w : World.t) (e : ref) : Z :=
  if Entry_isDirectory c w e then S_IFDIR c
  else if Entry_isFile c w e then S_IFREG c
  else 0.

(** ** Calls that fail cleanly *)

(** A method body that leaves the world as it is, one that always returns,
    and one that leaves the world as it is whenever it throws. *)
Definition reads_only {A} (m : M A) : Prop := forall w, snd (m w) = w.
Definition never_throws {A} (m : M A) : Prop := forall w, exists a, fst (m w) = Return a.
Definition throws_cleanly {A} (m : M A) : Prop :=
  forall w w' e, m w = (Throw e, w') -> w' = w.

(** The calls that cannot take a name away: all but [open] (which resets
    the entry it finds), [rmdir], [unlink] and [rename]. *)
Definition keeps_names (op : Op) : bool :=
  match op with
  | OpOpen _ _ _ | OpRmdir _ | OpUnlink _ | OpRename _ _ => false
  | _ => true
  end.

(** ** Modes and classes *)

(** The mode its constructor gives an entry of class [k]. *)
Definition class_mode (c : Constants) (k : Class) : Z :=
  match k with
  | ClassDirectory => js_or (js_or (js_or 0 365) 219) (S_IFDIR c)
  | ClassFile => js_or (js_or (js_or 0 292) 146) (S_IFREG c)
  end.

(** Every entry has the mode of its class. *)
Definition modes_fixed (c : Constants) (w : World.t) : Prop :=
  forall e, (e < length (World.heap_entries w))%nat ->
    (entry_inode w e < length (World.heap_inodes w))%nat /\
    Inode.mode (inode_of w e) = class_mode c (Entry.cls (get_entry w e)).

(** The first [n] entries have the classes [k] gives them. *)
Definition classes_kept (n : nat) (k : ref -> Class) (w : World.t) : Prop :=
  (n <= length (World.heap_entries w))%nat /\
  forall x, (x < n)%nat -> Entry.cls (get_entry w x) = k x.

(** Every open descriptor is bound to a live entry of class [File]. *)
Definition fds_files (w : World.t) : Prop :=
  forall k d, World.fds w !! k = Some (Some d) ->
  exists f, FileDescriptor.file d = Some f /\
            (f < length (World.heap_entries w))%nat /\
            Entry.cls (get_entry w f) = ClassFile.

Definition is_chmod (op : Op) : bool :=
  match op with OpChmod _ _ => true | _ => false end.

(** The method of [FileSystem] that a FUSE call runs; [statfs] runs none. *)
Definition call_ops (c : Constants) (call : Call) : list Op :=
  match call with
  | CallStatfs _ => []
  | CallGetxattr path name _ => [OpGetxattr path name]
  | CallSetxattr path name value _ _ => [OpSetxattr path name value]
  | CallRemovexattr path name => [OpRemovexattr path name]
  | CallListxattr path => [OpListxattr path]
  | CallReaddir path => [OpReaddir path]
  | CallGetattr path => [OpStat path]
  | CallFgetattr _ fd => [OpFstat fd]
  | CallTruncate path size => [OpTruncate path size]
  | CallFtruncate _ fd size => [OpFtruncate fd size]
  | CallLink from to => [OpLink from to]
  | CallRename from to => [OpRename from to]
  | CallCreate path _ => [OpOpen path (FlagNumber (js_or (O_RDWR c) (O_CREAT c))) 0]
  | CallUnlink path => [OpUnlink path]
  | CallOpen path flags => [OpOpen path flags 0]
  | CallRelease _ fd => [OpClose fd]
  | CallRead _ fd buf len pos => [OpRead fd buf (Some 0) (Some len) (Some pos)]
  | CallWrite _ fd buf len pos => [OpWrite fd buf (Some 0) (Some len) (Some pos)]
  | CallMkdir path mode => [OpMkdir path mode]
  end.

(** * Properties *)

(** ** Buffers and slices *)

Lemma adjustOffset_range (offset len : Z) :
  0 <= len -> 0 <= adjustOffset offset len <= len.
Proof. unfold adjustOffset. destruct (Z.ltb_spec offset 0); lia. Qed.

Lemma js_slice_length {A} (l : list A) (first last : Z) :
  Z.of_nat (length (js_slice l first last)) =
  Z.max 0 (adjustOffset last (Z.of_nat (length l)) - adjustOffset first (Z.of_nat (length l))).
Proof.
  unfold js_slice. rewrite length_take, length_drop.
  pose proof (adjustOffset_range first (Z.of_nat (length l))).
  pose proof (adjustOffset_range last (Z.of_nat (length l))).
  lia.
Qed.

Lemma Buffer_length_alloc (n : Z) : 0 <= n -> Buffer_length (Buffer_alloc n) = n.
Proof. intros. unfold Buffer_length, Buffer_alloc. rewrite length_replicate. lia. Qed.

Lemma Buffer_copy_length (src target : Buffer) :
  length (Buffer_copy src target) = length target.
Proof. unfold Buffer_copy. rewrite length_app, length_take, length_drop. lia. Qed.

Lemma Buffer_copy_at_length (src target : Buffer) (pos : Z) :
  Buffer_length (Buffer_copy_at src target pos) = Buffer_length target.
Proof.
  unfold Buffer_copy_at, Buffer_length.
  rewrite length_app, Buffer_copy_length, length_take, length_drop. lia.
Qed.

Lemma BLOCK_SIZE_pos : 0 < BLOCK_SIZE.
Proof. reflexivity. Qed.

(** ** The read loop, one iteration at a time *)

Lemma read_loop_step (fuel : nat) (size : Z) (blocks : list (option Buffer))
    (i o start offset : Z) (buffer : Buffer) :
  blocks_ok blocks ->
  start < Buffer_length buffer -> offset < size ->
  exists buffer',
    Buffer_length buffer' = Buffer_length buffer /\
    read_loop (S fuel) size blocks i o start offset buffer =
    read_loop fuel size blocks (i + 1) 0
      (start + read_chunk size i o) (offset + read_chunk size i o) buffer'.
Proof.
  intros Hok Hs Ho.
  cbn [read_loop].
  destruct (Z.ltb_spec start (Buffer_length buffer)); [|lia].
  destruct (Z.ltb_spec offset size); [|lia].
  cbn [andb].
  set (blk0 := default (Buffer_alloc BLOCK_SIZE) (array_get blocks i)).
  assert (Hlen0 : Buffer_length blk0 = BLOCK_SIZE).
  { unfold blk0. destruct (array_get blocks i) eqn:E; cbn [default].
    - eapply Hok; eauto.
    - apply Buffer_length_alloc. pose proof BLOCK_SIZE_pos; lia. }
  set (blk1 := if (i + 1) * BLOCK_SIZE + Buffer_length blk0 >? size
               then Buffer_slice blk0 0 (size - (i + 1) * BLOCK_SIZE) else blk0).
  set (blk2 := if o =? 0 then blk1 else Buffer_slice_from blk1 o).
  assert (Hlen2 : Buffer_length blk2 = read_chunk size i o).
  { unfold read_chunk.
    assert (Hlen1 : Buffer_length blk1 =
      if (i + 1) * BLOCK_SIZE + BLOCK_SIZE >? size
      then Z.max 0 (adjustOffset (size - (i + 1) * BLOCK_SIZE) BLOCK_SIZE)
      else BLOCK_SIZE).
    { unfold blk1. rewrite Hlen0.
      destruct ((i + 1) * BLOCK_SIZE + BLOCK_SIZE >? size); [|exact Hlen0].
      unfold Buffer_slice, Buffer_length at 1. rewrite js_slice_length.
      fold (Buffer_length blk0). rewrite Hlen0.
      pose proof BLOCK_SIZE_pos.
      replace (adjustOffset 0 BLOCK_SIZE) with 0
        by (unfold adjustOffset; cbn [Z.ltb Z.compare]; lia).
      lia. }
    unfold blk2. rewrite <- Hlen1.
    destruct (o =? 0); [reflexivity|].
    unfold Buffer_slice_from, Buffer_length at 1. rewrite js_slice_length.
    fold (Buffer_length blk1).
    assert (0 <= Buffer_length blk1) by (unfold Buffer_length; lia).
    replace (adjustOffset (Buffer_length blk1) (Buffer_length blk1))
      with (Buffer_length blk1)
      by (unfold adjustOffset; destruct (Z.ltb_spec (Buffer_length blk1) 0); lia).
    reflexivity. }
  rewrite Hlen2.
  exists (Buffer_copy_at blk2 buffer start). split; [apply Buffer_copy_at_length|reflexivity].
Qed.

Lemma read_chunk_stuck (size i o : Z) :
  0 <= i -> size <= i * BLOCK_SIZE \/ size = (i + 1) * BLOCK_SIZE ->
  read_chunk size i o = 0.
Proof.
  intros Hi Hsz. unfold read_chunk, adjustOffset. unfold BLOCK_SIZE in *.
  destruct (Z.gtb_spec ((i + 1) * (1024 * 1024) + 1024 * 1024) size); [|lia].
  destruct (Z.ltb_spec (size - (i + 1) * (1024 * 1024)) 0);
    destruct (Z.eqb_spec o 0); 
    repeat match goal with
           | |- context [?a <? ?b] => destruct (Z.ltb_spec a b)
           end; lia.
Qed.

Lemma read_chunk_full (size i : Z) :
  (i + 2) * BLOCK_SIZE <= size -> read_chunk size i 0 = BLOCK_SIZE.
Proof.
  intros Hsz. unfold read_chunk. unfold BLOCK_SIZE in *.
  destruct (Z.gtb_spec ((i + 1) * (1024 * 1024) + 1024 * 1024) size); [lia|].
  reflexivity.
Qed.

(** Once the loop has reached a block at or past the last one of a file
    whose size is a multiple of the block size, or any block past the end,
    it takes nothing from it and from the ones after it: it never leaves. *)
Lemma read_loop_stuck (fuel : nat) :
  forall size blocks i o start offset buffer,
  blocks_ok blocks -> 0 <= i ->
  size <= i * BLOCK_SIZE \/ size = (i + 1) * BLOCK_SIZE ->
  start < Buffer_length buffer -> offset < size ->
  read_loop fuel size blocks i o start offset buffer = None.
Proof.
  induction fuel as [|fuel IH]; intros size blocks i o start offset buffer Hok Hi Hsz Hs Ho.
  - cbn [read_loop].
    destruct (Z.ltb_spec start (Buffer_length buffer)); [|lia].
    destruct (Z.ltb_spec offset size); [|lia]. reflexivity.
  - destruct (read_loop_step fuel size blocks i o start offset buffer Hok Hs Ho)
      as (buffer' & Hlen & ->).
    rewrite (read_chunk_stuck size i o Hi Hsz), !Z.add_0_r.
    apply IH; try assumption; try lia.
    left. unfold BLOCK_SIZE in *. lia.
Qed.

(** Reading a file of [(m + 1) * BLOCK_SIZE] bytes: whole blocks are taken
    up to block [m], where the loop gets stuck. *)
Lemma read_loop_multiple (m : Z) (fuel : nat) :
  forall size blocks i start offset buffer,
  blocks_ok blocks -> 0 <= i <= m ->
  size = (m + 1) * BLOCK_SIZE ->
  start + (m - i) * BLOCK_SIZE < Buffer_length buffer ->
  offset + (m - i) * BLOCK_SIZE < size ->
  read_loop fuel size blocks i 0 start offset buffer = None.
Proof.
  induction fuel as [|fuel IH]; intros size blocks i start offset buffer Hok Hi Hsz Hs Ho.
  - cbn [read_loop].
    destruct (Z.ltb_spec start (Buffer_length buffer)); [|unfold BLOCK_SIZE in *; lia].
    destruct (Z.ltb_spec offset size); [|unfold BLOCK_SIZE in *; lia]. reflexivity.
  - destruct (Z.eq_dec i m) as [->|Hne].
    + apply read_loop_stuck; try assumption; try lia.
    + assert (Hs' : start < Buffer_length buffer) by (unfold BLOCK_SIZE in *; lia).
      assert (Ho' : offset < size) by (unfold BLOCK_SIZE in *; lia).
      destruct (read_loop_step fuel size blocks i 0 start offset buffer Hok Hs' Ho')
        as (buffer' & Hlen & ->).
      rewrite read_chunk_full by (unfold BLOCK_SIZE in *; lia).
      apply IH; try assumption; unfold BLOCK_SIZE in *; lia.
Qed.

(** ** Arrays with holes *)

Lemma array_get_set_eq {A} (arr : list (option A)) (i : Z) (v : A) :
  0 <= i -> array_get (array_set arr i v) i = Some v.
Proof.
  intros Hi. unfold array_get, array_set.
  destruct (Z.ltb_spec i 0); [lia|].
  destruct (Z.ltb_spec i (Z.of_nat (length arr))).
  - rewrite list_lookup_insert_eq by lia. reflexivity.
  - rewrite lookup_app_r by lia.
    rewrite lookup_app_r by (rewrite length_replicate; lia).
    rewrite length_replicate.
    replace (Z.to_nat i - length arr - (Z.to_nat i - length arr))%nat with 0%nat by lia.
    reflexivity.
Qed.

Lemma array_get_set_ne {A} (arr : list (option A)) (i j : Z) (v : A) :
  i <> j -> array_get (array_set arr i v) j = array_get arr j.
Proof.
  intros Hne. unfold array_get, array_set.
  destruct (Z.ltb_spec j 0); [reflexivity|].
  destruct (Z.ltb_spec i 0); [reflexivity|].
  destruct (Z.ltb_spec i (Z.of_nat (length arr))).
  - rewrite list_lookup_insert_ne by lia. reflexivity.
  - destruct (decide (Z.to_nat j < length arr)%nat).
    + rewrite lookup_app_l by lia. reflexivity.
    + rewrite lookup_app_r by lia.
      rewrite (lookup_ge_None_2 arr) by lia.
      destruct (decide (Z.to_nat j - length arr < Z.to_nat i - length arr)%nat).
      * rewrite lookup_app_l by (rewrite length_replicate; lia).
        rewrite lookup_replicate_2 by lia. reflexivity.
      * rewrite lookup_app_r by (rewrite length_replicate; lia).
        rewrite length_replicate.
        rewrite lookup_ge_None_2; [reflexivity|]. cbn [length]. lia.
Qed.

Lemma blocks_ok_set (blocks : list (option Buffer)) (i : Z) (b : Buffer) :
  blocks_ok blocks -> Buffer_length b = BLOCK_SIZE -> blocks_ok (array_set blocks i b).
Proof.
  intros Hok Hb j x Hj.
  destruct (Z.eq_dec i j) as [->|Hne].
  - destruct (Z.ltb_spec j 0).
    + unfold array_get in Hj. destruct (Z.ltb_spec j 0); [discriminate|lia].
    + rewrite array_get_set_eq in Hj by lia. congruence.
  - rewrite array_get_set_ne in Hj by assumption. eauto.
Qed.

Lemma blocks_ok_nil : blocks_ok [].
Proof.
  intros i b. unfold array_get. destruct (i <? 0); [discriminate|].
  rewrite lookup_nil. discriminate.
Qed.

(** ** The write loop, one iteration at a time *)

Lemma blocks_ok_default (blocks : list (option Buffer)) (i : Z) :
  blocks_ok blocks ->
  Buffer_length (default (Buffer_alloc BLOCK_SIZE) (array_get blocks i)) = BLOCK_SIZE.
Proof.
  intros Hok. destruct (array_get blocks i) eqn:E; cbn [default].
  - eapply Hok; eauto.
  - apply Buffer_length_alloc. pose proof BLOCK_SIZE_pos. lia.
Qed.

Lemma blocks_ok_ensure (blocks : list (option Buffer)) (i : Z) :
  blocks_ok blocks ->
  blocks_ok match array_get blocks i with
            | Some _ => blocks
            | None => array_set blocks i (Buffer_alloc BLOCK_SIZE)
            end.
Proof.
  intros Hok. destruct (array_get blocks i); [assumption|].
  apply blocks_ok_set; [assumption|].
  apply Buffer_length_alloc. pose proof BLOCK_SIZE_pos. lia.
Qed.

Lemma write_block_ok (blocks : list (option Buffer)) (i o start : Z) (buffer : Buffer) :
  blocks_ok blocks -> blocks_ok (write_block blocks i o start buffer).
Proof.
  intros Hok. unfold write_block.
  apply blocks_ok_set; [apply blocks_ok_ensure; assumption|].
  rewrite Buffer_copy_at_length.
  apply blocks_ok_default, blocks_ok_ensure; assumption.
Qed.

Lemma write_loop_step (fuel : nat) (size : Z) (blocks : list (option Buffer))
    (i o start offset : Z) (buffer : Buffer) :
  blocks_ok blocks -> 0 <= o < BLOCK_SIZE ->
  start < Buffer_length buffer -> offset < size ->
  write_loop (S fuel) size blocks i o start offset buffer =
  write_loop fuel size (write_block blocks i o start buffer) (i + 1) 0
    (start + (BLOCK_SIZE - o)) (offset + (BLOCK_SIZE - o)) buffer.
Proof.
  intros Hok Hor Hs Ho.
  cbn [write_loop].
  destruct (Z.ltb_spec start (Buffer_length buffer)); [|lia].
  destruct (Z.ltb_spec offset size); [|lia].
  cbn [andb]. fold (write_block blocks i o start buffer).
  set (blocks1 := match array_get blocks i with
                  | Some _ => blocks
                  | None => array_set blocks i (Buffer_alloc BLOCK_SIZE)
                  end).
  set (stored := default (Buffer_alloc BLOCK_SIZE) (array_get blocks1 i)).
  assert (Hstored : Buffer_length stored = BLOCK_SIZE)
    by (apply blocks_ok_default, blocks_ok_ensure; assumption).
  assert (Hblk : Buffer_length (if o =? 0 then stored else Buffer_slice_from stored o)
                 = BLOCK_SIZE - o).
  { destruct (Z.eqb_spec o 0); [lia|].
    unfold Buffer_slice_from, Buffer_length at 1. rewrite js_slice_length.
    fold (Buffer_length stored). rewrite Hstored.
    unfold adjustOffset.
    destruct (Z.ltb_spec BLOCK_SIZE 0); destruct (Z.ltb_spec o 0); lia. }
  rewrite Hblk. reflexivity.
Qed.

(** ** The heap *)

Lemma get_inode_update_eq (w : World.t) (r : ref) (g : Inode.t -> Inode.t) :
  (r < length (World.heap_inodes w))%nat ->
  get_inode (update_inode r g w) r = g (get_inode w r).
Proof. intros. unfold get_inode, update_inode. cbn. apply list_lookup_total_alter_eq. assumption. Qed.

Lemma get_inode_update_ne (w : World.t) (r r' : ref) (g : Inode.t -> Inode.t) :
  r <> r' -> get_inode (update_inode r g w) r' = get_inode w r'.
Proof. intros. unfold get_inode, update_inode. cbn. apply list_lookup_total_alter_ne. assumption. Qed.

Lemma get_entry_update_inode (w : World.t) (r : ref) (g : Inode.t -> Inode.t) (e : ref) :
  get_entry (update_inode r g w) e = get_entry w e.
Proof. reflexivity. Qed.

(** ** [File.read] gets stuck *)

Lemma read_loop_zero_fuel (size : Z) (blocks : list (option Buffer))
    (i o start offset : Z) (buffer : Buffer) :
  start < Buffer_length buffer -> offset < size ->
  read_loop 0 size blocks i o start offset buffer = None.
Proof.
  intros. cbn [read_loop].
  destruct (Z.ltb_spec start (Buffer_length buffer)); [|lia].
  destruct (Z.ltb_spec offset size); [|lia]. reflexivity.
Qed.

(** If the loop never ends from the state one iteration leads to, it never
    ends from the state before it. *)
Lemma read_loop_never_after_step (size : Z) (blocks : list (option Buffer))
    (i o start offset : Z) (buffer : Buffer) :
  blocks_ok blocks ->
  start < Buffer_length buffer -> offset < size ->
  (forall fuel buffer', Buffer_length buffer' = Buffer_length buffer ->
     read_loop fuel size blocks (i + 1) 0
       (start + read_chunk size i o) (offset + read_chunk size i o) buffer' = None) ->
  forall fuel, read_loop fuel size blocks i o start offset buffer = None.
Proof.
  intros Hok Hs Ho Hnext [|fuel].
  - apply read_loop_zero_fuel; assumption.
  - destruct (read_loop_step fuel size blocks i o start offset buffer Hok Hs Ho)
      as (buffer' & Hlen & ->).
    apply Hnext, Hlen.
Qed.

Lemma File_read_never (w : World.t) (f : ref) (offset : Z) (buffer : Buffer) :
  (forall fuel,
     read_loop fuel (Inode.size (inode_of w f)) (Inode.blocks (inode_of w f))
       (offset / BLOCK_SIZE) (Z.rem offset BLOCK_SIZE) 0 offset buffer = None) ->
  forall fuel, File_read fuel f offset buffer w = None.
Proof. intros H fuel. unfold File_read. rewrite H. reflexivity. Qed.

Lemma write_loop_done (fuel : nat) (size : Z) (blocks : list (option Buffer))
    (i o start offset : Z) (buffer : Buffer) :
  Buffer_length buffer <= start \/ size <= offset ->
  write_loop fuel size blocks i o start offset buffer = Some (start, blocks).
Proof.
  intros H.
  assert ((start <? Buffer_length buffer) && (offset <? size) = false) as Hc.
  { destruct (Z.ltb_spec start (Buffer_length buffer));
      destruct (Z.ltb_spec offset size); cbn [andb]; try reflexivity; lia. }
  destruct fuel; cbn [write_loop]; rewrite Hc; reflexivity.
Qed.

(** A non-empty write that stays inside one block takes one iteration. *)
Lemma File_write_one_block (fuel : nat) (w : World.t) (f : ref) (offset : Z)
    (buffer : Buffer) :
  blocks_ok (Inode.blocks (inode_of w f)) ->
  0 <= offset -> 0 < Buffer_length buffer ->
  Z.rem offset BLOCK_SIZE + Buffer_length buffer <= BLOCK_SIZE ->
  File_write (S fuel) f offset buffer w =
  Some (Buffer_length buffer,
        update_inode (Entry.inode (get_entry w f))
          (fun n => Inode.set_mtime (World.clock w)
             (Inode.set_blocks
                (write_block (Inode.blocks (inode_of w f)) (offset / BLOCK_SIZE)
                   (Z.rem offset BLOCK_SIZE) 0 buffer)
                (Inode.set_size (Z.max (offset + Buffer_length buffer)
                                   (Inode.size (inode_of w f))) n))) w).
Proof.
  intros Hok Hoff Hlen Hfit. unfold File_write.
  pose proof BLOCK_SIZE_pos as Hpos.
  pose proof (Z.rem_bound_pos offset BLOCK_SIZE Hoff Hpos) as Hrem.
  set (size := if offset + Buffer_length buffer >? Inode.size (inode_of w f)
               then offset + Buffer_length buffer else Inode.size (inode_of w f)).
  assert (Hsize : size = Z.max (offset + Buffer_length buffer) (Inode.size (inode_of w f))).
  { unfold size. destruct (Z.gtb_spec (offset + Buffer_length buffer) (Inode.size (inode_of w f))); lia. }
  rewrite write_loop_step; try assumption; try lia.
  rewrite write_loop_done by lia.
  rewrite Hsize.
  replace (Z.min (Buffer_length buffer) (0 + (BLOCK_SIZE - Z.rem offset BLOCK_SIZE)))
    with (Buffer_length buffer) by lia.
  reflexivity.
Qed.

Lemma inode_of_update_eq (w : World.t) (e : ref) (g : Inode.t -> Inode.t) :
  (Entry.inode (get_entry w e) < length (World.heap_inodes w))%nat ->
  inode_of (update_inode (Entry.inode (get_entry w e)) g w) e = g (inode_of w e).
Proof. intros. unfold inode_of. rewrite get_entry_update_inode. apply get_inode_update_eq. assumption. Qed.

Lemma reachable_world_f : reachable linux0 world_f.
Proof.
  eapply reachable_step with (op := OpOpen "/f" O_RDWR_O_CREAT 0) (fuel := 0%nat).
  - apply reachable_new.
  - vm_compute. reflexivity.
Qed.


Lemma FileSystem_read_never (fd : Z) (buf : Buffer) (offset length position : option Z)
    (w : World.t) (k : nat) (d : FileDescriptor.t) (f : ref) :
  FileSystem_lookupFd fd w = (Return (k, d), w) ->
  FileDescriptor.file d = Some f ->
  Entry.cls (get_entry w f) = ClassFile ->
  (forall fuel,
     read_loop fuel (Inode.size (inode_of w f)) (Inode.blocks (inode_of w f))
       (default (FileDescriptor.position d) position / BLOCK_SIZE)
       (Z.rem (default (FileDescriptor.position d) position) BLOCK_SIZE) 0
       (default (FileDescriptor.position d) position)
       (Buffer_slice buf (default 0 offset)
          (default 0 offset + default (Buffer_length buf) length)) = None) ->
  forall fuel, FileSystem_read fuel fd buf offset length position w = None.
Proof.
  intros Hfd Hfile Hcls Hloop fuel.
  unfold FileSystem_read. rewrite Hfd.
  unfold FileDescriptor_read, FileDescriptor_file.
  assert (Hfile' : FileDescriptor.file
            match position with
            | Some p => FileDescriptor.set_position p d
            | None => d
            end = Some f) by (destruct position; assumption).
  rewrite Hfile'. unfold bind, method_of, ret.
  change (get_entry (update_fd k _ w) f) with (get_entry w f).
  rewrite Hcls. cbn [Class_eqb].
  unfold File_read.
  change (inode_of (update_fd k _ w) f) with (inode_of w f).
  replace (FileDescriptor.position
             match position with
             | Some p => FileDescriptor.set_position p d
             | None => d
             end) with (default (FileDescriptor.position d) position)
    by (destruct position; reflexivity).
  rewrite Hloop. reflexivity.
Qed.

(** Reading a whole file whose size is a multiple of the block size never
    returns. *)
Lemma File_read_block_multiple_never (w : World.t) (f : ref) (m : Z) (buffer : Buffer) :
  blocks_ok (Inode.blocks (inode_of w f)) ->
  0 <= m ->
  Inode.size (inode_of w f) = (m + 1) * BLOCK_SIZE ->
  m * BLOCK_SIZE < Buffer_length buffer ->
  forall fuel, File_read fuel f 0 buffer w = None.
Proof.
  intros Hok Hm Hsize Hlen. apply File_read_never. intros fuel.
  change (0 / BLOCK_SIZE) with 0. change (Z.rem 0 BLOCK_SIZE) with 0.
  apply (read_loop_multiple m); try assumption; unfold BLOCK_SIZE in *; lia.
Qed.

Lemma FileSystem_lookup_pure (c : Constants) (path : string) (w : World.t) :
  snd (FileSystem_lookup c path w) = w.
Proof. reflexivity. Qed.

(** Whatever the platform and the time of creation, the root inode's number
    is [NaN]. *)
Lemma root_ino_NaN (c : Constants) (t : Time) :
  Inode.ino (inode_of (FileSystem_new c t) (World.root (FileSystem_new c t))) = NaN.
Proof. vm_compute. reflexivity. Qed.

(** ** Methods that never throw *)

Lemma bind_returns {A B} (m : M A) (k : A -> M B) (w : World.t) (a : A) :
  fst (m w) = Return a -> bind m k w = k a (snd (m w)).
Proof. unfold bind. destruct (m w) as [o w1]. cbn. intros ->. reflexivity. Qed.

Lemma bind_throws {A B} (m : M A) (k : A -> M B) (w : World.t) (e : Error) :
  fst (m w) = Throw e -> bind m k w = (Throw e, snd (m w)).
Proof. unfold bind. destruct (m w) as [o w1]. cbn. intros ->. reflexivity. Qed.

Lemma FileSystem_parentDir_pure (c : Constants) (path : string) (w : World.t) :
  snd (FileSystem_parentDir c path w) = w.
Proof.
  unfold FileSystem_parentDir. destruct (last (split path)); [|reflexivity].
  unfold bind, FileSystem_lookup_parts, lift, gets, throw_if, ret, throw.
  destruct (lookup_from c w (World.root w) _); [|reflexivity].
  destruct (negb _); reflexivity.
Qed.

Lemma Inode_new_returns (fs : bool) (mode : Z) (w : World.t) :
  fst (Inode_new fs mode w) = Return (length (World.heap_inodes w)).
Proof. destruct fs; reflexivity. Qed.

Lemma Entry_new_returns (k : Class) (mode : Z) (fs : bool) (name : string)
    (inode : option ref) (w : World.t) :
  exists r, fst (Entry_new k mode fs name inode w) = Return r.
Proof.
  unfold Entry_new.
  destruct inode as [i|]; [eexists; reflexivity|].
  rewrite (bind_returns _ _ _ _ (Inode_new_returns fs mode w)).
  eexists; reflexivity.
Qed.

Lemma Directory_push_returns (d e : ref) (w : World.t) :
  fst (Directory_push d e w) = Return e.
Proof. reflexivity. Qed.

Lemma Directory_create_returns (c : Constants) (d : ref) (name : string) (mode : Z) (w : World.t) :
  exists r, fst (Directory_create c d name mode w) = Return r.
Proof.
  unfold Directory_create, bind at 1, gets. cbn [id].
  destruct (Directory_get w d name); [eexists; reflexivity|].
  unfold File_new.
  destruct (Entry_new_returns ClassFile (js_or (js_or (js_or 0 292) 146) (S_IFREG c))
              (Entry.fs (get_entry w d)) name None w) as [r Hr].
  rewrite (bind_returns _ _ _ _ Hr). eexists. apply Directory_push_returns.
Qed.

(** ** Rules for [wp] *)

Lemma wp_ret {A} (a : A) (w : World.t) (Q : A -> World.t -> Prop) E :
  Q a w -> wp (ret a) w Q E.
Proof. exact (fun H => H). Qed.

Lemma wp_throw {A} (e : Error) (w : World.t) (Q : A -> World.t -> Prop)
    (E : Error -> World.t -> Prop) :
  E e w -> wp (throw e) w Q E.
Proof. exact (fun H => H). Qed.

Lemma wp_bind {A B} (m : M A) (k : A -> M B) (w : World.t)
    (Q : B -> World.t -> Prop) E :
  wp m w (fun a w' => wp (k a) w' Q E) E -> wp (bind m k) w Q E.
Proof. unfold wp, bind. destruct (m w) as [[a|e] w']; exact (fun H => H). Qed.

Lemma wp_gets {A} (f : World.t -> A) (w : World.t) (Q : A -> World.t -> Prop) E :
  Q (f w) w -> wp (gets f) w Q E.
Proof. exact (fun H => H). Qed.

Lemma wp_now (w : World.t) (Q : Time -> World.t -> Prop) E :
  Q (World.clock w) w -> wp now w Q E.
Proof. exact (fun H => H). Qed.

Lemma wp_modify (f : World.t -> World.t) (w : World.t) (Q : unit -> World.t -> Prop) E :
  Q tt (f w) -> wp (modify f) w Q E.
Proof. exact (fun H => H). Qed.

Lemma wp_lift {A} (f : World.t -> Outcome A) (w : World.t) (Q : A -> World.t -> Prop)
    (E : Error -> World.t -> Prop) :
  (forall a, f w = Return a -> Q a w) -> (forall e, f w = Throw e -> E e w) ->
  wp (lift f) w Q E.
Proof. unfold wp, lift. destruct (f w); auto. Qed.

Lemma wp_throw_if (b : bool) (e : Error) (w : World.t) (Q : unit -> World.t -> Prop)
    (E : Error -> World.t -> Prop) :
  (b = true -> E e w) -> (b = false -> Q tt w) -> wp (throw_if b e) w Q E.
Proof. unfold wp, throw_if. destruct b; cbn; auto. Qed.

Lemma wp_method_of (k : Class) (x : ref) (w : World.t) (Q : unit -> World.t -> Prop)
    (E : Error -> World.t -> Prop) :
  E TypeError w -> (Entry.cls (get_entry w x) = k -> Q tt w) ->
  wp (method_of k x) w Q E.
Proof.
  unfold wp, method_of. intros HE HQ.
  destruct (Entry.cls (get_entry w x)), k; cbn; auto.
Qed.

Lemma wp_mono {A} (m : M A) (w : World.t) (Q Q' : A -> World.t -> Prop)
    (E E' : Error -> World.t -> Prop) :
  wp m w Q E -> (forall a w', Q a w' -> Q' a w') -> (forall e w', E e w' -> E' e w') ->
  wp m w Q' E'.
Proof. unfold wp. destruct (m w) as [[a|e] w']; auto. Qed.

Lemma wp_snd {A} (m : M A) (w : World.t) (P : World.t -> Prop) :
  wp m w (fun _ => P) (fun _ => P) -> P (snd (m w)).
Proof. unfold wp. destruct (m w) as [[a|e] w']; exact (fun H => H). Qed.

(** ** Updates of the heap, seen from the tree *)

Lemma dir_entries_update_ne (r : ref) (g : Inode.t -> Inode.t) (w : World.t) (i : ref) :
  i <> r -> dir_entries (update_inode r g w) i = dir_entries w i.
Proof. intros. unfold dir_entries. rewrite get_inode_update_ne by congruence. reflexivity. Qed.

Lemma dir_entries_update_eq (r : ref) (g : Inode.t -> Inode.t) (w : World.t) :
  (r < length (World.heap_inodes w))%nat ->
  dir_entries (update_inode r g w) r = Inode.entries (g (get_inode w r)).
Proof. intros. unfold dir_entries. rewrite get_inode_update_eq by assumption. reflexivity. Qed.

Lemma get_inode_update_ge (r : ref) (g : Inode.t -> Inode.t) (w : World.t) (i : ref) :
  (length (World.heap_inodes w) <= r)%nat ->
  get_inode (update_inode r g w) i = get_inode w i.
Proof.
  intros. unfold get_inode, update_inode. cbn.
  rewrite !list_lookup_total_alt, list_lookup_alter.
  case_decide; [|reflexivity].
  subst. rewrite lookup_ge_None_2 by assumption. reflexivity.
Qed.

(** An update that replaces the children of an inode by some of them. *)
Lemma dir_entries_update_sublist (r : ref) (g : Inode.t -> Inode.t) (w : World.t) :
  (forall x, Inode.entries (g x) `sublist_of` Inode.entries x) ->
  forall i, dir_entries (update_inode r g w) i `sublist_of` dir_entries w i.
Proof.
  intros Hg i.
  destruct (decide (i = r)) as [->|Hne].
  - destruct (decide (r < length (World.heap_inodes w))%nat).
    + rewrite dir_entries_update_eq by assumption. apply Hg.
    + unfold dir_entries. rewrite get_inode_update_ge by lia. reflexivity.
  - rewrite dir_entries_update_ne by assumption. reflexivity.
Qed.

(** The tree invariant survives every change that leaves the objects in
    place, makes no list of children longer and keeps the names of the
    children. *)
Lemma tree_ok_shrink (w w' : World.t) :
  tree_ok w ->
  (length (World.heap_entries w) <= length (World.heap_entries w'))%nat ->
  (forall e, (e < length (World.heap_entries w'))%nat ->
             (entry_inode w' e < length (World.heap_inodes w'))%nat) ->
  World.root w' = World.root w ->
  (forall i, dir_entries w' i `sublist_of` dir_entries w i) ->
  (forall i e, e ∈ dir_entries w' i -> entry_name w' e = entry_name w e) ->
  tree_ok w'.
Proof.
  intros [V1 V2 VR U N] Hlen Hino Hroot Hsub Hname.
  split.
  - intros i e He. eapply elem_of_sublist in He; [|apply Hsub].
    specialize (V1 _ _ He). lia.
  - exact Hino.
  - rewrite Hroot. lia.
  - intros i j e Hi Hj.
    eapply elem_of_sublist in Hi; [|apply Hsub].
    eapply elem_of_sublist in Hj; [|apply Hsub].
    eauto.
  - intros i.
    assert (Heq : entry_name w' <$> dir_entries w' i = entry_name w <$> dir_entries w' i).
    { apply list_fmap_ext. intros k e Hk.
      apply (Hname i). eapply list_elem_of_lookup_2; eauto. }
    rewrite Heq.
    eapply sublist_NoDup; [apply N|]. apply fmap_sublist, Hsub.
Qed.

Lemma tree_ok_update_inode (r : ref) (g : Inode.t -> Inode.t) (w : World.t) :
  (forall x, Inode.entries (g x) `sublist_of` Inode.entries x) ->
  tree_ok w -> tree_ok (update_inode r g w).
Proof.
  intros Hg Hok. apply (tree_ok_shrink w); try assumption.
  - reflexivity.
  - intros e He. unfold update_inode. cbn. rewrite length_alter.
    apply (inodes_live w Hok e He).
  - reflexivity.
  - apply dir_entries_update_sublist, Hg.
  - reflexivity.
Qed.

(** ** [indexOf] and [remove_first] *)

Lemma indexOf_Some (l : list ref) (e : ref) (k : nat) :
  indexOf l e = Some k -> l !! k = Some e.
Proof.
  revert k. induction l as [|y l IH]; intros k; cbn [indexOf]; [discriminate|].
  destruct (Nat.eqb_spec y e) as [->|Hne].
  - intros [= <-]. reflexivity.
  - destruct (indexOf l e) as [k'|]; cbn; [|discriminate].
    intros [= <-]. cbn. apply IH. reflexivity.
Qed.

Lemma indexOf_None (l : list ref) (e : ref) : indexOf l e = None -> e ∉ l.
Proof.
  induction l as [|y l IH]; cbn [indexOf]; intros H.
  - apply not_elem_of_nil.
  - destruct (Nat.eqb_spec y e) as [->|Hne]; [discriminate|].
    destruct (indexOf l e); [discriminate|].
    apply not_elem_of_cons. split; [congruence|]. apply IH. reflexivity.
Qed.

Lemma remove_first_sublist (e : ref) (l : list ref) : remove_first e l `sublist_of` l.
Proof. unfold remove_first. destruct (indexOf l e); [apply sublist_delete|reflexivity]. Qed.

Lemma remove_first_cons (e y : ref) (l : list ref) :
  remove_first e (y :: l) = if Nat.eqb y e then l else y :: remove_first e l.
Proof.
  unfold remove_first. cbn [indexOf].
  destruct (Nat.eqb y e); [reflexivity|].
  destruct (indexOf l e); reflexivity.
Qed.

Lemma remove_first_not_in (e : ref) (l : list ref) : NoDup l -> e ∉ remove_first e l.
Proof.
  induction 1 as [|y l Hy Hnd IH].
  - apply not_elem_of_nil.
  - rewrite remove_first_cons. destruct (Nat.eqb_spec y e) as [->|Hne]; [assumption|].
    apply not_elem_of_cons. split; [congruence|assumption].
Qed.

Lemma remove_first_keeps (e x : ref) (l : list ref) :
  x <> e -> x ∈ l -> x ∈ remove_first e l.
Proof.
  intros Hne. induction l as [|y l IH]; intros Hin.
  - exact Hin.
  - rewrite remove_first_cons. apply elem_of_cons in Hin as [->|Hin].
    + destruct (Nat.eqb_spec y e); [congruence|]. apply elem_of_cons. left. reflexivity.
    + destruct (Nat.eqb_spec y e); [assumption|]. apply elem_of_cons. right. auto.
Qed.

(** ** [Directory.get] *)

Lemma find_name_Some (w : World.t) (name : string) (l : list ref) (e : ref) :
  find_name w name l = Some e -> e ∈ l /\ entry_name w e = name.
Proof.
  induction l as [|y l IH]; cbn [find_name]; [discriminate|].
  destruct (String.eqb_spec (Entry.name (get_entry w y)) name) as [Heq|Hne].
  - intros [= <-]. split; [apply elem_of_cons; left; reflexivity|exact Heq].
  - intros H. destruct (IH H) as [Hin Hn]. split; [apply elem_of_cons; right|]; assumption.
Qed.

Lemma find_name_None (w : World.t) (name : string) (l : list ref) :
  find_name w name l = None -> name ∉ entry_name w <$> l.
Proof.
  induction l as [|y l IH]; cbn [find_name]; intros H.
  - apply not_elem_of_nil.
  - destruct (String.eqb_spec (Entry.name (get_entry w y)) name) as [Heq|Hne]; [discriminate|].
    rewrite fmap_cons. apply not_elem_of_cons. split; [|auto].
    unfold entry_name. congruence.
Qed.

(** Where names are unique, removing the entry found under a name leaves
    no entry of that name. *)
Lemma find_name_removed (w : World.t) (name : string) (l : list ref) (e : ref) :
  NoDup (entry_name w <$> l) -> find_name w name l = Some e ->
  name ∉ entry_name w <$> remove_first e l.
Proof.
  induction l as [|y l IH]; cbn [find_name]; [discriminate|].
  rewrite fmap_cons. intros Hnd. apply NoDup_cons in Hnd as [Hy Hnd].
  rewrite remove_first_cons.
  destruct (String.eqb_spec (Entry.name (get_entry w y)) name) as [Heq|Hne].
  - intros [= <-]. rewrite Nat.eqb_refl. rewrite <- Heq. exact Hy.
  - intros H. destruct (Nat.eqb_spec y e) as [->|Hye].
    + apply find_name_Some in H as [_ Hn]. unfold entry_name in Hn. congruence.
    + rewrite fmap_cons. apply not_elem_of_cons. split; [unfold entry_name; congruence|auto].
Qed.

Lemma wp_returns {A} (m : M A) (w : World.t) (a : A) (Q : A -> World.t -> Prop) E :
  fst (m w) = Return a -> Q a (snd (m w)) -> wp m w Q E.
Proof. unfold wp. destruct (m w) as [o w']. cbn. intros ->. exact (fun H => H). Qed.

Lemma dir_entries_update_neutral (r : ref) (g : Inode.t -> Inode.t) (w : World.t) (i : ref) :
  (forall x, Inode.entries (g x) = Inode.entries x) ->
  dir_entries (update_inode r g w) i = dir_entries w i.
Proof.
  intros Hg. destruct (decide (i = r)) as [->|Hne].
  - destruct (decide (r < length (World.heap_inodes w))%nat).
    + rewrite dir_entries_update_eq by assumption. apply Hg.
    + unfold dir_entries. rewrite get_inode_update_ge by lia. reflexivity.
  - apply dir_entries_update_ne. assumption.
Qed.

Lemma dir_entries_out_of_range (w : World.t) (i : ref) :
  (length (World.heap_inodes w) <= i)%nat -> dir_entries w i = [].
Proof.
  intros. unfold dir_entries, get_inode.
  rewrite list_lookup_total_alt, lookup_ge_None_2 by assumption. reflexivity.
Qed.

(** ** [Directory.remove] *)

Lemma Directory_remove_returns (d e : ref) (w : World.t) :
  fst (Directory_remove d e w) = Return tt.
Proof.
  unfold Directory_remove, bind, gets. cbn [id].
  destruct (indexOf _ e); reflexivity.
Qed.

Lemma Directory_remove_heap_entries (d e : ref) (w : World.t) :
  World.heap_entries (snd (Directory_remove d e w)) = World.heap_entries w.
Proof.
  unfold Directory_remove, bind, gets. cbn [id].
  destruct (indexOf _ e); reflexivity.
Qed.

Lemma Directory_remove_frame (d e : ref) (w : World.t) :
  length (World.heap_inodes (snd (Directory_remove d e w))) = length (World.heap_inodes w) /\
  World.root (snd (Directory_remove d e w)) = World.root w /\
  World.fds (snd (Directory_remove d e w)) = World.fds w.
Proof.
  unfold Directory_remove, bind, gets. cbn [id].
  destruct (indexOf _ e); cbn; [|auto].
  rewrite !length_alter. auto.
Qed.

Lemma Directory_remove_entries (d e : ref) (w : World.t) (i : ref) :
  dir_entries (snd (Directory_remove d e w)) i =
  if decide (i = entry_inode w d) then remove_first e (dir_entries w i)
  else dir_entries w i.
Proof.
  unfold Directory_remove, bind, gets. cbn [id].
  unfold remove_first, inode_of. fold (entry_inode w d). fold (dir_entries w (entry_inode w d)).
  destruct (indexOf (dir_entries w (entry_inode w d)) e) as [k|] eqn:Hk.
  - cbn [modify now gets fst snd].
    rewrite !dir_entries_update_neutral by reflexivity.
    change (Entry.inode (get_entry w d)) with (entry_inode w d).
    case_decide as Hi.
    + subst i. rewrite Hk.
      destruct (decide (entry_inode w d < length (World.heap_inodes w))%nat).
      * rewrite dir_entries_update_eq by assumption. reflexivity.
      * rewrite dir_entries_out_of_range in Hk by lia. discriminate.
    + apply dir_entries_update_ne. assumption.
  - cbn. case_decide; [subst i; rewrite Hk|]; reflexivity.
Qed.

Lemma Directory_remove_sublist (d e : ref) (w : World.t) (i : ref) :
  dir_entries (snd (Directory_remove d e w)) i `sublist_of` dir_entries w i.
Proof.
  rewrite Directory_remove_entries. case_decide; [apply remove_first_sublist|reflexivity].
Qed.

(** ** [Directory.push] *)

Lemma Directory_push_entries (d e : ref) (w : World.t) (i : ref) :
  dir_entries (snd (Directory_push d e w)) i =
  if decide (i = entry_inode w d /\ (entry_inode w d < length (World.heap_inodes w))%nat)
  then dir_entries w i ++ [e]
  else dir_entries w i.
Proof.
  cbn. rewrite dir_entries_update_neutral by reflexivity.
  change (Entry.inode (get_entry w d)) with (entry_inode w d).
  case_decide as Hi.
  - destruct Hi as [-> Hlt]. rewrite dir_entries_update_eq by assumption. reflexivity.
  - destruct (decide (i = entry_inode w d)) as [->|Hne].
    + unfold dir_entries. rewrite get_inode_update_ge by lia. reflexivity.
    + apply dir_entries_update_ne. assumption.
Qed.

Lemma Directory_push_frame (d e : ref) (w : World.t) :
  World.heap_entries (snd (Directory_push d e w)) = World.heap_entries w /\
  length (World.heap_inodes (snd (Directory_push d e w))) = length (World.heap_inodes w) /\
  World.root (snd (Directory_push d e w)) = World.root w /\
  World.fds (snd (Directory_push d e w)) = World.fds w.
Proof. cbn. rewrite !length_alter. auto. Qed.

Lemma tree_ok_push (d e : ref) (w : World.t) :
  tree_ok w ->
  (e < length (World.heap_entries w))%nat ->
  (forall i, e ∉ dir_entries w i) ->
  entry_name w e ∉ entry_name w <$> dir_entries w (entry_inode w d) ->
  tree_ok (snd (Directory_push d e w)).
Proof.
  intros [V1 V2 VR U N] He Hfresh Hname.
  destruct (Directory_push_frame d e w) as (Hents & Hlen & Hroot & _).
  assert (Hnm : forall x, entry_name (snd (Directory_push d e w)) x = entry_name w x).
  { intros x. unfold entry_name, get_entry. rewrite Hents. reflexivity. }
  split.
  - intros i x Hx. rewrite Hents. rewrite Directory_push_entries in Hx.
    case_decide; [|eauto].
    apply elem_of_app in Hx as [Hx|Hx]; [eauto|].
    apply list_elem_of_singleton in Hx. subst. assumption.
  - intros x Hx. rewrite Hents in Hx. rewrite Hlen.
    unfold entry_inode, get_entry. rewrite Hents. apply V2. assumption.
  - rewrite Hroot, Hents. assumption.
  - intros i j x Hi Hj. rewrite Directory_push_entries in Hi, Hj.
    assert (Hcase : forall k,
      x ∈ (if decide (k = entry_inode w d /\ (entry_inode w d < length (World.heap_inodes w))%nat)
           then dir_entries w k ++ [e] else dir_entries w k) ->
      x ∈ dir_entries w k \/ (x = e /\ k = entry_inode w d)).
    { intros k Hk. case_decide as Hd; [|auto].
      apply elem_of_app in Hk as [Hk|Hk]; [auto|].
      apply list_elem_of_singleton in Hk. right. tauto. }
    apply Hcase in Hi as [Hi|[-> ->]]; apply Hcase in Hj as [Hj|[Hje ->]].
    + eauto.
    + subst. exfalso. eapply Hfresh; eauto.
    + exfalso. eapply Hfresh; eauto.
    + reflexivity.
  - intros i. rewrite Directory_push_entries.
    erewrite list_fmap_ext; [|intros; apply Hnm].
    case_decide as Hd; [|apply N].
    destruct Hd as [-> _]. rewrite fmap_app. apply NoDup_app.
    split; [apply N|]. split; [|apply NoDup_singleton].
    intros nm Hnm1 Hnm2. apply list_elem_of_singleton in Hnm2. subst. contradiction.
Qed.

(** ** Allocation *)

Lemma entries_lookup_snoc (l : list Inode.t) (x : Inode.t) (j : nat) :
  Inode.entries x = [] -> Inode.entries ((l ++ [x]) !!! j) = Inode.entries (l !!! j).
Proof.
  intros Hx. rewrite !list_lookup_total_alt.
  destruct (decide (j < length l)%nat).
  - rewrite lookup_app_l by assumption. reflexivity.
  - rewrite lookup_app_r by lia. rewrite (lookup_ge_None_2 l) by lia.
    destruct (j - length l)%nat; cbn; [assumption|reflexivity].
Qed.

Lemma get_entry_snoc (w w1 : World.t) (x : Entry.t) (e : ref) :
  World.heap_entries w1 = World.heap_entries w ++ [x] ->
  (e < length (World.heap_entries w))%nat -> get_entry w1 e = get_entry w e.
Proof.
  intros H He. unfold get_entry. rewrite H, !list_lookup_total_alt.
  rewrite lookup_app_l by assumption. reflexivity.
Qed.

Lemma get_entry_new (w w1 : World.t) (x : Entry.t) :
  World.heap_entries w1 = World.heap_entries w ++ [x] ->
  get_entry w1 (length (World.heap_entries w)) = x.
Proof.
  intros H. unfold get_entry. rewrite H, list_lookup_total_alt.
  rewrite lookup_app_r by lia. rewrite Nat.sub_diag. reflexivity.
Qed.

Lemma Entry_new_allocated (k : Class) (mode : Z) (fs : bool) (name : string)
    (inode : option ref) (w : World.t) :
  (forall i, inode = Some i -> (i < length (World.heap_inodes w))%nat) ->
  fst (Entry_new k mode fs name inode w) = Return (length (World.heap_entries w)) /\
  allocated w (snd (Entry_new k mode fs name inode w)) (length (World.heap_entries w)) name.
Proof.
  intros Hi. unfold allocated.
  destruct inode as [i|].
  - specialize (Hi i eq_refl). cbn.
    split; [reflexivity|]. split; [reflexivity|].
    split; [eexists; split; [reflexivity|split; [reflexivity|assumption]]|].
    split; [reflexivity|]. split; [lia|]. split; reflexivity.
  - assert (Hd : forall j w0 i, Inode.entries i = [] ->
              World.heap_inodes w0 = World.heap_inodes w ++ [i] ->
              dir_entries w0 j = dir_entries w j).
    { intros j w0 i Hemp Hh. unfold dir_entries, get_inode. rewrite Hh.
      apply entries_lookup_snoc. assumption. }
    destruct fs; cbn.
    + split; [reflexivity|]. split; [reflexivity|].
      split; [eexists; split; [reflexivity|split; [reflexivity|]]|].
      { cbn. rewrite length_app. cbn. lia. }
      split; [intros j; eapply Hd; [|reflexivity]; reflexivity|].
      split; [rewrite length_app; lia|]. split; reflexivity.
    + split; [reflexivity|]. split; [reflexivity|].
      split; [eexists; split; [reflexivity|split; [reflexivity|]]|].
      { cbn. rewrite length_app. cbn. lia. }
      split; [intros j; eapply Hd; [|reflexivity]; reflexivity|].
      split; [rewrite length_app; lia|]. split; reflexivity.
Qed.

Lemma File_new_allocated (c : Constants) (fs : bool) (name : string)
    (inode : option ref) (w : World.t) :
  (forall i, inode = Some i -> (i < length (World.heap_inodes w))%nat) ->
  fst (File_new c fs name inode w) = Return (length (World.heap_entries w)) /\
  allocated w (snd (File_new c fs name inode w)) (length (World.heap_entries w)) name.
Proof. apply Entry_new_allocated. Qed.

Lemma Directory_new_allocated (c : Constants) (fs : bool) (name : string) (w : World.t) :
  fst (Directory_new c fs name w) = Return (length (World.heap_entries w)) /\
  allocated w (snd (Directory_new c fs name w)) (length (World.heap_entries w)) name.
Proof.
  unfold Directory_new.
  destruct (Entry_new_allocated ClassDirectory
              (js_or (js_or (js_or 0 365) 219) (S_IFDIR c)) fs name None w)
    as [Hret Hal]; [discriminate|].
  rewrite (bind_returns _ _ _ _ Hret).
  set (w1 := snd (Entry_new _ _ fs name None w)) in *.
  cbn. split; [reflexivity|].
  destruct Hal as (He & (x & Hx & Hn & Hino) & Hd & Hlen & Hroot & Hfds).
  unfold allocated. split; [reflexivity|].
  split; [exists x; cbn; rewrite length_alter; auto|].
  split; [intros j; rewrite dir_entries_update_neutral by reflexivity; apply Hd|].
  split; [cbn; rewrite length_alter; assumption|].
  split; assumption.
Qed.

(** After an allocation the tree invariant holds, and the new entry is
    live and nobody's child yet. *)
Lemma allocated_tree_ok (w w1 : World.t) (e : ref) (name : string) :
  tree_ok w -> allocated w w1 e name ->
  tree_ok w1 /\
  (e < length (World.heap_entries w1))%nat /\
  (forall i, e ∉ dir_entries w1 i) /\
  entry_name w1 e = name /\
  (forall x, (x < length (World.heap_entries w))%nat -> get_entry w1 x = get_entry w x).
Proof.
  intros Hok (He & (x & Hx & Hn & Hino) & Hd & Hlen & Hroot & Hfds).
  assert (Hold : forall y, (y < length (World.heap_entries w))%nat ->
                           get_entry w1 y = get_entry w y)
    by (intros; eapply get_entry_snoc; eauto).
  split; [|split; [|split; [|split]]].
  - apply (tree_ok_shrink w); try assumption.
    + rewrite Hx, length_app. lia.
    + intros y Hy. rewrite Hx, length_app in Hy. cbn in Hy.
      destruct (decide (y < length (World.heap_entries w))%nat).
      * unfold entry_inode. rewrite Hold by assumption.
        pose proof (inodes_live w Hok y). unfold entry_inode in *. lia.
      * replace y with (length (World.heap_entries w)) by lia.
        unfold entry_inode. rewrite (get_entry_new w w1 x Hx). assumption.
    + intros i. rewrite Hd. reflexivity.
    + intros i y Hy. rewrite Hd in Hy. unfold entry_name. rewrite Hold; [reflexivity|].
      eapply children_live; eauto.
  - rewrite Hx, length_app. cbn. lia.
  - intros i Hin. rewrite Hd in Hin.
    pose proof (children_live w Hok i e Hin). lia.
  - unfold entry_name. subst e. rewrite (get_entry_new w w1 x Hx). assumption.
  - exact Hold.
Qed.

(** ** Updates of an entry *)

Lemma get_entry_update_entry (e : ref) (g : Entry.t -> Entry.t) (w : World.t) (x : ref) :
  get_entry (update_entry e g w) x =
  if decide (x = e /\ (e < length (World.heap_entries w))%nat)
  then g (get_entry w e) else get_entry w x.
Proof.
  unfold get_entry, update_entry. cbn.
  rewrite !list_lookup_total_alt, list_lookup_alter.
  destruct (decide (x = e /\ (e < length (World.heap_entries w))%nat)) as [[-> Hlt]|Hd].
  - rewrite decide_True by reflexivity.
    destruct (lookup_lt_is_Some_2 _ _ Hlt) as [y Hy]. rewrite Hy. reflexivity.
  - case_decide; [|reflexivity]. subst x.
    rewrite lookup_ge_None_2 by (apply Nat.nlt_ge; tauto). reflexivity.
Qed.

Lemma tree_ok_update_entry (e : ref) (g : Entry.t -> Entry.t) (w : World.t) :
  (forall x, Entry.inode (g x) = Entry.inode x) ->
  (forall i, e ∈ dir_entries w i -> Entry.name (g (get_entry w e)) = entry_name w e) ->
  tree_ok w -> tree_ok (update_entry e g w).
Proof.
  intros Hino Hname Hok. apply (tree_ok_shrink w); try assumption.
  - unfold update_entry. cbn. rewrite length_alter. lia.
  - intros x Hx. unfold update_entry in Hx. cbn in Hx. rewrite length_alter in Hx.
    unfold entry_inode. rewrite get_entry_update_entry.
    change (length (World.heap_inodes (update_entry e g w)))
      with (length (World.heap_inodes w)).
    destruct (decide _) as [[_ Hlt]|Hd].
    + rewrite Hino. apply (inodes_live w Hok e Hlt).
    + apply (inodes_live w Hok x Hx).
  - reflexivity.
  - reflexivity.
  - intros i x Hx. change (dir_entries (update_entry e g w) i) with (dir_entries w i) in Hx.
    unfold entry_name at 1. rewrite get_entry_update_entry.
    destruct (decide _) as [[-> _]|Hd]; [|reflexivity].
    eauto.
Qed.

(** ** [Entry.reset] *)

Lemma tree_ok_reset (e : ref) (w : World.t) :
  tree_ok w -> tree_ok (snd (Entry_reset e w)).
Proof.
  intros Hok. cbn. apply tree_ok_update_inode; [|assumption].
  intros x. cbn. apply sublist_nil_l.
Qed.

(** ** Path resolution *)

Lemma Directory_get_Some (w : World.t) (d : ref) (name : string) (e : ref) :
  Directory_get w d name = Some e ->
  e ∈ dir_entries w (entry_inode w d) /\ entry_name w e = name.
Proof. apply find_name_Some. Qed.

Lemma Directory_get_None (w : World.t) (d : ref) (name : string) :
  Directory_get w d name = None ->
  name ∉ entry_name w <$> dir_entries w (entry_inode w d).
Proof. apply find_name_None. Qed.

Lemma lookup_from_live (c : Constants) (w : World.t) (parts : list string) :
  tree_ok w ->
  forall cur r,
  (cur < length (World.heap_entries w))%nat ->
  lookup_from c w cur parts = Return r ->
  (r < length (World.heap_entries w))%nat.
Proof.
  intros Hok. induction parts as [|p rest IH]; intros cur r Hcur; cbn [lookup_from].
  - intros [= <-]. assumption.
  - destruct (negb (Entry_isDirectory c w cur)); [discriminate|].
    destruct (negb (Class_eqb _ _)); [discriminate|].
    destruct (Directory_get w cur p) as [next|] eqn:Hget; [|discriminate].
    apply IH. apply Directory_get_Some in Hget as [Hin _].
    eapply children_live; eauto.
Qed.

Lemma wp_lookup_parts (c : Constants) (parts : list string) (w : World.t)
    (Q : ref -> World.t -> Prop) (E : Error -> World.t -> Prop) :
  tree_ok w ->
  (forall r, (r < length (World.heap_entries w))%nat -> Q r w) ->
  (forall e, E e w) ->
  wp (FileSystem_lookup_parts c parts) w Q E.
Proof.
  intros Hok HQ HE. unfold FileSystem_lookup_parts. apply wp_lift.
  - intros r Hr. apply HQ. eapply lookup_from_live; eauto. apply (root_live w Hok).
  - intros e _. apply HE.
Qed.

Lemma wp_parentDir (c : Constants) (path : string) (w : World.t)
    (Q : ref * string -> World.t -> Prop) (E : Error -> World.t -> Prop) :
  tree_ok w ->
  (forall d p, (d < length (World.heap_entries w))%nat -> Q (d, p) w) ->
  (forall e, E e w) ->
  wp (FileSystem_parentDir c path) w Q E.
Proof.
  intros Hok HQ HE. unfold FileSystem_parentDir.
  destruct (last (split path)) as [p|]; [|apply wp_throw, HE].
  apply wp_bind. apply wp_lookup_parts; [assumption| |assumption].
  intros d Hd. apply wp_bind, wp_gets. apply wp_bind, wp_throw_if; [intros; apply HE|].
  intros _. apply wp_ret. apply HQ. assumption.
Qed.

(** ** Bodies that keep the tree invariant *)

Lemma tree_ok_same_heap (w w' : World.t) :
  World.heap_inodes w' = World.heap_inodes w ->
  World.heap_entries w' = World.heap_entries w ->
  World.root w' = World.root w ->
  tree_ok w -> tree_ok w'.
Proof.
  destruct w, w'. cbn. intros -> -> -> [V1 V2 VR U N].
  split; assumption.
Qed.

Lemma keeps_ret {A} (a : A) : keeps_tree (ret a).
Proof. intros w H. exact H. Qed.

Lemma keeps_throw {A} (e : Error) : keeps_tree (@throw A e).
Proof. intros w H. exact H. Qed.

Lemma keeps_gets {A} (f : World.t -> A) : keeps_tree (gets f).
Proof. intros w H. exact H. Qed.

Lemma keeps_now : keeps_tree now.
Proof. intros w H. exact H. Qed.

Lemma keeps_lift {A} (f : World.t -> Outcome A) : keeps_tree (lift f).
Proof. intros w H. apply wp_lift; intros; exact H. Qed.

Lemma keeps_throw_if (b : bool) (e : Error) : keeps_tree (throw_if b e).
Proof. intros w H. apply wp_throw_if; intros; exact H. Qed.

Lemma keeps_method_of (k : Class) (x : ref) : keeps_tree (method_of k x).
Proof. intros w H. apply wp_method_of; intros; exact H. Qed.

Lemma keeps_bind {A B} (m : M A) (k : A -> M B) :
  keeps_tree m -> (forall a, keeps_tree (k a)) -> keeps_tree (bind m k).
Proof.
  intros Hm Hk w H. apply wp_bind.
  eapply wp_mono; [apply Hm, H| |]; cbn.
  - intros a w' H'. apply Hk, H'.
  - intros e w' H'. exact H'.
Qed.

Lemma keeps_modify (f : World.t -> World.t) :
  (forall w, tree_ok w -> tree_ok (f w)) -> keeps_tree (modify f).
Proof. intros Hf w H. apply wp_modify, Hf, H. Qed.

Lemma keeps_snd {A} (m : M A) (w : World.t) :
  keeps_tree m -> tree_ok w -> tree_ok (snd (m w)).
Proof. intros Hm H. apply wp_snd, Hm, H. Qed.

Lemma keeps_of_snd {A} (m : M A) :
  (forall w, tree_ok w -> tree_ok (snd (m w))) -> keeps_tree m.
Proof.
  intros Hm w H. specialize (Hm w H). unfold wp.
  destruct (m w) as [[a|e] w']; exact Hm.
Qed.

Lemma keeps_lookup (c : Constants) (path : string) : keeps_tree (FileSystem_lookup c path).
Proof. apply keeps_lift. Qed.

Lemma keeps_lookupFd (fd : Z) : keeps_tree (FileSystem_lookupFd fd).
Proof.
  unfold FileSystem_lookupFd. apply keeps_bind; [apply keeps_gets|].
  intros w. destruct (array_get _ _); [apply keeps_ret|apply keeps_throw].
Qed.

Lemma keeps_parentDir (c : Constants) (path : string) :
  keeps_tree (FileSystem_parentDir c path).
Proof.
  intros w H. apply wp_parentDir; intros; exact H.
Qed.

Lemma keeps_update_inode_neutral (r : World.t -> ref) (g : Inode.t -> Inode.t) :
  (forall x, Inode.entries (g x) = Inode.entries x) ->
  keeps_tree (modify (fun w => update_inode (r w) g w)).
Proof.
  intros Hg. apply keeps_modify. intros w H.
  apply tree_ok_update_inode; [|exact H]. intros x. rewrite Hg. reflexivity.
Qed.

Lemma keeps_update_entry_neutral (e : ref) (g : Entry.t -> Entry.t) :
  (forall x, Entry.inode (g x) = Entry.inode x) ->
  (forall x, Entry.name (g x) = Entry.name x) ->
  keeps_tree (modify (update_entry e g)).
Proof.
  intros Hi Hn. apply keeps_modify. intros w H.
  apply tree_ok_update_entry; [exact Hi| |exact H]. intros _ _. apply Hn.
Qed.

Lemma keeps_reset (e : ref) : keeps_tree (Entry_reset e).
Proof. apply keeps_of_snd. intros w. apply tree_ok_reset. Qed.

Lemma tree_ok_remove (d e : ref) (w : World.t) :
  tree_ok w -> tree_ok (snd (Directory_remove d e w)).
Proof.
  intros Hok.
  destruct (Directory_remove_frame d e w) as (Hlen & Hroot & _).
  pose proof (Directory_remove_heap_entries d e w) as Hents.
  apply (tree_ok_shrink w); try assumption.
  - rewrite Hents. lia.
  - intros x Hx. rewrite Hents in Hx. rewrite Hlen.
    unfold entry_inode, get_entry. rewrite Hents. apply (inodes_live w Hok x Hx).
  - apply Directory_remove_sublist.
  - intros i x _. unfold entry_name, get_entry. rewrite Hents. reflexivity.
Qed.

Lemma keeps_remove (d e : ref) : keeps_tree (Directory_remove d e).
Proof. apply keeps_of_snd. intros w. apply tree_ok_remove. Qed.

Lemma keeps_truncate (f : ref) (size : Z) : keeps_tree (File_truncate f size).
Proof.
  unfold File_truncate.
  apply keeps_bind; [apply keeps_update_inode_neutral; reflexivity|intros _].
  apply keeps_bind; [apply keeps_update_inode_neutral; reflexivity|intros _].
  apply keeps_bind; [apply keeps_now|intros t].
  apply keeps_update_inode_neutral; reflexivity.
Qed.

Lemma keeps_rmdir (c : Constants) (d : ref) (name : string) :
  keeps_tree (Directory_rmdir c d name).
Proof.
  unfold Directory_rmdir. apply keeps_bind; [apply keeps_gets|intros w].
  destruct (Directory_get w d name); [|apply keeps_throw].
  apply keeps_bind; [apply keeps_throw_if|intros _].
  apply keeps_bind; [apply keeps_method_of|intros _].
  apply keeps_bind; [apply keeps_throw_if|intros _].
  apply keeps_remove.
Qed.

Lemma keeps_unlink (c : Constants) (d : ref) (name : string) :
  keeps_tree (Directory_unlink c d name).
Proof.
  unfold Directory_unlink. apply keeps_bind; [apply keeps_gets|intros w].
  destruct (Directory_get w d name); [|apply keeps_throw].
  apply keeps_bind; [apply keeps_throw_if|intros _].
  apply keeps_remove.
Qed.

(** ** Binding a new entry: [mkdir], [create], [link] *)

Lemma names_same_on (w w1 : World.t) (l : list ref) :
  (forall x, x ∈ l -> entry_name w1 x = entry_name w x) ->
  entry_name w1 <$> l = entry_name w <$> l.
Proof.
  intros H. apply list_fmap_ext. intros k x Hk. apply H.
  eapply list_elem_of_lookup_2; eauto.
Qed.

Lemma tree_ok_alloc_push (w w1 : World.t) (d e : ref) (name : string) :
  tree_ok w -> allocated w w1 e name ->
  (d < length (World.heap_entries w))%nat ->
  name ∉ entry_name w <$> dir_entries w (entry_inode w d) ->
  tree_ok (snd (Directory_push d e w1)).
Proof.
  intros Hok Hal Hd Hname.
  destruct (allocated_tree_ok w w1 e name Hok Hal) as (Hok1 & He & Hfresh & Hn & Hold).
  destruct Hal as (_ & _ & Hdir & _).
  apply tree_ok_push; try assumption.
  rewrite Hn. unfold entry_inode at 1. rewrite (Hold d Hd). fold (entry_inode w d).
  rewrite Hdir.
  rewrite (names_same_on w w1); [assumption|].
  intros x Hx. unfold entry_name. rewrite Hold; [reflexivity|].
  eapply children_live; eauto.
Qed.

Lemma wp_Directory_mkdir (c : Constants) (d : ref) (name : string) (w : World.t) :
  tree_ok w -> (d < length (World.heap_entries w))%nat ->
  wp (Directory_mkdir c d name) w (fun _ => tree_ok) (fun _ => tree_ok).
Proof.
  intros Hok Hd. unfold Directory_mkdir.
  apply wp_bind, wp_gets; cbn [id]. apply wp_bind, wp_throw_if; [intros; assumption|].
  intros Hex. unfold Directory_exists in Hex.
  apply bool_decide_eq_false in Hex.
  assert (Hget : Directory_get w d name = None).
  { destruct (Directory_get w d name); [exfalso; apply Hex; eexists; reflexivity|reflexivity]. }
  destruct (Directory_new_allocated c (Entry.fs (get_entry w d)) name w) as [Hret Hal].
  apply wp_bind. eapply wp_returns; [exact Hret|].
  eapply wp_returns; [apply Directory_push_returns|].
  eapply tree_ok_alloc_push; eauto. apply Directory_get_None. assumption.
Qed.

Lemma wp_Directory_create (c : Constants) (d : ref) (name : string) (mode : Z) (w : World.t) :
  tree_ok w -> (d < length (World.heap_entries w))%nat ->
  wp (Directory_create c d name mode) w (fun _ => tree_ok) (fun _ => tree_ok).
Proof.
  intros Hok Hd. unfold Directory_create.
  apply wp_bind, wp_gets; cbn [id].
  destruct (Directory_get w d name) as [x|] eqn:Hget.
  - apply wp_bind. eapply wp_mono; [apply keeps_reset, Hok| |auto].
    intros a w' H. cbv beta in *. apply wp_ret. exact H.
  - destruct (File_new_allocated c (Entry.fs (get_entry w d)) name None w) as [Hret Hal];
      [discriminate|].
    apply wp_bind. eapply wp_returns; [exact Hret|].
    eapply wp_returns; [apply Directory_push_returns|].
    eapply tree_ok_alloc_push; eauto. apply Directory_get_None. assumption.
Qed.

Lemma keeps_set_fds (f : World.t -> list (option FileDescriptor.t)) :
  keeps_tree (modify (fun w => World.set_fds (f w) w)).
Proof. apply keeps_modify. intros w. apply tree_ok_same_heap; reflexivity. Qed.

Lemma keeps_open (c : Constants) (path : string) (flag : Flag) (mode : Z) :
  keeps_tree (FileSystem_open c path flag mode).
Proof.
  intros w0 Hok. unfold FileSystem_open.
  apply wp_bind, wp_gets; cbn [id]. apply wp_bind.
  apply wp_parentDir; [assumption| |intros; assumption].
  intros parent name Hparent. cbn [fst snd].
  apply wp_bind, wp_method_of; [assumption|intros _].
  apply wp_bind, wp_gets; cbn [id].
  apply wp_bind, wp_throw_if; [intros; assumption|intros _].
  apply wp_bind, wp_throw_if; [intros; assumption|intros _].
  apply wp_bind, wp_throw_if; [intros; assumption|intros _].
  assert (Htail : forall (f : ref) (w : World.t), tree_ok w ->
    wp (bind (gets id) (fun w' =>
          bind (modify (fun w1 => World.set_fds (World.fds w1 ++
                  [Some (FileDescriptor.set_file (Some f)
                    (if FileDescriptor.appending
                          (FileDescriptor_new c flag (Z.of_nat (length (World.fds w0)) + 20))
                     then FileDescriptor.set_position (Inode.size (inode_of w' f))
                            (FileDescriptor_new c flag (Z.of_nat (length (World.fds w0)) + 20))
                     else FileDescriptor_new c flag (Z.of_nat (length (World.fds w0)) + 20)))])
                  w1))
            (fun _ => ret (FileDescriptor.id
               (FileDescriptor.set_file (Some f)
                  (if FileDescriptor.appending
                        (FileDescriptor_new c flag (Z.of_nat (length (World.fds w0)) + 20))
                   then FileDescriptor.set_position (Inode.size (inode_of w' f))
                          (FileDescriptor_new c flag (Z.of_nat (length (World.fds w0)) + 20))
                   else FileDescriptor_new c flag (Z.of_nat (length (World.fds w0)) + 20)))))))
       w (fun _ => tree_ok) (fun _ => tree_ok)).
  { intros f w H. apply wp_bind, wp_gets; cbn [id]. apply wp_bind, wp_modify, wp_ret.
    eapply tree_ok_same_heap; [| | |exact H]; reflexivity. }
  destruct (Directory_get w0 parent name) as [f|] eqn:Hget.
  - apply wp_bind.
    destruct (negb _ && _).
    + eapply wp_mono; [apply keeps_reset, Hok| |auto].
      intros a w1 H1. cbv beta in *. apply wp_bind, wp_ret. apply Htail, H1.
    + apply wp_ret. apply wp_bind, wp_ret. apply Htail, Hok.
  - apply wp_bind, wp_ret. apply wp_bind. apply wp_bind, wp_throw_if; [intros; assumption|intros _].
    eapply wp_mono; [apply wp_Directory_create; assumption| |auto].
    intros f w1 H1. cbv beta in *. apply Htail, H1.
Qed.

Lemma keeps_link (c : Constants) (from to : string) : keeps_tree (FileSystem_link c from to).
Proof.
  intros w Hok. unfold FileSystem_link.
  apply wp_bind. apply wp_parentDir; [assumption| |intros; assumption].
  intros fparent fname Hf.
  apply wp_bind. apply wp_parentDir; [assumption| |intros; assumption].
  intros tparent tname Ht. cbn [fst snd].
  apply wp_bind, wp_method_of; [assumption|intros _].
  apply wp_bind, wp_gets; cbn [id].
  destruct (Directory_get w fparent fname) as [fe|] eqn:Hfe; [|apply wp_throw; assumption].
  apply wp_bind, wp_throw_if; [intros; assumption|intros _].
  apply wp_bind, wp_method_of; [assumption|intros _].
  destruct (Directory_get w tparent tname) as [te|] eqn:Hte; [apply wp_throw; assumption|].
  apply Directory_get_Some in Hfe as [Hfe_in Hfe_name].
  pose proof (children_live w Hok _ _ Hfe_in) as Hfe_live.
  apply Directory_get_None in Hte.
  apply wp_bind, wp_modify.
  set (w1 := update_entry fe (fun x => Entry.set_nlink (js_incr (Entry.nlink x)) x) w).
  assert (Hok1 : tree_ok w1).
  { apply tree_ok_update_entry; [reflexivity| |assumption]. intros _ _. reflexivity. }
  assert (Hget1 : forall x, Entry.name (get_entry w1 x) = Entry.name (get_entry w x) /\
                            Entry.inode (get_entry w1 x) = Entry.inode (get_entry w x)).
  { intros x. unfold w1. rewrite get_entry_update_entry.
    destruct (decide _) as [[-> _]|_]; split; reflexivity. }
  destruct (File_new_allocated c false tname (Some (Entry.inode (get_entry w fe))) w1)
    as [Hret Hal].
  { intros i [= <-]. apply (inodes_live w Hok fe Hfe_live). }
  apply wp_bind. eapply wp_returns; [exact Hret|].
  apply wp_bind. eapply wp_returns; [apply Directory_push_returns|].
  apply wp_ret.
  eapply tree_ok_alloc_push; [exact Hok1|exact Hal| |].
  { unfold w1, update_entry. cbn. rewrite length_alter. exact Ht. }
  unfold entry_inode. rewrite (proj2 (Hget1 tparent)). fold (entry_inode w tparent).
  change (dir_entries w1 (entry_inode w tparent)) with (dir_entries w (entry_inode w tparent)).
  rewrite (names_same_on w w1); [assumption|].
  intros x _. apply (proj1 (Hget1 x)).
Qed.

(** ** [rename] *)

(** The end of [rename]: the entry [fe] takes its new name, leaves its old
    parent and is appended to the new one. *)
Lemma tree_ok_rename_tail (fparent tparent fe : ref) (tname : string) (w1 : World.t) :
  tree_ok w1 ->
  (fe < length (World.heap_entries w1))%nat ->
  (fe ∈ dir_entries w1 (entry_inode w1 fparent) \/ forall i, fe ∉ dir_entries w1 i) ->
  tname ∉ entry_name w1 <$> dir_entries w1 (entry_inode w1 tparent) ->
  tree_ok (snd (Directory_push tparent fe
                  (snd (Directory_remove fparent fe
                          (update_entry fe (Entry.set_name tname) w1))))).
Proof.
  intros Hok Hlive Hwhere Hname.
  set (w2 := update_entry fe (Entry.set_name tname) w1).
  set (w3 := snd (Directory_remove fparent fe w2)).
  assert (Hget2 : forall x, Entry.inode (get_entry w2 x) = Entry.inode (get_entry w1 x) /\
                            (x <> fe -> Entry.name (get_entry w2 x) = Entry.name (get_entry w1 x))).
  { intros x. unfold w2. rewrite get_entry_update_entry.
    destruct (decide _) as [[-> _]|_]; split; try reflexivity. congruence. }
  assert (Hname2 : Entry.name (get_entry w2 fe) = tname).
  { unfold w2. rewrite get_entry_update_entry. rewrite decide_True by auto. reflexivity. }
  pose proof (Directory_remove_heap_entries fparent fe w2) as Hents3.
  destruct (Directory_remove_frame fparent fe w2) as (Hlen3 & Hroot3 & _).
  assert (Hget3 : forall x, get_entry w3 x = get_entry w2 x).
  { intros x. unfold get_entry. fold w3 in Hents3. rewrite Hents3. reflexivity. }
  assert (Hsub3 : forall i, dir_entries w3 i `sublist_of` dir_entries w1 i).
  { intros i. apply (Directory_remove_sublist fparent fe w2 i). }
  assert (Hfresh3 : forall i, fe ∉ dir_entries w3 i).
  { intros i. unfold w3. rewrite Directory_remove_entries.
    change (dir_entries w2 i) with (dir_entries w1 i).
    assert (Hpf : entry_inode w2 fparent = entry_inode w1 fparent)
      by apply (proj1 (Hget2 fparent)).
    rewrite Hpf.
    destruct Hwhere as [Hin|Hnot].
    - case_decide as Hi.
      + subst i. apply remove_first_not_in.
        eapply NoDup_fmap_1. apply (names_unique w1 Hok).
      + intros Hin'. apply Hi. eapply (one_parent w1 Hok); eauto.
    - case_decide; [|apply Hnot].
      intros Hin. eapply Hnot. eapply elem_of_sublist; [exact Hin|apply remove_first_sublist]. }
  assert (Hnames3 : forall i x, x ∈ dir_entries w3 i -> entry_name w3 x = entry_name w1 x).
  { intros i x Hx. unfold entry_name. rewrite Hget3.
    apply (proj2 (Hget2 x)). intros ->. eapply Hfresh3; eauto. }
  assert (Hok3 : tree_ok w3).
  { apply (tree_ok_shrink w1); try assumption.
    - fold w3 in Hents3. rewrite Hents3. unfold w2, update_entry. cbn. rewrite length_alter. lia.
    - intros x Hx. fold w3 in Hents3, Hlen3. rewrite Hents3 in Hx. rewrite Hlen3.
      unfold w2, update_entry in Hx. cbn in Hx. rewrite length_alter in Hx.
      unfold entry_inode. rewrite Hget3, (proj1 (Hget2 x)).
      apply (inodes_live w1 Hok x Hx). }
  apply tree_ok_push.
  - exact Hok3.
  - fold w3 in Hents3. rewrite Hents3. unfold w2, update_entry. cbn.
    rewrite length_alter. assumption.
  - exact Hfresh3.
  - unfold entry_name at 1. rewrite Hget3, Hname2.
    assert (Hpt : entry_inode w3 tparent = entry_inode w1 tparent).
    { unfold entry_inode. rewrite Hget3. apply (proj1 (Hget2 tparent)). }
    rewrite Hpt.
    rewrite (names_same_on w1 w3) by (intros x Hx; eapply Hnames3; eauto).
    intros Hin. apply Hname.
    eapply elem_of_sublist; [exact Hin|]. apply fmap_sublist, Hsub3.
Qed.

Lemma keeps_rename (c : Constants) (from to : string) :
  keeps_tree (FileSystem_rename c from to).
Proof.
  intros w Hok. unfold FileSystem_rename.
  apply wp_bind. apply wp_parentDir; [assumption| |intros; assumption].
  intros fparent fname Hf.
  apply wp_bind. apply wp_parentDir; [assumption| |intros; assumption].
  intros tparent tname Ht. cbn [fst snd].
  apply wp_bind, wp_method_of; [assumption|intros _].
  apply wp_bind, wp_gets; cbn [id].
  destruct (Directory_get w fparent fname) as [fe|] eqn:Hfe; [|apply wp_throw; assumption].
  apply wp_bind, wp_method_of; [assumption|intros _].
  apply Directory_get_Some in Hfe as [Hfe_in Hfe_name].
  pose proof (children_live w Hok _ _ Hfe_in) as Hfe_live.
  assert (Htail : forall w1, tree_ok w1 ->
    (fe < length (World.heap_entries w1))%nat ->
    (fe ∈ dir_entries w1 (entry_inode w1 fparent) \/ forall i, fe ∉ dir_entries w1 i) ->
    tname ∉ entry_name w1 <$> dir_entries w1 (entry_inode w1 tparent) ->
    wp (bind (modify (update_entry fe (Entry.set_name tname)))
          (fun _ => bind (Directory_remove fparent fe)
             (fun _ => bind (Directory_push tparent fe) (fun _ => ret tt))))
       w1 (fun _ => tree_ok) (fun _ => tree_ok)).
  { intros w1 H1 H2 H3 H4.
    apply wp_bind, wp_modify.
    apply wp_bind. eapply wp_returns; [apply Directory_remove_returns|].
    apply wp_bind. eapply wp_returns; [apply Directory_push_returns|].
    apply wp_ret. apply tree_ok_rename_tail; assumption. }
  apply wp_bind.
  destruct (Directory_get w tparent tname) as [te|] eqn:Hte.
  - apply wp_bind, wp_throw_if; [intros; assumption|intros _].
    apply wp_bind, wp_throw_if; [intros; assumption|intros _].
    apply wp_bind.
    assert (Hrem : wp (Directory_remove tparent te) w
              (fun _ w' => wp (bind (modify (update_entry fe (Entry.set_name tname)))
                 (fun _ => bind (Directory_remove fparent fe)
                    (fun _ => bind (Directory_push tparent fe) (fun _ => ret tt))))
                 w' (fun _ => tree_ok) (fun _ => tree_ok))
              (fun _ => tree_ok)).
    { eapply wp_returns; [apply Directory_remove_returns|].
      destruct (Directory_get_Some _ _ _ _ Hte) as [Hte_in Hte_name].
      pose proof (Directory_remove_heap_entries tparent te w) as Hents.
      assert (Hget : forall x, get_entry (snd (Directory_remove tparent te w)) x = get_entry w x).
      { intros x. unfold get_entry. rewrite Hents. reflexivity. }
      apply Htail.
      - apply tree_ok_remove. assumption.
      - rewrite Hents. assumption.
      - destruct (decide (te = fe)) as [->|Hne].
        + right. intros i. rewrite Directory_remove_entries. case_decide as Hi.
          * subst i. apply remove_first_not_in.
            eapply NoDup_fmap_1. apply (names_unique w Hok).
          * intros Hin. apply Hi. eapply (one_parent w Hok); eauto.
        + left. unfold entry_inode. rewrite Hget. fold (entry_inode w fparent).
          rewrite Directory_remove_entries. case_decide; [|assumption].
          apply remove_first_keeps; [congruence|assumption].
      - unfold entry_inode. rewrite Hget. fold (entry_inode w tparent).
        rewrite (names_same_on w) by (intros x _; unfold entry_name; rewrite Hget; reflexivity).
        rewrite Directory_remove_entries. rewrite decide_True by reflexivity.
        apply find_name_removed; [apply (names_unique w Hok)|exact Hte]. }
    destruct (Entry_isDirectory c w fe && Entry_isDirectory c w te).
    + apply wp_bind, wp_method_of; [assumption|intros _].
      apply wp_throw_if; [intros; assumption|intros _]. exact Hrem.
    + apply wp_ret. exact Hrem.
  - apply wp_ret. apply Htail; try assumption.
    + left. assumption.
    + apply Directory_get_None. assumption.
Qed.

(** ** Every call keeps the tree invariant *)

Lemma keeps_stat (c : Constants) (path : string) : keeps_tree (FileSystem_stat c path).
Proof. apply keeps_bind; [apply keeps_lookup|intros; apply keeps_gets]. Qed.

Lemma keeps_fstat (fd : Z) : keeps_tree (FileSystem_fstat fd).
Proof.
  apply keeps_bind; [apply keeps_lookupFd|intros kd].
  unfold FileDescriptor_stat. destruct (FileDescriptor.file _); [apply keeps_gets|apply keeps_throw].
Qed.

Lemma keeps_FileSystem_truncate (c : Constants) (path : string) (size : Z) :
  keeps_tree (FileSystem_truncate c path size).
Proof.
  apply keeps_bind; [apply keeps_lookup|intros e].
  apply keeps_bind; [apply keeps_method_of|intros _]. apply keeps_truncate.
Qed.

Lemma keeps_ftruncate (fd : Z) (size : Z) : keeps_tree (FileSystem_ftruncate fd size).
Proof.
  apply keeps_bind; [apply keeps_lookupFd|intros kd].
  unfold FileDescriptor_truncate, FileDescriptor_file.
  apply keeps_bind; [|intros f; apply keeps_truncate].
  destruct (FileDescriptor.file _); [|apply keeps_throw].
  apply keeps_bind; [apply keeps_method_of|intros _; apply keeps_ret].
Qed.

Lemma keeps_close (fd : Z) : keeps_tree (FileSystem_close fd).
Proof.
  unfold FileSystem_close. apply keeps_bind; [apply keeps_gets|intros w].
  destruct (array_get _ _); [|apply keeps_throw].
  apply keeps_bind; [|intros _]; apply keeps_set_fds.
Qed.

Lemma keeps_setxattr (c : Constants) (path name : string) (value : Buffer) :
  keeps_tree (FileSystem_setxattr c path name value).
Proof.
  apply keeps_bind; [apply keeps_lookup|intros e].
  apply keeps_update_entry_neutral; reflexivity.
Qed.

Lemma keeps_getxattr (c : Constants) (path name : string) :
  keeps_tree (FileSystem_getxattr c path name).
Proof. apply keeps_bind; [apply keeps_lookup|intros; apply keeps_gets]. Qed.

Lemma keeps_listxattr (c : Constants) (path : string) :
  keeps_tree (FileSystem_listxattr c path).
Proof. apply keeps_bind; [apply keeps_lookup|intros; apply keeps_gets]. Qed.

Lemma keeps_removexattr (c : Constants) (path name : string) :
  keeps_tree (FileSystem_removexattr c path name).
Proof.
  apply keeps_bind; [apply keeps_lookup|intros e].
  apply keeps_update_entry_neutral; reflexivity.
Qed.

Lemma keeps_readdir (c : Constants) (path : string) : keeps_tree (FileSystem_readdir c path).
Proof.
  apply keeps_bind; [apply keeps_lookup|intros d].
  apply keeps_bind; [apply keeps_gets|intros w].
  destruct (Entry_isDirectory c w d); [|apply keeps_throw].
  apply keeps_bind; [apply keeps_method_of|intros _; apply keeps_ret].
Qed.

Lemma keeps_FileSystem_rmdir (c : Constants) (path : string) :
  keeps_tree (FileSystem_rmdir c path).
Proof.
  apply keeps_bind; [apply keeps_parentDir|intros pn].
  apply keeps_bind; [apply keeps_gets|intros w].
  destruct (Entry_isDirectory c w _); [|apply keeps_throw].
  apply keeps_bind; [apply keeps_method_of|intros _; apply keeps_rmdir].
Qed.

Lemma keeps_FileSystem_unlink (c : Constants) (path : string) :
  keeps_tree (FileSystem_unlink c path).
Proof.
  apply keeps_bind; [apply keeps_parentDir|intros pn].
  apply keeps_bind; [apply keeps_gets|intros w].
  destruct (Entry_isDirectory c w _); [|apply keeps_throw].
  apply keeps_bind; [apply keeps_method_of|intros _; apply keeps_unlink].
Qed.

Lemma keeps_FileSystem_mkdir (c : Constants) (path : string) (mode : Z) :
  keeps_tree (FileSystem_mkdir c path mode).
Proof.
  intros w Hok. unfold FileSystem_mkdir.
  apply wp_bind. apply wp_parentDir; [assumption| |intros; assumption].
  intros d p Hd. cbn [fst snd].
  apply wp_bind, wp_gets; cbn [id].
  destruct (Entry_isDirectory c w d); [|apply wp_throw; assumption].
  apply wp_bind, wp_method_of; [assumption|intros _].
  apply wp_bind.
  eapply wp_mono; [apply wp_Directory_mkdir; assumption| |auto].
  intros a w' H. cbv beta in *. apply wp_ret. exact H.
Qed.

Lemma keeps_chmod (c : Constants) (path : string) (mode : Z) :
  keeps_tree (FileSystem_chmod c path mode).
Proof.
  apply keeps_bind; [apply keeps_lookup|intros e].
  unfold Entry_chmod. apply keeps_bind; [apply keeps_gets|intros w].
  apply keeps_modify. intros w' H. apply tree_ok_update_inode; [|exact H].
  intros x. reflexivity.
Qed.

Lemma keeps_chown (c : Constants) (path : string) (uid gid : Z) :
  keeps_tree (FileSystem_chown c path uid gid).
Proof. apply keeps_bind; [apply keeps_lookup|intros; apply keeps_throw]. Qed.

Lemma keeps_utimes (c : Constants) (path : string) (atime ctime : Time) :
  keeps_tree (FileSystem_utimes c path atime ctime).
Proof. apply keeps_bind; [apply keeps_lookup|intros; apply keeps_throw]. Qed.

Lemma tree_ok_update_fd (k : nat) (f : FileDescriptor.t -> FileDescriptor.t) (w : World.t) :
  tree_ok w -> tree_ok (update_fd k f w).
Proof. apply tree_ok_same_heap; reflexivity. Qed.

Lemma tree_ok_read (fuel : nat) (fd : Z) (buf : Buffer) (offset length position : option Z)
    (w : World.t) (r : Outcome (Z * Buffer) * World.t) :
  tree_ok w -> FileSystem_read fuel fd buf offset length position w = Some r ->
  tree_ok (snd r).
Proof.
  intros Hok. unfold FileSystem_read.
  pose proof (keeps_snd _ w (keeps_lookupFd fd) Hok) as H1.
  destruct (FileSystem_lookupFd fd w) as [[[k desc]|e] w1]; cbn in H1;
    [|intros [= <-]; exact H1].
  unfold FileDescriptor_read, FileDescriptor_file.
  set (desc' := match position with Some p => _ | None => desc end).
  set (w2 := update_fd k (fun _ => desc') w1).
  assert (H2 : tree_ok w2) by (apply tree_ok_update_fd; exact H1).
  destruct (FileDescriptor.file desc') as [f|]; [|intros [= <-]; exact H2].
  unfold bind, method_of, ret.
  destruct (Class_eqb _ _); [|intros [= <-]; exact H2].
  unfold File_read.
  destruct (read_loop _ _ _ _ _ _ _ _) as [[start buffer']|]; [|discriminate].
  intros [= <-]. cbn.
  apply tree_ok_update_fd. apply tree_ok_update_inode; [|exact H2].
  intros x. reflexivity.
Qed.

Lemma tree_ok_write (fuel : nat) (fd : Z) (buf : Buffer) (offset length position : option Z)
    (w : World.t) (r : Outcome Z * World.t) :
  tree_ok w -> FileSystem_write fuel fd buf offset length position w = Some r ->
  tree_ok (snd r).
Proof.
  intros Hok. unfold FileSystem_write.
  pose proof (keeps_snd _ w (keeps_lookupFd fd) Hok) as H1.
  destruct (FileSystem_lookupFd fd w) as [[[k desc]|e] w1]; cbn in H1;
    [|intros [= <-]; exact H1].
  unfold FileDescriptor_write, FileDescriptor_file.
  set (desc' := match position with Some p => _ | None => desc end).
  set (w2 := update_fd k (fun _ => desc') w1).
  assert (H2 : tree_ok w2) by (apply tree_ok_update_fd; exact H1).
  destruct (FileDescriptor.file desc') as [f|]; [|intros [= <-]; exact H2].
  unfold bind, method_of, ret.
  destruct (Class_eqb _ _); [|intros [= <-]; exact H2].
  unfold File_write.
  destruct (write_loop _ _ _ _ _ _ _ _) as [[start blocks']|]; [|discriminate].
  intros [= <-]. cbn.
  apply tree_ok_update_fd. apply tree_ok_update_inode; [|exact H2].
  intros x. reflexivity.
Qed.

Lemma tree_ok_new (c : Constants) (t : Time) : tree_ok (FileSystem_new c t).
Proof.
  split; cbn.
  - intros i e. unfold dir_entries, get_inode. cbn.
    destruct i as [|[|i]]; cbn; intros H; apply elem_of_nil in H; contradiction.
  - intros e He. unfold entry_inode, get_entry. cbn.
    destruct e as [|e]; cbn in *; lia.
  - lia.
  - intros i j e. unfold dir_entries, get_inode. cbn.
    destruct i as [|[|i]]; cbn; intros H; apply elem_of_nil in H; contradiction.
  - intros i. unfold dir_entries, get_inode. cbn.
    destruct i as [|[|i]]; cbn; apply NoDup_nil_2.
Qed.

Lemma exec_tree_ok (c : Constants) (fuel : nat) (op : Op) (w w' : World.t) :
  tree_ok w -> exec c fuel op w = Some w' -> tree_ok w'.
Proof.
  intros Hok. destruct op; cbn [exec].
  - intros [= <-]. eapply tree_ok_same_heap; [..|exact Hok]; reflexivity.
  - intros [= <-]. apply keeps_snd; [apply keeps_stat|assumption].
  - intros [= <-]. apply keeps_snd; [apply keeps_fstat|assumption].
  - intros [= <-]. apply keeps_snd; [apply keeps_FileSystem_truncate|assumption].
  - intros [= <-]. apply keeps_snd; [apply keeps_ftruncate|assumption].
  - intros [= <-]. apply keeps_snd; [apply keeps_open|assumption].
  - intros [= <-]. apply keeps_snd; [apply keeps_close|assumption].
  - destruct (FileSystem_read _ _ _ _ _ _ w) as [r|] eqn:Hr; [|discriminate].
    intros [= <-]. eapply tree_ok_read; eauto.
  - destruct (FileSystem_write _ _ _ _ _ _ w) as [r|] eqn:Hr; [|discriminate].
    intros [= <-]. eapply tree_ok_write; eauto.
  - intros [= <-]. apply keeps_snd; [apply keeps_setxattr|assumption].
  - intros [= <-]. apply keeps_snd; [apply keeps_getxattr|assumption].
  - intros [= <-]. apply keeps_snd; [apply keeps_listxattr|assumption].
  - intros [= <-]. apply keeps_snd; [apply keeps_removexattr|assumption].
  - intros [= <-]. apply keeps_snd; [apply keeps_readdir|assumption].
  - intros [= <-]. apply keeps_snd; [apply keeps_FileSystem_rmdir|assumption].
  - intros [= <-]. apply keeps_snd; [apply keeps_FileSystem_unlink|assumption].
  - intros [= <-]. apply keeps_snd; [apply keeps_FileSystem_mkdir|assumption].
  - intros [= <-]. apply keeps_snd; [apply keeps_chmod|assumption].
  - intros [= <-]. apply keeps_snd; [apply keeps_chown|assumption].
  - intros [= <-]. apply keeps_snd; [apply keeps_utimes|assumption].
  - intros [= <-]. apply keeps_snd; [apply keeps_link|assumption].
  - intros [= <-]. apply keeps_snd; [apply keeps_rename|assumption].
Qed.

Lemma reachable_tree_ok (c : Constants) (w : World.t) : reachable c w -> tree_ok w.
Proof.
  induction 1 as [t|w w' op fuel _ IH Hexec].
  - apply tree_ok_new.
  - eapply exec_tree_ok; eauto.
Qed.

(** ** Bodies that leave the descriptor table alone *)

Lemma neutral_ret {A} (a : A) : fds_neutral (ret a).
Proof. intros w. reflexivity. Qed.

Lemma neutral_throw {A} (e : Error) : fds_neutral (@throw A e).
Proof. intros w. reflexivity. Qed.

Lemma neutral_gets {A} (f : World.t -> A) : fds_neutral (gets f).
Proof. intros w. reflexivity. Qed.

Lemma neutral_now : fds_neutral now.
Proof. intros w. reflexivity. Qed.

Lemma neutral_lift {A} (f : World.t -> Outcome A) : fds_neutral (lift f).
Proof. intros w. reflexivity. Qed.

Lemma neutral_throw_if (b : bool) (e : Error) : fds_neutral (throw_if b e).
Proof. intros w. destruct b; reflexivity. Qed.

Lemma neutral_method_of (k : Class) (x : ref) : fds_neutral (method_of k x).
Proof. intros w. unfold method_of. destruct (Class_eqb _ _); reflexivity. Qed.

Lemma neutral_modify (f : World.t -> World.t) :
  (forall w, World.fds (f w) = World.fds w) -> fds_neutral (modify f).
Proof. intros Hf w. apply Hf. Qed.

Lemma neutral_alloc_inode (i : Inode.t) : fds_neutral (alloc_inode i).
Proof. intros w. reflexivity. Qed.

Lemma neutral_alloc_entry (e : Entry.t) : fds_neutral (alloc_entry e).
Proof. intros w. reflexivity. Qed.

Lemma neutral_bind {A B} (m : M A) (k : A -> M B) :
  fds_neutral m -> (forall a, fds_neutral (k a)) -> fds_neutral (bind m k).
Proof.
  intros Hm Hk w. unfold bind. specialize (Hm w).
  destruct (m w) as [[a|e] w1]; cbn in *; [|assumption].
  rewrite (Hk a w1). assumption.
Qed.

(** Decomposes a body into its steps. *)
Ltac neutral_step :=
  lazymatch goal with
  | |- fds_neutral (bind _ _) => apply neutral_bind; [|intros ?]
  | |- fds_neutral (ret _) => apply neutral_ret
  | |- fds_neutral (throw _) => apply neutral_throw
  | |- fds_neutral (gets _) => apply neutral_gets
  | |- fds_neutral now => apply neutral_now
  | |- fds_neutral (lift _) => apply neutral_lift
  | |- fds_neutral (throw_if _ _) => apply neutral_throw_if
  | |- fds_neutral (method_of _ _) => apply neutral_method_of
  | |- fds_neutral (alloc_inode _) => apply neutral_alloc_inode
  | |- fds_neutral (alloc_entry _) => apply neutral_alloc_entry
  | |- fds_neutral (modify _) => apply neutral_modify; intros; reflexivity
  | |- fds_neutral (match ?x with _ => _ end) => destruct x
  end.

Ltac neutral := repeat neutral_step.

Lemma neutral_Entry_new (k : Class) (mode : Z) (fs : bool) (name : string) (inode : option ref) :
  fds_neutral (Entry_new k mode fs name inode).
Proof. unfold Entry_new, Inode_new. neutral. Qed.

Lemma neutral_push (d e : ref) : fds_neutral (Directory_push d e).
Proof. unfold Directory_push. neutral. Qed.

Lemma neutral_remove (d e : ref) : fds_neutral (Directory_remove d e).
Proof. unfold Directory_remove. neutral. Qed.

Lemma neutral_reset (e : ref) : fds_neutral (Entry_reset e).
Proof. unfold Entry_reset. neutral. Qed.

Lemma neutral_create (c : Constants) (d : ref) (name : string) (mode : Z) :
  fds_neutral (Directory_create c d name mode).
Proof.
  unfold Directory_create, File_new.
  repeat
    lazymatch goal with
    | |- fds_neutral (Entry_reset _) => apply neutral_reset
    | |- fds_neutral (Directory_push _ _) => apply neutral_push
    | |- fds_neutral (Entry_new _ _ _ _ _) => apply neutral_Entry_new
    | |- _ => neutral_step
    end.
Qed.

Lemma neutral_parentDir (c : Constants) (path : string) :
  fds_neutral (FileSystem_parentDir c path).
Proof. unfold FileSystem_parentDir, FileSystem_lookup_parts. neutral. Qed.

Lemma neutral_lookupFd (fd : Z) : fds_neutral (FileSystem_lookupFd fd).
Proof. unfold FileSystem_lookupFd. neutral. Qed.

Lemma neutral_truncate (f : ref) (size : Z) : fds_neutral (File_truncate f size).
Proof. unfold File_truncate. neutral. Qed.

Lemma neutral_tree_ops (c : Constants) :
  (forall path, fds_neutral (FileSystem_stat c path)) /\
  (forall fd, fds_neutral (FileSystem_fstat fd)) /\
  (forall path size, fds_neutral (FileSystem_truncate c path size)) /\
  (forall fd size, fds_neutral (FileSystem_ftruncate fd size)) /\
  (forall path name value, fds_neutral (FileSystem_setxattr c path name value)) /\
  (forall path name, fds_neutral (FileSystem_getxattr c path name)) /\
  (forall path, fds_neutral (FileSystem_listxattr c path)) /\
  (forall path name, fds_neutral (FileSystem_removexattr c path name)) /\
  (forall path, fds_neutral (FileSystem_readdir c path)) /\
  (forall path, fds_neutral (FileSystem_rmdir c path)) /\
  (forall path, fds_neutral (FileSystem_unlink c path)) /\
  (forall path mode, fds_neutral (FileSystem_mkdir c path mode)) /\
  (forall path mode, fds_neutral (FileSystem_chmod c path mode)) /\
  (forall path uid gid, fds_neutral (FileSystem_chown c path uid gid)) /\
  (forall path atime ctime, fds_neutral (FileSystem_utimes c path atime ctime)) /\
  (forall from to, fds_neutral (FileSystem_link c from to)) /\
  (forall from to, fds_neutral (FileSystem_rename c from to)).
Proof.
  repeat split; intros;
    unfold FileSystem_stat, FileSystem_fstat, FileSystem_truncate, FileSystem_ftruncate,
      FileSystem_setxattr, FileSystem_getxattr, FileSystem_listxattr,
      FileSystem_removexattr, FileSystem_readdir, FileSystem_rmdir, FileSystem_unlink,
      FileSystem_mkdir, FileSystem_chmod, FileSystem_chown, FileSystem_utimes,
      FileSystem_link, FileSystem_rename,
      FileDescriptor_stat, FileDescriptor_truncate, FileDescriptor_file,
      Entry_setAttribute, Entry_removeAttribute, Entry_chmod,
      Directory_rmdir, Directory_unlink, Directory_mkdir, Directory_new, File_new,
      FileSystem_lookup, FileSystem_lookup_parts;
    repeat
      lazymatch goal with
      | |- fds_neutral (FileSystem_parentDir _ _) => apply neutral_parentDir
      | |- fds_neutral (FileSystem_lookupFd _) => apply neutral_lookupFd
      | |- fds_neutral (File_truncate _ _) => apply neutral_truncate
      | |- fds_neutral (Directory_remove _ _) => apply neutral_remove
      | |- fds_neutral (Directory_push _ _) => apply neutral_push
      | |- fds_neutral (Entry_new _ _ _ _ _) => apply neutral_Entry_new
      | |- _ => neutral_step
      end.
Qed.

Lemma wp_neutral {A} (m : M A) (w : World.t) (Q : A -> World.t -> Prop)
    (E : Error -> World.t -> Prop) :
  fds_neutral m ->
  (forall a w', World.fds w' = World.fds w -> Q a w') ->
  (forall e w', World.fds w' = World.fds w -> E e w') ->
  wp m w Q E.
Proof.
  intros Hm HQ HE. unfold wp. specialize (Hm w).
  destruct (m w) as [[a|e] w']; cbn in Hm; auto.
Qed.

(** ** The descriptor table *)

Lemma open_fds_spec (c : Constants) (path : string) (flag : Flag) (mode : Z) (w : World.t) :
  wp (FileSystem_open c path flag mode) w
    (fun fd w' =>
       fd = Z.of_nat (length (World.fds w)) + 20 /\
       exists d, World.fds w' = World.fds w ++ [Some d] /\ FileDescriptor.id d = fd)
    (fun _ w' => World.fds w' = World.fds w).
Proof.
  unfold FileSystem_open.
  apply wp_bind, wp_gets; cbn [id].
  apply wp_bind. apply wp_neutral; [apply neutral_parentDir| |auto].
  intros [parent name] w1 H1. cbn [fst snd].
  apply wp_bind, wp_method_of; [assumption|intros _].
  apply wp_bind, wp_gets; cbn [id].
  apply wp_bind, wp_throw_if; [intros; assumption|intros _].
  apply wp_bind, wp_throw_if; [intros; assumption|intros _].
  apply wp_bind, wp_throw_if; [intros; assumption|intros _].
  apply wp_bind. apply wp_neutral with (w := w1).
  { destruct (Directory_get w1 parent name); [|apply neutral_ret].
    destruct (_ && _); [apply neutral_reset|apply neutral_ret]. }
  2: { intros; congruence. }
  intros _ w2 H2.
  apply wp_bind. apply wp_neutral with (w := w2).
  { destruct (Directory_get w1 parent name); [apply neutral_ret|].
    apply neutral_bind; [apply neutral_throw_if|intros _; apply neutral_create]. }
  2: { intros; congruence. }
  intros f w3 H3.
  apply wp_bind, wp_gets; cbn [id].
  apply wp_bind, wp_modify. apply wp_ret.
  assert (Hid : forall (b : bool) p x d0,
            FileDescriptor.id (FileDescriptor.set_file x
              (if b then FileDescriptor.set_position p d0 else d0)) = FileDescriptor.id d0)
    by (intros [] ? ? ?; reflexivity).
  split; [rewrite Hid; reflexivity|].
  eexists. split.
  - cbn [World.fds World.set_fds]. rewrite H3, H2, H1. reflexivity.
  - reflexivity.
Qed.

Lemma close_eq (fd : Z) (w : World.t) :
  FileSystem_close fd w =
  match array_get (World.fds w) (fd - 20) with
  | None => (Throw EBADF, w)
  | Some _ =>
    (Return tt,
     World.set_fds (pop_trailing_nulls (<[Z.to_nat (fd - 20) := None]> (World.fds w))) w)
  end.
Proof.
  unfold FileSystem_close, bind, gets. cbn [id].
  destruct (array_get _ _); reflexivity.
Qed.

Lemma array_get_Some {A} (arr : list (option A)) (i : Z) (x : A) :
  array_get arr i = Some x -> 0 <= i /\ arr !! Z.to_nat i = Some (Some x).
Proof.
  unfold array_get. destruct (Z.ltb_spec i 0); [discriminate|].
  destruct (arr !! Z.to_nat i) as [[y|]|]; cbn; try discriminate.
  intros [= ->]. split; [assumption|reflexivity].
Qed.

Lemma update_fd_insert (k : nat) (f : FileDescriptor.t -> FileDescriptor.t)
    (d : FileDescriptor.t) (w : World.t) :
  World.fds w !! k = Some (Some d) ->
  World.fds (update_fd k f w) = <[k := Some (f d)]> (World.fds w).
Proof.
  intros Hk. cbn. apply list_eq. intros j.
  rewrite list_lookup_alter. destruct (decide (k = j)) as [<-|Hne].
  - rewrite list_lookup_insert_eq by (eapply lookup_lt_Some; eauto).
    rewrite Hk. reflexivity.
  - rewrite list_lookup_insert_ne by assumption. reflexivity.
Qed.

Lemma same_descriptor_position (d : FileDescriptor.t) (p : Z) :
  same_descriptor d (FileDescriptor.set_position p d).
Proof. reflexivity. Qed.

Lemma read_fds (fuel : nat) (fd : Z) (buf : Buffer) (offset length position : option Z)
    (w : World.t) (r : Outcome (Z * Buffer) * World.t) :
  FileSystem_read fuel fd buf offset length position w = Some r ->
  fds_step (OpRead fd buf offset length position) (World.fds w) (World.fds (snd r)).
Proof.
  unfold fds_step, FileSystem_read, FileSystem_lookupFd, bind, gets. cbn [id].
  destruct (array_get (World.fds w) (fd - 20)) as [desc|] eqn:Hget; cbn;
    [|intros [= <-]; left; reflexivity].
  destruct (array_get_Some _ _ _ Hget) as [_ Hk].
  unfold FileDescriptor_read, FileDescriptor_file.
  set (desc' := match position with Some p => _ | None => desc end).
  set (k := Z.to_nat (fd - 20)) in *.
  assert (Hsame : same_descriptor desc desc') by (unfold desc'; destruct position; reflexivity).
  assert (H2 : World.fds (update_fd k (fun _ => desc') w) = <[k := Some desc']> (World.fds w))
    by (apply (update_fd_insert k (fun _ => desc') desc w Hk)).
  destruct (FileDescriptor.file desc') as [f|].
  2: { intros [= <-]. right. exists desc, desc'. auto. }
  unfold bind, method_of, ret.
  change (get_entry (update_fd k _ w) f) with (get_entry w f).
  destruct (Class_eqb _ _).
  2: { intros [= <-]. right. exists desc, desc'. auto. }
  unfold File_read.
  destruct (read_loop _ _ _ _ _ _ _ _) as [[start buffer']|]; [|discriminate].
  intros [= <-]. right.
  exists desc, (FileDescriptor.set_position
                  (FileDescriptor.position desc' + Z.min (Buffer_length
                     (Buffer_slice buf (default 0 offset)
                        (default 0 offset + default (Buffer_length buf) length))) start) desc').
  split; [reflexivity|]. split; [exact Hsame|].
  cbn [snd].
  erewrite update_fd_insert.
  2: { cbn [World.fds update_inode World.set_heap_inodes]. rewrite H2.
       apply list_lookup_insert_eq. eapply lookup_lt_Some; eauto. }
  cbn [World.fds update_inode World.set_heap_inodes]. rewrite H2.
  rewrite list_insert_insert_eq. reflexivity.
Qed.

Lemma write_fds (fuel : nat) (fd : Z) (buf : Buffer) (offset length position : option Z)
    (w : World.t) (r : Outcome Z * World.t) :
  FileSystem_write fuel fd buf offset length position w = Some r ->
  fds_step (OpWrite fd buf offset length position) (World.fds w) (World.fds (snd r)).
Proof.
  unfold fds_step, FileSystem_write, FileSystem_lookupFd, bind, gets. cbn [id].
  destruct (array_get (World.fds w) (fd - 20)) as [desc|] eqn:Hget; cbn;
    [|intros [= <-]; left; reflexivity].
  destruct (array_get_Some _ _ _ Hget) as [_ Hk].
  unfold FileDescriptor_write, FileDescriptor_file.
  set (desc' := match position with Some p => _ | None => desc end).
  set (k := Z.to_nat (fd - 20)) in *.
  assert (Hsame : same_descriptor desc desc') by (unfold desc'; destruct position; reflexivity).
  assert (H2 : World.fds (update_fd k (fun _ => desc') w) = <[k := Some desc']> (World.fds w))
    by (apply (update_fd_insert k (fun _ => desc') desc w Hk)).
  destruct (FileDescriptor.file desc') as [f|].
  2: { intros [= <-]. right. exists desc, desc'. auto. }
  unfold bind, method_of, ret.
  change (get_entry (update_fd k _ w) f) with (get_entry w f).
  destruct (Class_eqb _ _).
  2: { intros [= <-]. right. exists desc, desc'. auto. }
  unfold File_write.
  destruct (write_loop _ _ _ _ _ _ _ _) as [[start blocks']|]; [|discriminate].
  intros [= <-]. right.
  exists desc, (FileDescriptor.set_position
                  (FileDescriptor.position desc' + Buffer_length
                     (Buffer_slice buf (default 0 offset)
                        (default 0 offset + default (Buffer_length buf) length))) desc').
  split; [reflexivity|]. split; [exact Hsame|].
  cbn [snd].
  erewrite update_fd_insert.
  2: { cbn [World.fds update_inode World.set_heap_inodes]. rewrite H2.
       apply list_lookup_insert_eq. eapply lookup_lt_Some; eauto. }
  cbn [World.fds update_inode World.set_heap_inodes]. rewrite H2.
  rewrite list_insert_insert_eq. reflexivity.
Qed.

Lemma exec_fds (c : Constants) (fuel : nat) (op : Op) (w w' : World.t) :
  exec c fuel op w = Some w' -> fds_step op (World.fds w) (World.fds w').
Proof.
  destruct (neutral_tree_ops c) as
    (Hstat & Hfstat & Htrunc & Hftrunc & Hsetx & Hgetx & Hlistx & Hremx & Hreaddir &
     Hrmdir & Hunlink & Hmkdir & Hchmod & Hchown & Hutimes & Hlink & Hrename).
  destruct op; cbn [exec fds_step];
    try (intros [= <-];
         first [ reflexivity | apply Hstat | apply Hfstat | apply Htrunc | apply Hftrunc
               | apply Hsetx | apply Hgetx | apply Hlistx | apply Hremx | apply Hreaddir
               | apply Hrmdir | apply Hunlink | apply Hmkdir | apply Hchmod | apply Hchown
               | apply Hutimes | apply Hlink | apply Hrename ]; fail).
  - intros [= <-].
    match goal with
    | |- context [FileSystem_open c ?p ?f ?m w] =>
      pose proof (open_fds_spec c p f m w) as H; unfold wp in H;
      destruct (FileSystem_open c p f m w) as [[fd'|e] w1]; cbn
    end.
    + destruct H as (-> & d & Hd & Hid). right. eauto.
    + left. assumption.
  - intros [= <-]. rewrite close_eq. destruct (array_get _ _); reflexivity.
  - destruct (FileSystem_read _ _ _ _ _ _ w) as [r|] eqn:Hr; [|discriminate].
    intros [= <-]. apply (read_fds _ _ _ _ _ _ _ _ Hr).
  - destruct (FileSystem_write _ _ _ _ _ _ w) as [r|] eqn:Hr; [|discriminate].
    intros [= <-]. apply (write_fds _ _ _ _ _ _ _ _ Hr).
Qed.

(** ** The table never ends with a null *)

Lemma drop_nulls_head {A} (l : list (option A)) : head (drop_nulls l) <> Some None.
Proof.
  induction l as [|[x|] l IH]; cbn; [discriminate|discriminate|assumption].
Qed.

Lemma fds_ok_pop {A} (l : list (option A)) : fds_ok (pop_trailing_nulls l).
Proof.
  unfold fds_ok, pop_trailing_nulls. rewrite last_reverse. apply drop_nulls_head.
Qed.

Lemma fds_ok_snoc {A} (l : list (option A)) (x : A) : fds_ok (l ++ [Some x]).
Proof. unfold fds_ok. rewrite last_snoc. discriminate. Qed.

Lemma fds_ok_insert {A} (l : list (option A)) (k : nat) (x : A) :
  fds_ok l -> fds_ok (<[k := Some x]> l).
Proof.
  unfold fds_ok. rewrite !last_lookup, length_insert. intros H.
  destruct (decide (k = pred (length l))) as [->|Hne].
  - destruct (decide (pred (length l) < length l)%nat).
    + rewrite list_lookup_insert_eq by assumption. discriminate.
    + rewrite list_insert_ge by lia. assumption.
  - rewrite list_lookup_insert_ne by assumption. assumption.
Qed.

Lemma exec_fds_ok (c : Constants) (fuel : nat) (op : Op) (w w' : World.t) :
  fds_ok (World.fds w) -> exec c fuel op w = Some w' -> fds_ok (World.fds w').
Proof.
  intros Hok Hexec. apply exec_fds in Hexec.
  destruct op; cbn [fds_step] in Hexec; try (rewrite Hexec; assumption).
  - destruct Hexec as [->|(d & -> & _)]; [assumption|apply fds_ok_snoc].
  - destruct (array_get _ _); rewrite Hexec; [apply fds_ok_pop|assumption].
  - destruct Hexec as [->|(d & d' & _ & _ & ->)]; [assumption|apply fds_ok_insert, Hok].
  - destruct Hexec as [->|(d & d' & _ & _ & ->)]; [assumption|apply fds_ok_insert, Hok].
Qed.

Lemma reachable_Inv (c : Constants) (w : World.t) : reachable c w -> Inv w.
Proof.
  induction 1 as [t|w w' op fuel _ [IHt IHf] Hexec].
  - split; [apply tree_ok_new|]. cbn. discriminate.
  - split; [eapply exec_tree_ok|eapply exec_fds_ok]; eauto.
Qed.

Lemma run_reachable (c : Constants) (fuel : nat) (ops : list Op) :
  forall w w', reachable c w -> run c fuel ops w = Some w' -> reachable c w'.
Proof.
  induction ops as [|op ops IH]; intros w w' Hr; cbn [run].
  - intros [= <-]. assumption.
  - destruct (exec c fuel op w) as [w1|] eqn:Hexec; [|discriminate].
    apply IH. eapply reachable_step; eauto.
Qed.

(** ** Trimming and the open descriptors *)

Lemma drop_nulls_spec {A} (l : list (option A)) :
  exists n, l = replicate n None ++ drop_nulls l.
Proof.
  induction l as [|[x|] l [n IH]]; cbn.
  - exists 0%nat. reflexivity.
  - exists 0%nat. reflexivity.
  - exists (S n). cbn. rewrite <- IH. reflexivity.
Qed.

(** Trimming only takes nulls off the end. *)
Lemma pop_trailing_nulls_spec {A} (l : list (option A)) :
  exists n, l = pop_trailing_nulls l ++ replicate n None.
Proof.
  unfold pop_trailing_nulls.
  destruct (drop_nulls_spec (reverse l)) as [n Hn].
  exists n. apply (f_equal reverse) in Hn.
  rewrite reverse_involutive, reverse_app, reverse_replicate in Hn. exact Hn.
Qed.










Lemma array_get_lookup {A} (arr : list (option A)) (i : Z) (x : A) :
  0 <= i -> arr !! Z.to_nat i = Some (Some x) -> array_get arr i = Some x.
Proof.
  intros Hi Hx. unfold array_get. destruct (Z.ltb_spec i 0); [lia|].
  rewrite Hx. reflexivity.
Qed.


Lemma run_Inv (c : Constants) (t : Time) (fuel : nat) (ops : list Op) (w : World.t) :
  run c fuel ops (FileSystem_new c t) = Some w -> Inv w.
Proof.
  intros H. eapply reachable_Inv, run_reachable; [apply reachable_new|exact H].
Qed.

(** [open] on an entry that exists, is a regular file and is not opened
    exclusively: the world it leaves and the descriptor it appends. *)
Lemma open_existing_eq (c : Constants) (path : string) (flag : Flag) (mode : Z)
    (w : World.t) (parent : ref) (name : string) (f : ref) :
  FileSystem_parentDir c path w = (Return (parent, name), w) ->
  Entry.cls (get_entry w parent) = ClassDirectory ->
  Directory_get w parent name = Some f ->
  Entry_isFile c w f = true ->
  FileDescriptor.exclusive
    (FileDescriptor_new c flag (Z.of_nat (length (World.fds w)) + 20)) = false ->
  let desc := FileDescriptor_new c flag (Z.of_nat (length (World.fds w)) + 20) in
  let w1 :=
    if negb (FileDescriptor.appending desc) && FileDescriptor.writable desc
    then snd (Entry_reset f w) else w in
  let d :=
    FileDescriptor.set_file (Some f)
      (if FileDescriptor.appending desc
       then FileDescriptor.set_position (Inode.size (inode_of w1 f)) desc
       else desc) in
  FileSystem_open c path flag mode w =
  (Return (Z.of_nat (length (World.fds w)) + 20),
   World.set_fds (World.fds w1 ++ [Some d]) w1).
Proof.
  intros Hpd Hcls Hget Hfile Hexcl desc w1 d. subst d w1.
  unfold FileSystem_open.
  unfold bind at 1. unfold gets at 1. cbn [id].
  unfold bind at 1. rewrite Hpd. cbn [fst snd].
  unfold bind at 1. unfold method_of at 1. rewrite Hcls. cbn [Class_eqb].
  unfold bind at 1. unfold gets at 1. cbn [id].
  rewrite Hget.
  unfold bind at 1. unfold throw_if at 1. rewrite Hfile. cbn [negb]. unfold ret at 1.
  unfold bind at 1. unfold throw_if at 1. rewrite Hexcl. cbn [andb]. unfold ret at 1.
  unfold bind at 1. unfold throw_if at 1.
  rewrite (bool_decide_eq_true_2 (is_Some (Some f))) by (eexists; reflexivity).
  cbn [negb]. rewrite andb_false_r. unfold ret at 1.
  fold desc.
  destruct (FileDescriptor.appending desc), (FileDescriptor.writable desc); reflexivity.
Qed.

Lemma open_existing_exclusive (c : Constants) (path : string) (flag : Flag) (mode : Z)
    (w : World.t) (parent : ref) (name : string) (f : ref) :
  FileSystem_parentDir c path w = (Return (parent, name), w) ->
  Entry.cls (get_entry w parent) = ClassDirectory ->
  Directory_get w parent name = Some f ->
  Entry_isFile c w f = true ->
  FileDescriptor.exclusive
    (FileDescriptor_new c flag (Z.of_nat (length (World.fds w)) + 20)) = true ->
  FileSystem_open c path flag mode w = (Throw EEXIST, w).
Proof.
  intros Hpd Hcls Hget Hfile Hexcl.
  unfold FileSystem_open.
  unfold bind at 1. unfold gets at 1. cbn [id].
  unfold bind at 1. rewrite Hpd. cbn [fst snd].
  unfold bind at 1. unfold method_of at 1. rewrite Hcls. cbn [Class_eqb].
  unfold bind at 1. unfold gets at 1. cbn [id].
  rewrite Hget.
  unfold bind at 1. unfold throw_if at 1. rewrite Hfile. cbn [negb]. unfold ret at 1.
  unfold bind at 1. unfold throw_if at 1. rewrite Hexcl.
  rewrite (bool_decide_eq_true_2 (is_Some (Some f))) by (eexists; reflexivity).
  reflexivity.
Qed.



(** ** Whole blocks *)

Lemma files_ok_update_inode (r : ref) (g : Inode.t -> Inode.t) (w : World.t) :
  (forall x, blocks_ok (Inode.blocks x) -> blocks_ok (Inode.blocks (g x))) ->
  files_ok w -> files_ok (update_inode r g w).
Proof.
  intros Hg Hall i.
  destruct (decide (i = r)) as [->|Hne].
  - destruct (decide (r < length (World.heap_inodes w))%nat) as [Hlt|Hge].
    + rewrite get_inode_update_eq by assumption. apply Hg, Hall.
    + rewrite get_inode_update_ge by lia. apply Hall.
  - rewrite get_inode_update_ne by congruence. apply Hall.
Qed.

(** ** [File.write] always completes *)

Lemma write_loop_step_any (fuel : nat) (size : Z) (blocks : list (option Buffer))
    (i o start offset : Z) (buffer : Buffer) :
  blocks_ok blocks -> - BLOCK_SIZE < o < BLOCK_SIZE ->
  start < Buffer_length buffer -> offset < size ->
  write_loop (S fuel) size blocks i o start offset buffer =
  write_loop fuel size (write_block blocks i o start buffer) (i + 1) 0
    (start + write_advance o) (offset + write_advance o) buffer.
Proof.
  intros Hok Hor Hs Ho.
  cbn [write_loop].
  destruct (Z.ltb_spec start (Buffer_length buffer)); [|lia].
  destruct (Z.ltb_spec offset size); [|lia].
  cbn [andb]. fold (write_block blocks i o start buffer).
  set (blocks1 := match array_get blocks i with
                  | Some _ => blocks
                  | None => array_set blocks i (Buffer_alloc BLOCK_SIZE)
                  end).
  set (stored := default (Buffer_alloc BLOCK_SIZE) (array_get blocks1 i)).
  assert (Hstored : Buffer_length stored = BLOCK_SIZE)
    by (apply blocks_ok_default, blocks_ok_ensure; assumption).
  assert (Hblk : Buffer_length (if o =? 0 then stored else Buffer_slice_from stored o)
                 = write_advance o).
  { unfold write_advance.
    destruct (Z.eqb_spec o 0) as [->|Hne]; [cbn; lia|].
    unfold Buffer_slice_from, Buffer_length at 1. rewrite js_slice_length.
    fold (Buffer_length stored). rewrite Hstored.
    unfold adjustOffset.
    destruct (Z.ltb_spec BLOCK_SIZE 0); destruct (Z.ltb_spec o 0); lia. }
  rewrite Hblk. reflexivity.
Qed.

Lemma write_advance_pos (o : Z) : - BLOCK_SIZE < o < BLOCK_SIZE -> 0 < write_advance o.
Proof. unfold write_advance. destruct (Z.ltb_spec o 0); lia. Qed.

(** The loop ends within as many iterations as there are bytes left to
    write, with every byte written and the blocks still whole. *)
Lemma write_loop_total (fuel : nat) :
  forall (size : Z) (blocks : list (option Buffer)) (i o start offset : Z) (buffer : Buffer),
  blocks_ok blocks -> - BLOCK_SIZE < o < BLOCK_SIZE ->
  offset - start + Buffer_length buffer <= size ->
  (Z.to_nat (Buffer_length buffer - start) <= fuel)%nat ->
  exists start' blocks',
    write_loop fuel size blocks i o start offset buffer = Some (start', blocks') /\
    Buffer_length buffer <= start' /\ blocks_ok blocks'.
Proof.
  induction fuel as [|fuel IH]; intros size blocks i o start offset buffer Hok Hor Hsize Hfuel.
  - exists start, blocks. split; [apply write_loop_done; lia|].
    split; [lia|assumption].
  - destruct (Z_lt_le_dec start (Buffer_length buffer)) as [Hlt|Hge].
    + rewrite write_loop_step_any by (assumption || lia).
      pose proof (write_advance_pos o Hor) as Hadv.
      pose proof BLOCK_SIZE_pos as Hpos.
      apply IH; [apply write_block_ok; assumption|lia|lia|lia].
    + exists start, blocks. split; [apply write_loop_done; lia|].
      split; [lia|assumption].
Qed.

Lemma rem_BLOCK_SIZE_range (offset : Z) :
  - BLOCK_SIZE < Z.rem offset BLOCK_SIZE < BLOCK_SIZE.
Proof.
  pose proof BLOCK_SIZE_pos as Hpos.
  pose proof (Z.rem_bound_abs offset BLOCK_SIZE ltac:(lia)) as H.
  lia.
Qed.

(** [File.write] returns the length of the buffer, for every offset, within
    as many iterations as the buffer has bytes; the blocks stay whole. *)
Lemma File_write_returns (fuel : nat) (w : World.t) (f : ref) (offset : Z) (buffer : Buffer) :
  blocks_ok (Inode.blocks (inode_of w f)) ->
  (length buffer <= fuel)%nat ->
  exists w',
    File_write fuel f offset buffer w = Some (Buffer_length buffer, w') /\
    World.heap_entries w' = World.heap_entries w /\
    World.fds w' = World.fds w /\
    (files_ok w -> files_ok w').
Proof.
  intros Hok Hfuel. unfold File_write.
  set (size := if offset + Buffer_length buffer >? Inode.size (inode_of w f)
               then offset + Buffer_length buffer else Inode.size (inode_of w f)).
  assert (Hsize : offset + Buffer_length buffer <= size).
  { unfold size.
    destruct (Z.gtb_spec (offset + Buffer_length buffer) (Inode.size (inode_of w f))); lia. }
  destruct (write_loop_total fuel size (Inode.blocks (inode_of w f))
              (offset / BLOCK_SIZE) (Z.rem offset BLOCK_SIZE) 0 offset buffer)
    as (start' & blocks' & -> & Hstart & Hok');
    [assumption|apply rem_BLOCK_SIZE_range|lia|unfold Buffer_length; lia|].
  eexists. split; [f_equal; f_equal; lia|].
  split; [reflexivity|]. split; [reflexivity|].
  intros Hall. apply files_ok_update_inode; [|assumption].
  intros x _. exact Hok'.
Qed.

(** ** Invariants of single worlds, step by step *)

Section Preserves.
Context (I : World.t -> Prop).

Lemma preserves_ret {A} (a : A) : preserves I (ret a).
Proof. intros w H. exact H. Qed.

Lemma preserves_throw {A} (e : Error) : preserves I (@throw A e).
Proof. intros w H. exact H. Qed.

Lemma preserves_gets {A} (f : World.t -> A) : preserves I (gets f).
Proof. intros w H. exact H. Qed.

Lemma preserves_now : preserves I now.
Proof. intros w H. exact H. Qed.

Lemma preserves_lift {A} (f : World.t -> Outcome A) : preserves I (lift f).
Proof. intros w H. exact H. Qed.

Lemma preserves_throw_if (b : bool) (e : Error) : preserves I (throw_if b e).
Proof. intros w H. destruct b; exact H. Qed.

Lemma preserves_method_of (k : Class) (x : ref) : preserves I (method_of k x).
Proof. intros w H. unfold method_of. destruct (Class_eqb _ _); exact H. Qed.

Lemma preserves_modify (f : World.t -> World.t) :
  (forall w, I w -> I (f w)) -> preserves I (modify f).
Proof. intros Hf w H. apply Hf, H. Qed.

Lemma preserves_alloc_inode (i : Inode.t) :
  (forall w, I w -> I (World.set_heap_inodes (World.heap_inodes w ++ [i]) w)) ->
  preserves I (alloc_inode i).
Proof. intros Hf w H. apply Hf, H. Qed.

Lemma preserves_alloc_entry (e : Entry.t) :
  (forall w, I w -> I (World.set_heap_entries (World.heap_entries w ++ [e]) w)) ->
  preserves I (alloc_entry e).
Proof. intros Hf w H. apply Hf, H. Qed.

Lemma preserves_bind {A B} (m : M A) (k : A -> M B) :
  preserves I m -> (forall a, preserves I (k a)) -> preserves I (bind m k).
Proof.
  intros Hm Hk w H. unfold bind. specialize (Hm w H).
  destruct (m w) as [[a|e] w1]; cbn in *; [|assumption].
  apply Hk, Hm.
Qed.

End Preserves.

(** Decomposes a body into its steps; [tac] shows that one assignment keeps
    the invariant. *)
Ltac preserves_step tac :=
  lazymatch goal with
  | |- preserves _ (bind _ _) => apply preserves_bind; [|intros ?]
  | |- preserves _ (ret _) => apply preserves_ret
  | |- preserves _ (throw _) => apply preserves_throw
  | |- preserves _ (gets _) => apply preserves_gets
  | |- preserves _ now => apply preserves_now
  | |- preserves _ (lift _) => apply preserves_lift
  | |- preserves _ (throw_if _ _) => apply preserves_throw_if
  | |- preserves _ (method_of _ _) => apply preserves_method_of
  | |- preserves _ (alloc_inode _) => apply preserves_alloc_inode; tac
  | |- preserves _ (alloc_entry _) => apply preserves_alloc_entry; tac
  | |- preserves _ (modify _) => apply preserves_modify; tac
  | |- preserves _ (match ?x with _ => _ end) => destruct x
  end.

(** ** Every reachable file has whole blocks *)

Lemma array_get_slice {A} (l : list (option A)) (first last i : Z) (x : A) :
  array_get (js_slice l first last) i = Some x -> exists j, array_get l j = Some x.
Proof.
  intros H. apply array_get_Some in H as [Hi H].
  unfold js_slice in H. apply lookup_take_Some in H as [H _].
  rewrite lookup_drop in H.
  set (s := Z.to_nat (adjustOffset first (Z.of_nat (length l)))) in *.
  exists (Z.of_nat (s + Z.to_nat i)).
  unfold array_get. destruct (Z.ltb_spec (Z.of_nat (s + Z.to_nat i)) 0); [lia|].
  rewrite Nat2Z.id, H. reflexivity.
Qed.

Lemma blocks_ok_slice (blocks : list (option Buffer)) (first last : Z) :
  blocks_ok blocks -> blocks_ok (js_slice blocks first last).
Proof.
  intros Hok i b H. apply array_get_slice in H as [j Hj]. eapply Hok, Hj.
Qed.

Lemma files_ok_alloc (i : Inode.t) (w : World.t) :
  blocks_ok (Inode.blocks i) -> files_ok w ->
  files_ok (World.set_heap_inodes (World.heap_inodes w ++ [i]) w).
Proof.
  intros Hi Hall j. unfold get_inode. cbn.
  rewrite list_lookup_total_alt.
  destruct (decide (j < length (World.heap_inodes w))%nat) as [Hlt|Hge].
  - rewrite lookup_app_l by assumption.
    specialize (Hall j). unfold get_inode in Hall.
    rewrite list_lookup_total_alt in Hall. exact Hall.
  - rewrite lookup_app_r by lia.
    destruct (j - length (World.heap_inodes w))%nat as [|n]; cbn; [exact Hi|].
    apply blocks_ok_nil.
Qed.

(** One assignment keeps the blocks whole: it leaves the blocks alone,
    empties them, or keeps a slice of them. *)
Ltac files_ok_assignment :=
  let w := fresh "w" in
  let H := fresh "H" in
  intros w H;
  first
    [ exact H
    | apply files_ok_alloc; [apply blocks_ok_nil|exact H]
    | apply files_ok_update_inode; [|exact H];
      let x := fresh "x" in
      let Hx := fresh "Hx" in
      intros x Hx;
      first [exact Hx | apply blocks_ok_nil | apply blocks_ok_slice; exact Hx] ].

Ltac files_ok_body := repeat preserves_step files_ok_assignment.

Lemma files_Entry_new (k : Class) (mode : Z) (fs : bool) (name : string) (inode : option ref) :
  preserves files_ok (Entry_new k mode fs name inode).
Proof. unfold Entry_new, Inode_new. files_ok_body. Qed.

Lemma files_push (d e : ref) : preserves files_ok (Directory_push d e).
Proof. unfold Directory_push. files_ok_body. Qed.

Lemma files_remove (d e : ref) : preserves files_ok (Directory_remove d e).
Proof. unfold Directory_remove. files_ok_body. Qed.

Lemma files_reset (e : ref) : preserves files_ok (Entry_reset e).
Proof. unfold Entry_reset. files_ok_body. Qed.

Lemma files_parentDir (c : Constants) (path : string) :
  preserves files_ok (FileSystem_parentDir c path).
Proof. unfold FileSystem_parentDir, FileSystem_lookup_parts. files_ok_body. Qed.

Lemma files_lookupFd (fd : Z) : preserves files_ok (FileSystem_lookupFd fd).
Proof. unfold FileSystem_lookupFd. files_ok_body. Qed.

Lemma files_truncate (f : ref) (size : Z) : preserves files_ok (File_truncate f size).
Proof. unfold File_truncate. files_ok_body. Qed.

Lemma files_ops (c : Constants) :
  (forall path, preserves files_ok (FileSystem_stat c path)) /\
  (forall fd, preserves files_ok (FileSystem_fstat fd)) /\
  (forall path size, preserves files_ok (FileSystem_truncate c path size)) /\
  (forall fd size, preserves files_ok (FileSystem_ftruncate fd size)) /\
  (forall path flag mode, preserves files_ok (FileSystem_open c path flag mode)) /\
  (forall fd, preserves files_ok (FileSystem_close fd)) /\
  (forall path name value, preserves files_ok (FileSystem_setxattr c path name value)) /\
  (forall path name, preserves files_ok (FileSystem_getxattr c path name)) /\
  (forall path, preserves files_ok (FileSystem_listxattr c path)) /\
  (forall path name, preserves files_ok (FileSystem_removexattr c path name)) /\
  (forall path, preserves files_ok (FileSystem_readdir c path)) /\
  (forall path, preserves files_ok (FileSystem_rmdir c path)) /\
  (forall path, preserves files_ok (FileSystem_unlink c path)) /\
  (forall path mode, preserves files_ok (FileSystem_mkdir c path mode)) /\
  (forall path mode, preserves files_ok (FileSystem_chmod c path mode)) /\
  (forall path uid gid, preserves files_ok (FileSystem_chown c path uid gid)) /\
  (forall path atime ctime, preserves files_ok (FileSystem_utimes c path atime ctime)) /\
  (forall from to, preserves files_ok (FileSystem_link c from to)) /\
  (forall from to, preserves files_ok (FileSystem_rename c from to)).
Proof.
  repeat split; intros;
    unfold FileSystem_stat, FileSystem_fstat, FileSystem_truncate, FileSystem_ftruncate,
      FileSystem_open, FileSystem_close,
      FileSystem_setxattr, FileSystem_getxattr, FileSystem_listxattr,
      FileSystem_removexattr, FileSystem_readdir, FileSystem_rmdir, FileSystem_unlink,
      FileSystem_mkdir, FileSystem_chmod, FileSystem_chown, FileSystem_utimes,
      FileSystem_link, FileSystem_rename,
      FileDescriptor_stat, FileDescriptor_truncate, FileDescriptor_file,
      Entry_setAttribute, Entry_removeAttribute, Entry_chmod,
      Directory_rmdir, Directory_unlink, Directory_mkdir, Directory_create,
      Directory_new, File_new,
      FileSystem_lookup, FileSystem_lookup_parts;
    repeat
      lazymatch goal with
      | |- preserves _ (FileSystem_parentDir _ _) => apply files_parentDir
      | |- preserves _ (FileSystem_lookupFd _) => apply files_lookupFd
      | |- preserves _ (File_truncate _ _) => apply files_truncate
      | |- preserves _ (Directory_remove _ _) => apply files_remove
      | |- preserves _ (Directory_push _ _) => apply files_push
      | |- preserves _ (Entry_reset _) => apply files_reset
      | |- preserves _ (Entry_new _ _ _ _ _) => apply files_Entry_new
      | |- _ => preserves_step files_ok_assignment
      end.
Qed.

Lemma write_loop_blocks_ok (fuel : nat) :
  forall (size : Z) (blocks : list (option Buffer)) (i o start offset : Z) (buffer : Buffer)
         (start' : Z) (blocks' : list (option Buffer)),
  blocks_ok blocks -> - BLOCK_SIZE < o < BLOCK_SIZE ->
  write_loop fuel size blocks i o start offset buffer = Some (start', blocks') ->
  blocks_ok blocks'.
Proof.
  induction fuel as [|fuel IH];
    intros size blocks i o start offset buffer start' blocks' Hok Hor.
  - cbn [write_loop]. destruct (_ && _); [discriminate|]. intros [= _ <-]. exact Hok.
  - destruct (Z_lt_le_dec start (Buffer_length buffer)) as [Hlt|Hge];
      [destruct (Z_lt_le_dec offset size) as [Hlt'|Hge']|].
    + rewrite write_loop_step_any by assumption.
      apply IH; [apply write_block_ok; assumption|].
      pose proof BLOCK_SIZE_pos. lia.
    + rewrite write_loop_done by lia. intros [= _ <-]. exact Hok.
    + rewrite write_loop_done by lia. intros [= _ <-]. exact Hok.
Qed.

Lemma files_ok_read (fuel : nat) (fd : Z) (buf : Buffer) (offset length position : option Z)
    (w : World.t) (r : Outcome (Z * Buffer) * World.t) :
  files_ok w -> FileSystem_read fuel fd buf offset length position w = Some r ->
  files_ok (snd r).
Proof.
  intros Hok. unfold FileSystem_read.
  pose proof (files_lookupFd fd w Hok) as H1.
  destruct (FileSystem_lookupFd fd w) as [[[k desc]|e] w1]; cbn in H1;
    [|intros [= <-]; exact H1].
  unfold FileDescriptor_read, FileDescriptor_file.
  set (desc' := match position with Some p => _ | None => desc end).
  destruct (FileDescriptor.file desc') as [f|]; [|intros [= <-]; exact H1].
  unfold bind, method_of, ret.
  destruct (Class_eqb _ _); [|intros [= <-]; exact H1].
  unfold File_read.
  destruct (read_loop _ _ _ _ _ _ _ _) as [[start buffer']|]; [|discriminate].
  intros [= <-]. cbn [snd].
  apply (files_ok_update_inode _ _ (update_fd k (fun _ => desc') w1)); [|exact H1].
  intros x Hx. exact Hx.
Qed.

Lemma files_ok_write (fuel : nat) (fd : Z) (buf : Buffer) (offset length position : option Z)
    (w : World.t) (r : Outcome Z * World.t) :
  files_ok w -> FileSystem_write fuel fd buf offset length position w = Some r ->
  files_ok (snd r).
Proof.
  intros Hok. unfold FileSystem_write.
  pose proof (files_lookupFd fd w Hok) as H1.
  destruct (FileSystem_lookupFd fd w) as [[[k desc]|e] w1]; cbn in H1;
    [|intros [= <-]; exact H1].
  unfold FileDescriptor_write, FileDescriptor_file.
  set (desc' := match position with Some p => _ | None => desc end).
  destruct (FileDescriptor.file desc') as [f|]; [|intros [= <-]; exact H1].
  unfold bind, method_of, ret.
  destruct (Class_eqb _ _); [|intros [= <-]; exact H1].
  unfold File_write.
  destruct (write_loop _ _ _ _ _ _ _ _) as [[start blocks']|] eqn:Hloop; [|discriminate].
  intros [= <-]. cbn [snd].
  apply (files_ok_update_inode _ _ (update_fd k (fun _ => desc') w1)); [|exact H1].
  intros x _.
  eapply write_loop_blocks_ok; [|apply rem_BLOCK_SIZE_range|exact Hloop].
  apply (H1 (Entry.inode (get_entry w1 f))).
Qed.

Lemma files_ok_new (c : Constants) (t : Time) : files_ok (FileSystem_new c t).
Proof.
  intros i. unfold get_inode. cbn.
  destruct i as [|[|i]]; cbn; apply blocks_ok_nil.
Qed.

Lemma exec_files_ok (c : Constants) (fuel : nat) (op : Op) (w w' : World.t) :
  files_ok w -> exec c fuel op w = Some w' -> files_ok w'.
Proof.
  intros Hok.
  destruct (files_ops c) as (Hstat & Hfstat & Htruncate & Hftruncate & Hopen & Hclose &
    Hsetxattr & Hgetxattr & Hlistxattr & Hremovexattr & Hreaddir & Hrmdir & Hunlink &
    Hmkdir & Hchmod & Hchown & Hutimes & Hlink & Hrename).
  destruct op; cbn [exec].
  - intros [= <-]. exact Hok.
  - intros [= <-]. apply Hstat, Hok.
  - intros [= <-]. apply Hfstat, Hok.
  - intros [= <-]. apply Htruncate, Hok.
  - intros [= <-]. apply Hftruncate, Hok.
  - intros [= <-]. apply Hopen, Hok.
  - intros [= <-]. apply Hclose, Hok.
  - destruct (FileSystem_read _ _ _ _ _ _ w) as [r|] eqn:Hr; [|discriminate].
    intros [= <-]. eapply files_ok_read; eauto.
  - destruct (FileSystem_write _ _ _ _ _ _ w) as [r|] eqn:Hr; [|discriminate].
    intros [= <-]. eapply files_ok_write; eauto.
  - intros [= <-]. apply Hsetxattr, Hok.
  - intros [= <-]. apply Hgetxattr, Hok.
  - intros [= <-]. apply Hlistxattr, Hok.
  - intros [= <-]. apply Hremovexattr, Hok.
  - intros [= <-]. apply Hreaddir, Hok.
  - intros [= <-]. apply Hrmdir, Hok.
  - intros [= <-]. apply Hunlink, Hok.
  - intros [= <-]. apply Hmkdir, Hok.
  - intros [= <-]. apply Hchmod, Hok.
  - intros [= <-]. apply Hchown, Hok.
  - intros [= <-]. apply Hutimes, Hok.
  - intros [= <-]. apply Hlink, Hok.
  - intros [= <-]. apply Hrename, Hok.
Qed.

Lemma reachable_files_ok (c : Constants) (w : World.t) : reachable c w -> files_ok w.
Proof.
  induction 1 as [t|w w' op fuel _ IH Hexec].
  - apply files_ok_new.
  - eapply exec_files_ok; eauto.
Qed.

(** ** Every call but [read] completes *)

Lemma js_slice_length_le {A} (l : list A) (first last : Z) :
  (length (js_slice l first last) <= length l)%nat.
Proof. unfold js_slice. rewrite length_take, length_drop. lia. Qed.

(** [write] completes within as many iterations as [buf] has bytes, and what
    it returns is the length of the slice it was asked to write. *)
Lemma FileSystem_write_returns (fuel : nat) (fd : Z) (buf : Buffer)
    (offset length position : option Z) (w : World.t) :
  files_ok w -> (List.length buf <= fuel)%nat ->
  exists out w',
    FileSystem_write fuel fd buf offset length position w = Some (out, w') /\
    forall n, out = Return n ->
      n = Buffer_length (Buffer_slice buf (default 0 offset)
                           (default 0 offset + default (Buffer_length buf) length)).
Proof.
  intros Hok Hfuel. unfold FileSystem_write.
  pose proof (files_lookupFd fd w Hok) as H1.
  destruct (FileSystem_lookupFd fd w) as [[[k desc]|e] w1]; cbn in H1;
    [|do 2 eexists; split; [reflexivity|discriminate]].
  unfold FileDescriptor_write, FileDescriptor_file.
  set (desc' := match position with Some p => _ | None => desc end).
  set (view := Buffer_slice buf _ _).
  destruct (FileDescriptor.file desc') as [f|];
    [|do 2 eexists; split; [reflexivity|discriminate]].
  unfold bind, method_of, ret.
  destruct (Class_eqb _ _); [|do 2 eexists; split; [reflexivity|discriminate]].
  destruct (File_write_returns fuel (update_fd k (fun _ => desc') w1) f
              (FileDescriptor.position desc') view) as (w2 & -> & _).
  - apply (H1 (Entry.inode (get_entry w1 f))).
  - pose proof (js_slice_length_le buf (default 0 offset)
                  (default 0 offset + default (Buffer_length buf) length)).
    unfold view, Buffer_slice. lia.
  - do 2 eexists. split; [reflexivity|]. intros n [= <-]. reflexivity.
Qed.

Lemma exec_returns (c : Constants) (fuel : nat) (op : Op) (w : World.t) :
  files_ok w -> is_read op = false -> (write_fuel op <= fuel)%nat ->
  exists w', exec c fuel op w = Some w'.
Proof.
  intros Hok Hop Hfuel.
  destruct op; try discriminate; cbn [exec]; try (eexists; reflexivity).
  cbn [write_fuel] in Hfuel.
  destruct (FileSystem_write_returns fuel fd buf offset length position w Hok Hfuel)
    as (out & w' & -> & _).
  eexists. reflexivity.
Qed.

Lemma run_returns (c : Constants) (fuel : nat) (ops : list Op) :
  forall w, files_ok w ->
  Forall (fun op => is_read op = false /\ (write_fuel op <= fuel)%nat) ops ->
  exists w', run c fuel ops w = Some w'.
Proof.
  induction ops as [|op ops IH]; intros w Hok Hops; cbn [run].
  - eexists. reflexivity.
  - apply Forall_cons in Hops as [[Hr Hf] Hops].
    destruct (exec_returns c fuel op w Hok Hr Hf) as [w1 H1]. rewrite H1.
    apply IH; [|assumption]. eapply exec_files_ok; eauto.
Qed.

(** ** Files within one block

    The clipping test of [File.read] is made after [i++]; on block 0 of a
    file shorter than one block the end of the slice is negative, counts
    from the end of the block and lands on the size of the file, so that
    such files are read as intended. *)

Lemma read_loop_done (fuel : nat) (size : Z) (blocks : list (option Buffer))
    (i o start offset : Z) (buffer : Buffer) :
  Buffer_length buffer <= start \/ size <= offset ->
  read_loop fuel size blocks i o start offset buffer = Some (start, buffer).
Proof.
  intros H.
  assert ((start <? Buffer_length buffer) && (offset <? size) = false) as Hc.
  { destruct (Z.ltb_spec start (Buffer_length buffer));
      destruct (Z.ltb_spec offset size); cbn [andb]; try reflexivity; lia. }
  destruct fuel; cbn [read_loop]; rewrite Hc; reflexivity.
Qed.

Lemma js_slice_inside {A} (l : list A) (first last : Z) :
  0 <= first -> 0 <= last <= Z.of_nat (length l) ->
  js_slice l first last = take (Z.to_nat (last - first)) (drop (Z.to_nat first) l).
Proof.
  intros Hf Hl. unfold js_slice, adjustOffset.
  destruct (Z.ltb_spec first 0); [lia|].
  destruct (Z.ltb_spec last 0); [lia|].
  destruct (Z_le_gt_dec first (Z.of_nat (length l))) as [Hle|Hgt].
  - rewrite (Z.min_l first) by lia. rewrite (Z.min_l last) by lia. reflexivity.
  - rewrite (Z.min_r first) by lia. rewrite (Z.min_l last) by lia.
    rewrite !drop_ge by lia. rewrite !take_nil. reflexivity.
Qed.

Lemma Buffer_copy_at_0 (src target : Buffer) :
  Buffer_copy_at src target 0 = Buffer_copy src target.
Proof.
  unfold Buffer_copy_at, adjustOffset. cbn [Z.ltb Z.compare].
  rewrite Z.min_l by (unfold Buffer_length; lia). reflexivity.
Qed.

Lemma read_loop_small (fuel : nat) (size : Z) (blocks : list (option Buffer))
    (offset : Z) (buffer : Buffer) :
  blocks_ok blocks -> 0 <= offset < size -> size < BLOCK_SIZE ->
  0 < Buffer_length buffer ->
  read_loop (S fuel) size blocks (offset / BLOCK_SIZE) (Z.rem offset BLOCK_SIZE)
    0 offset buffer =
  Some (size - offset, Buffer_copy (js_slice (first_block blocks) offset size) buffer).
Proof.
  intros Hok Hoff Hsize Hlen.
  rewrite Z.div_small, Z.rem_small by lia.
  cbn [read_loop].
  destruct (Z.ltb_spec 0 (Buffer_length buffer)); [|lia].
  destruct (Z.ltb_spec offset size); [|lia].
  cbn [andb]. fold (first_block blocks).
  assert (Hb0 : Buffer_length (first_block blocks) = BLOCK_SIZE)
    by (apply blocks_ok_default; assumption).
  assert (Hb0' : Z.of_nat (length (first_block blocks)) = BLOCK_SIZE) by exact Hb0.
  rewrite Hb0.
  destruct (Z.gtb_spec ((0 + 1) * BLOCK_SIZE + BLOCK_SIZE) size); [|lia].
  assert (Hb1 : Buffer_slice (first_block blocks) 0 (size - (0 + 1) * BLOCK_SIZE) =
               take (Z.to_nat size) (first_block blocks)).
  { unfold Buffer_slice, js_slice, adjustOffset. rewrite Hb0'.
    destruct (Z.ltb_spec 0 0); [lia|].
    destruct (Z.ltb_spec (size - (0 + 1) * BLOCK_SIZE) 0); [|lia].
    rewrite (Z.min_l 0) by lia. rewrite Z.max_l by lia.
    cbn [Z.to_nat drop]. f_equal. lia. }
  rewrite Hb1.
  set (blk := if offset =? 0 then _ else _).
  assert (Hb2 : blk = js_slice (first_block blocks) offset size).
  { unfold blk. rewrite (js_slice_inside (first_block blocks)) by lia.
    destruct (Z.eqb_spec offset 0) as [->|Hne].
    - cbn [Z.to_nat drop]. f_equal. lia.
    - unfold Buffer_slice_from, Buffer_length.
      rewrite js_slice_inside by (rewrite ?length_take; lia).
      rewrite length_take.
      rewrite take_ge by (rewrite length_drop, length_take; lia).
      rewrite take_drop_commute. f_equal. f_equal. lia. }
  rewrite Hb2.
  assert (Hb3 : Buffer_length (js_slice (first_block blocks) offset size) = size - offset).
  { unfold Buffer_length. rewrite js_slice_inside by lia.
    rewrite length_take, length_drop. lia. }
  rewrite Hb3, Buffer_copy_at_0.
  rewrite read_loop_done by lia.
  reflexivity.
Qed.

(** [File.read] on a file shorter than one block: it returns the number of
    bytes between the offset and the end of the file, at most the length of
    the buffer, and the buffer receives those bytes of block 0, which are
    zeros where the block was never written. *)
Lemma File_read_small (fuel : nat) (w : World.t) (f : ref) (offset : Z) (buffer : Buffer) :
  blocks_ok (Inode.blocks (inode_of w f)) ->
  0 <= offset < Inode.size (inode_of w f) -> Inode.size (inode_of w f) < BLOCK_SIZE ->
  0 < Buffer_length buffer ->
  File_read (S fuel) f offset buffer w =
  Some (Z.min (Buffer_length buffer) (Inode.size (inode_of w f) - offset),
        Buffer_copy (js_slice (first_block (Inode.blocks (inode_of w f))) offset
                       (Inode.size (inode_of w f))) buffer,
        update_inode (Entry.inode (get_entry w f)) (Inode.set_atime (World.clock w)) w).
Proof.
  intros Hok Hoff Hsize Hlen. unfold File_read.
  rewrite read_loop_small by assumption. reflexivity.
Qed.

Lemma Buffer_slice_from_0 (b : Buffer) : Buffer_slice_from b 0 = b.
Proof.
  unfold Buffer_slice_from, Buffer_length.
  rewrite js_slice_inside by lia.
  cbn [Z.to_nat drop]. apply take_ge. lia.
Qed.

(** What was copied into a block at [o] is found there. *)
Lemma Buffer_copy_at_found (s stored : Buffer) (o : Z) :
  0 <= o -> o + Buffer_length s <= Buffer_length stored ->
  take (length s) (drop (Z.to_nat o) (Buffer_copy_at s stored o)) = s.
Proof.
  unfold Buffer_length. intros Ho Hfit.
  unfold Buffer_copy_at, Buffer_copy, adjustOffset, Buffer_length.
  destruct (Z.ltb_spec o 0); [lia|].
  rewrite Z.min_l by lia.
  rewrite drop_app_length' by (rewrite length_take; lia).
  rewrite (take_ge s) by (rewrite length_drop; lia).
  apply take_app_length.
Qed.

Lemma Buffer_copy_slice_found (s block target : Buffer) (o last : Z) :
  0 <= o -> o + Buffer_length s <= last -> last <= Buffer_length block ->
  length target = length s ->
  take (length s) (drop (Z.to_nat o) block) = s ->
  Buffer_copy (js_slice block o last) target = s.
Proof.
  unfold Buffer_length. intros Ho Hfit Hlast Hlen Hs.
  rewrite js_slice_inside by lia. unfold Buffer_copy.
  rewrite Hlen, take_take, Nat.min_l by lia.
  rewrite Hs, drop_ge by (rewrite length_take, length_drop; lia).
  apply app_nil_r.
Qed.

Lemma first_block_write (blocks : list (option Buffer)) (o : Z) (s : Buffer) :
  first_block (write_block blocks 0 o 0 s) =
  Buffer_copy_at s
    (first_block match array_get blocks 0 with
                 | Some _ => blocks
                 | None => array_set blocks 0 (Buffer_alloc BLOCK_SIZE)
                 end) o.
Proof.
  unfold first_block, write_block.
  rewrite array_get_set_eq by lia. cbn [default].
  rewrite Buffer_slice_from_0. reflexivity.
Qed.

(** On a file that stays shorter than one block, what [File.write] stored
    at an offset is what [File.read] returns from that offset. *)
Lemma round_trip_small (w : World.t) (f : ref) (o : Z) (s : Buffer) :
  blocks_ok (Inode.blocks (inode_of w f)) ->
  (Entry.inode (get_entry w f) < length (World.heap_inodes w))%nat ->
  0 <= o -> 0 < Buffer_length s ->
  o + Buffer_length s < BLOCK_SIZE -> Inode.size (inode_of w f) < BLOCK_SIZE ->
  exists w1 w2,
    File_write 1 f o s w = Some (Buffer_length s, w1) /\
    File_read 1 f o (Buffer_alloc (Buffer_length s)) w1 = Some (Buffer_length s, s, w2).
Proof.
  intros Hok Hlive Ho Hs Hfit Hsize.
  pose proof BLOCK_SIZE_pos as Hpos.
  rewrite File_write_one_block by (rewrite ?Z.rem_small by lia; assumption || lia).
  rewrite Z.div_small, Z.rem_small by lia.
  do 2 eexists. split; [reflexivity|].
  set (g := fun n => Inode.set_mtime _ (Inode.set_blocks _ (Inode.set_size _ n))).
  assert (Hi : inode_of (update_inode (Entry.inode (get_entry w f)) g w) f =
               g (inode_of w f)) by (apply inode_of_update_eq; assumption).
  assert (Halloc : Buffer_length (Buffer_alloc (Buffer_length s)) = Buffer_length s)
    by (apply Buffer_length_alloc; lia).
  rewrite File_read_small; rewrite ?Hi; unfold g;
    cbn [Inode.blocks Inode.size Inode.set_mtime Inode.set_blocks Inode.set_size];
    [|apply write_block_ok; assumption|lia|lia|lia].
  rewrite Halloc, Z.min_l by lia.
  rewrite first_block_write.
  rewrite Buffer_copy_slice_found with (s := s).
  - f_equal.
  - assumption.
  - lia.
  - rewrite Buffer_copy_at_length.
    unfold first_block. rewrite blocks_ok_default by (apply blocks_ok_ensure; assumption).
    lia.
  - unfold Buffer_length in *. lia.
  - apply Buffer_copy_at_found; [assumption|].
    unfold first_block. rewrite blocks_ok_default by (apply blocks_ok_ensure; assumption).
    lia.
Qed.

(** ** [link] and the link counts *)

Lemma nlink_update_inode (r : ref) (g : Inode.t -> Inode.t) (w : World.t) :
  (forall x, Inode.nlink (g x) = Inode.nlink x) ->
  Inode.nlink <$> World.heap_inodes (update_inode r g w) =
  Inode.nlink <$> World.heap_inodes w.
Proof.
  intros Hg. cbn [update_inode World.heap_inodes World.set_heap_inodes].
  generalize (World.heap_inodes w) as l. revert r.
  induction r as [|r IH]; intros [|x l]; cbn; try reflexivity.
  - rewrite Hg. reflexivity.
  - f_equal. apply IH.
Qed.

(** One assignment leaves every link count as it is. *)
Ltac nlink_assignment :=
  let w := fresh "w" in
  let H := fresh "H" in
  intros w H;
  first
    [ exact H
    | rewrite nlink_update_inode; [exact H|intros; reflexivity] ].

(** [link] allocates no inode and changes the link count of none. *)
Lemma link_keeps_nlink (c : Constants) (from to : string) (w : World.t) :
  Inode.nlink <$> World.heap_inodes (snd (FileSystem_link c from to w)) =
  Inode.nlink <$> World.heap_inodes w.
Proof.
  set (L := Inode.nlink <$> World.heap_inodes w).
  assert (H : preserves (fun w' => Inode.nlink <$> World.heap_inodes w' = L)
                (FileSystem_link c from to)).
  { unfold FileSystem_link, FileSystem_parentDir, FileSystem_lookup_parts,
      File_new, Entry_new, Directory_push.
    repeat
      lazymatch goal with
      | |- preserves _ (bind (ret _) _) => apply preserves_bind; [apply preserves_ret|intros ?]
      | |- _ => preserves_step nlink_assignment
      end. }
  apply H. reflexivity.
Qed.

(** ** Inode numbers after the root's *)

Section PreservesGuards.
Context (I : World.t -> Prop).

(** The continuation of [w <- gets id] may use what [I] says about [w]. *)
Lemma preserves_bind_gets {A B} (f : World.t -> A) (k : A -> M B) :
  (forall w0, I w0 -> preserves I (k (f w0))) -> preserves I (bind (gets f) k).
Proof. intros Hk w H. unfold bind, gets. apply (Hk w H w H). Qed.

End PreservesGuards.

Lemma Class_eqb_eq (a b : Class) : Class_eqb a b = true -> a = b.
Proof. destruct a, b; cbn; congruence. Qed.

(** What follows [method_of ClassDirectory x] runs with [x] known to be a
    [Directory]. *)
Lemma preserves_guard {B} (D : list ref) (x : ref) (k : unit -> M B) :
  preserves (numbered_with (x :: D)) (k tt) ->
  preserves (numbered_with D) (bind (method_of ClassDirectory x) k).
Proof.
  intros Hk w [Hn HD]. unfold bind, method_of.
  destruct (Class_eqb _ _) eqn:E; cbn; [|split; assumption].
  apply Class_eqb_eq in E.
  destruct (Hk w) as [Hn' HD'].
  - split; [assumption|]. apply Forall_cons. split; assumption.
  - split; [assumption|]. apply Forall_cons in HD' as [_ HD']. assumption.
Qed.

Lemma fmap_alter_same {A B} (f : A -> B) (g : A -> A) (r : nat) (l : list A) :
  (forall x, f (g x) = f x) -> f <$> alter g r l = f <$> l.
Proof.
  intros Hg. revert l.
  induction r as [|r IH]; intros [|x l]; cbn; try reflexivity.
  - rewrite Hg. reflexivity.
  - f_equal. apply IH.
Qed.

Lemma numbered_with_update_inode (D : list ref) (r : ref) (g : Inode.t -> Inode.t)
    (w : World.t) :
  (forall x, Inode.ino (g x) = Inode.ino x) ->
  numbered_with D w -> numbered_with D (update_inode r g w).
Proof.
  intros Hg [[Hfs (n & Hn & Hl)] HD].
  split; [split; [exact Hfs|]|exact HD].
  exists n. split; [exact Hn|].
  cbn [update_inode World.heap_inodes World.set_heap_inodes].
  rewrite fmap_alter_same by assumption. exact Hl.
Qed.

Lemma get_entry_update_entry_fields (e : ref) (g : Entry.t -> Entry.t) (w : World.t) (x : ref) :
  (forall y, Entry.cls (g y) = Entry.cls y /\ Entry.fs (g y) = Entry.fs y) ->
  Entry.cls (get_entry (update_entry e g w) x) = Entry.cls (get_entry w x) /\
  Entry.fs (get_entry (update_entry e g w) x) = Entry.fs (get_entry w x).
Proof.
  intros Hg. rewrite get_entry_update_entry.
  case_decide as Hd; [|split; reflexivity].
  destruct Hd as [-> _]. apply Hg.
Qed.

Lemma numbered_with_update_entry (D : list ref) (e : ref) (g : Entry.t -> Entry.t)
    (w : World.t) :
  (forall y, Entry.cls (g y) = Entry.cls y /\ Entry.fs (g y) = Entry.fs y) ->
  numbered_with D w -> numbered_with D (update_entry e g w).
Proof.
  intros Hg [[Hfs Hnum] HD].
  split; [split; [|exact Hnum]|].
  - intros x. destruct (get_entry_update_entry_fields e g w x Hg) as [-> ->]. apply Hfs.
  - eapply Forall_impl; [exact HD|]. intros x Hx. cbv beta in *.
    destruct (get_entry_update_entry_fields e g w x Hg) as [-> _]. exact Hx.
Qed.

Lemma get_entry_alloc (x : Entry.t) (w : World.t) (e : ref) :
  get_entry (World.set_heap_entries (World.heap_entries w ++ [x]) w) e =
  if decide (e = length (World.heap_entries w)) then x else get_entry w e.
Proof.
  unfold get_entry. cbn. rewrite !list_lookup_total_alt.
  destruct (decide (e = length (World.heap_entries w))) as [->|Hne].
  - rewrite lookup_app_r by lia. rewrite Nat.sub_diag. reflexivity.
  - destruct (decide (e < length (World.heap_entries w))%nat).
    + rewrite lookup_app_l by assumption. reflexivity.
    + rewrite !lookup_ge_None_2; [reflexivity|lia|rewrite length_app; cbn; lia].
Qed.

Lemma numbered_with_alloc_entry (D : list ref) (x : Entry.t) (w : World.t) :
  Entry.cls x = ClassFile \/ Entry.fs x = true ->
  numbered_with D w ->
  numbered_with D (World.set_heap_entries (World.heap_entries w ++ [x]) w).
Proof.
  intros Hx [[Hfs Hnum] HD].
  split; [split; [|exact Hnum]|].
  - intros e. rewrite get_entry_alloc. case_decide; [|apply Hfs].
    destruct Hx as [Hx|Hx]; [rewrite Hx; discriminate|intros _; exact Hx].
  - eapply Forall_impl; [exact HD|]. intros d Hd. cbv beta in *.
    rewrite get_entry_alloc. case_decide as Hl; [|exact Hd].
    subst d. unfold get_entry in Hd.
    rewrite list_lookup_total_alt, lookup_ge_None_2 in Hd by lia. discriminate.
Qed.

(** One assignment keeps the numbering: it writes no inode number and
    neither the class nor the [fs] of an entry. *)
Ltac numbered_assignment :=
  let w := fresh "w" in
  let H := fresh "H" in
  intros w H;
  first
    [ exact H
    | apply numbered_with_update_inode; [intros; reflexivity|exact H]
    | apply numbered_with_update_entry; [intros; split; reflexivity|exact H] ].

Ltac numbered_body := repeat preserves_step numbered_assignment.

Lemma numbers_snoc (n : nat) : numbers (S n) = numbers n ++ [Num (Z.of_nat n + 1)].
Proof.
  unfold numbers. rewrite seq_S, fmap_app.
  replace (Z.of_nat n + 1) with (Z.of_nat (1 + n)) by lia.
  reflexivity.
Qed.

(** [new Inode(fs, mode, opts)] with [fs] set takes the next number. *)
Lemma numbered_Inode_new (D : list ref) (mode : Z) :
  preserves (numbered_with D) (Inode_new true mode).
Proof.
  intros w [[Hfs (n & Hn & Hl)] HD].
  unfold Inode_new, bind, now, gets, modify, alloc_inode. cbn.
  split; [split; [exact Hfs|]|exact HD].
  exists (S n).
  cbn [World.inodes World.heap_inodes World.set_heap_inodes World.set_inodes].
  rewrite Hn. cbn [js_incr].
  split; [f_equal; lia|].
  rewrite fmap_app, Hl, numbers_snoc. reflexivity.
Qed.

Lemma numbered_Entry_new (D : list ref) (k : Class) (mode : Z) (fs : bool) (name : string)
    (inode : option ref) :
  fs = true \/ (k = ClassFile /\ is_Some inode) ->
  preserves (numbered_with D) (Entry_new k mode fs name inode).
Proof.
  intros Hcase. unfold Entry_new.
  apply preserves_bind.
  - destruct inode as [i|]; [apply preserves_ret|].
    destruct Hcase as [->|[_ [i Hi]]]; [apply numbered_Inode_new|discriminate].
  - intros i. apply preserves_alloc_entry. intros w H.
    apply numbered_with_alloc_entry; [|exact H]. cbn.
    destruct Hcase as [->|[-> _]]; auto.
Qed.

Lemma numbered_push (D : list ref) (d e : ref) :
  preserves (numbered_with D) (Directory_push d e).
Proof. unfold Directory_push. numbered_body. Qed.

Lemma numbered_remove (D : list ref) (d e : ref) :
  preserves (numbered_with D) (Directory_remove d e).
Proof. unfold Directory_remove. numbered_body. Qed.

Lemma numbered_reset (D : list ref) (e : ref) : preserves (numbered_with D) (Entry_reset e).
Proof. unfold Entry_reset. numbered_body. Qed.

Lemma numbered_parentDir (D : list ref) (c : Constants) (path : string) :
  preserves (numbered_with D) (FileSystem_parentDir c path).
Proof. unfold FileSystem_parentDir, FileSystem_lookup_parts. numbered_body. Qed.

Lemma numbered_lookupFd (D : list ref) (fd : Z) :
  preserves (numbered_with D) (FileSystem_lookupFd fd).
Proof. unfold FileSystem_lookupFd. numbered_body. Qed.

Lemma numbered_truncate (D : list ref) (f : ref) (size : Z) :
  preserves (numbered_with D) (File_truncate f size).
Proof. unfold File_truncate. numbered_body. Qed.

Lemma numbered_with_fs (D : list ref) (d : ref) (w : World.t) :
  numbered_with (d :: D) w -> Entry.fs (get_entry w d) = true.
Proof.
  intros [[Hfs _] HD]. apply Forall_cons in HD as [Hd _]. apply Hfs, Hd.
Qed.

(** A [Directory] creates its children with its own [fs]. *)
Lemma numbered_Directory_mkdir (D : list ref) (c : Constants) (d : ref) (name : string) :
  preserves (numbered_with (d :: D)) (Directory_mkdir c d name).
Proof.
  unfold Directory_mkdir. apply preserves_bind_gets. intros w0 H0. cbn [id].
  rewrite (numbered_with_fs D d w0 H0).
  apply preserves_bind; [apply preserves_throw_if|intros _].
  apply preserves_bind; [|intros n; apply numbered_push].
  unfold Directory_new.
  apply preserves_bind; [apply numbered_Entry_new; left; reflexivity|intros e].
  numbered_body.
Qed.

Lemma numbered_Directory_create (D : list ref) (c : Constants) (d : ref) (name : string)
    (mode : Z) :
  preserves (numbered_with (d :: D)) (Directory_create c d name mode).
Proof.
  unfold Directory_create. apply preserves_bind_gets. intros w0 H0. cbn [id].
  rewrite (numbered_with_fs D d w0 H0).
  destruct (Directory_get w0 d name) as [x|].
  - apply preserves_bind; [apply numbered_reset|intros _; apply preserves_ret].
  - apply preserves_bind; [|intros n; apply numbered_push].
    unfold File_new. apply numbered_Entry_new. left. reflexivity.
Qed.

Ltac numbered_op :=
  repeat
    lazymatch goal with
    | |- preserves _ (FileSystem_parentDir _ _) => apply numbered_parentDir
    | |- preserves _ (FileSystem_lookupFd _) => apply numbered_lookupFd
    | |- preserves _ (File_truncate _ _) => apply numbered_truncate
    | |- preserves _ (Directory_remove _ _) => apply numbered_remove
    | |- preserves _ (Directory_push _ _) => apply numbered_push
    | |- preserves _ (Entry_reset _) => apply numbered_reset
    | |- preserves _ (Directory_mkdir _ _ _) => apply numbered_Directory_mkdir
    | |- preserves _ (Directory_create _ _ _ _) => apply numbered_Directory_create
    | |- preserves _ (Entry_new _ _ _ _ (Some _)) =>
      apply numbered_Entry_new; right; split; [reflexivity|eexists; reflexivity]
    | |- preserves _ (bind (method_of ClassDirectory _) _) =>
      apply preserves_guard; cbv beta
    | |- _ => preserves_step numbered_assignment
    end.

Lemma numbered_ops (c : Constants) :
  (forall path, preserves (numbered_with []) (FileSystem_stat c path)) /\
  (forall fd, preserves (numbered_with []) (FileSystem_fstat fd)) /\
  (forall path size, preserves (numbered_with []) (FileSystem_truncate c path size)) /\
  (forall fd size, preserves (numbered_with []) (FileSystem_ftruncate fd size)) /\
  (forall path flag mode, preserves (numbered_with []) (FileSystem_open c path flag mode)) /\
  (forall fd, preserves (numbered_with []) (FileSystem_close fd)) /\
  (forall path name value,
     preserves (numbered_with []) (FileSystem_setxattr c path name value)) /\
  (forall path name, preserves (numbered_with []) (FileSystem_getxattr c path name)) /\
  (forall path, preserves (numbered_with []) (FileSystem_listxattr c path)) /\
  (forall path name, preserves (numbered_with []) (FileSystem_removexattr c path name)) /\
  (forall path, preserves (numbered_with []) (FileSystem_readdir c path)) /\
  (forall path, preserves (numbered_with []) (FileSystem_rmdir c path)) /\
  (forall path, preserves (numbered_with []) (FileSystem_unlink c path)) /\
  (forall path mode, preserves (numbered_with []) (FileSystem_mkdir c path mode)) /\
  (forall path mode, preserves (numbered_with []) (FileSystem_chmod c path mode)) /\
  (forall path uid gid, preserves (numbered_with []) (FileSystem_chown c path uid gid)) /\
  (forall path atime ctime,
     preserves (numbered_with []) (FileSystem_utimes c path atime ctime)) /\
  (forall from to, preserves (numbered_with []) (FileSystem_link c from to)) /\
  (forall from to, preserves (numbered_with []) (FileSystem_rename c from to)).
Proof.
  repeat match goal with |- _ /\ _ => split end; intros;
    unfold FileSystem_stat, FileSystem_fstat, FileSystem_truncate, FileSystem_ftruncate,
      FileSystem_open, FileSystem_close,
      FileSystem_setxattr, FileSystem_getxattr, FileSystem_listxattr,
      FileSystem_removexattr, FileSystem_readdir, FileSystem_rmdir, FileSystem_unlink,
      FileSystem_mkdir, FileSystem_chmod, FileSystem_chown, FileSystem_utimes,
      FileSystem_link, FileSystem_rename,
      FileDescriptor_stat, FileDescriptor_truncate, FileDescriptor_file,
      Entry_setAttribute, Entry_removeAttribute, Entry_chmod,
      Directory_rmdir, Directory_unlink, File_new,
      FileSystem_lookup, FileSystem_lookup_parts;
    numbered_op.
Qed.

Lemma numbered_with_nil (w : World.t) : numbered w <-> numbered_with [] w.
Proof. unfold numbered_with. split; [intros H; split; [exact H|constructor]|intros [H _]; exact H]. Qed.

Lemma numbered_read (fuel : nat) (fd : Z) (buf : Buffer) (offset length position : option Z)
    (w : World.t) (r : Outcome (Z * Buffer) * World.t) :
  numbered_with [] w -> FileSystem_read fuel fd buf offset length position w = Some r ->
  numbered_with [] (snd r).
Proof.
  intros Hok. unfold FileSystem_read.
  pose proof (numbered_lookupFd [] fd w Hok) as H1.
  destruct (FileSystem_lookupFd fd w) as [[[k desc]|e] w1]; cbn in H1;
    [|intros [= <-]; exact H1].
  unfold FileDescriptor_read, FileDescriptor_file.
  set (desc' := match position with Some p => _ | None => desc end).
  destruct (FileDescriptor.file desc') as [f|]; [|intros [= <-]; exact H1].
  unfold bind, method_of, ret.
  destruct (Class_eqb _ _); [|intros [= <-]; exact H1].
  unfold File_read.
  destruct (read_loop _ _ _ _ _ _ _ _) as [[start buffer']|]; [|discriminate].
  intros [= <-]. cbn [snd].
  apply (numbered_with_update_inode [] _ _ (update_fd k (fun _ => desc') w1));
    [intros; reflexivity|exact H1].
Qed.

Lemma numbered_write (fuel : nat) (fd : Z) (buf : Buffer) (offset length position : option Z)
    (w : World.t) (r : Outcome Z * World.t) :
  numbered_with [] w -> FileSystem_write fuel fd buf offset length position w = Some r ->
  numbered_with [] (snd r).
Proof.
  intros Hok. unfold FileSystem_write.
  pose proof (numbered_lookupFd [] fd w Hok) as H1.
  destruct (FileSystem_lookupFd fd w) as [[[k desc]|e] w1]; cbn in H1;
    [|intros [= <-]; exact H1].
  unfold FileDescriptor_write, FileDescriptor_file.
  set (desc' := match position with Some p => _ | None => desc end).
  destruct (FileDescriptor.file desc') as [f|]; [|intros [= <-]; exact H1].
  unfold bind, method_of, ret.
  destruct (Class_eqb _ _); [|intros [= <-]; exact H1].
  unfold File_write.
  destruct (write_loop _ _ _ _ _ _ _ _) as [[start blocks']|]; [|discriminate].
  intros [= <-]. cbn [snd].
  apply (numbered_with_update_inode [] _ _ (update_fd k (fun _ => desc') w1));
    [intros; reflexivity|exact H1].
Qed.

Lemma numbered_new (c : Constants) (t : Time) : numbered (FileSystem_new c t).
Proof.
  split.
  - intros e. unfold get_entry. cbn. destruct e as [|[|e]]; cbn; congruence.
  - exists 0%nat. split; reflexivity.
Qed.

Lemma exec_numbered (c : Constants) (fuel : nat) (op : Op) (w w' : World.t) :
  numbered w -> exec c fuel op w = Some w' -> numbered w'.
Proof.
  rewrite !numbered_with_nil. intros Hok.
  destruct (numbered_ops c) as (Hstat & Hfstat & Htruncate & Hftruncate & Hopen & Hclose &
    Hsetxattr & Hgetxattr & Hlistxattr & Hremovexattr & Hreaddir & Hrmdir & Hunlink &
    Hmkdir & Hchmod & Hchown & Hutimes & Hlink & Hrename).
  destruct op; cbn [exec].
  - intros [= <-]. exact Hok.
  - intros [= <-]. apply Hstat, Hok.
  - intros [= <-]. apply Hfstat, Hok.
  - intros [= <-]. apply Htruncate, Hok.
  - intros [= <-]. apply Hftruncate, Hok.
  - intros [= <-]. apply Hopen, Hok.
  - intros [= <-]. apply Hclose, Hok.
  - destruct (FileSystem_read _ _ _ _ _ _ w) as [r|] eqn:Hr; [|discriminate].
    intros [= <-]. eapply numbered_read; eauto.
  - destruct (FileSystem_write _ _ _ _ _ _ w) as [r|] eqn:Hr; [|discriminate].
    intros [= <-]. eapply numbered_write; eauto.
  - intros [= <-]. apply Hsetxattr, Hok.
  - intros [= <-]. apply Hgetxattr, Hok.
  - intros [= <-]. apply Hlistxattr, Hok.
  - intros [= <-]. apply Hremovexattr, Hok.
  - intros [= <-]. apply Hreaddir, Hok.
  - intros [= <-]. apply Hrmdir, Hok.
  - intros [= <-]. apply Hunlink, Hok.
  - intros [= <-]. apply Hmkdir, Hok.
  - intros [= <-]. apply Hchmod, Hok.
  - intros [= <-]. apply Hchown, Hok.
  - intros [= <-]. apply Hutimes, Hok.
  - intros [= <-]. apply Hlink, Hok.
  - intros [= <-]. apply Hrename, Hok.
Qed.

(** In every reachable world the inode numbers are, in order of creation,
    [NaN] for the root and then 1, 2, 3, ... *)
Lemma reachable_numbered (c : Constants) (w : World.t) : reachable c w -> numbered w.
Proof.
  induction 1 as [t|w w' op fuel _ IH Hexec].
  - apply numbered_new.
  - eapply exec_numbered; eauto.
Qed.

(** The inode made [i]-th after the root's carries the number [i]; the
    root's own number is [NaN]. *)
Lemma numbered_ino (w : World.t) (i : ref) :
  numbered w -> (0 < i < length (World.heap_inodes w))%nat ->
  Inode.ino (get_inode w i) = Num (Z.of_nat i).
Proof.
  intros [_ (n & _ & Hl)] [Hpos Hlt].
  destruct (lookup_lt_is_Some_2 _ _ Hlt) as [x Hx].
  unfold get_inode. rewrite (list_lookup_total_correct _ _ _ Hx).
  assert (Hi : (Inode.ino <$> World.heap_inodes w) !! i = Some (Inode.ino x))
    by (rewrite list_lookup_fmap, Hx; reflexivity).
  assert (Hn : length (World.heap_inodes w) = S n).
  { rewrite <- (length_fmap Inode.ino), Hl. unfold numbers. cbn [length].
    rewrite length_fmap, length_seq. reflexivity. }
  rewrite Hl in Hi. unfold numbers in Hi.
  destruct i as [|i]; [lia|]. cbn [lookup list_lookup] in Hi.
  change ((((fun k => Num (Z.of_nat k)) <$> seq 1 n) !! i) = Some (Inode.ino x)) in Hi.
  rewrite list_lookup_fmap, lookup_seq_lt in Hi by lia.
  cbn in Hi. injection Hi as <-. f_equal.
Qed.

Lemma numbered_root_ino (w : World.t) : numbered w -> Inode.ino (get_inode w 0%nat) = NaN.
Proof.
  intros [_ (n & _ & Hl)]. unfold get_inode.
  destruct (World.heap_inodes w) as [|x l]; [discriminate|].
  cbn in Hl. injection Hl as Hx _. exact Hx.
Qed.

(** Apart from the root's, the inode numbers of a reachable world are
    numeric, distinct and increasing in order of creation. *)
Lemma reachable_ino_increasing (c : Constants) (w : World.t) (i j : ref) :
  reachable c w -> (0 < i < j)%nat -> (j < length (World.heap_inodes w))%nat ->
  js_lt (Inode.ino (get_inode w i)) (Inode.ino (get_inode w j)) = true.
Proof.
  intros Hr Hij Hj. apply reachable_numbered in Hr.
  rewrite !numbered_ino by (assumption || lia).
  cbn [js_lt]. apply Z.ltb_lt. lia.
Qed.

(** ** Closed descriptors *)

(** Trimming changes what no slot holds. *)
Lemma array_get_pop {A} (l : list (option A)) (i : Z) :
  array_get (pop_trailing_nulls l) i = array_get l i.
Proof.
  unfold array_get. destruct (i <? 0); [reflexivity|].
  destruct (pop_trailing_nulls_spec l) as [n Hn].
  rewrite Hn at 2.
  destruct (decide (Z.to_nat i < length (pop_trailing_nulls l))%nat) as [Hlt|Hge].
  - rewrite lookup_app_l by assumption. reflexivity.
  - rewrite lookup_app_r by lia.
    rewrite (lookup_ge_None_2 (pop_trailing_nulls l)) by lia.
    destruct (replicate n None !! _) as [x|] eqn:Hx; [|reflexivity].
    apply lookup_replicate in Hx as [-> _]. reflexivity.
Qed.

Lemma array_get_insert_None {A} (l : list (option A)) (k : nat) (i : Z) :
  array_get (<[k := None]> l) i =
  if decide (0 <= i /\ Z.to_nat i = k) then None else array_get l i.
Proof.
  unfold array_get. destruct (Z.ltb_spec i 0).
  - rewrite decide_False by lia. reflexivity.
  - destruct (decide (Z.to_nat i = k)) as [<-|Hne].
    + rewrite decide_True by lia.
      destruct (decide (Z.to_nat i < length l)%nat).
      * rewrite list_lookup_insert_eq by assumption. reflexivity.
      * rewrite lookup_ge_None_2 by (rewrite length_insert; lia). reflexivity.
    + rewrite decide_False by lia.
      rewrite list_lookup_insert_ne by congruence. reflexivity.
Qed.

(** What [close] leaves in the table, slot by slot. *)
Lemma close_slots (fd : Z) (w w' : World.t) :
  FileSystem_close fd w = (Return tt, w') ->
  20 <= fd /\
  World.heap_inodes w' = World.heap_inodes w /\
  World.heap_entries w' = World.heap_entries w /\
  forall fd', array_get (World.fds w') (fd' - 20) =
              if decide (fd' = fd) then None else array_get (World.fds w) (fd' - 20).
Proof.
  rewrite close_eq.
  destruct (array_get (World.fds w) (fd - 20)) as [d|] eqn:Hd; [|discriminate].
  intros [= <-]. apply array_get_Some in Hd as [Hfd _].
  split; [lia|]. split; [reflexivity|]. split; [reflexivity|].
  intros fd'. cbn [World.fds World.set_fds].
  rewrite array_get_pop, array_get_insert_None.
  destruct (decide (fd' = fd)) as [->|Hne].
  - rewrite decide_True by lia. reflexivity.
  - destruct (decide (0 <= fd' - 20 /\ Z.to_nat (fd' - 20) = Z.to_nat (fd - 20)));
      [lia|reflexivity].
Qed.

Lemma lookupFd_bad (fd : Z) (w : World.t) :
  array_get (World.fds w) (fd - 20) = None ->
  FileSystem_lookupFd fd w = (Throw EBADF, w).
Proof. intros H. unfold FileSystem_lookupFd, bind, gets. cbn [id]. rewrite H. reflexivity. Qed.

Lemma lookupFd_open (fd : Z) (w : World.t) (d : FileDescriptor.t) :
  array_get (World.fds w) (fd - 20) = Some d ->
  FileSystem_lookupFd fd w = (Return (Z.to_nat (fd - 20), d), w).
Proof. intros H. unfold FileSystem_lookupFd, bind, gets. cbn [id]. rewrite H. reflexivity. Qed.

(** A table that does not end with a null is not trimmed. *)
Lemma pop_fds_ok {A} (l : list (option A)) : fds_ok l -> pop_trailing_nulls l = l.
Proof.
  intros Hok. destruct (pop_trailing_nulls_spec l) as [[|n] Hn].
  - rewrite app_nil_r in Hn. symmetry. exact Hn.
  - exfalso. apply Hok. rewrite Hn.
    replace (S n) with (n + 1)%nat by lia.
    rewrite replicate_add, app_assoc. cbn [replicate]. apply last_snoc.
Qed.

Lemma pop_snoc_None {A} (l : list (option A)) :
  pop_trailing_nulls (l ++ [None]) = pop_trailing_nulls l.
Proof.
  unfold pop_trailing_nulls. rewrite reverse_snoc. reflexivity.
Qed.

(** ** [open], case by case *)

Lemma Directory_create_absent (c : Constants) (d : ref) (name : string) (mode : Z)
    (w : World.t) :
  Directory_get w d name = None ->
  Directory_create c d name mode w =
  (Return (length (World.heap_entries w)),
   snd (Directory_push d (length (World.heap_entries w))
          (snd (File_new c (Entry.fs (get_entry w d)) name None w)))).
Proof.
  intros Hget. unfold Directory_create, bind at 1, gets at 1. cbn [id]. rewrite Hget.
  destruct (File_new_allocated c (Entry.fs (get_entry w d)) name None w) as [Hr _];
    [discriminate|].
  unfold bind.
  destruct (File_new c (Entry.fs (get_entry w d)) name None w) as [r w1].
  cbn [fst snd] in *. subst r. reflexivity.
Qed.

(** [open] of a name that is not bound, with a flag that creates. *)
Lemma open_absent_eq (c : Constants) (path : string) (flag : Flag) (mode : Z)
    (w : World.t) (parent : ref) (name : string) :
  FileSystem_parentDir c path w = (Return (parent, name), w) ->
  Entry.cls (get_entry w parent) = ClassDirectory ->
  Directory_get w parent name = None ->
  let desc := FileDescriptor_new c flag (Z.of_nat (length (World.fds w)) + 20) in
  FileDescriptor.readable desc && negb (FileDescriptor.writable desc) = false ->
  FileDescriptor.creating desc = true ->
  let n := length (World.heap_entries w) in
  let w2 := snd (Directory_create c parent name mode w) in
  let d :=
    FileDescriptor.set_file (Some n)
      (if FileDescriptor.appending desc
       then FileDescriptor.set_position (Inode.size (inode_of w2 n)) desc
       else desc) in
  FileSystem_open c path flag mode w =
  (Return (Z.of_nat (length (World.fds w)) + 20),
   World.set_fds (World.fds w2 ++ [Some d]) w2).
Proof.
  intros Hpd Hcls Hget desc Hacc Hcreat n w2 d. subst d w2.
  unfold FileSystem_open.
  unfold bind at 1. unfold gets at 1. cbn [id].
  unfold bind at 1. rewrite Hpd. cbn [fst snd].
  unfold bind at 1. unfold method_of at 1. rewrite Hcls. cbn [Class_eqb].
  unfold bind at 1. unfold gets at 1. cbn [id].
  rewrite Hget.
  unfold bind at 1. unfold throw_if at 1. unfold ret at 1.
  unfold bind at 1. unfold throw_if at 1.
  rewrite (bool_decide_eq_false_2 (is_Some (@None ref))) by (intros [x Hx]; discriminate).
  rewrite andb_false_r. unfold ret at 1.
  unfold bind at 1. unfold throw_if at 1. fold desc. rewrite Hacc.
  cbn [andb]. unfold ret at 1.
  unfold bind at 1. unfold ret at 1.
  unfold bind at 1. unfold bind at 1. unfold throw_if at 1.
  rewrite Hcreat. cbn [negb]. unfold ret at 1.
  rewrite (Directory_create_absent c parent name mode w Hget).
  fold n.
  destruct (FileDescriptor.appending desc); reflexivity.
Qed.

(** When [open] returns, the path named a regular file or an unbound name
    in a directory. *)
Lemma open_returns_cases (c : Constants) (path : string) (flag : Flag) (mode : Z)
    (w w' : World.t) (fd : Z) :
  FileSystem_open c path flag mode w = (Return fd, w') ->
  let desc := FileDescriptor_new c flag (Z.of_nat (length (World.fds w)) + 20) in
  exists parent name,
    FileSystem_parentDir c path w = (Return (parent, name), w) /\
    Entry.cls (get_entry w parent) = ClassDirectory /\
    ((exists f, Directory_get w parent name = Some f /\ Entry_isFile c w f = true /\
                FileDescriptor.exclusive desc = false) \/
     (Directory_get w parent name = None /\
      FileDescriptor.readable desc && negb (FileDescriptor.writable desc) = false /\
      FileDescriptor.creating desc = true)).
Proof.
  intros Hopen desc. revert Hopen.
  unfold FileSystem_open. unfold bind at 1. unfold gets at 1. cbn [id].
  unfold bind at 1.
  pose proof (FileSystem_parentDir_pure c path w) as Hp.
  destruct (FileSystem_parentDir c path w) as [[[parent name]|e0] w1]; cbn in Hp; subst w1;
    [|discriminate].
  cbn [fst snd].
  unfold bind at 1. unfold method_of at 1.
  destruct (Class_eqb _ _) eqn:Hcls; [|discriminate].
  apply Class_eqb_eq in Hcls.
  unfold bind at 1. unfold gets at 1. cbn [id].
  fold desc.
  destruct (Directory_get w parent name) as [f|] eqn:Hget.
  - unfold bind at 1. unfold throw_if at 1.
    destruct (Entry_isFile c w f) eqn:Hfile; cbn [negb]; [|discriminate].
    unfold ret at 1.
    unfold bind at 1. unfold throw_if at 1.
    destruct (FileDescriptor.exclusive desc) eqn:Hexcl.
    + rewrite (bool_decide_eq_true_2 (is_Some (Some f))) by (eexists; reflexivity).
      discriminate.
    + intros _. exists parent, name. split; [reflexivity|]. split; [assumption|].
      left. exists f. auto.
  - unfold bind at 1. unfold throw_if at 1. unfold ret at 1.
    unfold bind at 1. unfold throw_if at 1.
    rewrite (bool_decide_eq_false_2 (is_Some (@None ref))) by (intros [x Hx]; discriminate).
    rewrite andb_false_r. unfold ret at 1.
    unfold bind at 1. unfold throw_if at 1.
    destruct (FileDescriptor.readable desc && negb (FileDescriptor.writable desc)) eqn:Hacc;
      cbn [andb negb]; [discriminate|].
    unfold ret at 1.
    unfold bind at 1. unfold ret at 1.
    unfold bind at 1. unfold bind at 1. unfold throw_if at 1.
    destruct (FileDescriptor.creating desc) eqn:Hcreat; cbn [negb]; [|discriminate].
    intros _. exists parent, name. split; [reflexivity|]. split; [assumption|].
    right. auto.
Qed.

(** ** Entry objects are never freed *)

Ltac entries_assignment :=
  let w := fresh "w" in
  let H := fresh "H" in
  intros w H; unfold entries_at_least in *;
  cbn [World.heap_entries World.set_heap_entries World.set_heap_inodes World.set_fds
       World.set_inodes World.set_clock update_inode update_entry];
  rewrite ?length_alter, ?length_app; cbn [length]; lia.

(** The body of every call but [read] and [write], taken apart. *)
Ltac unfold_calls :=
  unfold FileSystem_stat, FileSystem_fstat, FileSystem_truncate, FileSystem_ftruncate,
    FileSystem_open, FileSystem_close,
    FileSystem_setxattr, FileSystem_getxattr, FileSystem_listxattr,
    FileSystem_removexattr, FileSystem_readdir, FileSystem_rmdir, FileSystem_unlink,
    FileSystem_mkdir, FileSystem_chmod, FileSystem_chown, FileSystem_utimes,
    FileSystem_link, FileSystem_rename,
    FileDescriptor_stat, FileDescriptor_truncate, FileDescriptor_file,
    Entry_setAttribute, Entry_removeAttribute, Entry_chmod,
    Directory_rmdir, Directory_unlink, Directory_mkdir, Directory_create,
    Directory_new, File_new, Directory_push, Directory_remove, File_truncate,
    Entry_new, Inode_new, Entry_reset,
    FileSystem_parentDir, FileSystem_lookupFd,
    FileSystem_lookup, FileSystem_lookup_parts.

Lemma entries_calls (c : Constants) (n : nat) :
  (forall path, preserves (entries_at_least n) (FileSystem_stat c path)) /\
  (forall fd, preserves (entries_at_least n) (FileSystem_fstat fd)) /\
  (forall path size, preserves (entries_at_least n) (FileSystem_truncate c path size)) /\
  (forall fd size, preserves (entries_at_least n) (FileSystem_ftruncate fd size)) /\
  (forall path flag mode, preserves (entries_at_least n) (FileSystem_open c path flag mode)) /\
  (forall fd, preserves (entries_at_least n) (FileSystem_close fd)) /\
  (forall path name value,
     preserves (entries_at_least n) (FileSystem_setxattr c path name value)) /\
  (forall path name, preserves (entries_at_least n) (FileSystem_getxattr c path name)) /\
  (forall path, preserves (entries_at_least n) (FileSystem_listxattr c path)) /\
  (forall path name, preserves (entries_at_least n) (FileSystem_removexattr c path name)) /\
  (forall path, preserves (entries_at_least n) (FileSystem_readdir c path)) /\
  (forall path, preserves (entries_at_least n) (FileSystem_rmdir c path)) /\
  (forall path, preserves (entries_at_least n) (FileSystem_unlink c path)) /\
  (forall path mode, preserves (entries_at_least n) (FileSystem_mkdir c path mode)) /\
  (forall path mode, preserves (entries_at_least n) (FileSystem_chmod c path mode)) /\
  (forall path uid gid, preserves (entries_at_least n) (FileSystem_chown c path uid gid)) /\
  (forall path atime ctime,
     preserves (entries_at_least n) (FileSystem_utimes c path atime ctime)) /\
  (forall from to, preserves (entries_at_least n) (FileSystem_link c from to)) /\
  (forall from to, preserves (entries_at_least n) (FileSystem_rename c from to)).
Proof.
  repeat match goal with |- _ /\ _ => split end; intros;
    unfold_calls; repeat preserves_step entries_assignment.
Qed.

Lemma exec_entries (c : Constants) (fuel : nat) (op : Op) (w w' : World.t) :
  exec c fuel op w = Some w' ->
  (length (World.heap_entries w) <= length (World.heap_entries w'))%nat.
Proof.
  assert (Hok : entries_at_least (length (World.heap_entries w)) w)
    by (unfold entries_at_least; lia).
  change (exec c fuel op w = Some w' ->
          entries_at_least (length (World.heap_entries w)) w').
  generalize dependent (length (World.heap_entries w)). intros n Hok.
  destruct (entries_calls c n) as (Hstat & Hfstat & Htruncate & Hftruncate & Hopen & Hclose &
    Hsetxattr & Hgetxattr & Hlistxattr & Hremovexattr & Hreaddir & Hrmdir & Hunlink &
    Hmkdir & Hchmod & Hchown & Hutimes & Hlink & Hrename).
  destruct op; cbn [exec].
  - intros [= <-]. exact Hok.
  - intros [= <-]. apply Hstat, Hok.
  - intros [= <-]. apply Hfstat, Hok.
  - intros [= <-]. apply Htruncate, Hok.
  - intros [= <-]. apply Hftruncate, Hok.
  - intros [= <-]. apply Hopen, Hok.
  - intros [= <-]. apply Hclose, Hok.
  - unfold FileSystem_read, FileSystem_lookupFd, bind, gets. cbn [id].
    destruct (array_get _ _); [|intros [= <-]; exact Hok].
    unfold FileDescriptor_read, FileDescriptor_file, ret.
    destruct (FileDescriptor.file _); [|intros [= <-]; exact Hok].
    unfold bind, method_of, ret. destruct (Class_eqb _ _); [|intros [= <-]; exact Hok].
    unfold File_read. destruct (read_loop _ _ _ _ _ _ _ _) as [[? ?]|]; [|discriminate].
    intros [= <-]. exact Hok.
  - unfold FileSystem_write, FileSystem_lookupFd, bind, gets. cbn [id].
    destruct (array_get _ _); [|intros [= <-]; exact Hok].
    unfold FileDescriptor_write, FileDescriptor_file, ret.
    destruct (FileDescriptor.file _); [|intros [= <-]; exact Hok].
    unfold bind, method_of, ret. destruct (Class_eqb _ _); [|intros [= <-]; exact Hok].
    unfold File_write. destruct (write_loop _ _ _ _ _ _ _ _) as [[? ?]|]; [|discriminate].
    intros [= <-]. exact Hok.
  - intros [= <-]. apply Hsetxattr, Hok.
  - intros [= <-]. apply Hgetxattr, Hok.
  - intros [= <-]. apply Hlistxattr, Hok.
  - intros [= <-]. apply Hremovexattr, Hok.
  - intros [= <-]. apply Hreaddir, Hok.
  - intros [= <-]. apply Hrmdir, Hok.
  - intros [= <-]. apply Hunlink, Hok.
  - intros [= <-]. apply Hmkdir, Hok.
  - intros [= <-]. apply Hchmod, Hok.
  - intros [= <-]. apply Hchown, Hok.
  - intros [= <-]. apply Hutimes, Hok.
  - intros [= <-]. apply Hlink, Hok.
  - intros [= <-]. apply Hrename, Hok.
Qed.

(** ** Every descriptor is bound to an Entry object *)

Lemma same_descriptor_file (d d' : FileDescriptor.t) :
  same_descriptor d d' -> FileDescriptor.file d' = FileDescriptor.file d.
Proof. intros H. apply (f_equal FileDescriptor.file) in H. exact H. Qed.

Lemma fds_bound_mono (w w' : World.t) :
  World.fds w' = World.fds w ->
  (length (World.heap_entries w) <= length (World.heap_entries w'))%nat ->
  fds_bound w -> fds_bound w'.
Proof.
  intros Hfds Hlen Hb k d Hk. rewrite Hfds in Hk.
  destruct (Hb k d Hk) as (f & Hf & Hlive). exists f. split; [assumption|lia].
Qed.

Lemma fds_bound_snoc (w w' : World.t) (d : FileDescriptor.t) (f : ref) :
  World.fds w' = World.fds w ++ [Some d] ->
  (length (World.heap_entries w) <= length (World.heap_entries w'))%nat ->
  FileDescriptor.file d = Some f -> (f < length (World.heap_entries w'))%nat ->
  fds_bound w -> fds_bound w'.
Proof.
  intros Hfds Hlen Hf Hlive Hb k d' Hk. rewrite Hfds in Hk.
  apply lookup_app_Some in Hk as [Hk|[_ Hk]].
  - destruct (Hb k d' Hk) as (f' & Hf' & Hlive'). exists f'. split; [assumption|lia].
  - apply list_lookup_singleton_Some in Hk as [_ [= <-]]. exists f. auto.
Qed.

Lemma Directory_create_entries (c : Constants) (d : ref) (name : string) (mode : Z)
    (w : World.t) :
  Directory_get w d name = None ->
  exists x,
    World.heap_entries (snd (Directory_create c d name mode w)) =
    World.heap_entries w ++ [x] /\
    Entry.name x = name /\ Entry.cls x = ClassFile.
Proof.
  intros Hget. rewrite (Directory_create_absent c d name mode w Hget). cbn [snd].
  destruct (Directory_push_frame d (length (World.heap_entries w))
              (snd (File_new c (Entry.fs (get_entry w d)) name None w))) as (-> & _).
  unfold File_new, Entry_new, bind, Inode_new, now, gets, alloc_inode, alloc_entry.
  destruct (Entry.fs (get_entry w d)); cbn; eexists; (split; [reflexivity|split; reflexivity]).
Qed.

Lemma open_fds_bound (c : Constants) (path : string) (flag : Flag) (mode : Z)
    (w : World.t) :
  tree_ok w -> fds_bound w -> fds_bound (snd (FileSystem_open c path flag mode w)).
Proof.
  intros Hok Hb.
  assert (Hlen : (length (World.heap_entries w)
                  <= length (World.heap_entries (snd (FileSystem_open c path flag mode w))))%nat).
  { destruct (entries_calls c (length (World.heap_entries w))) as (_ & _ & _ & _ & H & _).
    apply H. unfold entries_at_least. lia. }
  pose proof (open_fds_spec c path flag mode w) as Hspec. unfold wp in Hspec.
  destruct (FileSystem_open c path flag mode w) as [[fd|e] w'] eqn:Hopen; cbn [snd] in *.
  2: { eapply fds_bound_mono; eauto. }
  destruct (open_returns_cases c path flag mode w w' fd Hopen)
    as (parent & name & Hpd & Hcls & [(f & Hget & Hfile & Hexcl)|(Hget & Hacc & Hcreat)]).
  - rewrite (open_existing_eq c path flag mode w parent name f Hpd Hcls Hget Hfile Hexcl)
      in Hopen.
    injection Hopen as _ <-.
    eapply fds_bound_snoc with (w := w) (f := f); try exact Hb.
    + cbn [World.fds World.set_fds]. f_equal.
      destruct (_ && _); [apply neutral_reset|reflexivity].
    + exact Hlen.
    + reflexivity.
    + apply Directory_get_Some in Hget as [Hin _].
      pose proof (children_live w Hok _ _ Hin). lia.
  - rewrite (open_absent_eq c path flag mode w parent name Hpd Hcls Hget Hacc Hcreat)
      in Hopen.
    injection Hopen as _ <-.
    eapply fds_bound_snoc with (w := w) (f := length (World.heap_entries w)); try exact Hb.
    + cbn [World.fds World.set_fds]. f_equal. apply neutral_create.
    + exact Hlen.
    + reflexivity.
    + cbn [World.heap_entries World.set_fds].
      destruct (Directory_create_entries c parent name mode w Hget) as (x & -> & _).
      rewrite length_app. cbn. lia.
Qed.

Lemma exec_fds_bound (c : Constants) (fuel : nat) (op : Op) (w w' : World.t) :
  tree_ok w -> fds_bound w -> exec c fuel op w = Some w' -> fds_bound w'.
Proof.
  intros Hok Hb Hexec.
  pose proof (exec_entries c fuel op w w' Hexec) as Hlen.
  pose proof (exec_fds c fuel op w w' Hexec) as Hstep.
  destruct op; cbn [fds_step] in Hstep;
    try (eapply fds_bound_mono; eauto; fail).
  - cbn [exec] in Hexec. injection Hexec as <-. apply open_fds_bound; assumption.
  - destruct (array_get (World.fds w) (fd - 20)) eqn:Hget;
      [|eapply fds_bound_mono; eauto].
    intros k d Hk. rewrite Hstep in Hk.
    destruct (pop_trailing_nulls_spec (<[Z.to_nat (fd - 20) := None]> (World.fds w)))
      as [n Hn].
    assert (Hk' : <[Z.to_nat (fd - 20) := None]> (World.fds w) !! k = Some (Some d))
      by (rewrite Hn; apply lookup_app_l_Some; exact Hk).
    destruct (decide (Z.to_nat (fd - 20) = k)) as [<-|Hne].
    + apply list_lookup_insert_Some in Hk' as [(_ & [=] & _)|[Hne _]]; congruence.
    + rewrite list_lookup_insert_ne in Hk' by assumption.
      destruct (Hb k d Hk') as (f & Hf & Hlive). exists f. split; [assumption|lia].
  - destruct Hstep as [Hstep|(d & d' & Hd & Hsame & Hstep)];
      [eapply fds_bound_mono; eauto|].
    intros k x Hk. rewrite Hstep in Hk.
    apply array_get_Some in Hd as [_ Hd].
    destruct (decide (Z.to_nat (fd - 20) = k)) as [<-|Hne].
    + rewrite list_lookup_insert_eq in Hk by (eapply lookup_lt_Some; eauto).
      injection Hk as <-.
      destruct (Hb _ d Hd) as (f & Hf & Hlive). exists f.
      rewrite (same_descriptor_file d d' Hsame). split; [assumption|lia].
    + rewrite list_lookup_insert_ne in Hk by assumption.
      destruct (Hb k x Hk) as (f & Hf & Hlive). exists f. split; [assumption|lia].
  - destruct Hstep as [Hstep|(d & d' & Hd & Hsame & Hstep)];
      [eapply fds_bound_mono; eauto|].
    intros k x Hk. rewrite Hstep in Hk.
    apply array_get_Some in Hd as [_ Hd].
    destruct (decide (Z.to_nat (fd - 20) = k)) as [<-|Hne].
    + rewrite list_lookup_insert_eq in Hk by (eapply lookup_lt_Some; eauto).
      injection Hk as <-.
      destruct (Hb _ d Hd) as (f & Hf & Hlive). exists f.
      rewrite (same_descriptor_file d d' Hsame). split; [assumption|lia].
    + rewrite list_lookup_insert_ne in Hk by assumption.
      destruct (Hb k x Hk) as (f & Hf & Hlive). exists f. split; [assumption|lia].
Qed.

Lemma reachable_fds_bound (c : Constants) (w : World.t) : reachable c w -> fds_bound w.
Proof.
  induction 1 as [t|w w' op fuel Hr IH Hexec].
  - intros k d Hk. cbn in Hk. rewrite lookup_nil in Hk. discriminate.
  - eapply exec_fds_bound; eauto. apply (reachable_tree_ok c). exact Hr.
Qed.

Lemma run_fds_bound (c : Constants) (t : Time) (fuel : nat) (ops : list Op) (w : World.t) :
  run c fuel ops (FileSystem_new c t) = Some w -> fds_bound w.
Proof.
  intros H. eapply reachable_fds_bound, run_reachable; [apply reachable_new|exact H].
Qed.

(** ** [write] through a descriptor *)

Lemma File_write_shape (fuel : nat) (f : ref) (offset : Z) (buffer : Buffer)
    (w w' : World.t) (n : Z) :
  File_write fuel f offset buffer w = Some (n, w') ->
  exists blocks',
    w' = update_inode (Entry.inode (get_entry w f))
           (fun x => Inode.set_mtime (World.clock w)
              (Inode.set_blocks blocks'
                 (Inode.set_size (Z.max (Inode.size (inode_of w f))
                                    (offset + Buffer_length buffer)) x))) w.
Proof.
  unfold File_write.
  destruct (write_loop _ _ _ _ _ _ _ _) as [[start blocks']|]; [|discriminate].
  intros [= _ <-]. exists blocks'.
  destruct (Z.gtb_spec (offset + Buffer_length buffer) (Inode.size (inode_of w f)));
    [rewrite Z.max_r by lia|rewrite Z.max_l by lia]; reflexivity.
Qed.

Lemma update_fd_twice (k : nat) (g : FileDescriptor.t -> FileDescriptor.t)
    (d d0 : FileDescriptor.t) (fds : list (option FileDescriptor.t)) :
  fds !! k = Some (Some d0) ->
  alter (fmap g) k (alter (fmap (fun _ => d)) k fds) !! k = Some (Some (g d)).
Proof.
  intros Hk. rewrite list_lookup_alter_eq, list_lookup_alter_eq, Hk. reflexivity.
Qed.

(** [write] on a descriptor bound to a [File]: what it returns and the
    world it leaves. *)
Lemma FileSystem_write_bound (fuel : nat) (fd : Z) (buf : Buffer)
    (offset length position : option Z) (w : World.t) (d : FileDescriptor.t) (f : ref) :
  files_ok w ->
  array_get (World.fds w) (fd - 20) = Some d ->
  FileDescriptor.file d = Some f ->
  Entry.cls (get_entry w f) = ClassFile ->
  (Entry.inode (get_entry w f) < List.length (World.heap_inodes w))%nat ->
  (List.length buf <= fuel)%nat ->
  let view := Buffer_slice buf (default 0 offset)
                (default 0 offset + default (Buffer_length buf) length) in
  let p := default (FileDescriptor.position d) position in
  exists w',
    FileSystem_write fuel fd buf offset length position w =
      Some (Return (Buffer_length view), w') /\
    array_get (World.fds w') (fd - 20) =
      Some (FileDescriptor.set_position (p + Buffer_length view) d) /\
    Inode.size (inode_of w' f) = Z.max (Inode.size (inode_of w f)) (p + Buffer_length view) /\
    Inode.mtime (inode_of w' f) = World.clock w /\
    World.heap_entries w' = World.heap_entries w.
Proof.
  intros Hok Hd Hf Hcls Hlive Hfuel view p.
  unfold FileSystem_write. rewrite (lookupFd_open fd w d Hd).
  set (desc' := match position with Some q => _ | None => d end).
  assert (Hfile : FileDescriptor.file desc' = Some f)
    by (unfold desc'; destruct position; exact Hf).
  assert (Hpos : FileDescriptor.position desc' = p)
    by (unfold desc', p; destruct position; reflexivity).
  set (k := Z.to_nat (fd - 20)).
  set (w2 := update_fd k (fun _ => desc') w).
  fold view.
  unfold FileDescriptor_write, FileDescriptor_file. rewrite Hfile.
  unfold bind, method_of, ret.
  change (get_entry w2 f) with (get_entry w f). rewrite Hcls. cbn [Class_eqb].
  rewrite Hpos.
  destruct (File_write_returns fuel w2 f p view) as (w3 & Hw & _).
  { apply (Hok (Entry.inode (get_entry w f))). }
  { pose proof (js_slice_length_le buf (default 0 offset)
                  (default 0 offset + default (Buffer_length buf) length)).
    unfold view, Buffer_slice. lia. }
  rewrite Hw.
  destruct (File_write_shape _ _ _ _ _ _ _ Hw) as [blocks' ->].
  eexists. split; [reflexivity|].
  apply array_get_Some in Hd as [Hfd Hd].
  split; [|split; [|split]].
  - apply array_get_lookup; [assumption|].
    cbn [World.fds update_fd update_inode World.set_fds World.set_heap_inodes w2].
    fold k. rewrite (update_fd_twice k _ desc' d _ Hd).
    unfold desc'. destruct position; reflexivity.
  - change (inode_of (update_fd k _ ?x) f) with (inode_of x f).
    change (Entry.inode (get_entry w2 f)) with (Entry.inode (get_entry w f)).
    change (inode_of w2 f) with (inode_of w f).
    change (update_inode ?r ?g w2) with (update_fd k (fun _ => desc') (update_inode r g w)).
    change (inode_of (update_fd k _ ?x) f) with (inode_of x f).
    rewrite inode_of_update_eq by assumption. reflexivity.
  - change (inode_of (update_fd k _ ?x) f) with (inode_of x f).
    change (Entry.inode (get_entry w2 f)) with (Entry.inode (get_entry w f)).
    change (update_inode ?r ?g w2) with (update_fd k (fun _ => desc') (update_inode r g w)).
    change (inode_of (update_fd k _ ?x) f) with (inode_of x f).
    rewrite inode_of_update_eq by assumption. reflexivity.
  - reflexivity.
Qed.

(** ** Paths *)

Lemma js_split_not_nil (sep : Ascii.ascii) (s : string) : js_split sep s <> [].
Proof.
  induction s as [|ch rest IH]; cbn [js_split]; [discriminate|].
  destruct (Ascii.eqb ch sep); [discriminate|].
  destruct (js_split sep rest); [contradiction|discriminate].
Qed.

(** The pieces between separators hold no separator. *)
Lemma js_split_pieces (sep : Ascii.ascii) (s : string) :
  Forall (fun p => ~ In sep (chars p)) (js_split sep s).
Proof.
  induction s as [|ch rest IH]; cbn [js_split].
  - constructor; [intros []|constructor].
  - destruct (Ascii.eqb_spec ch sep) as [->|Hne].
    + constructor; [intros []|exact IH].
    + destruct (js_split sep rest) as [|piece more]; cbn.
      * constructor; [|constructor]. cbn. intros [H|[]]. congruence.
      * apply Forall_cons in IH as [Hp Hm].
        constructor; [|exact Hm]. cbn. intros [H|H]; [congruence|contradiction].
Qed.

Lemma split_components (path : string) : Forall valid_name (split path).
Proof.
  unfold split. apply Forall_forall. intros p Hp.
  apply list_elem_of_filter in Hp as [Hne Hin].
  split; [exact Hne|].
  pose proof (js_split_pieces "/"%char path) as H.
  rewrite Forall_forall in H. apply H, Hin.
Qed.

Lemma split_cons (ch : Ascii.ascii) (rest : string) :
  split (String ch rest) =
  if Ascii.eqb ch "/"%char then split rest
  else match js_split "/"%char rest with
       | [] => [String ch EmptyString]
       | piece :: more => String ch piece :: filter (fun s : string => s <> ""%string) more
       end.
Proof.
  unfold split. cbn [js_split].
  destruct (Ascii.eqb ch "/"%char).
  - rewrite filter_cons_False by (intros H; apply H; reflexivity). reflexivity.
  - destruct (js_split "/"%char rest) as [|piece more].
    + rewrite filter_cons_True by discriminate. reflexivity.
    + rewrite filter_cons_True by discriminate. reflexivity.
Qed.

Lemma split_nil_iff (path : string) : split path = [] <-> only_slashes path.
Proof.
  unfold only_slashes. induction path as [|ch rest IH].
  - split; [intros _ ch []|reflexivity].
  - rewrite split_cons. destruct (Ascii.eqb_spec ch "/"%char) as [->|Hne].
    + rewrite IH. cbn. split.
      * intros H ch [<-|Hin]; [reflexivity|auto].
      * intros H ch Hin. apply H. right. exact Hin.
    + split.
      * destruct (js_split "/"%char rest); discriminate.
      * intros H. exfalso. apply Hne. apply H. left. reflexivity.
Qed.

(** A name followed by a separator is the first piece. *)
Lemma js_split_name (name rest : string) :
  ~ In "/"%char (chars name) ->
  js_split "/"%char (name ++ String "/"%char rest) = name :: js_split "/"%char rest.
Proof.
  induction name as [|ch name IH]; intros Hfree.
  - reflexivity.
  - change (js_split "/"%char (String ch (name ++ String "/"%char rest)) =
            String ch name :: js_split "/"%char rest).
    cbn [js_split].
    destruct (Ascii.eqb_spec ch "/"%char) as [->|Hne].
    + exfalso. apply Hfree. left. reflexivity.
    + rewrite IH by (intros H; apply Hfree; right; exact H). reflexivity.
Qed.

Lemma js_split_whole (name : string) :
  ~ In "/"%char (chars name) -> js_split "/"%char name = [name].
Proof.
  induction name as [|ch name IH]; intros Hfree.
  - reflexivity.
  - cbn [js_split].
    destruct (Ascii.eqb_spec ch "/"%char) as [->|Hne].
    + exfalso. apply Hfree. left. reflexivity.
    + rewrite IH by (intros H; apply Hfree; right; exact H). reflexivity.
Qed.

Lemma split_name (name rest : string) :
  valid_name name -> split (name ++ String "/"%char rest) = name :: split rest.
Proof.
  intros [Hne Hfree]. unfold split. rewrite js_split_name by assumption.
  rewrite filter_cons_True by assumption. reflexivity.
Qed.

Lemma concat_cons2 (sep p q : string) (parts : list string) :
  String.concat sep (p :: q :: parts) =
  String.append p (String.append sep (String.concat sep (q :: parts))).
Proof. reflexivity. Qed.

Lemma split_join (parts : list string) :
  Forall valid_name parts -> split (String.concat "/" parts) = parts.
Proof.
  induction parts as [|p [|q parts] IH]; intros Hall.
  - reflexivity.
  - apply Forall_cons in Hall as [[Hne Hfree] _]. cbn [String.concat].
    unfold split. rewrite js_split_whole by assumption.
    rewrite filter_cons_True by assumption. reflexivity.
  - apply Forall_cons in Hall as [Hp Hall].
    rewrite concat_cons2.
    transitivity (p :: split (String.concat "/" (q :: parts))).
    + exact (split_name p (String.concat "/" (q :: parts)) Hp).
    + f_equal. apply IH. exact Hall.
Qed.

Lemma split_leading_slash (path : string) : split (String "/"%char path) = split path.
Proof. rewrite split_cons. reflexivity. Qed.

(** ** Paths without a name *)

Lemma parentDir_nameless (c : Constants) (path : string) (w : World.t) :
  split path = [] -> FileSystem_parentDir c path w = (Throw EINVAL, w).
Proof. intros H. unfold FileSystem_parentDir. rewrite H. reflexivity. Qed.

(** ** Worlds with the same tree *)

Lemma find_name_same (w w' : World.t) (name : string) (l : list ref) :
  (forall x, Entry.name (get_entry w' x) = Entry.name (get_entry w x)) ->
  find_name w' name l = find_name w name l.
Proof.
  intros Hn. induction l as [|y l IH]; cbn [find_name]; [reflexivity|].
  rewrite Hn, IH. reflexivity.
Qed.

Lemma same_tree_isDirectory (c : Constants) (w w' : World.t) (e : ref) :
  same_tree w w' -> Entry_isDirectory c w' e = Entry_isDirectory c w e.
Proof.
  intros (_ & He & _ & Hm). unfold Entry_isDirectory, inode_of.
  destruct (He e) as (_ & _ & ->). rewrite Hm. reflexivity.
Qed.

Lemma same_tree_isFile (c : Constants) (w w' : World.t) (e : ref) :
  same_tree w w' -> Entry_isFile c w' e = Entry_isFile c w e.
Proof.
  intros (_ & He & _ & Hm). unfold Entry_isFile, inode_of.
  destruct (He e) as (_ & _ & ->). rewrite Hm. reflexivity.
Qed.

Lemma same_tree_get (w w' : World.t) (d : ref) (name : string) :
  same_tree w w' -> Directory_get w' d name = Directory_get w d name.
Proof.
  intros (_ & He & Hc & _). unfold Directory_get, inode_of.
  destruct (He d) as (_ & _ & ->). rewrite Hc.
  apply find_name_same. intros x. apply He.
Qed.

Lemma lookup_from_same_tree (c : Constants) (w w' : World.t) (parts : list string) :
  same_tree w w' ->
  forall cur, lookup_from c w' cur parts = lookup_from c w cur parts.
Proof.
  intros Hs. induction parts as [|p parts IH]; intros cur; cbn [lookup_from]; [reflexivity|].
  rewrite (same_tree_isDirectory c w w' cur Hs), (same_tree_get w w' cur p Hs).
  destruct Hs as (Hr & He & Hs'). destruct (He cur) as (-> & _).
  destruct (negb _); [reflexivity|]. destruct (negb _); [reflexivity|].
  destruct (Directory_get w cur p); [|reflexivity]. apply IH.
Qed.

Lemma lookup_same_tree (c : Constants) (w w' : World.t) (path : string) :
  same_tree w w' ->
  fst (FileSystem_lookup c path w') = fst (FileSystem_lookup c path w).
Proof.
  intros Hs. unfold FileSystem_lookup, FileSystem_lookup_parts, lift. cbn [fst].
  destruct Hs as (Hr & Hs). rewrite Hr.
  apply lookup_from_same_tree. split; [exact Hr|exact Hs].
Qed.

Lemma same_tree_update_entry (e : ref) (g : Entry.t -> Entry.t) (w : World.t) :
  (forall x, Entry.cls (g x) = Entry.cls x /\ Entry.name (g x) = Entry.name x /\
             Entry.inode (g x) = Entry.inode x) ->
  same_tree w (update_entry e g w).
Proof.
  intros Hg. split; [reflexivity|]. split; [|split; reflexivity].
  intros x. rewrite get_entry_update_entry.
  case_decide as Hd; [|repeat split; reflexivity].
  destruct Hd as [-> _]. apply Hg.
Qed.

Lemma same_tree_update_inode (r : ref) (g : Inode.t -> Inode.t) (w : World.t) :
  (forall x, Inode.entries (g x) = Inode.entries x /\ Inode.mode (g x) = Inode.mode x) ->
  same_tree w (update_inode r g w).
Proof.
  intros Hg. split; [reflexivity|]. split; [intros x; repeat split; reflexivity|].
  assert (H : forall i, Inode.entries (get_inode (update_inode r g w) i)
                        = Inode.entries (get_inode w i) /\
                        Inode.mode (get_inode (update_inode r g w) i)
                        = Inode.mode (get_inode w i)).
  { intros i. destruct (decide (i = r)) as [->|Hne].
    - destruct (decide (r < length (World.heap_inodes w))%nat).
      + rewrite get_inode_update_eq by assumption. apply Hg.
      + rewrite get_inode_update_ge by lia. split; reflexivity.
    - rewrite get_inode_update_ne by congruence. split; reflexivity. }
  split; intros i; apply H.
Qed.

(** ** The attribute [Map] *)

Lemma Map_get_set_eq (k : string) (v : Buffer) (m : list (string * Buffer)) :
  Map_get k (Map_set k v m) = Some v.
Proof.
  induction m as [|[k' v'] m IH]; cbn [Map_set Map_get].
  - rewrite String.eqb_refl. reflexivity.
  - destruct (String.eqb k' k) eqn:E; cbn [Map_get]; rewrite E; [reflexivity|exact IH].
Qed.

Lemma Map_get_set_ne (k k0 : string) (v : Buffer) (m : list (string * Buffer)) :
  k0 <> k -> Map_get k0 (Map_set k v m) = Map_get k0 m.
Proof.
  intros Hne. induction m as [|[k' v'] m IH]; cbn [Map_set Map_get].
  - destruct (String.eqb_spec k k0); [congruence|reflexivity].
  - destruct (String.eqb_spec k' k) as [->|Hk]; cbn [Map_get].
    + destruct (String.eqb_spec k k0); [congruence|reflexivity].
    + rewrite IH. reflexivity.
Qed.

Lemma Map_get_None (k : string) (m : list (string * Buffer)) :
  Map_get k m = None <-> k ∉ Map_keys m.
Proof.
  unfold Map_keys. induction m as [|[k' v'] m IH]; cbn [Map_get fmap list_fmap fst].
  - split; [intros _; apply not_elem_of_nil|reflexivity].
  - destruct (String.eqb_spec k' k) as [->|Hk].
    + split; [discriminate|]. intros H. exfalso. apply H. apply elem_of_cons. left. reflexivity.
    + rewrite IH. rewrite not_elem_of_cons. split; [intros H; split; [congruence|exact H]|tauto].
Qed.

Lemma Map_keys_set (k : string) (v : Buffer) (m : list (string * Buffer)) :
  Map_keys (Map_set k v m) =
  if decide (k ∈ Map_keys m) then Map_keys m else Map_keys m ++ [k].
Proof.
  unfold Map_keys. induction m as [|[k' v'] m IH]; cbn [Map_set fmap list_fmap fst].
  - rewrite decide_False by apply not_elem_of_nil. reflexivity.
  - destruct (String.eqb_spec k' k) as [->|Hk]; cbn [fmap list_fmap fst].
    + rewrite decide_True by (apply elem_of_cons; left; reflexivity). reflexivity.
    + change (list_fmap _ _ fst (Map_set k v m)) with (fst <$> Map_set k v m).
      rewrite IH. destruct (decide (k ∈ fst <$> m)) as [Hin|Hout].
      * rewrite decide_True by (apply elem_of_cons; right; exact Hin). reflexivity.
      * rewrite decide_False; [reflexivity|].
        rewrite elem_of_cons. intros [H|H]; [congruence|contradiction].
Qed.

Lemma filter_ne_absent (k : string) (l : list string) :
  k ∉ l -> filter (fun k' => k' <> k) l = l.
Proof.
  induction l as [|x l IH]; intros Hk; [reflexivity|].
  apply not_elem_of_cons in Hk as [Hx Hl].
  rewrite filter_cons_True by congruence. f_equal. apply IH, Hl.
Qed.

Lemma Map_keys_delete (k : string) (m : list (string * Buffer)) :
  NoDup (Map_keys m) ->
  Map_keys (Map_delete k m) = filter (fun k' => k' <> k) (Map_keys m).
Proof.
  unfold Map_keys. induction m as [|[k' v'] m IH]; cbn [Map_delete fmap list_fmap fst];
    intros Hnd; [reflexivity|].
  apply NoDup_cons in Hnd as [Hk' Hnd].
  destruct (String.eqb_spec k' k) as [->|Hk].
  - rewrite filter_cons_False by (intros H; apply H; reflexivity).
    symmetry. apply filter_ne_absent. exact Hk'.
  - rewrite filter_cons_True by assumption. cbn [fmap list_fmap fst]. f_equal.
    apply IH. exact Hnd.
Qed.

Lemma Map_get_delete_eq (k : string) (m : list (string * Buffer)) :
  NoDup (Map_keys m) -> Map_get k (Map_delete k m) = None.
Proof.
  intros Hnd. apply Map_get_None. rewrite Map_keys_delete by assumption.
  intros H. apply list_elem_of_filter in H as [H _]. apply H. reflexivity.
Qed.

Lemma Map_get_delete_ne (k k0 : string) (m : list (string * Buffer)) :
  k0 <> k -> Map_get k0 (Map_delete k m) = Map_get k0 m.
Proof.
  intros Hne. induction m as [|[k' v'] m IH]; cbn [Map_delete Map_get]; [reflexivity|].
  destruct (String.eqb_spec k' k) as [->|Hk]; cbn [Map_get].
  - destruct (String.eqb_spec k k0); [congruence|reflexivity].
  - rewrite IH. reflexivity.
Qed.

Lemma Map_delete_absent (k : string) (m : list (string * Buffer)) :
  k ∉ Map_keys m -> Map_delete k m = m.
Proof.
  unfold Map_keys. induction m as [|[k' v'] m IH]; cbn [Map_delete fmap list_fmap fst];
    intros Hk; [reflexivity|].
  apply not_elem_of_cons in Hk as [Hne Hk].
  destruct (String.eqb_spec k' k); [congruence|]. f_equal. apply IH, Hk.
Qed.

Lemma Map_keys_set_NoDup (k : string) (v : Buffer) (m : list (string * Buffer)) :
  NoDup (Map_keys m) -> NoDup (Map_keys (Map_set k v m)).
Proof.
  intros Hnd. rewrite Map_keys_set. case_decide as Hin; [exact Hnd|].
  apply NoDup_app. split; [exact Hnd|]. split; [|apply NoDup_singleton].
  intros x Hx Hx'. apply list_elem_of_singleton in Hx'. subst. contradiction.
Qed.

Lemma Map_keys_delete_NoDup (k : string) (m : list (string * Buffer)) :
  NoDup (Map_keys m) -> NoDup (Map_keys (Map_delete k m)).
Proof.
  intros Hnd. rewrite Map_keys_delete by assumption. apply NoDup_filter. exact Hnd.
Qed.

(** ** No attribute is listed twice *)

Lemma attrs_ok_update_entry (e : ref) (g : Entry.t -> Entry.t) (w : World.t) :
  (forall x, NoDup (Map_keys (Entry.attributes x)) ->
             NoDup (Map_keys (Entry.attributes (g x)))) ->
  attrs_ok w -> attrs_ok (update_entry e g w).
Proof.
  intros Hg Hok x. rewrite get_entry_update_entry.
  case_decide; [apply Hg|]; apply Hok.
Qed.

Lemma attrs_ok_alloc (x : Entry.t) (w : World.t) :
  NoDup (Map_keys (Entry.attributes x)) -> attrs_ok w ->
  attrs_ok (World.set_heap_entries (World.heap_entries w ++ [x]) w).
Proof.
  intros Hx Hok e. rewrite get_entry_alloc. case_decide; [exact Hx|apply Hok].
Qed.

Ltac attrs_assignment :=
  let w := fresh "w" in
  let H := fresh "H" in
  intros w H;
  first
    [ exact H
    | apply attrs_ok_alloc; [apply NoDup_nil_2|exact H]
    | apply attrs_ok_update_entry; [|exact H];
      let x := fresh "x" in
      let Hx := fresh "Hx" in
      intros x Hx;
      first [ exact Hx
            | apply Map_keys_set_NoDup; exact Hx
            | apply Map_keys_delete_NoDup; exact Hx ] ].

Lemma attrs_calls (c : Constants) :
  (forall path, preserves attrs_ok (FileSystem_stat c path)) /\
  (forall fd, preserves attrs_ok (FileSystem_fstat fd)) /\
  (forall path size, preserves attrs_ok (FileSystem_truncate c path size)) /\
  (forall fd size, preserves attrs_ok (FileSystem_ftruncate fd size)) /\
  (forall path flag mode, preserves attrs_ok (FileSystem_open c path flag mode)) /\
  (forall fd, preserves attrs_ok (FileSystem_close fd)) /\
  (forall path name value, preserves attrs_ok (FileSystem_setxattr c path name value)) /\
  (forall path name, preserves attrs_ok (FileSystem_getxattr c path name)) /\
  (forall path, preserves attrs_ok (FileSystem_listxattr c path)) /\
  (forall path name, preserves attrs_ok (FileSystem_removexattr c path name)) /\
  (forall path, preserves attrs_ok (FileSystem_readdir c path)) /\
  (forall path, preserves attrs_ok (FileSystem_rmdir c path)) /\
  (forall path, preserves attrs_ok (FileSystem_unlink c path)) /\
  (forall path mode, preserves attrs_ok (FileSystem_mkdir c path mode)) /\
  (forall path mode, preserves attrs_ok (FileSystem_chmod c path mode)) /\
  (forall path uid gid, preserves attrs_ok (FileSystem_chown c path uid gid)) /\
  (forall path atime ctime, preserves attrs_ok (FileSystem_utimes c path atime ctime)) /\
  (forall from to, preserves attrs_ok (FileSystem_link c from to)) /\
  (forall from to, preserves attrs_ok (FileSystem_rename c from to)).
Proof.
  repeat match goal with |- _ /\ _ => split end; intros;
    unfold_calls; repeat preserves_step attrs_assignment.
Qed.

Lemma exec_attrs_ok (c : Constants) (fuel : nat) (op : Op) (w w' : World.t) :
  attrs_ok w -> exec c fuel op w = Some w' -> attrs_ok w'.
Proof.
  intros Hok.
  destruct (attrs_calls c) as (Hstat & Hfstat & Htruncate & Hftruncate & Hopen & Hclose &
    Hsetxattr & Hgetxattr & Hlistxattr & Hremovexattr & Hreaddir & Hrmdir & Hunlink &
    Hmkdir & Hchmod & Hchown & Hutimes & Hlink & Hrename).
  destruct op; cbn [exec].
  - intros [= <-]. exact Hok.
  - intros [= <-]. apply Hstat, Hok.
  - intros [= <-]. apply Hfstat, Hok.
  - intros [= <-]. apply Htruncate, Hok.
  - intros [= <-]. apply Hftruncate, Hok.
  - intros [= <-]. apply Hopen, Hok.
  - intros [= <-]. apply Hclose, Hok.
  - unfold FileSystem_read, FileSystem_lookupFd, bind, gets. cbn [id].
    destruct (array_get _ _); [|intros [= <-]; exact Hok].
    unfold FileDescriptor_read, FileDescriptor_file, ret.
    destruct (FileDescriptor.file _); [|intros [= <-]; exact Hok].
    unfold bind, method_of, ret. destruct (Class_eqb _ _); [|intros [= <-]; exact Hok].
    unfold File_read. destruct (read_loop _ _ _ _ _ _ _ _) as [[? ?]|]; [|discriminate].
    intros [= <-]. exact Hok.
  - unfold FileSystem_write, FileSystem_lookupFd, bind, gets. cbn [id].
    destruct (array_get _ _); [|intros [= <-]; exact Hok].
    unfold FileDescriptor_write, FileDescriptor_file, ret.
    destruct (FileDescriptor.file _); [|intros [= <-]; exact Hok].
    unfold bind, method_of, ret. destruct (Class_eqb _ _); [|intros [= <-]; exact Hok].
    unfold File_write. destruct (write_loop _ _ _ _ _ _ _ _) as [[? ?]|]; [|discriminate].
    intros [= <-]. exact Hok.
  - intros [= <-]. apply Hsetxattr, Hok.
  - intros [= <-]. apply Hgetxattr, Hok.
  - intros [= <-]. apply Hlistxattr, Hok.
  - intros [= <-]. apply Hremovexattr, Hok.
  - intros [= <-]. apply Hreaddir, Hok.
  - intros [= <-]. apply Hrmdir, Hok.
  - intros [= <-]. apply Hunlink, Hok.
  - intros [= <-]. apply Hmkdir, Hok.
  - intros [= <-]. apply Hchmod, Hok.
  - intros [= <-]. apply Hchown, Hok.
  - intros [= <-]. apply Hutimes, Hok.
  - intros [= <-]. apply Hlink, Hok.
  - intros [= <-]. apply Hrename, Hok.
Qed.

Lemma run_attrs_ok (c : Constants) (t : Time) (fuel : nat) (ops : list Op) (w : World.t) :
  run c fuel ops (FileSystem_new c t) = Some w -> attrs_ok w.
Proof.
  intros Hrun.
  assert (Hr : reachable c w) by (eapply run_reachable; [apply reachable_new|exact Hrun]).
  clear Hrun. induction Hr as [t0|w0 w' op fuel0 _ IH Hexec].
  - intros e. unfold get_entry. cbn. destruct e as [|[|e]]; cbn; apply NoDup_nil_2.
  - eapply exec_attrs_ok; eauto.
Qed.

(** ** [setxattr], [getxattr], [removexattr] on a path that resolves *)

Lemma lookup_live (c : Constants) (path : string) (w : World.t) (e : ref) :
  tree_ok w -> FileSystem_lookup c path w = (Return e, w) ->
  (e < length (World.heap_entries w))%nat.
Proof.
  intros Hok Hl. unfold FileSystem_lookup, FileSystem_lookup_parts, lift in Hl.
  injection Hl as Hl.
  eapply lookup_from_live; [exact Hok|apply (root_live w Hok)|exact Hl].
Qed.

Lemma lookup_eq (c : Constants) (path : string) (w : World.t) (r : Outcome ref) :
  fst (FileSystem_lookup c path w) = r -> FileSystem_lookup c path w = (r, w).
Proof. intros <-. reflexivity. Qed.

Lemma setxattr_eq (c : Constants) (path name : string) (value : Buffer) (w : World.t)
    (e : ref) :
  FileSystem_lookup c path w = (Return e, w) ->
  FileSystem_setxattr c path name value w =
  (Return tt,
   update_entry e (fun x => Entry.set_attributes (Map_set name value (Entry.attributes x)) x) w).
Proof. intros Hl. unfold FileSystem_setxattr, bind. rewrite Hl. reflexivity. Qed.

Lemma removexattr_eq (c : Constants) (path name : string) (w : World.t) (e : ref) :
  FileSystem_lookup c path w = (Return e, w) ->
  FileSystem_removexattr c path name w =
  (Return tt,
   update_entry e (fun x => Entry.set_attributes (Map_delete name (Entry.attributes x)) x) w).
Proof. intros Hl. unfold FileSystem_removexattr, bind. rewrite Hl. reflexivity. Qed.

Lemma getxattr_eq (c : Constants) (path name : string) (w : World.t) (e : ref) :
  FileSystem_lookup c path w = (Return e, w) ->
  FileSystem_getxattr c path name w =
  (Return (Map_get name (Entry.attributes (get_entry w e))), w).
Proof. intros Hl. unfold FileSystem_getxattr, bind. rewrite Hl. reflexivity. Qed.

Lemma listxattr_eq (c : Constants) (path : string) (w : World.t) (e : ref) :
  FileSystem_lookup c path w = (Return e, w) ->
  FileSystem_listxattr c path w =
  (Return (Map_keys (Entry.attributes (get_entry w e))), w).
Proof. intros Hl. unfold FileSystem_listxattr, bind. rewrite Hl. reflexivity. Qed.

(** A change of the attributes of [e] changes no path. *)
Lemma lookup_after_attributes (c : Constants) (path : string) (w : World.t) (e : ref)
    (g : list (string * Buffer) -> list (string * Buffer)) (r : Outcome ref) :
  FileSystem_lookup c path w = (r, w) ->
  let w' := update_entry e (fun x => Entry.set_attributes (g (Entry.attributes x)) x) w in
  FileSystem_lookup c path w' = (r, w').
Proof.
  intros Hl w'. apply lookup_eq.
  rewrite (lookup_same_tree c w w').
  - rewrite Hl. reflexivity.
  - apply same_tree_update_entry. intros x. repeat split.
Qed.

Lemma attributes_after (w : World.t) (e : ref)
    (g : list (string * Buffer) -> list (string * Buffer)) (x : ref) :
  (e < length (World.heap_entries w))%nat ->
  Entry.attributes
    (get_entry (update_entry e (fun y => Entry.set_attributes (g (Entry.attributes y)) y) w) x)
  = if decide (x = e) then g (Entry.attributes (get_entry w e))
    else Entry.attributes (get_entry w x).
Proof.
  intros Hlive. rewrite get_entry_update_entry.
  destruct (decide (x = e)) as [->|Hne].
  - rewrite decide_True by (split; [reflexivity|assumption]). reflexivity.
  - rewrite decide_False by tauto. reflexivity.
Qed.

Lemma alter_same {A} (g : A -> A) (l : list A) :
  forall e, (forall x, l !! e = Some x -> g x = x) -> alter g e l = l.
Proof.
  induction l as [|y l IH]; intros [|e] Hg; cbn; try reflexivity.
  - rewrite Hg by reflexivity. reflexivity.
  - f_equal. apply IH. intros x Hx. apply Hg. exact Hx.
Qed.

Lemma update_entry_same (e : ref) (g : Entry.t -> Entry.t) (w : World.t) :
  g (get_entry w e) = get_entry w e -> update_entry e g w = w.
Proof.
  intros Hg. unfold update_entry.
  rewrite alter_same.
  - destruct w; reflexivity.
  - intros x Hx. unfold get_entry in Hg.
    rewrite (list_lookup_total_correct _ _ _ Hx) in Hg. exact Hg.
Qed.

(** ** [truncate] on a path *)

Lemma update_inode_twice (r : ref) (g1 g2 : Inode.t -> Inode.t) (w : World.t) :
  update_inode r g2 (update_inode r g1 w) = update_inode r (g2 ∘ g1) w.
Proof.
  unfold update_inode. cbn. rewrite list_alter_alter_eq. reflexivity.
Qed.

Lemma File_truncate_eq (f : ref) (size : Z) (w : World.t) :
  File_truncate f size w =
  (Return tt,
   update_inode (Entry.inode (get_entry w f))
     (fun i => Inode.set_mtime (World.clock w)
        (Inode.set_blocks (js_slice (Inode.blocks i) 0 (ceil_div size BLOCK_SIZE))
           (Inode.set_size size i))) w).
Proof.
  unfold File_truncate, bind, modify, now, gets. cbn [fst snd].
  f_equal.
  change (get_entry (update_inode ?r ?g ?x) f) with (get_entry x f).
  rewrite !update_inode_twice. reflexivity.
Qed.

Lemma FileSystem_truncate_eq (c : Constants) (path : string) (size : Z) (w : World.t)
    (e : ref) :
  FileSystem_lookup c path w = (Return e, w) ->
  Entry.cls (get_entry w e) = ClassFile ->
  FileSystem_truncate c path size w = File_truncate e size w.
Proof.
  intros Hl Hcls. unfold FileSystem_truncate. unfold bind at 1. rewrite Hl.
  unfold bind at 1. unfold method_of. rewrite Hcls. reflexivity.
Qed.

Lemma lookup_after_update_inode (c : Constants) (path : string) (w : World.t) (r : ref)
    (g : Inode.t -> Inode.t) (o : Outcome ref) :
  (forall x, Inode.entries (g x) = Inode.entries x /\ Inode.mode (g x) = Inode.mode x) ->
  FileSystem_lookup c path w = (o, w) ->
  FileSystem_lookup c path (update_inode r g w) = (o, update_inode r g w).
Proof.
  intros Hg Hl. apply lookup_eq.
  rewrite (lookup_same_tree c w (update_inode r g w)).
  - rewrite Hl. reflexivity.
  - apply same_tree_update_inode. exact Hg.
Qed.

Lemma stat_eq (c : Constants) (path : string) (w : World.t) (e : ref) :
  FileSystem_lookup c path w = (Return e, w) ->
  FileSystem_stat c path w = (Return (Entry_stat w e), w).
Proof. intros Hl. unfold FileSystem_stat, bind. rewrite Hl. reflexivity. Qed.

Lemma js_slice_prefix {A} (l : list A) (n : Z) :
  0 <= n -> js_slice l 0 n = take (Z.to_nat n) l.
Proof.
  intros Hn. destruct (Z_le_gt_dec n (Z.of_nat (length l))).
  - rewrite js_slice_inside by lia. rewrite Z.sub_0_r. reflexivity.
  - unfold js_slice, adjustOffset. change (0 <? 0) with false. cbv iota.
    destruct (Z.ltb_spec n 0); [lia|].
    rewrite (Z.min_l 0) by lia. rewrite Z.min_r by lia.
    rewrite Z.sub_0_r, Nat2Z.id. change (Z.to_nat 0) with 0%nat. rewrite drop_0.
    rewrite (take_ge l (length l)) by lia.
    rewrite (take_ge l (Z.to_nat n)) by lia. reflexivity.
Qed.

(** ** The type bits *)

Lemma ToInt32_range (z : Z) : - 2 ^ 31 <= ToInt32 z < 2 ^ 31.
Proof.
  unfold ToInt32. pose proof (Z.mod_pos_bound (z + 2 ^ 31) (2 ^ 32) ltac:(lia)). lia.
Qed.

Lemma ToInt32_low_bits (z n : Z) :
  0 <= n < 32 -> Z.testbit (ToInt32 z) n = Z.testbit z n.
Proof.
  intros Hn.
  rewrite <- (Z.mod_pow2_bits_low (ToInt32 z) 32 n) by lia.
  rewrite <- (Z.mod_pow2_bits_low z 32 n) by lia.
  f_equal. unfold ToInt32.
  rewrite Zminus_mod_idemp_l. f_equal. lia.
Qed.

(** A non-zero 32-bit integer has one of its 32 low bits set. *)
Lemma int32_has_low_bit (k : Z) :
  - 2 ^ 31 <= k < 2 ^ 31 -> k <> 0 -> exists n, 0 <= n < 32 /\ Z.testbit k n = true.
Proof.
  intros Hr Hk. destruct (Z_lt_le_dec k 0) as [Hneg|Hpos].
  - exists 31. split; [lia|].
    apply Z.bits_above_log2_neg; [assumption|].
    destruct (Z.eq_dec (Z.pred (- k)) 0) as [->|Hne]; [cbn; lia|].
    apply Z.log2_lt_pow2; lia.
  - exists (Z.log2 k). split.
    + split; [apply Z.log2_nonneg|].
      assert (Z.log2 k < 31) by (apply Z.log2_lt_pow2; lia). lia.
    + apply Z.bit_log2. lia.
Qed.

(** [(mode | k) & k] is non-zero as soon as [k] is non-zero as a 32-bit
    integer. *)
Lemma js_and_or_truthy (mode k : Z) :
  ToInt32 k <> 0 -> truthy (js_and (js_or mode k) k) = true.
Proof.
  intros Hk. unfold truthy, js_and, js_or.
  destruct (int32_has_low_bit (ToInt32 k) (ToInt32_range k) Hk) as (n & Hn & Hbit).
  apply negb_true_iff, Z.eqb_neq. intros H0.
  apply (f_equal (fun z => Z.testbit z n)) in H0.
  rewrite Z.land_spec, ToInt32_low_bits, Z.lor_spec, Hbit in H0 by assumption.
  rewrite orb_true_r, Z.bits_0 in H0. discriminate.
Qed.

Lemma truthy_js_and_nonzero (mode k : Z) :
  truthy (js_and mode k) = true -> ToInt32 k <> 0.
Proof.
  unfold truthy, js_and. intros H Hk. rewrite Hk, Z.land_0_r in H. discriminate.
Qed.

(** ** Resolutions that are kept *)

Lemma lookup_from_kept (c : Constants) (w w' : World.t) :
  steps_kept c w w' ->
  forall parts cur r,
  lookup_from c w cur parts = Return r -> lookup_from c w' cur parts = Return r.
Proof.
  intros Hk. induction parts as [|p parts IH]; intros cur r; cbn [lookup_from]; [auto|].
  destruct (Entry_isDirectory c w cur) eqn:Hdir; cbn [negb]; [|discriminate].
  destruct (Class_eqb (Entry.cls (get_entry w cur)) ClassDirectory) eqn:Hcls;
    cbn [negb]; [|discriminate].
  apply Class_eqb_eq in Hcls.
  destruct (Directory_get w cur p) as [next|] eqn:Hget; [|discriminate].
  destruct (Hk cur p next Hdir Hcls Hget) as (-> & -> & ->). cbn [negb Class_eqb].
  apply IH.
Qed.

Lemma lookup_kept (c : Constants) (w w' : World.t) (path : string) (r : ref) :
  steps_kept c w w' -> World.root w' = World.root w ->
  FileSystem_lookup c path w = (Return r, w) ->
  FileSystem_lookup c path w' = (Return r, w').
Proof.
  intros Hk Hroot Hl. apply lookup_eq.
  unfold FileSystem_lookup, FileSystem_lookup_parts, lift in *. cbn [fst].
  injection Hl as Hl. rewrite Hroot. eapply lookup_from_kept; eauto.
Qed.

(** ** [chmod] on a path *)

Lemma chmod_eq (c : Constants) (path : string) (mode : Z) (w : World.t) (e : ref) :
  FileSystem_lookup c path w = (Return e, w) ->
  FileSystem_chmod c path mode w =
  (Return tt,
   update_inode (Entry.inode (get_entry w e))
     (Inode.set_mode (js_or mode (chmod_mask c w e))) w).
Proof.
  intros Hl. unfold FileSystem_chmod, bind at 1. rewrite Hl. reflexivity.
Qed.

Lemma isDirectory_after_chmod (c : Constants) (mode : Z) (w : World.t) (e x : ref) :
  Entry_isDirectory c w x = true ->
  Entry_isDirectory c
    (update_inode (Entry.inode (get_entry w e))
       (Inode.set_mode (js_or mode (chmod_mask c w e))) w) x = true.
Proof.
  intros Hx. unfold Entry_isDirectory, inode_of. rewrite get_entry_update_inode.
  destruct (decide (Entry.inode (get_entry w x) = Entry.inode (get_entry w e))) as [Heq|Hne].
  - destruct (decide (Entry.inode (get_entry w e) < length (World.heap_inodes w))%nat).
    + rewrite Heq, get_inode_update_eq by assumption.
      cbn [Inode.mode Inode.set_mode].
      assert (He : Entry_isDirectory c w e = true)
        by (unfold Entry_isDirectory, inode_of in *; rewrite <- Heq; exact Hx).
      unfold chmod_mask. rewrite He.
      apply js_and_or_truthy. eapply truthy_js_and_nonzero. exact He.
    + rewrite get_inode_update_ge by lia. exact Hx.
  - rewrite get_inode_update_ne by congruence. exact Hx.
Qed.

Lemma steps_kept_chmod (c : Constants) (mode : Z) (w : World.t) (e : ref) :
  steps_kept c w
    (update_inode (Entry.inode (get_entry w e))
       (Inode.set_mode (js_or mode (chmod_mask c w e))) w).
Proof.
  intros cur p next Hdir Hcls Hget.
  split; [apply isDirectory_after_chmod; exact Hdir|].
  split; [exact Hcls|].
  unfold Directory_get, inode_of in *. rewrite get_entry_update_inode.
  assert (Hent : forall i,
            Inode.entries (get_inode (update_inode (Entry.inode (get_entry w e))
              (Inode.set_mode (js_or mode (chmod_mask c w e))) w) i) =
            Inode.entries (get_inode w i)).
  { intros i. apply (dir_entries_update_neutral _ _ w i). intros y. reflexivity. }
  rewrite Hent. rewrite <- Hget. apply find_name_same. intros y. reflexivity.
Qed.

Lemma ceil_div_nonneg (a b : Z) : 0 <= a -> 0 < b -> 0 <= ceil_div a b.
Proof.
  intros Ha Hb. unfold ceil_div.
  assert (- a / b <= 0) by (apply Z.div_le_upper_bound; lia). lia.
Qed.

Lemma array_get_take {A} (l : list (option A)) (n : nat) (i : Z) :
  i < Z.of_nat n -> array_get (take n l) i = array_get l i.
Proof.
  intros Hi. unfold array_get. destruct (Z.ltb_spec i 0); [reflexivity|].
  rewrite lookup_take_lt by lia. reflexivity.
Qed.

(** * Paths under [mkdir], [open], [link], [unlink], [rmdir] and [rename] *)

(** ** A path and its parent *)

Lemma last_removelast {A} (l : list A) (x : A) :
  last l = Some x -> l = removelast l ++ [x].
Proof.
  induction l as [|y l IH]; [discriminate|].
  destruct l as [|z l]; [intros [= ->]; reflexivity|].
  intros H. change (removelast (y :: z :: l)) with (y :: removelast (z :: l)).
  cbn [app]. f_equal. apply IH. exact H.
Qed.

Lemma lookup_from_app (c : Constants) (w : World.t) (a b : list string) :
  forall cur,
  lookup_from c w cur (a ++ b) =
  match lookup_from c w cur a with
  | Return r => lookup_from c w r b
  | Throw e => Throw e
  end.
Proof.
  induction a as [|p a IH]; intros cur; cbn [app lookup_from]; [reflexivity|].
  destruct (negb (Entry_isDirectory c w cur)); [reflexivity|].
  destruct (negb (Class_eqb (Entry.cls (get_entry w cur)) ClassDirectory)); [reflexivity|].
  destruct (Directory_get w cur p); [apply IH|reflexivity].
Qed.

Lemma parentDir_inv (c : Constants) (path : string) (w : World.t) (parent : ref)
    (name : string) :
  fst (FileSystem_parentDir c path w) = Return (parent, name) ->
  split path = removelast (split path) ++ [name] /\
  lookup_from c w (World.root w) (removelast (split path)) = Return parent /\
  Entry_isDirectory c w parent = true.
Proof.
  unfold FileSystem_parentDir.
  destruct (last (split path)) as [p|] eqn:Hlast; [|discriminate].
  unfold bind, FileSystem_lookup_parts, lift, gets, throw_if, throw, ret, id.
  destruct (lookup_from c w (World.root w) (removelast (split path))) as [dir|e];
    [|discriminate].
  destruct (Entry_isDirectory c w dir) eqn:Hdir; cbn [negb fst]; [|discriminate].
  intros [= -> ->]. split; [apply last_removelast; exact Hlast|]. split; [reflexivity|exact Hdir].
Qed.

Lemma parentDir_eq (c : Constants) (path : string) (w : World.t) (r : Outcome (ref * string)) :
  fst (FileSystem_parentDir c path w) = r -> FileSystem_parentDir c path w = (r, w).
Proof.
  intros <-. rewrite <- (FileSystem_parentDir_pure c path w) at 3.
  destruct (FileSystem_parentDir c path w); reflexivity.
Qed.

Lemma parentDir_intro (c : Constants) (path : string) (w : World.t) (parent : ref)
    (name : string) :
  split path = removelast (split path) ++ [name] ->
  lookup_from c w (World.root w) (removelast (split path)) = Return parent ->
  Entry_isDirectory c w parent = true ->
  FileSystem_parentDir c path w = (Return (parent, name), w).
Proof.
  intros Hs Hl Hdir. unfold FileSystem_parentDir.
  assert (Hlast : last (split path) = Some name) by (rewrite Hs; apply last_snoc).
  rewrite Hlast.
  unfold bind, FileSystem_lookup_parts, lift, gets, throw_if, throw, ret, id.
  rewrite Hl, Hdir. reflexivity.
Qed.

(** The path of a child: the parent's resolution, then one more step. *)
Lemma lookup_through_parent (c : Constants) (path : string) (w w' : World.t)
    (parent : ref) (name : string) :
  fst (FileSystem_parentDir c path w) = Return (parent, name) ->
  lookup_from c w' (World.root w') (removelast (split path)) = Return parent ->
  FileSystem_lookup c path w' = (lookup_from c w' parent [name], w').
Proof.
  intros Hp Hl. destruct (parentDir_inv c path w parent name Hp) as (Hs & _ & _).
  apply lookup_eq. unfold FileSystem_lookup, FileSystem_lookup_parts, lift. cbn [fst].
  rewrite Hs, lookup_from_app, Hl. reflexivity.
Qed.

(** A class check that is known to pass. *)
Lemma method_of_pass (k : Class) (e : ref) (w : World.t) :
  Entry.cls (get_entry w e) = k -> method_of k e w = (Return tt, w).
Proof. intros H. unfold method_of. rewrite H. destruct k; reflexivity. Qed.

(** One step of a resolution, spelled out. *)
Lemma lookup_from_one (c : Constants) (w : World.t) (cur : ref) (name : string) :
  Entry_isDirectory c w cur = true ->
  Entry.cls (get_entry w cur) = ClassDirectory ->
  lookup_from c w cur [name] =
  match Directory_get w cur name with Some e => Return e | None => Throw ENOENT end.
Proof.
  intros Hdir Hcls. cbn [lookup_from]. rewrite Hdir, Hcls. cbn [negb Class_eqb].
  destruct (Directory_get w cur name); reflexivity.
Qed.

(** A path that resolves and has a last component resolves through its
    parent directory. *)
Lemma lookup_parent (c : Constants) (path : string) (w : World.t) (e : ref) (name : string) :
  last (split path) = Some name ->
  FileSystem_lookup c path w = (Return e, w) ->
  exists parent,
    FileSystem_parentDir c path w = (Return (parent, name), w) /\
    Entry.cls (get_entry w parent) = ClassDirectory /\
    Directory_get w parent name = Some e.
Proof.
  intros Hlast Hl. pose proof (last_removelast _ _ Hlast) as Hs.
  unfold FileSystem_lookup, FileSystem_lookup_parts, lift in Hl. injection Hl as Hl.
  rewrite Hs, lookup_from_app in Hl.
  destruct (lookup_from c w (World.root w) (removelast (split path))) as [parent|]
    eqn:Hparent; [|discriminate].
  cbn [lookup_from] in Hl.
  destruct (Entry_isDirectory c w parent) eqn:Hdir; cbn [negb] in Hl; [|discriminate].
  destruct (Class_eqb (Entry.cls (get_entry w parent)) ClassDirectory) eqn:Hcls;
    cbn [negb] in Hl; [|discriminate].
  destruct (Directory_get w parent name) as [x|] eqn:Hget; [|discriminate].
  injection Hl as ->. exists parent. split; [|split].
  - apply parentDir_intro; assumption.
  - apply Class_eqb_eq. exact Hcls.
  - exact Hget.
Qed.

(** ** What [push] and the constructors leave alone *)

Lemma get_inode_update_proj {B} (proj : Inode.t -> B) (r : ref) (g : Inode.t -> Inode.t)
    (w : World.t) (i : ref) :
  (forall x, proj (g x) = proj x) ->
  proj (get_inode (update_inode r g w) i) = proj (get_inode w i).
Proof.
  intros Hg. destruct (decide (i = r)) as [->|Hne].
  - destruct (decide (r < length (World.heap_inodes w))%nat).
    + rewrite get_inode_update_eq by assumption. apply Hg.
    + rewrite get_inode_update_ge by lia. reflexivity.
  - rewrite get_inode_update_ne by congruence. reflexivity.
Qed.

Lemma Directory_push_proj {B} (proj : Inode.t -> B) (d e : ref) (w : World.t) (i : ref) :
  (forall l x, proj (Inode.set_entries l x) = proj x) ->
  (forall t x, proj (Inode.set_mtime t x) = proj x) ->
  proj (get_inode (snd (Directory_push d e w)) i) = proj (get_inode w i).
Proof.
  intros H1 H2. unfold Directory_push, bind, modify, now, gets, ret. cbn [snd].
  rewrite !get_inode_update_proj; auto.
Qed.

Lemma Directory_push_other (d e : ref) (w : World.t) (i : ref) :
  i <> entry_inode w d -> get_inode (snd (Directory_push d e w)) i = get_inode w i.
Proof.
  intros Hne. unfold Directory_push, bind, modify, now, gets, ret. cbn [snd].
  rewrite get_entry_update_inode.
  rewrite !get_inode_update_ne by (unfold entry_inode in Hne; congruence). reflexivity.
Qed.

Lemma Directory_push_get_entry (d e : ref) (w : World.t) (x : ref) :
  get_entry (snd (Directory_push d e w)) x = get_entry w x.
Proof.
  unfold get_entry. destruct (Directory_push_frame d e w) as (-> & _). reflexivity.
Qed.

Lemma find_name_ext (w w' : World.t) (p : string) (l l2 : list ref) (next : ref) :
  (forall x, x ∈ l -> Entry.name (get_entry w' x) = Entry.name (get_entry w x)) ->
  find_name w p l = Some next -> find_name w' p (l ++ l2) = Some next.
Proof.
  induction l as [|y l IH]; cbn [find_name app]; intros Hn H; [discriminate|].
  rewrite (Hn y) by (apply elem_of_cons; left; reflexivity).
  destruct (String.eqb (Entry.name (get_entry w y)) p); [exact H|].
  apply IH; [|exact H]. intros x Hx. apply Hn. apply elem_of_cons. right. exact Hx.
Qed.

Lemma find_name_snoc (w : World.t) (p : string) (l : list ref) (n : ref) :
  p ∉ entry_name w <$> l -> entry_name w n = p -> find_name w p (l ++ [n]) = Some n.
Proof.
  intros Hp Hn. induction l as [|y l IH]; cbn [find_name app].
  - unfold entry_name in Hn. rewrite Hn, String.eqb_refl. reflexivity.
  - rewrite fmap_cons in Hp. apply not_elem_of_cons in Hp as [Hy Hl].
    destruct (String.eqb_spec (Entry.name (get_entry w y)) p) as [Heq|_];
      [exfalso; apply Hy; symmetry; exact Heq|].
    apply IH. exact Hl.
Qed.

(** A live entry of class [Directory]. *)
Lemma Directory_live (w : World.t) (d : ref) :
  Entry.cls (get_entry w d) = ClassDirectory -> (d < length (World.heap_entries w))%nat.
Proof.
  intros Hcls. destruct (decide (d < length (World.heap_entries w))%nat) as [|Hge]; [assumption|].
  unfold get_entry in Hcls. rewrite list_lookup_total_alt, lookup_ge_None_2 in Hcls by lia.
  discriminate.
Qed.

Section Pushed.
Context (c : Constants) (w w1 : World.t) (d n : ref) (name : string).
Hypothesis Hok : tree_ok w.
Hypothesis Hal : allocated w w1 n name.
Hypothesis Hmodes : forall i, (i < length (World.heap_inodes w))%nat ->
  Inode.mode (get_inode w1 i) = Inode.mode (get_inode w i).

Lemma pushed_get_entry (x : ref) :
  (x < length (World.heap_entries w))%nat ->
  get_entry (snd (Directory_push d n w1)) x = get_entry w x.
Proof.
  intros Hx. rewrite Directory_push_get_entry.
  destruct (allocated_tree_ok w w1 n name Hok Hal) as (_ & _ & _ & _ & Hold). auto.
Qed.

Lemma pushed_isDirectory (x : ref) :
  (x < length (World.heap_entries w))%nat ->
  Entry_isDirectory c (snd (Directory_push d n w1)) x = Entry_isDirectory c w x.
Proof.
  intros Hx. unfold Entry_isDirectory, inode_of. rewrite pushed_get_entry by assumption.
  rewrite (Directory_push_proj Inode.mode) by reflexivity.
  rewrite Hmodes; [reflexivity|]. apply (inodes_live w Hok). exact Hx.
Qed.

Lemma pushed_names (i : ref) (x : ref) :
  x ∈ dir_entries w i ->
  Entry.name (get_entry (snd (Directory_push d n w1)) x) = Entry.name (get_entry w x).
Proof.
  intros Hx. rewrite pushed_get_entry; [reflexivity|]. eapply children_live; eauto.
Qed.

Lemma pushed_steps_kept : steps_kept c w (snd (Directory_push d n w1)).
Proof.
  intros cur p next Hdir Hcls Hget.
  pose proof (Directory_live w cur Hcls) as Hlive.
  split; [rewrite pushed_isDirectory; assumption|].
  split; [rewrite pushed_get_entry; assumption|].
  unfold Directory_get, inode_of in *. rewrite pushed_get_entry by assumption.
  fold (dir_entries (snd (Directory_push d n w1)) (Entry.inode (get_entry w cur))).
  fold (dir_entries w (Entry.inode (get_entry w cur))) in Hget.
  rewrite Directory_push_entries.
  destruct Hal as (_ & _ & Hdir1 & _). rewrite Hdir1.
  case_decide.
  - eapply find_name_ext; [|exact Hget]. intros x Hx. eapply pushed_names; eauto.
  - rewrite <- (app_nil_r (dir_entries w _)).
    eapply find_name_ext; [|exact Hget]. intros x Hx. eapply pushed_names; eauto.
Qed.

Lemma pushed_root : World.root (snd (Directory_push d n w1)) = World.root w.
Proof.
  destruct (Directory_push_frame d n w1) as (_ & _ & -> & _).
  destruct Hal as (_ & _ & _ & _ & -> & _). reflexivity.
Qed.

Hypothesis Hd : (d < length (World.heap_entries w))%nat.

Lemma pushed_entries :
  dir_entries (snd (Directory_push d n w1)) (entry_inode w d) =
  dir_entries w (entry_inode w d) ++ [n].
Proof.
  destruct (allocated_tree_ok w w1 n name Hok Hal) as (_ & _ & _ & _ & Hold).
  rewrite Directory_push_entries.
  assert (Hi : entry_inode w1 d = entry_inode w d) by (unfold entry_inode; rewrite Hold; auto).
  rewrite Hi. destruct Hal as (_ & _ & Hdir1 & Hlen & _). rewrite Hdir1.
  pose proof (inodes_live w Hok d Hd).
  case_decide as Hdec; [reflexivity|]. exfalso. apply Hdec. split; [reflexivity|lia].
Qed.

Lemma pushed_get :
  name ∉ entry_name w <$> dir_entries w (entry_inode w d) ->
  Directory_get (snd (Directory_push d n w1)) d name = Some n.
Proof.
  intros Hname.
  destruct (allocated_tree_ok w w1 n name Hok Hal) as (_ & _ & _ & Hn & Hold).
  unfold Directory_get, inode_of. rewrite pushed_get_entry by assumption.
  fold (entry_inode w d).
  fold (dir_entries (snd (Directory_push d n w1)) (entry_inode w d)).
  rewrite pushed_entries. apply find_name_snoc.
  - rewrite (names_same_on w); [exact Hname|].
    intros x Hx. unfold entry_name. eapply pushed_names; eauto.
  - unfold entry_name in *. rewrite Directory_push_get_entry. exact Hn.
Qed.

Lemma pushed_readdir :
  Directory_readdir (snd (Directory_push d n w1)) d = Directory_readdir w d ++ [name].
Proof.
  destruct (allocated_tree_ok w w1 n name Hok Hal) as (_ & _ & _ & Hn & Hold).
  unfold Directory_readdir, inode_of. rewrite pushed_get_entry by assumption.
  fold (entry_inode w d).
  fold (dir_entries (snd (Directory_push d n w1)) (entry_inode w d)).
  fold (dir_entries w (entry_inode w d)).
  rewrite pushed_entries, fmap_app. cbn [fmap list_fmap].
  rewrite Directory_push_get_entry. unfold entry_name in Hn. rewrite Hn. f_equal.
  apply list_fmap_ext. intros k x Hk. eapply pushed_names.
  eapply list_elem_of_lookup_2; eauto.
Qed.

End Pushed.

(** ** The objects the constructors build *)

Lemma alter_at_end {A} (f : A -> A) (l : list A) (x : A) :
  alter f (length l) (l ++ [x]) = l ++ [f x].
Proof.
  rewrite <- (Nat.add_0_r (length l)) at 1. rewrite alter_app_r. reflexivity.
Qed.

Lemma lookup_total_at_end `{Inhabited A} (l : list A) (x : A) :
  (l ++ [x]) !!! length l = x.
Proof. apply list_lookup_total_middle. reflexivity. Qed.

Lemma lookup_total_before_end `{Inhabited A} (l : list A) (x : A) (i : nat) :
  (i < length l)%nat -> (l ++ [x]) !!! i = l !!! i.
Proof. intros. apply lookup_total_app_l. assumption. Qed.

Lemma Directory_new_spec (c : Constants) (fs : bool) (name : string) (w : World.t) :
  get_entry (snd (Directory_new c fs name w)) (length (World.heap_entries w)) =
    Entry.mk ClassDirectory fs name (length (World.heap_inodes w)) [] Undefined /\
  get_inode (snd (Directory_new c fs name w)) (length (World.heap_inodes w)) =
    Inode.mk (World.clock w) (World.clock w) (World.clock w)
      (js_or (js_or (js_or 0 365) 219) (S_IFDIR c)) 0 0
      (if fs then js_incr (World.inodes w) else Num 0) 1 [] [] 512 /\
  (forall i, (i < length (World.heap_inodes w))%nat ->
     get_inode (snd (Directory_new c fs name w)) i = get_inode w i).
Proof.
  unfold Directory_new, Entry_new, Inode_new, bind, modify, now, gets, ret, alloc_inode,
    alloc_entry.
  destruct w as [clock hi he root fds inodes].
  destruct fs; cbn [snd fst World.heap_entries World.heap_inodes World.set_heap_inodes
    World.set_heap_entries World.set_inodes World.clock World.inodes];
    unfold get_entry, get_inode, update_inode;
    cbn [snd fst World.heap_entries World.heap_inodes World.set_heap_inodes
      World.set_heap_entries World.set_inodes World.clock World.inodes Entry.inode];
    rewrite !lookup_total_at_end; cbn [Entry.inode]; rewrite alter_at_end, lookup_total_at_end;
    (split; [reflexivity|split; [reflexivity|]]);
    intros i Hi; apply lookup_total_before_end; exact Hi.
Qed.

Lemma File_new_spec (c : Constants) (fs : bool) (name : string) (w : World.t) :
  get_entry (snd (File_new c fs name None w)) (length (World.heap_entries w)) =
    Entry.mk ClassFile fs name (length (World.heap_inodes w)) [] Undefined /\
  get_inode (snd (File_new c fs name None w)) (length (World.heap_inodes w)) =
    Inode.mk (World.clock w) (World.clock w) (World.clock w)
      (js_or (js_or (js_or 0 292) 146) (S_IFREG c)) 0 0
      (if fs then js_incr (World.inodes w) else Num 0) 1 [] [] 0 /\
  (forall i, (i < length (World.heap_inodes w))%nat ->
     get_inode (snd (File_new c fs name None w)) i = get_inode w i).
Proof.
  unfold File_new, Entry_new, Inode_new, bind, modify, now, gets, ret, alloc_inode,
    alloc_entry.
  destruct w as [clock hi he root fds inodes].
  destruct fs; cbn [snd fst World.heap_entries World.heap_inodes World.set_heap_inodes
    World.set_heap_entries World.set_inodes World.clock World.inodes];
    unfold get_entry, get_inode;
    cbn [snd fst World.heap_entries World.heap_inodes World.set_heap_inodes
      World.set_heap_entries World.set_inodes World.clock World.inodes Entry.inode];
    rewrite !lookup_total_at_end;
    (split; [reflexivity|split; [reflexivity|]]);
    intros i Hi; apply lookup_total_before_end; exact Hi.
Qed.

Lemma File_new_linked (c : Constants) (fs : bool) (name : string) (inode : ref)
    (w : World.t) :
  get_entry (snd (File_new c fs name (Some inode) w)) (length (World.heap_entries w)) =
    Entry.mk ClassFile fs name inode [] Undefined /\
  World.heap_inodes (snd (File_new c fs name (Some inode) w)) = World.heap_inodes w.
Proof.
  unfold File_new, Entry_new, bind, ret, alloc_entry. cbn [snd fst].
  unfold get_entry. cbn [World.heap_entries World.set_heap_entries].
  destruct w; cbn. rewrite lookup_total_at_end. split; reflexivity.
Qed.

(** ** [mkdir] *)

Lemma FileSystem_mkdir_inv (c : Constants) (path : string) (mode : Z) (w w' : World.t) :
  FileSystem_mkdir c path mode w = (Return tt, w') ->
  exists parent name,
    FileSystem_parentDir c path w = (Return (parent, name), w) /\
    Entry.cls (get_entry w parent) = ClassDirectory /\
    Directory_get w parent name = None /\
    w' = snd (Directory_push parent (length (World.heap_entries w))
                (snd (Directory_new c (Entry.fs (get_entry w parent)) name w))).
Proof.
  unfold FileSystem_mkdir. unfold bind at 1.
  destruct (FileSystem_parentDir c path w) as [[[parent name]|e] w1] eqn:Hp; [|discriminate].
  pose proof (FileSystem_parentDir_pure c path w) as Hpure. rewrite Hp in Hpure.
  cbn [snd] in Hpure. subst w1.
  unfold bind at 1, gets at 1. cbn [id fst snd].
  destruct (Entry_isDirectory c w parent); [|discriminate].
  unfold bind at 1, method_of.
  destruct (Class_eqb (Entry.cls (get_entry w parent)) ClassDirectory) eqn:Hcls; [|discriminate].
  apply Class_eqb_eq in Hcls.
  unfold Directory_mkdir, bind at 1. unfold bind at 1, gets at 1. cbn [id].
  unfold bind at 1, throw_if, Directory_exists.
  destruct (Directory_get w parent name) as [x|] eqn:Hget.
  { rewrite bool_decide_eq_true_2 by (eexists; reflexivity). discriminate. }
  rewrite bool_decide_eq_false_2 by (intros [x Hx]; discriminate).
  unfold ret at 1. unfold bind at 1.
  destruct (Directory_new_allocated c (Entry.fs (get_entry w parent)) name w) as [Hret _].
  destruct (Directory_new c (Entry.fs (get_entry w parent)) name w) as [o w1] eqn:Hnew.
  cbn [fst snd] in *. subst o.
  pose proof (Directory_push_returns parent (length (World.heap_entries w)) w1) as Hpr.
  destruct (Directory_push parent (length (World.heap_entries w)) w1) as [o w2] eqn:Hpush.
  cbn [fst snd] in *. subst o. unfold ret. intros [= <-].
  exists parent, name. split; [reflexivity|]. split; [assumption|]. split; [assumption|].
  rewrite Hnew. cbn [snd]. rewrite Hpush. reflexivity.
Qed.

Lemma mkdir_world (c : Constants) (w : World.t) (parent : ref) (name : string) :
  tree_ok w ->
  Entry.cls (get_entry w parent) = ClassDirectory ->
  Directory_get w parent name = None ->
  let n := length (World.heap_entries w) in
  let i := length (World.heap_inodes w) in
  let w' := snd (Directory_push parent n
                   (snd (Directory_new c (Entry.fs (get_entry w parent)) name w))) in
  steps_kept c w w' /\
  World.root w' = World.root w /\
  (forall x, (x < length (World.heap_entries w))%nat ->
     get_entry w' x = get_entry w x /\
     Entry_isDirectory c w' x = Entry_isDirectory c w x) /\
  Directory_get w' parent name = Some n /\
  Directory_readdir w' parent = Directory_readdir w parent ++ [name] /\
  get_entry w' n = Entry.mk ClassDirectory (Entry.fs (get_entry w parent)) name i [] Undefined /\
  get_inode w' i =
    Inode.mk (World.clock w) (World.clock w) (World.clock w)
      (js_or (js_or (js_or 0 365) 219) (S_IFDIR c)) 0 0
      (if Entry.fs (get_entry w parent) then js_incr (World.inodes w) else Num 0)
      1 [] [] 512.
Proof.
  intros Hok Hcls Hget n i w'.
  pose proof (Directory_live w parent Hcls) as Hlive.
  destruct (Directory_new_allocated c (Entry.fs (get_entry w parent)) name w) as [_ Hal].
  destruct (Directory_new_spec c (Entry.fs (get_entry w parent)) name w) as (He & Hi & Hold).
  assert (Hmodes : forall j, (j < length (World.heap_inodes w))%nat ->
            Inode.mode (get_inode (snd (Directory_new c (Entry.fs (get_entry w parent)) name w)) j)
            = Inode.mode (get_inode w j)) by (intros j Hj; rewrite Hold; auto).
  split; [eapply pushed_steps_kept; eauto|].
  split; [eapply pushed_root; eauto|].
  split; [intros x Hx; split; [eapply pushed_get_entry|eapply pushed_isDirectory]; eauto|].
  split; [eapply pushed_get; eauto; apply Directory_get_None; exact Hget|].
  split; [eapply pushed_readdir; eauto|].
  split; [unfold w'; rewrite Directory_push_get_entry; exact He|].
  unfold w'. rewrite Directory_push_other; [exact Hi|].
  destruct (allocated_tree_ok w _ _ name Hok Hal) as (_ & _ & _ & _ & Hkeep).
  unfold entry_inode. rewrite Hkeep by exact Hlive.
  pose proof (inodes_live w Hok parent Hlive) as Hino. unfold entry_inode in Hino.
  unfold i. lia.
Qed.

(** ** Calls that throw before they change anything *)

Lemma reads_only_bind {A B} (m : M A) (k : A -> M B) :
  reads_only m -> (forall a, reads_only (k a)) -> reads_only (bind m k).
Proof.
  intros Hm Hk w. unfold bind. specialize (Hm w).
  destruct (m w) as [[a|e] w1]; cbn [snd] in *; subst w1; [apply Hk|reflexivity].
Qed.

Lemma reads_only_parentDir (c : Constants) (path : string) :
  reads_only (FileSystem_parentDir c path).
Proof. intros w. apply FileSystem_parentDir_pure. Qed.

Lemma reads_only_method_of (k : Class) (e : ref) : reads_only (method_of k e).
Proof. intros w. unfold method_of. destruct (Class_eqb _ _); reflexivity. Qed.

Lemma reads_only_throw_if (b : bool) (e : Error) : reads_only (throw_if b e).
Proof. intros w. destruct b; reflexivity. Qed.

Lemma reads_only_gets {A} (f : World.t -> A) : reads_only (gets f).
Proof. intros w. reflexivity. Qed.

Lemma reads_only_ret {A} (a : A) : reads_only (ret a).
Proof. intros w. reflexivity. Qed.

Lemma never_throws_bind {A B} (m : M A) (k : A -> M B) :
  never_throws m -> (forall a, never_throws (k a)) -> never_throws (bind m k).
Proof.
  intros Hm Hk w. unfold bind. destruct (Hm w) as [a Ha].
  destruct (m w) as [o w1]; cbn [fst] in Ha; subst o. apply Hk.
Qed.

Lemma never_throws_ret {A} (a : A) : never_throws (ret a).
Proof. intros w. eexists. reflexivity. Qed.

Lemma never_throws_modify (f : World.t -> World.t) : never_throws (modify f).
Proof. intros w. eexists. reflexivity. Qed.

Lemma never_throws_gets {A} (f : World.t -> A) : never_throws (gets f).
Proof. intros w. eexists. reflexivity. Qed.

Lemma never_throws_now : never_throws now.
Proof. intros w. eexists. reflexivity. Qed.

Lemma never_throws_alloc_inode (i : Inode.t) : never_throws (alloc_inode i).
Proof. intros w. eexists. reflexivity. Qed.

Lemma never_throws_alloc_entry (e : Entry.t) : never_throws (alloc_entry e).
Proof. intros w. eexists. reflexivity. Qed.

Ltac never_throws_step :=
  lazymatch goal with
  | |- never_throws (bind _ _) => apply never_throws_bind; [|intros ?]
  | |- never_throws (ret _) => apply never_throws_ret
  | |- never_throws (modify _) => apply never_throws_modify
  | |- never_throws (gets _) => apply never_throws_gets
  | |- never_throws now => apply never_throws_now
  | |- never_throws (alloc_inode _) => apply never_throws_alloc_inode
  | |- never_throws (alloc_entry _) => apply never_throws_alloc_entry
  | |- never_throws (match ?x with _ => _ end) => destruct x
  end.

Lemma never_throws_remove (d e : ref) : never_throws (Directory_remove d e).
Proof. unfold Directory_remove. never_throws_step; [never_throws_step|]. repeat never_throws_step. Qed.

Lemma never_throws_push (d e : ref) : never_throws (Directory_push d e).
Proof. unfold Directory_push. repeat never_throws_step. Qed.

Lemma never_throws_Entry_new (k : Class) (mode : Z) (fs : bool) (name : string)
    (inode : option ref) : never_throws (Entry_new k mode fs name inode).
Proof. unfold Entry_new, Inode_new. repeat never_throws_step. Qed.

Lemma never_throws_Directory_new (c : Constants) (fs : bool) (name : string) :
  never_throws (Directory_new c fs name).
Proof.
  unfold Directory_new. never_throws_step; [apply never_throws_Entry_new|].
  repeat never_throws_step.
Qed.

Lemma throws_cleanly_total {A} (m : M A) : never_throws m -> throws_cleanly m.
Proof. intros Hm w w' e H. destruct (Hm w) as [a Ha]. rewrite H in Ha. discriminate. Qed.

Lemma throws_cleanly_reads {A} (m : M A) : reads_only m -> throws_cleanly m.
Proof. intros Hm w w' e H. rewrite <- (Hm w), H. reflexivity. Qed.

Lemma throws_cleanly_bind {A B} (m : M A) (k : A -> M B) :
  reads_only m -> (forall a, throws_cleanly (k a)) -> throws_cleanly (bind m k).
Proof.
  intros Hm Hk w w' e. unfold bind. specialize (Hm w).
  destruct (m w) as [[a|e1] w1]; cbn [snd] in Hm; subst w1.
  - apply Hk.
  - intros [= _ <-]. reflexivity.
Qed.

Lemma throws_cleanly_throw {A} (e : Error) : throws_cleanly (@throw A e).
Proof. intros w w' e' [= _ <-]. reflexivity. Qed.

Lemma throws_cleanly_assoc {A B C} (m : M A) (k1 : A -> M B) (k2 : B -> M C) :
  throws_cleanly (bind m (fun a => bind (k1 a) k2)) ->
  throws_cleanly (bind (bind m k1) k2).
Proof.
  intros H w w' e Hr. apply (H w w' e). revert Hr. unfold bind.
  destruct (m w) as [[a|e1] w1]; auto.
Qed.

(** Steps that only read, then a tail that cannot throw. *)
Ltac throws_cleanly_step :=
  lazymatch goal with
  | |- throws_cleanly (bind (bind _ _) _) => apply throws_cleanly_assoc
  | |- throws_cleanly (bind (match ?x with _ => _ end) _) => destruct x
  | |- throws_cleanly (bind (ret _) _) =>
    apply throws_cleanly_bind; [apply reads_only_ret|intros ?]
  | |- throws_cleanly (bind (FileSystem_parentDir _ _) _) =>
    apply throws_cleanly_bind; [apply reads_only_parentDir|intros ?]
  | |- throws_cleanly (bind (method_of _ _) _) =>
    apply throws_cleanly_bind; [apply reads_only_method_of|intros ?]
  | |- throws_cleanly (bind (throw_if _ _) _) =>
    apply throws_cleanly_bind; [apply reads_only_throw_if|intros ?]
  | |- throws_cleanly (bind (gets _) _) =>
    apply throws_cleanly_bind; [apply reads_only_gets|intros ?]
  | |- throws_cleanly (throw _) => apply throws_cleanly_throw
  | |- throws_cleanly (match ?x with _ => _ end) => destruct x
  end.

Lemma throws_cleanly_mkdir (c : Constants) (path : string) (mode : Z) :
  throws_cleanly (FileSystem_mkdir c path mode).
Proof.
  unfold FileSystem_mkdir, Directory_mkdir. repeat throws_cleanly_step.
  apply throws_cleanly_total.
  repeat first [apply never_throws_Directory_new | apply never_throws_push | never_throws_step].
Qed.

Lemma throws_cleanly_rmdir (c : Constants) (path : string) :
  throws_cleanly (FileSystem_rmdir c path).
Proof.
  unfold FileSystem_rmdir, Directory_rmdir. repeat throws_cleanly_step.
  apply throws_cleanly_total, never_throws_remove.
Qed.

Lemma throws_cleanly_unlink (c : Constants) (path : string) :
  throws_cleanly (FileSystem_unlink c path).
Proof.
  unfold FileSystem_unlink, Directory_unlink. repeat throws_cleanly_step.
  apply throws_cleanly_total, never_throws_remove.
Qed.

Lemma throws_cleanly_link (c : Constants) (from to : string) :
  throws_cleanly (FileSystem_link c from to).
Proof.
  unfold FileSystem_link. repeat throws_cleanly_step.
  apply throws_cleanly_total. unfold File_new.
  repeat first [apply never_throws_Entry_new | apply never_throws_push | never_throws_step].
Qed.

Lemma throws_cleanly_rename (c : Constants) (from to : string) :
  throws_cleanly (FileSystem_rename c from to).
Proof.
  unfold FileSystem_rename. repeat throws_cleanly_step;
    apply throws_cleanly_total;
    repeat first [apply never_throws_remove | apply never_throws_push | never_throws_step].
Qed.

(** ** Calls that keep every resolution *)

Lemma same_tree_refl (w : World.t) : same_tree w w.
Proof. split; [reflexivity|]. split; [intros x; repeat split|split; reflexivity]. Qed.

Lemma same_tree_trans (w1 w2 w3 : World.t) :
  same_tree w1 w2 -> same_tree w2 w3 -> same_tree w1 w3.
Proof.
  intros (Hr & He & Hc & Hm) (Hr' & He' & Hc' & Hm').
  split; [congruence|]. split; [|split; intros i; congruence].
  intros x. destruct (He x) as (? & ? & ?), (He' x) as (? & ? & ?).
  repeat split; congruence.
Qed.

Lemma same_tree_steps_kept (c : Constants) (w w' : World.t) :
  same_tree w w' -> steps_kept c w w'.
Proof.
  intros Hs cur p next Hdir Hcls Hget.
  rewrite (same_tree_isDirectory c w w' cur Hs), (same_tree_get w w' cur p Hs).
  destruct Hs as (_ & He & _). destruct (He cur) as (-> & _). auto.
Qed.

Lemma steps_kept_trans (c : Constants) (w1 w2 w3 : World.t) :
  steps_kept c w1 w2 -> steps_kept c w2 w3 -> steps_kept c w1 w3.
Proof.
  intros H12 H23 cur p next Hdir Hcls Hget.
  destruct (H12 cur p next Hdir Hcls Hget) as (Hd & Hc & Hg). apply H23; assumption.
Qed.

Lemma same_tree_set_fds (fds : list (option FileDescriptor.t)) (w : World.t) :
  same_tree w (World.set_fds fds w).
Proof. split; [reflexivity|]. split; [intros x; repeat split|split; reflexivity]. Qed.

Ltac tree_assignment w0 :=
  let w := fresh "w" in
  let H := fresh "H" in
  intros w H;
  first
    [ exact H
    | apply (same_tree_trans w0 w); [exact H|];
      first [ apply same_tree_update_inode; intros; split; reflexivity
            | apply same_tree_update_entry; intros; repeat split; reflexivity
            | apply same_tree_set_fds ] ].

Lemma tree_calls (c : Constants) (w0 : World.t) :
  (forall path, preserves (same_tree w0) (FileSystem_stat c path)) /\
  (forall fd, preserves (same_tree w0) (FileSystem_fstat fd)) /\
  (forall path size, preserves (same_tree w0) (FileSystem_truncate c path size)) /\
  (forall fd size, preserves (same_tree w0) (FileSystem_ftruncate fd size)) /\
  (forall fd, preserves (same_tree w0) (FileSystem_close fd)) /\
  (forall path name value, preserves (same_tree w0) (FileSystem_setxattr c path name value)) /\
  (forall path name, preserves (same_tree w0) (FileSystem_getxattr c path name)) /\
  (forall path, preserves (same_tree w0) (FileSystem_listxattr c path)) /\
  (forall path name, preserves (same_tree w0) (FileSystem_removexattr c path name)) /\
  (forall path, preserves (same_tree w0) (FileSystem_readdir c path)) /\
  (forall path uid gid, preserves (same_tree w0) (FileSystem_chown c path uid gid)) /\
  (forall path atime ctime, preserves (same_tree w0) (FileSystem_utimes c path atime ctime)).
Proof.
  repeat match goal with |- _ /\ _ => split end; intros;
    unfold_calls; repeat preserves_step ltac:(tree_assignment w0).
Qed.

(** ** [link] *)

Lemma FileSystem_link_inv (c : Constants) (from to : string) (w w' : World.t) :
  FileSystem_link c from to w = (Return tt, w') ->
  exists fp fname tp tname fe,
    FileSystem_parentDir c from w = (Return (fp, fname), w) /\
    FileSystem_parentDir c to w = (Return (tp, tname), w) /\
    Entry.cls (get_entry w fp) = ClassDirectory /\
    Directory_get w fp fname = Some fe /\
    Entry_isDirectory c w fe = false /\
    Entry.cls (get_entry w tp) = ClassDirectory /\
    Directory_get w tp tname = None /\
    w' = snd (Directory_push tp (length (World.heap_entries w))
           (snd (File_new c false tname (Some (Entry.inode (get_entry w fe)))
              (update_entry fe (fun x => Entry.set_nlink (js_incr (Entry.nlink x)) x) w)))).
Proof.
  unfold FileSystem_link. unfold bind at 1.
  rewrite (parentDir_eq c from w _ eq_refl).
  destruct (fst (FileSystem_parentDir c from w)) as [[fp fname]|] eqn:Hf; [|discriminate].
  unfold bind at 1. rewrite (parentDir_eq c to w _ eq_refl).
  destruct (fst (FileSystem_parentDir c to w)) as [[tp tname]|] eqn:Ht; [|discriminate].
  cbn [fst snd]. unfold bind at 1, method_of at 1.
  destruct (Class_eqb (Entry.cls (get_entry w fp)) ClassDirectory) eqn:Hfc; [|discriminate].
  unfold bind at 1, gets at 1. cbn [id].
  destruct (Directory_get w fp fname) as [fe|] eqn:Hfe; [|discriminate].
  unfold bind at 1, throw_if at 1.
  destruct (Entry_isDirectory c w fe) eqn:Hfd; [discriminate|]. unfold ret at 1.
  unfold bind at 1, method_of at 1.
  destruct (Class_eqb (Entry.cls (get_entry w tp)) ClassDirectory) eqn:Htc; [|discriminate].
  destruct (Directory_get w tp tname) as [te|] eqn:Hte; [discriminate|].
  unfold bind at 1, modify at 1. unfold bind at 1.
  set (w1 := update_entry fe _ w).
  assert (Hlen : length (World.heap_entries w1) = length (World.heap_entries w))
    by (unfold w1, update_entry; cbn; apply length_alter).
  assert (Hret : fst (File_new c false tname (Some (Entry.inode (get_entry w fe))) w1) =
                 Return (length (World.heap_entries w1))) by reflexivity.
  destruct (File_new c false tname (Some (Entry.inode (get_entry w fe))) w1) as [o w2] eqn:Hnew.
  cbn [fst] in Hret. subst o. unfold bind at 1.
  pose proof (Directory_push_returns tp (length (World.heap_entries w1)) w2) as Hpr.
  destruct (Directory_push tp (length (World.heap_entries w1)) w2) as [o w3] eqn:Hpush.
  cbn [fst] in Hpr. subst o. unfold ret. intros [= <-].
  exists fp, fname, tp, tname, fe.
  split; [first [reflexivity|apply parentDir_eq; exact Hf]|].
  split; [first [reflexivity|apply parentDir_eq; exact Ht]|].
  split; [apply Class_eqb_eq; exact Hfc|].
  split; [first [reflexivity|exact Hfe]|]. split; [first [reflexivity|exact Hfd]|].
  split; [apply Class_eqb_eq; exact Htc|]. split; [first [reflexivity|exact Hte]|].
  fold w1. rewrite Hnew. cbn [snd]. rewrite <- Hlen, Hpush. reflexivity.
Qed.

Lemma link_world (c : Constants) (w : World.t) (tp fe : ref) (tname : string) :
  tree_ok w ->
  (fe < length (World.heap_entries w))%nat ->
  Entry.cls (get_entry w tp) = ClassDirectory ->
  Directory_get w tp tname = None ->
  let n := length (World.heap_entries w) in
  let w' := snd (Directory_push tp n
              (snd (File_new c false tname (Some (Entry.inode (get_entry w fe)))
                 (update_entry fe (fun x => Entry.set_nlink (js_incr (Entry.nlink x)) x) w)))) in
  steps_kept c w w' /\
  World.root w' = World.root w /\
  (forall x, (x < length (World.heap_entries w))%nat ->
     Entry.cls (get_entry w' x) = Entry.cls (get_entry w x) /\
     Entry.inode (get_entry w' x) = Entry.inode (get_entry w x) /\
     Entry_isDirectory c w' x = Entry_isDirectory c w x) /\
  Directory_get w' tp tname = Some n /\
  Directory_readdir w' tp = Directory_readdir w tp ++ [tname] /\
  get_entry w' n = Entry.mk ClassFile false tname (Entry.inode (get_entry w fe)) [] Undefined /\
  (forall i, i <> entry_inode w tp -> get_inode w' i = get_inode w i).
Proof.
  intros Hok Hfe Hcls Hget n w'.
  set (g := fun x => Entry.set_nlink (js_incr (Entry.nlink x)) x).
  set (w1 := update_entry fe g w) in *.
  assert (Hst : same_tree w w1)
    by (apply same_tree_update_entry; intros; repeat split; reflexivity).
  assert (Hok1 : tree_ok w1)
    by (apply tree_ok_update_entry; [reflexivity| |assumption]; intros _ _; reflexivity).
  assert (Hlen : length (World.heap_entries w1) = length (World.heap_entries w))
    by (unfold w1, update_entry; cbn; apply length_alter).
  pose proof (Directory_live w tp Hcls) as Hlive.
  pose proof (inodes_live w Hok fe Hfe) as Hino. unfold entry_inode in Hino.
  destruct (File_new_allocated c false tname (Some (Entry.inode (get_entry w fe))) w1)
    as [_ Hal]; [intros i [= <-]; exact Hino|].
  destruct (File_new_linked c false tname (Entry.inode (get_entry w fe)) w1) as [He Hinodes].
  rewrite Hlen in Hal, He. fold n in Hal, He.
  set (w2 := snd (File_new c false tname (Some (Entry.inode (get_entry w fe))) w1)) in *.
  assert (Hmodes : forall j, (j < length (World.heap_inodes w1))%nat ->
            Inode.mode (get_inode w2 j) = Inode.mode (get_inode w1 j))
    by (intros j _; unfold get_inode; rewrite Hinodes; reflexivity).
  destruct Hst as (Hr & Hent & Hc & Hm).
  assert (Hw1e : forall x, Entry.cls (get_entry w1 x) = Entry.cls (get_entry w x) /\
                           Entry.inode (get_entry w1 x) = Entry.inode (get_entry w x))
    by (intros x; destruct (Hent x) as (? & ? & ?); split; assumption).
  assert (Hcls1 : Entry.cls (get_entry w1 tp) = ClassDirectory)
    by (destruct (Hw1e tp) as [-> _]; exact Hcls).
  assert (Hget1 : Directory_get w1 tp tname = None).
  { rewrite (same_tree_get w w1 tp tname); [exact Hget|]. repeat split; auto; apply Hent. }
  assert (Hlive1 : (tp < length (World.heap_entries w1))%nat) by (rewrite Hlen; exact Hlive).
  split.
  { apply (steps_kept_trans c w w1).
    - apply same_tree_steps_kept. repeat split; auto; apply Hent.
    - eapply pushed_steps_kept; eauto. }
  split; [unfold w'; erewrite pushed_root by eauto; exact Hr|].
  split.
  { intros x Hx. rewrite <- Hlen in Hx.
    unfold w'. erewrite (pushed_get_entry w1 w2) by eauto.
    erewrite (pushed_isDirectory c w1 w2) by eauto.
    destruct (Hw1e x) as [-> ->]. split; [reflexivity|]. split; [reflexivity|].
    apply (same_tree_isDirectory c w w1). repeat split; auto; apply Hent. }
  split; [eapply pushed_get; eauto; apply Directory_get_None; exact Hget1|].
  split.
  { unfold w'. erewrite (pushed_readdir w1 w2) by eauto. f_equal.
    unfold Directory_readdir, inode_of. destruct (Hw1e tp) as [_ ->]. rewrite Hc.
    apply list_fmap_ext. intros k x _. apply Hent. }
  split; [unfold w'; rewrite Directory_push_get_entry; exact He|].
  intros i Hi. unfold w'. rewrite Directory_push_other.
  - change (get_inode w2 i = get_inode w i).
    unfold get_inode. rewrite Hinodes. reflexivity.
  - change (i <> Entry.inode (get_entry w2 tp)). unfold entry_inode in Hi.
    destruct (allocated_tree_ok w1 w2 n tname Hok1 Hal) as (_ & _ & _ & _ & Hkeep).
    rewrite Hkeep by exact Hlive1. destruct (Hw1e tp) as [_ ->]. exact Hi.
Qed.

Lemma same_tree_set_clock (t : Time) (w : World.t) : same_tree w (World.set_clock t w).
Proof. split; [reflexivity|]. split; [intros x; repeat split|split; reflexivity]. Qed.

Lemma same_tree_read (fuel : nat) (fd : Z) (buf : Buffer) (offset length position : option Z)
    (w : World.t) (r : Outcome (Z * Buffer) * World.t) :
  FileSystem_read fuel fd buf offset length position w = Some r -> same_tree w (snd r).
Proof.
  unfold FileSystem_read, FileSystem_lookupFd, bind, gets. cbn [id].
  destruct (array_get _ _); [|intros [= <-]; apply same_tree_refl].
  unfold FileDescriptor_read, FileDescriptor_file, ret.
  destruct (FileDescriptor.file _); [|intros [= <-]; apply same_tree_set_fds].
  unfold bind, method_of, ret. destruct (Class_eqb _ _); [|intros [= <-]; apply same_tree_set_fds].
  unfold File_read. destruct (read_loop _ _ _ _ _ _ _ _) as [[? ?]|]; [|discriminate].
  intros [= <-]. cbn [snd].
  eapply same_tree_trans; [apply same_tree_set_fds|].
  eapply same_tree_trans; [|apply same_tree_set_fds].
  apply same_tree_update_inode. intros; split; reflexivity.
Qed.

Lemma same_tree_write (fuel : nat) (fd : Z) (buf : Buffer) (offset length position : option Z)
    (w : World.t) (r : Outcome Z * World.t) :
  FileSystem_write fuel fd buf offset length position w = Some r -> same_tree w (snd r).
Proof.
  unfold FileSystem_write, FileSystem_lookupFd, bind, gets. cbn [id].
  destruct (array_get _ _); [|intros [= <-]; apply same_tree_refl].
  unfold FileDescriptor_write, FileDescriptor_file, ret.
  destruct (FileDescriptor.file _); [|intros [= <-]; apply same_tree_set_fds].
  unfold bind, method_of, ret. destruct (Class_eqb _ _); [|intros [= <-]; apply same_tree_set_fds].
  unfold File_write. destruct (write_loop _ _ _ _ _ _ _ _) as [[? ?]|]; [|discriminate].
  intros [= <-]. cbn [snd].
  eapply same_tree_trans; [apply same_tree_set_fds|].
  eapply same_tree_trans; [|apply same_tree_set_fds].
  apply same_tree_update_inode. intros; split; reflexivity.
Qed.

Lemma same_tree_kept (c : Constants) (w w' : World.t) :
  same_tree w w' -> steps_kept c w w' /\ World.root w' = World.root w.
Proof. intros H. split; [apply same_tree_steps_kept; exact H|apply H]. Qed.

Lemma exec_steps_kept (c : Constants) (fuel : nat) (op : Op) (w w' : World.t) :
  tree_ok w -> keeps_names op = true -> exec c fuel op w = Some w' ->
  steps_kept c w w' /\ World.root w' = World.root w.
Proof.
  intros Hok Hop.
  destruct (tree_calls c w) as (Hstat & Hfstat & Htruncate & Hftruncate & Hclose &
    Hsetxattr & Hgetxattr & Hlistxattr & Hremovexattr & Hreaddir & Hchown & Hutimes).
  pose proof (same_tree_refl w) as Hrefl.
  destruct op; cbn [exec]; try discriminate Hop.
  - intros [= <-]. apply same_tree_kept, same_tree_set_clock.
  - intros [= <-]. apply same_tree_kept, Hstat, Hrefl.
  - intros [= <-]. apply same_tree_kept, Hfstat, Hrefl.
  - intros [= <-]. apply same_tree_kept, Htruncate, Hrefl.
  - intros [= <-]. apply same_tree_kept, Hftruncate, Hrefl.
  - intros [= <-]. apply same_tree_kept, Hclose, Hrefl.
  - destruct (FileSystem_read _ _ _ _ _ _ _) as [r|] eqn:Hr; [|discriminate].
    intros [= <-]. eapply same_tree_kept, same_tree_read, Hr.
  - destruct (FileSystem_write _ _ _ _ _ _ _) as [r|] eqn:Hr; [|discriminate].
    intros [= <-]. eapply same_tree_kept, same_tree_write, Hr.
  - intros [= <-]. apply same_tree_kept, Hsetxattr, Hrefl.
  - intros [= <-]. apply same_tree_kept, Hgetxattr, Hrefl.
  - intros [= <-]. apply same_tree_kept, Hlistxattr, Hrefl.
  - intros [= <-]. apply same_tree_kept, Hremovexattr, Hrefl.
  - intros [= <-]. apply same_tree_kept, Hreaddir, Hrefl.
  - intros [= <-].
    destruct (FileSystem_mkdir c path mode w) as [[[]|e] w1] eqn:Hmk; cbn [snd].
    + destruct (FileSystem_mkdir_inv c path mode w w1 Hmk)
        as (parent & name & _ & Hcls & Hget & ->).
      destruct (mkdir_world c w parent name Hok Hcls Hget) as (Hk & Hr & _).
      split; assumption.
    + rewrite (throws_cleanly_mkdir c path mode w w1 e Hmk).
      apply same_tree_kept, Hrefl.
  - intros [= <-].
    destruct (fst (FileSystem_lookup c path w)) as [e|e] eqn:Hl; apply lookup_eq in Hl.
    + rewrite (chmod_eq c path mode w e Hl). cbn [snd].
      split; [apply steps_kept_chmod|reflexivity].
    + unfold FileSystem_chmod, bind. rewrite Hl. cbn [snd]. apply same_tree_kept, Hrefl.
  - intros [= <-]. apply same_tree_kept, Hchown, Hrefl.
  - intros [= <-]. apply same_tree_kept, Hutimes, Hrefl.
  - intros [= <-].
    destruct (FileSystem_link c from to w) as [[[]|e] w1] eqn:Hlk; cbn [snd].
    + destruct (FileSystem_link_inv c from to w w1 Hlk)
        as (fp & fname & tp & tname & fe & _ & _ & _ & Hfe & _ & Htc & Hte & ->).
      assert (Hlive : (fe < length (World.heap_entries w))%nat).
      { apply Directory_get_Some in Hfe as [Hin _]. eapply children_live; eauto. }
      destruct (link_world c w tp fe tname Hok Hlive Htc Hte) as (Hk & Hr & _).
      split; assumption.
    + rewrite (throws_cleanly_link c from to w w1 e Hlk).
      apply same_tree_kept, Hrefl.
Qed.

Lemma reads_only_lookup (c : Constants) (path : string) : reads_only (FileSystem_lookup c path).
Proof. intros w. reflexivity. Qed.

Lemma reads_only_lookupFd (fd : Z) : reads_only (FileSystem_lookupFd fd).
Proof.
  intros w. unfold FileSystem_lookupFd, bind, gets. cbn [id].
  destruct (array_get _ _); reflexivity.
Qed.

Lemma reads_only_file (d : FileDescriptor.t) : reads_only (FileDescriptor_file d).
Proof.
  intros w. unfold FileDescriptor_file. destruct (FileDescriptor.file d); [|reflexivity].
  unfold bind, method_of. destruct (Class_eqb _ _); reflexivity.
Qed.

Lemma never_throws_truncate (f : ref) (size : Z) : never_throws (File_truncate f size).
Proof. unfold File_truncate. repeat never_throws_step. Qed.

Lemma throws_cleanly_truncate (c : Constants) (path : string) (size : Z) :
  throws_cleanly (FileSystem_truncate c path size).
Proof.
  unfold FileSystem_truncate.
  apply throws_cleanly_bind; [apply reads_only_lookup|intros e].
  throws_cleanly_step. apply throws_cleanly_total, never_throws_truncate.
Qed.

Lemma throws_cleanly_ftruncate (fd : Z) (size : Z) :
  throws_cleanly (FileSystem_ftruncate fd size).
Proof.
  unfold FileSystem_ftruncate, FileDescriptor_truncate.
  apply throws_cleanly_bind; [apply reads_only_lookupFd|intros kd].
  apply throws_cleanly_bind; [apply reads_only_file|intros f].
  apply throws_cleanly_total, never_throws_truncate.
Qed.

Lemma throws_cleanly_close (fd : Z) : throws_cleanly (FileSystem_close fd).
Proof.
  unfold FileSystem_close. repeat throws_cleanly_step.
  apply throws_cleanly_total. repeat never_throws_step.
Qed.

Lemma throws_cleanly_setxattr (c : Constants) (path name : string) (value : Buffer) :
  throws_cleanly (FileSystem_setxattr c path name value).
Proof.
  unfold FileSystem_setxattr, Entry_setAttribute.
  apply throws_cleanly_bind; [apply reads_only_lookup|intros e].
  apply throws_cleanly_total, never_throws_modify.
Qed.

Lemma throws_cleanly_removexattr (c : Constants) (path name : string) :
  throws_cleanly (FileSystem_removexattr c path name).
Proof.
  unfold FileSystem_removexattr, Entry_removeAttribute.
  apply throws_cleanly_bind; [apply reads_only_lookup|intros e].
  apply throws_cleanly_total, never_throws_modify.
Qed.

Lemma throws_cleanly_chmod (c : Constants) (path : string) (mode : Z) :
  throws_cleanly (FileSystem_chmod c path mode).
Proof.
  unfold FileSystem_chmod, Entry_chmod.
  apply throws_cleanly_bind; [apply reads_only_lookup|intros e].
  apply throws_cleanly_total. repeat never_throws_step.
Qed.

(** ** [unlink] and [rmdir] *)

Lemma find_name_absent (w : World.t) (name : string) (l : list ref) :
  name ∉ entry_name w <$> l -> find_name w name l = None.
Proof.
  induction l as [|y l IH]; cbn [find_name]; intros H; [reflexivity|].
  rewrite fmap_cons in H. apply not_elem_of_cons in H as [Hy Hl].
  destruct (String.eqb_spec (Entry.name (get_entry w y)) name) as [Heq|_];
    [exfalso; apply Hy; symmetry; exact Heq|].
  apply IH. exact Hl.
Qed.

Lemma find_name_remove_first (w : World.t) (p : string) (l : list ref) (e next : ref) :
  find_name w p l = Some next -> next <> e -> find_name w p (remove_first e l) = Some next.
Proof.
  intros H Hne. induction l as [|y l IH]; [discriminate|].
  rewrite remove_first_cons. cbn [find_name] in H.
  destruct (Nat.eqb_spec y e) as [->|Hy].
  - destruct (String.eqb (Entry.name (get_entry w e)) p); [congruence|exact H].
  - cbn [find_name]. destruct (String.eqb (Entry.name (get_entry w y)) p); [exact H|].
    apply IH. exact H.
Qed.

Lemma filter_all {A} (P : A -> Prop) `{forall x, Decision (P x)} (l : list A) :
  (forall x, x ∈ l -> P x) -> filter P l = l.
Proof.
  induction l as [|y l IH]; intros Hl; [reflexivity|].
  rewrite filter_cons_True by (apply Hl, elem_of_cons; left; reflexivity).
  f_equal. apply IH. intros x Hx. apply Hl, elem_of_cons. right. exact Hx.
Qed.

Lemma names_remove_first (w : World.t) (e : ref) (l : list ref) :
  NoDup (entry_name w <$> l) -> e ∈ l ->
  entry_name w <$> remove_first e l =
  filter (fun s => s <> entry_name w e) (entry_name w <$> l).
Proof.
  induction l as [|y l IH]; intros Hnd He; [apply elem_of_nil in He; contradiction|].
  rewrite fmap_cons in Hnd. apply NoDup_cons in Hnd as [Hy Hnd].
  rewrite remove_first_cons, fmap_cons.
  destruct (Nat.eqb_spec y e) as [->|Hne].
  - rewrite filter_cons_False by (intros H; apply H; reflexivity).
    symmetry. apply filter_all. intros x Hx Heq. apply Hy. rewrite <- Heq. exact Hx.
  - apply elem_of_cons in He as [->|He]; [congruence|].
    rewrite filter_cons_True.
    + rewrite fmap_cons. f_equal. apply IH; assumption.
    + intros Heq. apply Hy. rewrite Heq. apply list_elem_of_fmap. exists e. split; auto.
Qed.

Lemma Directory_remove_proj {B} (proj : Inode.t -> B) (d e : ref) (w : World.t) (i : ref) :
  (forall l x, proj (Inode.set_entries l x) = proj x) ->
  (forall t x, proj (Inode.set_mtime t x) = proj x) ->
  (forall n x, proj (Inode.set_nlink n x) = proj x) ->
  proj (get_inode (snd (Directory_remove d e w)) i) = proj (get_inode w i).
Proof.
  intros H1 H2 H3. unfold Directory_remove, bind, gets. cbn [id].
  destruct (indexOf _ _); [|reflexivity].
  unfold modify, now, gets. cbn [snd].
  rewrite !get_inode_update_proj; auto.
Qed.

Lemma Directory_remove_get_entry (d e : ref) (w : World.t) (x : ref) :
  get_entry (snd (Directory_remove d e w)) x = get_entry w x.
Proof. unfold get_entry. rewrite Directory_remove_heap_entries. reflexivity. Qed.

Lemma Directory_remove_isDirectory (c : Constants) (d e : ref) (w : World.t) (x : ref) :
  Entry_isDirectory c (snd (Directory_remove d e w)) x = Entry_isDirectory c w x.
Proof.
  unfold Entry_isDirectory, inode_of. rewrite Directory_remove_get_entry.
  rewrite (Directory_remove_proj Inode.mode) by reflexivity. reflexivity.
Qed.

Lemma Directory_remove_nlink (d e : ref) (w : World.t) :
  e ∈ dir_entries w (entry_inode w d) ->
  (entry_inode w e < length (World.heap_inodes w))%nat ->
  Inode.nlink (inode_of (snd (Directory_remove d e w)) e) = Inode.nlink (inode_of w e) - 1.
Proof.
  intros Hin Hlive. unfold inode_of. rewrite Directory_remove_get_entry.
  unfold Directory_remove, bind, gets. cbn [id].
  destruct (indexOf (Inode.entries (inode_of w d)) e) as [k|] eqn:Hk;
    [|apply indexOf_None in Hk; contradiction].
  unfold modify, now, gets. cbn [snd].
  rewrite !get_entry_update_inode.
  rewrite get_inode_update_eq.
  - cbn [Inode.nlink Inode.set_nlink].
    rewrite !(get_inode_update_proj Inode.nlink) by reflexivity. reflexivity.
  - unfold update_inode. cbn. rewrite !length_alter. exact Hlive.
Qed.

(** Resolutions that end elsewhere than at [e] are kept by a change that
    keeps every step to another entry, when no step leaves [e]. *)
Lemma lookup_from_except (c : Constants) (w w' : World.t) (e : ref) :
  (forall cur p next,
     Entry_isDirectory c w cur = true -> Entry.cls (get_entry w cur) = ClassDirectory ->
     Directory_get w cur p = Some next -> next <> e ->
     Entry_isDirectory c w' cur = true /\ Entry.cls (get_entry w' cur) = ClassDirectory /\
     Directory_get w' cur p = Some next) ->
  (forall q, Entry_isDirectory c w e = true -> Entry.cls (get_entry w e) = ClassDirectory ->
     Directory_get w e q = None) ->
  forall parts cur r,
  lookup_from c w cur parts = Return r -> r <> e -> lookup_from c w' cur parts = Return r.
Proof.
  intros Hk Hend. induction parts as [|p parts IH]; intros cur r; cbn [lookup_from]; [auto|].
  destruct (Entry_isDirectory c w cur) eqn:Hdir; cbn [negb]; [|discriminate].
  destruct (Class_eqb (Entry.cls (get_entry w cur)) ClassDirectory) eqn:Hcls;
    cbn [negb]; [|discriminate].
  apply Class_eqb_eq in Hcls.
  destruct (Directory_get w cur p) as [next|] eqn:Hget; [|discriminate].
  intros Hl Hr.
  assert (Hne : next <> e).
  { intros ->. destruct parts as [|q parts]; cbn [lookup_from] in Hl; [congruence|].
    pose proof (Hend q) as Hq.
    destruct (Entry_isDirectory c w e); cbn [negb] in Hl; [|discriminate].
    destruct (Class_eqb (Entry.cls (get_entry w e)) ClassDirectory) eqn:Hce;
      cbn [negb] in Hl; [|discriminate].
    apply Class_eqb_eq in Hce. rewrite (Hq eq_refl Hce) in Hl. discriminate. }
  destruct (Hk cur p next Hdir Hcls Hget Hne) as (-> & -> & ->). cbn [negb Class_eqb].
  apply IH; assumption.
Qed.

Lemma removed_world (c : Constants) (w : World.t) (d e : ref) (name : string) :
  tree_ok w ->
  Entry_isDirectory c w d = true ->
  Entry.cls (get_entry w d) = ClassDirectory ->
  Directory_get w d name = Some e ->
  (forall q, Entry_isDirectory c w e = true -> Entry.cls (get_entry w e) = ClassDirectory ->
     Directory_get w e q = None) ->
  let w' := snd (Directory_remove d e w) in
  (forall parts cur r, lookup_from c w cur parts = Return r -> r <> e ->
     lookup_from c w' cur parts = Return r) /\
  World.root w' = World.root w /\
  d <> e /\
  Entry_isDirectory c w' d = true /\
  Entry.cls (get_entry w' d) = ClassDirectory /\
  Directory_get w' d name = None /\
  Directory_readdir w' d = filter (fun s => s <> name) (Directory_readdir w d) /\
  Inode.nlink (inode_of w' e) = Inode.nlink (inode_of w e) - 1.
Proof.
  intros Hok Hdir Hcls Hget Hend w'.
  destruct (Directory_get_Some w d name e Hget) as [Hin Hname].
  assert (Hents : forall cur,
            Inode.entries (inode_of w' cur) =
            if decide (entry_inode w cur = entry_inode w d)
            then remove_first e (dir_entries w (entry_inode w cur))
            else dir_entries w (entry_inode w cur)).
  { intros cur. unfold inode_of. unfold w'. rewrite Directory_remove_get_entry.
    apply (Directory_remove_entries d e w (Entry.inode (get_entry w cur))). }
  assert (Hn : forall p l, find_name w' p l = find_name w p l).
  { intros p l. apply find_name_same. intros x. unfold w'.
    rewrite Directory_remove_get_entry. reflexivity. }
  split.
  { apply lookup_from_except; [|exact Hend].
    intros cur p next Hd Hc Hg Hne.
    split; [unfold w'; rewrite Directory_remove_isDirectory; exact Hd|].
    split; [unfold w'; rewrite Directory_remove_get_entry; exact Hc|].
    unfold Directory_get. rewrite Hents.
    case_decide; rewrite Hn; [apply find_name_remove_first; assumption|exact Hg]. }
  split; [apply Directory_remove_frame|].
  split; [intros ->; rewrite (Hend name Hdir Hcls) in Hget; discriminate|].
  split; [unfold w'; rewrite Directory_remove_isDirectory; exact Hdir|].
  split; [unfold w'; rewrite Directory_remove_get_entry; exact Hcls|].
  split.
  { unfold Directory_get. rewrite Hents, decide_True by reflexivity.
    rewrite Hn. apply find_name_absent.
    apply find_name_removed; [apply (names_unique w Hok)|exact Hget]. }
  split.
  { unfold Directory_readdir. rewrite Hents, decide_True by reflexivity.
    rewrite <- Hname.
    etransitivity;
      [|exact (names_remove_first w e (dir_entries w (entry_inode w d))
                 (names_unique w Hok _) Hin)].
    apply list_fmap_ext. intros k x _. unfold w'. rewrite Directory_remove_get_entry.
    reflexivity. }
  apply Directory_remove_nlink; [exact Hin|].
  apply (inodes_live w Hok). eapply children_live; eauto.
Qed.

Lemma FileSystem_unlink_eq (c : Constants) (path : string) (w : World.t) (parent : ref)
    (name : string) :
  FileSystem_parentDir c path w = (Return (parent, name), w) ->
  Entry.cls (get_entry w parent) = ClassDirectory ->
  FileSystem_unlink c path w =
  match Directory_get w parent name with
  | None => (Throw ENOENT, w)
  | Some e =>
    if Entry_isDirectory c w e then (Throw EPERM, w)
    else (Return tt, snd (Directory_remove parent e w))
  end.
Proof.
  intros Hp Hcls. unfold FileSystem_unlink, bind at 1. rewrite Hp.
  unfold bind at 1, gets at 1. cbn [id fst snd].
  assert (Hp1 : fst (FileSystem_parentDir c path w) = Return (parent, name))
    by (rewrite Hp; reflexivity).
  destruct (parentDir_inv c path w parent name Hp1) as (_ & _ & ->).
  unfold bind at 1. rewrite (method_of_pass _ _ _ Hcls).
  unfold Directory_unlink, bind at 1, gets at 1. cbn [id].
  destruct (Directory_get w parent name) as [e|]; [|reflexivity].
  unfold bind, throw_if. destruct (Entry_isDirectory c w e); [reflexivity|].
  unfold ret. destruct (never_throws_remove parent e w) as [[] Hr].
  destruct (Directory_remove parent e w) as [o w1]. cbn [fst snd] in *. subst o. reflexivity.
Qed.

Lemma FileSystem_rmdir_eq (c : Constants) (path : string) (w : World.t) (parent : ref)
    (name : string) :
  FileSystem_parentDir c path w = (Return (parent, name), w) ->
  Entry.cls (get_entry w parent) = ClassDirectory ->
  FileSystem_rmdir c path w =
  match Directory_get w parent name with
  | None => (Throw ENOENT, w)
  | Some e =>
    if negb (Entry_isDirectory c w e) then (Throw ENOTDIR, w)
    else if negb (Class_eqb (Entry.cls (get_entry w e)) ClassDirectory)
    then (Throw TypeError, w)
    else if negb (Directory_isEmpty w e) then (Throw ENOTEMPTY, w)
    else (Return tt, snd (Directory_remove parent e w))
  end.
Proof.
  intros Hp Hcls. unfold FileSystem_rmdir, bind at 1. rewrite Hp.
  unfold bind at 1, gets at 1. cbn [id fst snd].
  assert (Hp1 : fst (FileSystem_parentDir c path w) = Return (parent, name))
    by (rewrite Hp; reflexivity).
  destruct (parentDir_inv c path w parent name Hp1) as (_ & _ & ->).
  unfold bind at 1. rewrite (method_of_pass _ _ _ Hcls).
  unfold Directory_rmdir, bind at 1, gets at 1. cbn [id].
  destruct (Directory_get w parent name) as [e|]; [|reflexivity].
  unfold bind, throw_if, method_of.
  destruct (Entry_isDirectory c w e); cbn [negb]; [|reflexivity]. unfold ret.
  destruct (Class_eqb (Entry.cls (get_entry w e)) ClassDirectory); cbn [negb]; [|reflexivity].
  destruct (Directory_isEmpty w e); cbn [negb]; [|reflexivity].
  destruct (never_throws_remove parent e w) as [[] Hr].
  destruct (Directory_remove parent e w) as [o w1]. cbn [fst snd] in *. subst o. reflexivity.
Qed.

(** What a call that went through [_parentDir] and a method of the parent
    knows about the parent. *)
Lemma parent_of_call {A} (c : Constants) (path : string) (w : World.t)
    (k : ref * string -> M A) (a : A) (w' : World.t) :
  bind (FileSystem_parentDir c path) k w = (Return a, w') ->
  exists parent name,
    FileSystem_parentDir c path w = (Return (parent, name), w) /\
    k (parent, name) w = (Return a, w').
Proof.
  unfold bind. rewrite (parentDir_eq c path w _ eq_refl).
  destruct (fst (FileSystem_parentDir c path w)) as [[parent name]|e] eqn:Hp; [|discriminate].
  intros H. exists parent, name. split; [reflexivity|exact H].
Qed.

Lemma parent_class (c : Constants) (w : World.t) (parent : ref) {A} (m : M A) (a : A)
    (w' : World.t) :
  (if Entry_isDirectory c w parent then method_of ClassDirectory parent ;; m
   else throw ENOTDIR)%fs w = (Return a, w') ->
  Entry.cls (get_entry w parent) = ClassDirectory.
Proof.
  destruct (Entry_isDirectory c w parent); [|discriminate].
  unfold bind, method_of.
  destruct (Class_eqb (Entry.cls (get_entry w parent)) ClassDirectory) eqn:Hc; [|discriminate].
  intros _. apply Class_eqb_eq. exact Hc.
Qed.

Lemma FileSystem_unlink_inv (c : Constants) (path : string) (w w' : World.t) :
  FileSystem_unlink c path w = (Return tt, w') ->
  exists parent name e,
    FileSystem_parentDir c path w = (Return (parent, name), w) /\
    Entry.cls (get_entry w parent) = ClassDirectory /\
    Directory_get w parent name = Some e /\
    Entry_isDirectory c w e = false /\
    w' = snd (Directory_remove parent e w).
Proof.
  intros H. pose proof H as H0. unfold FileSystem_unlink in H0.
  apply parent_of_call in H0 as (parent & name & Hp & Hk).
  unfold bind at 1, gets at 1 in Hk. cbn [id fst snd] in Hk.
  apply parent_class in Hk.
  rewrite (FileSystem_unlink_eq c path w parent name Hp Hk) in H.
  destruct (Directory_get w parent name) as [e|] eqn:Hget; [|discriminate].
  destruct (Entry_isDirectory c w e) eqn:Hd; [discriminate|].
  injection H as <-. exists parent, name, e. repeat split; first [assumption|reflexivity].
Qed.

Lemma FileSystem_rmdir_inv (c : Constants) (path : string) (w w' : World.t) :
  FileSystem_rmdir c path w = (Return tt, w') ->
  exists parent name e,
    FileSystem_parentDir c path w = (Return (parent, name), w) /\
    Entry.cls (get_entry w parent) = ClassDirectory /\
    Directory_get w parent name = Some e /\
    Entry_isDirectory c w e = true /\
    Directory_isEmpty w e = true /\
    w' = snd (Directory_remove parent e w).
Proof.
  intros H. pose proof H as H0. unfold FileSystem_rmdir in H0.
  apply parent_of_call in H0 as (parent & name & Hp & Hk).
  unfold bind at 1, gets at 1 in Hk. cbn [id fst snd] in Hk.
  apply parent_class in Hk.
  rewrite (FileSystem_rmdir_eq c path w parent name Hp Hk) in H.
  destruct (Directory_get w parent name) as [e|] eqn:Hget; [|discriminate].
  destruct (Entry_isDirectory c w e) eqn:Hd; cbn [negb] in H; [|discriminate].
  destruct (Class_eqb _ _); cbn [negb] in H; [|discriminate].
  destruct (Directory_isEmpty w e) eqn:He; cbn [negb] in H; [|discriminate].
  injection H as <-. exists parent, name, e. repeat split; first [assumption|reflexivity].
Qed.

Lemma isEmpty_get (w : World.t) (e : ref) (q : string) :
  Directory_isEmpty w e = true -> Directory_get w e q = None.
Proof.
  unfold Directory_isEmpty, Directory_get. intros H. apply Nat.eqb_eq in H.
  destruct (Inode.entries (inode_of w e)); [reflexivity|discriminate].
Qed.

(** The world after a name has been taken out of its directory. *)
Lemma unbound_world (c : Constants) (path : string) (w : World.t) (parent e : ref)
    (name : string) :
  tree_ok w ->
  FileSystem_parentDir c path w = (Return (parent, name), w) ->
  Entry.cls (get_entry w parent) = ClassDirectory ->
  Directory_get w parent name = Some e ->
  (forall q, Entry_isDirectory c w e = true -> Entry.cls (get_entry w e) = ClassDirectory ->
     Directory_get w e q = None) ->
  let w' := snd (Directory_remove parent e w) in
  FileSystem_lookup c path w = (Return e, w) /\
  FileSystem_lookup c path w' = (Throw ENOENT, w') /\
  Inode.nlink (inode_of w' e) = Inode.nlink (inode_of w e) - 1 /\
  Directory_readdir w' parent = filter (fun s => s <> name) (Directory_readdir w parent) /\
  (forall q r, r <> e -> FileSystem_lookup c q w = (Return r, w) ->
     FileSystem_lookup c q w' = (Return r, w')).
Proof.
  intros Hok Hp Hcls Hget Hend w'.
  assert (Hp1 : fst (FileSystem_parentDir c path w) = Return (parent, name))
    by (rewrite Hp; reflexivity).
  destruct (parentDir_inv c path w parent name Hp1) as (Hs & Hlp & Hdir).
  destruct (removed_world c w parent e name Hok Hdir Hcls Hget Hend)
    as (Hkept & Hroot & Hne & Hdir' & Hcls' & Hnone & Hlist & Hnlink).
  fold w' in Hkept, Hroot, Hdir', Hcls', Hnone, Hlist, Hnlink.
  split.
  { rewrite (lookup_through_parent c path w w parent name Hp1 Hlp).
    rewrite lookup_from_one, Hget by assumption. reflexivity. }
  split.
  { rewrite (lookup_through_parent c path w w' parent name Hp1).
    - rewrite lookup_from_one, Hnone by assumption. reflexivity.
    - rewrite Hroot. apply Hkept; [exact Hlp|exact Hne]. }
  split; [exact Hnlink|]. split; [exact Hlist|].
  intros q r Hr Hl. apply lookup_eq.
  unfold FileSystem_lookup, FileSystem_lookup_parts, lift in *. cbn [fst].
  injection Hl as Hl. rewrite Hroot. apply Hkept; assumption.
Qed.

Lemma FileSystem_mkdir_exists (c : Constants) (path : string) (mode : Z) (w : World.t)
    (parent e : ref) (name : string) :
  FileSystem_parentDir c path w = (Return (parent, name), w) ->
  Entry.cls (get_entry w parent) = ClassDirectory ->
  Directory_get w parent name = Some e ->
  FileSystem_mkdir c path mode w = (Throw EEXIST, w).
Proof.
  intros Hp Hcls Hget. unfold FileSystem_mkdir, bind at 1. rewrite Hp.
  unfold bind at 1, gets at 1. cbn [id fst snd].
  assert (Hp1 : fst (FileSystem_parentDir c path w) = Return (parent, name))
    by (rewrite Hp; reflexivity).
  destruct (parentDir_inv c path w parent name Hp1) as (_ & _ & ->).
  unfold bind at 1. rewrite (method_of_pass _ _ _ Hcls).
  unfold Directory_mkdir, bind, gets, throw_if, Directory_exists. cbn [id].
  rewrite Hget, bool_decide_eq_true_2 by (eexists; reflexivity). reflexivity.
Qed.

Lemma last_is_Some {A} (l : list A) : l <> [] -> exists x, last l = Some x.
Proof.
  intros Hl. destruct (last l) as [x|] eqn:H; [eauto|].
  apply last_None in H. contradiction.
Qed.

(** ** [open] on a name that is not bound *)

Lemma create_world (c : Constants) (w : World.t) (parent : ref) (name : string) :
  tree_ok w ->
  Entry.cls (get_entry w parent) = ClassDirectory ->
  Directory_get w parent name = None ->
  let n := length (World.heap_entries w) in
  let i := length (World.heap_inodes w) in
  let w' := snd (Directory_push parent n
                   (snd (File_new c (Entry.fs (get_entry w parent)) name None w))) in
  steps_kept c w w' /\
  World.root w' = World.root w /\
  (forall x, (x < length (World.heap_entries w))%nat ->
     get_entry w' x = get_entry w x /\
     Entry_isDirectory c w' x = Entry_isDirectory c w x) /\
  Directory_get w' parent name = Some n /\
  Directory_readdir w' parent = Directory_readdir w parent ++ [name] /\
  get_entry w' n = Entry.mk ClassFile (Entry.fs (get_entry w parent)) name i [] Undefined /\
  get_inode w' i =
    Inode.mk (World.clock w) (World.clock w) (World.clock w)
      (js_or (js_or (js_or 0 292) 146) (S_IFREG c)) 0 0
      (if Entry.fs (get_entry w parent) then js_incr (World.inodes w) else Num 0)
      1 [] [] 0.
Proof.
  intros Hok Hcls Hget n i w'.
  pose proof (Directory_live w parent Hcls) as Hlive.
  destruct (File_new_allocated c (Entry.fs (get_entry w parent)) name None w) as [_ Hal];
    [discriminate|].
  destruct (File_new_spec c (Entry.fs (get_entry w parent)) name w) as (He & Hi & Hold).
  assert (Hmodes : forall j, (j < length (World.heap_inodes w))%nat ->
            Inode.mode (get_inode (snd (File_new c (Entry.fs (get_entry w parent)) name None w)) j)
            = Inode.mode (get_inode w j)) by (intros j Hj; rewrite Hold; auto).
  split; [eapply pushed_steps_kept; eauto|].
  split; [eapply pushed_root; eauto|].
  split; [intros x Hx; split; [eapply pushed_get_entry|eapply pushed_isDirectory]; eauto|].
  split; [eapply pushed_get; eauto; apply Directory_get_None; exact Hget|].
  split; [eapply pushed_readdir; eauto|].
  split; [unfold w'; rewrite Directory_push_get_entry; exact He|].
  unfold w'. rewrite Directory_push_other; [exact Hi|].
  destruct (allocated_tree_ok w _ _ name Hok Hal) as (_ & _ & _ & _ & Hkeep).
  unfold entry_inode. rewrite Hkeep by exact Hlive.
  pose proof (inodes_live w Hok parent Hlive) as Hino. unfold entry_inode in Hino.
  unfold i. lia.
Qed.

Lemma lookup_set_fds (c : Constants) (path : string) (fds : list (option FileDescriptor.t))
    (w : World.t) (r : Outcome ref) :
  FileSystem_lookup c path w = (r, w) ->
  FileSystem_lookup c path (World.set_fds fds w) = (r, World.set_fds fds w).
Proof.
  intros H. apply lookup_eq. rewrite (lookup_same_tree c w); [rewrite H; reflexivity|].
  apply same_tree_set_fds.
Qed.

(** ** [rename] onto a free name *)

Lemma FileSystem_rename_free_eq (c : Constants) (from to : string) (w : World.t)
    (fp tp fe : ref) (fname tname : string) :
  FileSystem_parentDir c from w = (Return (fp, fname), w) ->
  FileSystem_parentDir c to w = (Return (tp, tname), w) ->
  Entry.cls (get_entry w fp) = ClassDirectory ->
  Entry.cls (get_entry w tp) = ClassDirectory ->
  Directory_get w fp fname = Some fe ->
  Directory_get w tp tname = None ->
  FileSystem_rename c from to w =
  (Return tt,
   snd (Directory_push tp fe
          (snd (Directory_remove fp fe (update_entry fe (Entry.set_name tname) w))))).
Proof.
  intros Hf Ht Hfc Htc Hfe Hte. unfold FileSystem_rename.
  unfold bind at 1. rewrite Hf. unfold bind at 1. rewrite Ht. cbn [fst snd].
  unfold bind at 1. rewrite (method_of_pass _ _ _ Hfc).
  unfold bind at 1, gets at 1. cbn [id]. rewrite Hfe.
  unfold bind at 1. rewrite (method_of_pass _ _ _ Htc). rewrite Hte.
  unfold bind at 1. unfold bind at 1, ret at 1. unfold modify at 1.
  set (w2 := update_entry fe (Entry.set_name tname) w).
  unfold bind at 1.
  destruct (never_throws_remove fp fe w2) as [[] Hr].
  destruct (Directory_remove fp fe w2) as [o w3]. cbn [fst snd] in *. subst o.
  unfold bind. pose proof (Directory_push_returns tp fe w3) as Hp.
  destruct (Directory_push tp fe w3) as [o w4]. cbn [fst snd] in *. subst o. reflexivity.
Qed.

Section Moved.
Context (c : Constants) (w : World.t) (fp tp fe : ref) (fname tname : string).
Hypothesis Hok : tree_ok w.
Hypothesis Hfc : Entry.cls (get_entry w fp) = ClassDirectory.
Hypothesis Htc : Entry.cls (get_entry w tp) = ClassDirectory.
Hypothesis Hfd : Entry_isDirectory c w fp = true.
Hypothesis Htd : Entry_isDirectory c w tp = true.
Hypothesis Hfe : Directory_get w fp fname = Some fe.
Hypothesis Hte : Directory_get w tp tname = None.
Hypothesis Hfile : Entry_isDirectory c w fe = false.

Let w2 := update_entry fe (Entry.set_name tname) w.
Let w3 := snd (Directory_remove fp fe w2).
Let w4 := snd (Directory_push tp fe w3).

Lemma moved_live : (fe < length (World.heap_entries w))%nat.
Proof. apply Directory_get_Some in Hfe as [Hin _]. eapply children_live; eauto. Qed.

Lemma moved_get_entry (x : ref) :
  get_entry w4 x = if decide (x = fe) then Entry.set_name tname (get_entry w fe)
                   else get_entry w x.
Proof.
  unfold w4. rewrite Directory_push_get_entry. unfold w3.
  rewrite Directory_remove_get_entry. unfold w2. rewrite get_entry_update_entry.
  pose proof moved_live.
  destruct (decide (x = fe)) as [->|Hne].
  - rewrite decide_True by auto. reflexivity.
  - rewrite decide_False by (intros [? _]; contradiction). reflexivity.
Qed.

Lemma moved_inode (x : ref) : Entry.inode (get_entry w4 x) = Entry.inode (get_entry w x).
Proof. rewrite moved_get_entry. destruct (decide (x = fe)) as [->|]; reflexivity. Qed.

Lemma moved_cls (x : ref) : Entry.cls (get_entry w4 x) = Entry.cls (get_entry w x).
Proof. rewrite moved_get_entry. destruct (decide (x = fe)) as [->|]; reflexivity. Qed.

Lemma moved_other_name (x : ref) :
  x <> fe -> Entry.name (get_entry w4 x) = Entry.name (get_entry w x).
Proof. intros Hne. rewrite moved_get_entry, decide_False by exact Hne. reflexivity. Qed.

Lemma moved_name : Entry.name (get_entry w4 fe) = tname.
Proof. rewrite moved_get_entry, decide_True by reflexivity. reflexivity. Qed.

Lemma moved_proj {B} (proj : Inode.t -> B) (i : ref) :
  (forall l x, proj (Inode.set_entries l x) = proj x) ->
  (forall t x, proj (Inode.set_mtime t x) = proj x) ->
  (forall n x, proj (Inode.set_nlink n x) = proj x) ->
  proj (get_inode w4 i) = proj (get_inode w i).
Proof.
  intros H1 H2 H3. unfold w4. rewrite Directory_push_proj by assumption.
  unfold w3. rewrite Directory_remove_proj by assumption. reflexivity.
Qed.

Lemma moved_isDirectory (x : ref) : Entry_isDirectory c w4 x = Entry_isDirectory c w x.
Proof.
  unfold Entry_isDirectory, inode_of. rewrite moved_inode.
  rewrite (moved_proj Inode.mode) by reflexivity. reflexivity.
Qed.

(** The children of an inode after the move. *)
Lemma moved_entries (i : ref) :
  dir_entries w4 i =
  (if decide (i = entry_inode w fp) then remove_first fe (dir_entries w i)
   else dir_entries w i) ++
  (if decide (i = entry_inode w tp) then [fe] else []).
Proof.
  unfold w4. rewrite Directory_push_entries.
  assert (Ht3 : entry_inode w3 tp = entry_inode w tp).
  { unfold entry_inode, w3. rewrite Directory_remove_get_entry. unfold w2.
    rewrite get_entry_update_entry. case_decide as Hd; [destruct Hd as [-> _]|]; reflexivity. }
  assert (Hf2 : entry_inode w2 fp = entry_inode w fp).
  { unfold entry_inode, w2.
    rewrite get_entry_update_entry. case_decide as Hd; [destruct Hd as [-> _]|]; reflexivity. }
  assert (Hd3 : dir_entries w3 i =
                if decide (i = entry_inode w fp) then remove_first fe (dir_entries w i)
                else dir_entries w i).
  { unfold w3. rewrite Directory_remove_entries, Hf2. reflexivity. }
  rewrite Ht3, Hd3.
  assert (Hlive : (entry_inode w tp < length (World.heap_inodes w3))%nat).
  { unfold w3. destruct (Directory_remove_frame fp fe w2) as (-> & _).
    apply (inodes_live w Hok). apply Directory_live. exact Htc. }
  destruct (decide (i = entry_inode w tp)) as [->|Hne].
  - rewrite decide_True by auto. reflexivity.
  - rewrite decide_False by (intros [? _]; contradiction). rewrite app_nil_r. reflexivity.
Qed.

(** The children kept do not include the moved entry. *)
Lemma moved_rest (i : ref) :
  fe ∉ (if decide (i = entry_inode w fp) then remove_first fe (dir_entries w i)
        else dir_entries w i).
Proof.
  destruct (Directory_get_Some w fp fname fe Hfe) as [Hin _].
  case_decide as Hi.
  - apply remove_first_not_in. eapply NoDup_fmap_1. apply (names_unique w Hok).
  - intros Hin'. apply Hi. eapply (one_parent w Hok); eauto.
Qed.

Lemma moved_step (cur : ref) (p : string) (next : ref) :
  Directory_get w cur p = Some next -> next <> fe -> Directory_get w4 cur p = Some next.
Proof.
  intros Hget Hne. unfold Directory_get, inode_of. rewrite moved_inode.
  fold (dir_entries w4 (Entry.inode (get_entry w cur))). rewrite moved_entries.
  apply (find_name_ext w).
  - intros x Hx. apply moved_other_name. intros ->. eapply moved_rest; eauto.
  - case_decide; [apply find_name_remove_first; assumption|exact Hget].
Qed.

Lemma moved_target : Directory_get w4 tp tname = Some fe.
Proof.
  unfold Directory_get, inode_of. rewrite moved_inode.
  fold (entry_inode w tp). fold (dir_entries w4 (entry_inode w tp)).
  rewrite moved_entries.
  rewrite (decide_True (P := entry_inode w tp = entry_inode w tp)) by reflexivity.
  apply find_name_snoc; [|exact moved_name].
  rewrite (names_same_on w).
  - apply Directory_get_None in Hte. intros Hin. apply Hte.
    eapply elem_of_sublist; [exact Hin|]. apply fmap_sublist.
    case_decide; [apply remove_first_sublist|reflexivity].
  - intros x Hx. unfold entry_name. apply moved_other_name. intros ->.
    eapply moved_rest; eauto.
Qed.

Lemma moved_names_differ : entry_inode w fp = entry_inode w tp -> fname <> tname.
Proof.
  intros Hi Hn. subst tname. unfold Directory_get, inode_of, entry_inode in *.
  rewrite Hi in Hfe. congruence.
Qed.

Lemma moved_source : Directory_get w4 fp fname = None.
Proof.
  unfold Directory_get, inode_of. rewrite moved_inode.
  fold (entry_inode w fp). fold (dir_entries w4 (entry_inode w fp)).
  rewrite moved_entries.
  rewrite (decide_True (P := entry_inode w fp = entry_inode w fp)) by reflexivity.
  apply find_name_absent. rewrite fmap_app. apply not_elem_of_app. split.
  - rewrite (names_same_on w).
    + apply find_name_removed; [apply (names_unique w Hok)|exact Hfe].
    + intros x Hx. unfold entry_name. apply moved_other_name. intros ->.
      apply (moved_rest (entry_inode w fp)). rewrite decide_True by reflexivity. exact Hx.
  - case_decide as Hi; [|apply not_elem_of_nil].
    cbn [fmap list_fmap]. apply not_elem_of_cons. split; [|apply not_elem_of_nil].
    unfold entry_name. rewrite moved_name. apply moved_names_differ. exact Hi.
Qed.

Lemma moved_nlink :
  inode_of w4 fe = Inode.set_nlink (Inode.nlink (inode_of w fe) - 1) (inode_of w fe).
Proof.
  assert (Hmode : forall d, Entry_isDirectory c w d = true ->
            Entry.inode (get_entry w d) <> Entry.inode (get_entry w fe)).
  { intros d Hd Heq. pose proof Hfile as Hf. unfold Entry_isDirectory, inode_of in Hd, Hf.
    rewrite Heq in Hd. congruence. }
  destruct (Directory_get_Some w fp fname fe Hfe) as [Hin _].
  pose proof (inodes_live w Hok fe moved_live) as Hlive. unfold entry_inode in Hlive.
  unfold inode_of. rewrite moved_inode. unfold w4.
  rewrite Directory_push_other.
  2: { assert (Ht3 : entry_inode w3 tp = Entry.inode (get_entry w tp)).
       { unfold entry_inode, w3. rewrite Directory_remove_get_entry. unfold w2.
         rewrite get_entry_update_entry.
         case_decide as Hd; [destruct Hd as [-> _]|]; reflexivity. }
       rewrite Ht3. intros H. apply (Hmode tp Htd). symmetry. exact H. }
  unfold w3, Directory_remove, bind, gets. cbn [id].
  assert (Hi2 : inode_of w2 fp = inode_of w fp).
  { unfold inode_of, w2. rewrite get_entry_update_entry.
    case_decide as Hd; [destruct Hd as [-> _]|]; reflexivity. }
  rewrite Hi2.
  destruct (indexOf (Inode.entries (inode_of w fp)) fe) as [k|] eqn:Hk;
    [|apply indexOf_None in Hk; contradiction].
  unfold modify, now, gets. cbn [snd].
  rewrite !get_entry_update_inode.
  assert (He2 : Entry.inode (get_entry w2 fe) = Entry.inode (get_entry w fe)).
  { unfold w2. rewrite get_entry_update_entry, decide_True by (split; [reflexivity|]; 
      exact moved_live). reflexivity. }
  assert (Hf2 : Entry.inode (get_entry w2 fp) = Entry.inode (get_entry w fp)).
  { unfold w2. rewrite get_entry_update_entry.
    case_decide as Hd; [destruct Hd as [-> _]|]; reflexivity. }
  rewrite He2, Hf2.
  rewrite get_inode_update_eq by (unfold update_inode; cbn; rewrite !length_alter; exact Hlive).
  rewrite !get_inode_update_ne by (apply Hmode; exact Hfd). reflexivity.
Qed.

End Moved.

Lemma FileSystem_rename_inv (c : Constants) (from to : string) (w w' : World.t) :
  FileSystem_rename c from to w = (Return tt, w') ->
  exists fp fname tp tname fe,
    FileSystem_parentDir c from w = (Return (fp, fname), w) /\
    FileSystem_parentDir c to w = (Return (tp, tname), w) /\
    Entry.cls (get_entry w fp) = ClassDirectory /\
    Entry.cls (get_entry w tp) = ClassDirectory /\
    Directory_get w fp fname = Some fe.
Proof.
  intros H. unfold FileSystem_rename in H.
  apply parent_of_call in H as (fp & fname & Hf & H).
  apply parent_of_call in H as (tp & tname & Ht & H).
  cbn [fst snd] in H. unfold bind at 1, method_of at 1 in H.
  destruct (Class_eqb (Entry.cls (get_entry w fp)) ClassDirectory) eqn:Hfc; [|discriminate].
  unfold bind at 1, gets at 1 in H. cbn [id] in H.
  destruct (Directory_get w fp fname) as [fe|] eqn:Hfe; [|discriminate].
  unfold bind at 1, method_of at 1 in H.
  destruct (Class_eqb (Entry.cls (get_entry w tp)) ClassDirectory) eqn:Htc; [|discriminate].
  apply Class_eqb_eq in Hfc, Htc.
  exists fp, fname, tp, tname, fe. auto.
Qed.

Lemma moved_root (fp tp fe : ref) (tname : string) (w : World.t) :
  World.root (snd (Directory_push tp fe
                (snd (Directory_remove fp fe (update_entry fe (Entry.set_name tname) w))))) =
  World.root w.
Proof.
  destruct (Directory_push_frame tp fe
    (snd (Directory_remove fp fe (update_entry fe (Entry.set_name tname) w))))
    as (_ & _ & -> & _).
  destruct (Directory_remove_frame fp fe (update_entry fe (Entry.set_name tname) w))
    as (_ & -> & _).
  reflexivity.
Qed.

(** * Modes, classes and the replies of the FUSE operations *)

(** ** Only [chmod] changes a mode *)

Lemma modes_update_inode (c : Constants) (r : ref) (g : Inode.t -> Inode.t) (w : World.t) :
  (forall x, Inode.mode (g x) = Inode.mode x) ->
  modes_fixed c w -> modes_fixed c (update_inode r g w).
Proof.
  intros Hg H e He. destruct (H e He) as [Hl Hm]. split.
  - unfold update_inode. cbn. rewrite length_alter. exact Hl.
  - unfold inode_of. rewrite get_entry_update_inode.
    rewrite (get_inode_update_proj Inode.mode) by exact Hg. exact Hm.
Qed.

Lemma modes_update_entry (c : Constants) (e : ref) (g : Entry.t -> Entry.t) (w : World.t) :
  (forall x, Entry.cls (g x) = Entry.cls x /\ Entry.inode (g x) = Entry.inode x) ->
  modes_fixed c w -> modes_fixed c (update_entry e g w).
Proof.
  intros Hg H x Hx.
  assert (Hx' : (x < length (World.heap_entries w))%nat)
    by (unfold update_entry in Hx; cbn in Hx; rewrite length_alter in Hx; exact Hx).
  destruct (H x Hx') as [Hl Hm].
  assert (Hc : Entry.cls (get_entry (update_entry e g w) x) = Entry.cls (get_entry w x) /\
               Entry.inode (get_entry (update_entry e g w) x) = Entry.inode (get_entry w x)).
  { rewrite get_entry_update_entry. case_decide as Hd; [destruct Hd as [-> _]; apply Hg|auto]. }
  destruct Hc as [Hc Hi]. unfold entry_inode, inode_of. rewrite Hi, Hc. split; assumption.
Qed.

Lemma modes_alloc_inode (c : Constants) (i : Inode.t) (w : World.t) :
  modes_fixed c w -> modes_fixed c (World.set_heap_inodes (World.heap_inodes w ++ [i]) w).
Proof.
  intros H e He. destruct (H e He) as [Hl Hm]. split.
  - change (entry_inode w e < length (World.heap_inodes w ++ [i]))%nat.
    rewrite length_app. lia.
  - unfold inode_of, get_inode.
    change (Inode.mode ((World.heap_inodes w ++ [i]) !!! Entry.inode (get_entry w e)) =
            class_mode c (Entry.cls (get_entry w e))).
    unfold entry_inode in Hl. rewrite lookup_total_app_l by exact Hl. exact Hm.
Qed.

Lemma modes_alloc_entry (c : Constants) (x : Entry.t) (w : World.t) :
  (Entry.inode x < length (World.heap_inodes w))%nat ->
  Inode.mode (get_inode w (Entry.inode x)) = class_mode c (Entry.cls x) ->
  modes_fixed c w -> modes_fixed c (World.set_heap_entries (World.heap_entries w ++ [x]) w).
Proof.
  intros Hl Hm H e He.
  change (e < length (World.heap_entries w ++ [x]))%nat in He.
  rewrite length_app in He. cbn [length] in He.
  unfold entry_inode, inode_of, get_entry.
  change (World.heap_entries (World.set_heap_entries (World.heap_entries w ++ [x]) w))
    with (World.heap_entries w ++ [x]).
  change (World.heap_inodes (World.set_heap_entries (World.heap_entries w ++ [x]) w))
    with (World.heap_inodes w).
  change (get_inode (World.set_heap_entries (World.heap_entries w ++ [x]) w))
    with (get_inode w).
  destruct (decide (e < length (World.heap_entries w))%nat) as [Hlt|Hge].
  - rewrite lookup_total_app_l by exact Hlt. apply (H e Hlt).
  - assert (e = length (World.heap_entries w)) as -> by lia.
    rewrite lookup_total_at_end. split; assumption.
Qed.

Lemma modes_Entry_new (c : Constants) (k : Class) (fs : bool) (name : string) :
  preserves (modes_fixed c) (Entry_new k (class_mode c k) fs name None).
Proof.
  intros w H. unfold Entry_new, Inode_new, bind, modify, now, gets, ret, alloc_inode,
    alloc_entry.
  destruct fs; cbn [snd fst].
  - match goal with |- modes_fixed c (World.set_heap_entries (_ ++ [?x]) ?w1) =>
      apply (modes_alloc_entry c x w1) end.
    + cbn. rewrite length_app. cbn. lia.
    + unfold get_inode. cbn. rewrite lookup_total_at_end. reflexivity.
    + apply (modes_alloc_inode c _ (World.set_inodes _ w)). exact H.
  - match goal with |- modes_fixed c (World.set_heap_entries (_ ++ [?x]) ?w1) =>
      apply (modes_alloc_entry c x w1) end.
    + cbn. rewrite length_app. cbn. lia.
    + unfold get_inode. cbn. rewrite lookup_total_at_end. reflexivity.
    + apply (modes_alloc_inode c _ w). exact H.
Qed.

Ltac modes_assignment c :=
  let w := fresh "w" in
  let H := fresh "H" in
  intros w H;
  first
    [ exact H
    | apply modes_update_inode; [intros; reflexivity|exact H]
    | apply modes_update_entry; [intros; split; reflexivity|exact H] ].

Ltac modes_op c :=
  repeat
    lazymatch goal with
    | |- preserves _ (Entry_new ClassDirectory _ _ _ None) =>
      apply (modes_Entry_new c ClassDirectory)
    | |- preserves _ (Entry_new ClassFile _ _ _ None) =>
      apply (modes_Entry_new c ClassFile)
    | |- _ => preserves_step ltac:(modes_assignment c)
    end.

Ltac unfold_calls_to_new :=
  unfold FileSystem_stat, FileSystem_fstat, FileSystem_truncate, FileSystem_ftruncate,
    FileSystem_open, FileSystem_close,
    FileSystem_setxattr, FileSystem_getxattr, FileSystem_listxattr,
    FileSystem_removexattr, FileSystem_readdir, FileSystem_rmdir, FileSystem_unlink,
    FileSystem_mkdir, FileSystem_chown, FileSystem_utimes, FileSystem_rename,
    FileDescriptor_stat, FileDescriptor_truncate, FileDescriptor_file,
    Entry_setAttribute, Entry_removeAttribute,
    Directory_rmdir, Directory_unlink, Directory_mkdir, Directory_create,
    Directory_new, File_new, Directory_push, Directory_remove, File_truncate,
    Entry_reset,
    FileSystem_parentDir, FileSystem_lookupFd,
    FileSystem_lookup, FileSystem_lookup_parts.

Lemma modes_calls (c : Constants) :
  (forall path, preserves (modes_fixed c) (FileSystem_stat c path)) /\
  (forall fd, preserves (modes_fixed c) (FileSystem_fstat fd)) /\
  (forall path size, preserves (modes_fixed c) (FileSystem_truncate c path size)) /\
  (forall fd size, preserves (modes_fixed c) (FileSystem_ftruncate fd size)) /\
  (forall path flag mode, preserves (modes_fixed c) (FileSystem_open c path flag mode)) /\
  (forall fd, preserves (modes_fixed c) (FileSystem_close fd)) /\
  (forall path name value, preserves (modes_fixed c) (FileSystem_setxattr c path name value)) /\
  (forall path name, preserves (modes_fixed c) (FileSystem_getxattr c path name)) /\
  (forall path, preserves (modes_fixed c) (FileSystem_listxattr c path)) /\
  (forall path name, preserves (modes_fixed c) (FileSystem_removexattr c path name)) /\
  (forall path, preserves (modes_fixed c) (FileSystem_readdir c path)) /\
  (forall path, preserves (modes_fixed c) (FileSystem_rmdir c path)) /\
  (forall path, preserves (modes_fixed c) (FileSystem_unlink c path)) /\
  (forall path mode, preserves (modes_fixed c) (FileSystem_mkdir c path mode)) /\
  (forall path uid gid, preserves (modes_fixed c) (FileSystem_chown c path uid gid)) /\
  (forall path atime ctime, preserves (modes_fixed c) (FileSystem_utimes c path atime ctime)) /\
  (forall from to, preserves (modes_fixed c) (FileSystem_rename c from to)).
Proof.
  repeat match goal with |- _ /\ _ => split end; intros;
    unfold_calls_to_new; modes_op c.
Qed.

Lemma modes_push (c : Constants) (d e : ref) : preserves (modes_fixed c) (Directory_push d e).
Proof. unfold Directory_push. modes_op c. Qed.

Lemma class_of_directory (c : Constants) (w : World.t) (e d : ref) :
  modes_fixed c w ->
  (e < length (World.heap_entries w))%nat ->
  Entry_isDirectory c w d = true ->
  Entry_isDirectory c w e = false ->
  Entry.cls (get_entry w e) = ClassFile.
Proof.
  intros H He Hd Hn. destruct (H e He) as [_ Hm].
  destruct (Entry.cls (get_entry w e)); [|reflexivity]. exfalso.
  unfold Entry_isDirectory in Hn. rewrite Hm in Hn. cbn [class_mode] in Hn.
  rewrite js_and_or_truthy in Hn; [discriminate|].
  eapply truthy_js_and_nonzero. exact Hd.
Qed.

Lemma modes_link (c : Constants) (from to : string) (w : World.t) :
  tree_ok w -> modes_fixed c w -> modes_fixed c (snd (FileSystem_link c from to w)).
Proof.
  intros Hok H.
  destruct (FileSystem_link c from to w) as [[[]|e] w'] eqn:Hlk; cbn [snd].
  2: { rewrite (throws_cleanly_link c from to w w' e Hlk). exact H. }
  destruct (FileSystem_link_inv c from to w w' Hlk)
    as (fp & fname & tp & tname & fe & Hf & _ & _ & Hfe & Hfd & _ & _ & ->).
  assert (Hlive : (fe < length (World.heap_entries w))%nat).
  { apply Directory_get_Some in Hfe as [Hin _]. eapply children_live; eauto. }
  assert (Hf1 : fst (FileSystem_parentDir c from w) = Return (fp, fname))
    by (rewrite Hf; reflexivity).
  destruct (parentDir_inv c from w fp fname Hf1) as (_ & _ & Hpd).
  pose proof (class_of_directory c w fe fp H Hlive Hpd Hfd) as Hcls.
  destruct (H fe Hlive) as [Hil Him]. rewrite Hcls in Him.
  apply modes_push.
  unfold File_new, Entry_new, bind, ret, alloc_entry. cbn [snd].
  match goal with |- modes_fixed c (World.set_heap_entries (_ ++ [?x]) ?w1) =>
    apply (modes_alloc_entry c x w1) end.
  - exact Hil.
  - exact Him.
  - apply modes_update_entry; [intros; split; reflexivity|exact H].
Qed.

Lemma modes_set_fds (c : Constants) (fds : list (option FileDescriptor.t)) (w : World.t) :
  modes_fixed c w -> modes_fixed c (World.set_fds fds w).
Proof. intros H. exact H. Qed.

Lemma modes_read (c : Constants) (fuel : nat) (fd : Z) (buf : Buffer)
    (offset length position : option Z) (w : World.t) (r : Outcome (Z * Buffer) * World.t) :
  modes_fixed c w -> FileSystem_read fuel fd buf offset length position w = Some r ->
  modes_fixed c (snd r).
Proof.
  intros H. unfold FileSystem_read, FileSystem_lookupFd, bind, gets. cbn [id].
  destruct (array_get _ _); [|intros [= <-]; exact H].
  unfold FileDescriptor_read, FileDescriptor_file, ret.
  destruct (FileDescriptor.file _); [|intros [= <-]; exact H].
  unfold bind, method_of, ret. destruct (Class_eqb _ _); [|intros [= <-]; exact H].
  unfold File_read. destruct (read_loop _ _ _ _ _ _ _ _) as [[? ?]|]; [|discriminate].
  intros [= <-]. cbn [snd].
  apply modes_set_fds. apply modes_update_inode; [intros; reflexivity|].
  apply modes_set_fds. exact H.
Qed.

Lemma modes_write (c : Constants) (fuel : nat) (fd : Z) (buf : Buffer)
    (offset length position : option Z) (w : World.t) (r : Outcome Z * World.t) :
  modes_fixed c w -> FileSystem_write fuel fd buf offset length position w = Some r ->
  modes_fixed c (snd r).
Proof.
  intros H. unfold FileSystem_write, FileSystem_lookupFd, bind, gets. cbn [id].
  destruct (array_get _ _); [|intros [= <-]; exact H].
  unfold FileDescriptor_write, FileDescriptor_file, ret.
  destruct (FileDescriptor.file _); [|intros [= <-]; exact H].
  unfold bind, method_of, ret. destruct (Class_eqb _ _); [|intros [= <-]; exact H].
  unfold File_write. destruct (write_loop _ _ _ _ _ _ _ _) as [[? ?]|]; [|discriminate].
  intros [= <-]. cbn [snd].
  apply modes_set_fds. apply modes_update_inode; [intros; reflexivity|].
  apply modes_set_fds. exact H.
Qed.

Lemma exec_modes_fixed (c : Constants) (fuel : nat) (op : Op) (w w' : World.t) :
  tree_ok w -> modes_fixed c w -> is_chmod op = false ->
  exec c fuel op w = Some w' -> modes_fixed c w'.
Proof.
  intros Hok H Hop.
  destruct (modes_calls c) as (Hstat & Hfstat & Htruncate & Hftruncate & Hopen & Hclose &
    Hsetxattr & Hgetxattr & Hlistxattr & Hremovexattr & Hreaddir & Hrmdir & Hunlink &
    Hmkdir & Hchown & Hutimes & Hrename).
  destruct op; cbn [exec]; try discriminate Hop.
  - intros [= <-]. exact H.
  - intros [= <-]. apply Hstat, H.
  - intros [= <-]. apply Hfstat, H.
  - intros [= <-]. apply Htruncate, H.
  - intros [= <-]. apply Hftruncate, H.
  - intros [= <-]. apply Hopen, H.
  - intros [= <-]. apply Hclose, H.
  - destruct (FileSystem_read _ _ _ _ _ _ _) as [r|] eqn:Hr; [|discriminate].
    intros [= <-]. eapply modes_read; eauto.
  - destruct (FileSystem_write _ _ _ _ _ _ _) as [r|] eqn:Hr; [|discriminate].
    intros [= <-]. eapply modes_write; eauto.
  - intros [= <-]. apply Hsetxattr, H.
  - intros [= <-]. apply Hgetxattr, H.
  - intros [= <-]. apply Hlistxattr, H.
  - intros [= <-]. apply Hremovexattr, H.
  - intros [= <-]. apply Hreaddir, H.
  - intros [= <-]. apply Hrmdir, H.
  - intros [= <-]. apply Hunlink, H.
  - intros [= <-]. apply Hmkdir, H.
  - intros [= <-]. apply Hchown, H.
  - intros [= <-]. apply Hutimes, H.
  - intros [= <-]. apply modes_link; assumption.
  - intros [= <-]. apply Hrename, H.
Qed.

Lemma modes_new (c : Constants) (t : Time) : modes_fixed c (FileSystem_new c t).
Proof.
  intros e He. cbn in He.
  assert (e = 0%nat) as -> by lia.
  split; [cbn; lia|]. reflexivity.
Qed.

Lemma run_modes_fixed (c : Constants) (fuel : nat) (ops : list Op) :
  forall w w', tree_ok w -> modes_fixed c w ->
  Forall (fun op => is_chmod op = false) ops ->
  run c fuel ops w = Some w' -> modes_fixed c w'.
Proof.
  induction ops as [|op ops IH]; intros w w' Hok H Hops; cbn [run].
  - intros [= <-]. exact H.
  - apply Forall_cons in Hops as [Hop Hops].
    destruct (exec c fuel op w) as [w1|] eqn:Hex; [|discriminate].
    apply IH; [eapply exec_tree_ok; eauto|eapply exec_modes_fixed; eauto|exact Hops].
Qed.

(** ** An entry keeps its class *)

Lemma classes_update_entry (n : nat) (k : ref -> Class) (e : ref) (g : Entry.t -> Entry.t)
    (w : World.t) :
  (forall x, Entry.cls (g x) = Entry.cls x) ->
  classes_kept n k w -> classes_kept n k (update_entry e g w).
Proof.
  intros Hg [Hn Hk]. split.
  - unfold update_entry. cbn. rewrite length_alter. exact Hn.
  - intros x Hx. rewrite get_entry_update_entry.
    case_decide as Hd; [destruct Hd as [-> _]; rewrite Hg|]; auto.
Qed.

Lemma classes_alloc_entry (n : nat) (k : ref -> Class) (x : Entry.t) (w : World.t) :
  classes_kept n k w ->
  classes_kept n k (World.set_heap_entries (World.heap_entries w ++ [x]) w).
Proof.
  intros [Hn Hk]. split.
  - cbn. rewrite length_app. lia.
  - intros y Hy. unfold get_entry. cbn. rewrite lookup_total_app_l by lia. apply Hk, Hy.
Qed.

Ltac classes_assignment :=
  let w := fresh "w" in
  let H := fresh "H" in
  intros w H;
  first
    [ exact H
    | apply classes_alloc_entry; exact H
    | apply classes_update_entry; [intros; reflexivity|exact H] ].

Lemma classes_calls (c : Constants) (n : nat) (k : ref -> Class) :
  (forall path, preserves (classes_kept n k) (FileSystem_stat c path)) /\
  (forall fd, preserves (classes_kept n k) (FileSystem_fstat fd)) /\
  (forall path size, preserves (classes_kept n k) (FileSystem_truncate c path size)) /\
  (forall fd size, preserves (classes_kept n k) (FileSystem_ftruncate fd size)) /\
  (forall path flag mode, preserves (classes_kept n k) (FileSystem_open c path flag mode)) /\
  (forall fd, preserves (classes_kept n k) (FileSystem_close fd)) /\
  (forall path name value,
     preserves (classes_kept n k) (FileSystem_setxattr c path name value)) /\
  (forall path name, preserves (classes_kept n k) (FileSystem_getxattr c path name)) /\
  (forall path, preserves (classes_kept n k) (FileSystem_listxattr c path)) /\
  (forall path name, preserves (classes_kept n k) (FileSystem_removexattr c path name)) /\
  (forall path, preserves (classes_kept n k) (FileSystem_readdir c path)) /\
  (forall path, preserves (classes_kept n k) (FileSystem_rmdir c path)) /\
  (forall path, preserves (classes_kept n k) (FileSystem_unlink c path)) /\
  (forall path mode, preserves (classes_kept n k) (FileSystem_mkdir c path mode)) /\
  (forall path mode, preserves (classes_kept n k) (FileSystem_chmod c path mode)) /\
  (forall path uid gid, preserves (classes_kept n k) (FileSystem_chown c path uid gid)) /\
  (forall path atime ctime,
     preserves (classes_kept n k) (FileSystem_utimes c path atime ctime)) /\
  (forall from to, preserves (classes_kept n k) (FileSystem_link c from to)) /\
  (forall from to, preserves (classes_kept n k) (FileSystem_rename c from to)).
Proof.
  repeat match goal with |- _ /\ _ => split end; intros;
    unfold_calls; repeat preserves_step classes_assignment.
Qed.

Lemma exec_classes (c : Constants) (fuel : nat) (op : Op) (w w' : World.t) :
  exec c fuel op w = Some w' ->
  forall x, (x < length (World.heap_entries w))%nat ->
  Entry.cls (get_entry w' x) = Entry.cls (get_entry w x).
Proof.
  intros Hexec.
  assert (Hok : classes_kept (length (World.heap_entries w))
                  (fun x => Entry.cls (get_entry w x)) w) by (split; [lia|auto]).
  enough (classes_kept (length (World.heap_entries w))
            (fun x => Entry.cls (get_entry w x)) w') as [_ H] by exact H.
  revert Hexec.
  generalize dependent (length (World.heap_entries w)).
  generalize (fun x => Entry.cls (get_entry w x)). intros k n Hok.
  destruct (classes_calls c n k) as (Hstat & Hfstat & Htruncate & Hftruncate & Hopen & Hclose &
    Hsetxattr & Hgetxattr & Hlistxattr & Hremovexattr & Hreaddir & Hrmdir & Hunlink &
    Hmkdir & Hchmod & Hchown & Hutimes & Hlink & Hrename).
  destruct op; cbn [exec].
  - intros [= <-]. exact Hok.
  - intros [= <-]. apply Hstat, Hok.
  - intros [= <-]. apply Hfstat, Hok.
  - intros [= <-]. apply Htruncate, Hok.
  - intros [= <-]. apply Hftruncate, Hok.
  - intros [= <-]. apply Hopen, Hok.
  - intros [= <-]. apply Hclose, Hok.
  - unfold FileSystem_read, FileSystem_lookupFd, bind, gets. cbn [id].
    destruct (array_get _ _); [|intros [= <-]; exact Hok].
    unfold FileDescriptor_read, FileDescriptor_file, ret.
    destruct (FileDescriptor.file _); [|intros [= <-]; exact Hok].
    unfold bind, method_of, ret. destruct (Class_eqb _ _); [|intros [= <-]; exact Hok].
    unfold File_read. destruct (read_loop _ _ _ _ _ _ _ _) as [[? ?]|]; [|discriminate].
    intros [= <-]. exact Hok.
  - unfold FileSystem_write, FileSystem_lookupFd, bind, gets. cbn [id].
    destruct (array_get _ _); [|intros [= <-]; exact Hok].
    unfold FileDescriptor_write, FileDescriptor_file, ret.
    destruct (FileDescriptor.file _); [|intros [= <-]; exact Hok].
    unfold bind, method_of, ret. destruct (Class_eqb _ _); [|intros [= <-]; exact Hok].
    unfold File_write. destruct (write_loop _ _ _ _ _ _ _ _) as [[? ?]|]; [|discriminate].
    intros [= <-]. exact Hok.
  - intros [= <-]. apply Hsetxattr, Hok.
  - intros [= <-]. apply Hgetxattr, Hok.
  - intros [= <-]. apply Hlistxattr, Hok.
  - intros [= <-]. apply Hremovexattr, Hok.
  - intros [= <-]. apply Hreaddir, Hok.
  - intros [= <-]. apply Hrmdir, Hok.
  - intros [= <-]. apply Hunlink, Hok.
  - intros [= <-]. apply Hmkdir, Hok.
  - intros [= <-]. apply Hchmod, Hok.
  - intros [= <-]. apply Hchown, Hok.
  - intros [= <-]. apply Hutimes, Hok.
  - intros [= <-]. apply Hlink, Hok.
  - intros [= <-]. apply Hrename, Hok.
Qed.

(** ** Descriptors stay bound to files *)

(** Where the descriptors of the table after a call come from. *)
Lemma fds_step_origin (op : Op) (fds fds' : list (option FileDescriptor.t)) :
  fds_step op fds fds' ->
  forall k' d', fds' !! k' = Some (Some d') ->
  (exists k d, fds !! k = Some (Some d) /\ FileDescriptor.file d' = FileDescriptor.file d) \/
  (exists path flag mode, op = OpOpen path flag mode /\ fds' = fds ++ [Some d']).
Proof.
  intros Hstep k' d' Hk.
  assert (Hsame : fds' = fds ->
    exists k d, fds !! k = Some (Some d) /\ FileDescriptor.file d' = FileDescriptor.file d).
  { intros ->. exists k', d'. auto. }
  assert (Hpos : forall fd, (fds' = fds \/
      exists d0 d1, array_get fds (fd - 20) = Some d0 /\ same_descriptor d0 d1 /\
                    fds' = <[Z.to_nat (fd - 20) := Some d1]> fds) ->
    exists k d, fds !! k = Some (Some d) /\ FileDescriptor.file d' = FileDescriptor.file d).
  { intros fd [->|(d0 & d1 & Hd & Hsd & ->)]; [eauto|].
    apply array_get_Some in Hd as [_ Hd].
    destruct (decide (Z.to_nat (fd - 20) = k')) as [<-|Hne].
    - rewrite list_lookup_insert_eq in Hk by (eapply lookup_lt_Some; eauto).
      injection Hk as <-. exists (Z.to_nat (fd - 20)), d0.
      split; [exact Hd|apply same_descriptor_file; exact Hsd].
    - rewrite list_lookup_insert_ne in Hk by assumption. eauto. }
  destruct op; cbn [fds_step] in Hstep; try (left; apply Hsame; exact Hstep; fail).
  - destruct Hstep as [->|(d & -> & _)]; [left; eauto|].
    apply lookup_app_Some in Hk as [Hk|[_ Hk]]; [left; eauto|].
    apply list_lookup_singleton_Some in Hk as [_ [= <-]]. right. eauto.
  - left. destruct (array_get fds (fd - 20)) eqn:Hget; [|apply Hsame; exact Hstep].
    subst fds'.
    destruct (pop_trailing_nulls_spec (<[Z.to_nat (fd - 20) := None]> fds)) as [n Hn].
    assert (Hk' : <[Z.to_nat (fd - 20) := None]> fds !! k' = Some (Some d'))
      by (rewrite Hn; apply lookup_app_l_Some; exact Hk).
    destruct (decide (Z.to_nat (fd - 20) = k')) as [<-|Hne].
    + apply list_lookup_insert_Some in Hk' as [(_ & [=] & _)|[Hne _]]; congruence.
    + rewrite list_lookup_insert_ne in Hk' by assumption. eauto.
  - left. eapply Hpos. exact Hstep.
  - left. eapply Hpos. exact Hstep.
Qed.

(** The descriptor that [open] appends is bound to the entry it found or
    created. *)
Lemma open_binds_a_file (c : Constants) (path : string) (flag : Flag) (mode : Z)
    (w : World.t) (d : FileDescriptor.t) :
  tree_ok w -> modes_fixed c w ->
  truthy (js_and (class_mode c ClassDirectory) (S_IFREG c)) = false ->
  World.fds (snd (FileSystem_open c path flag mode w)) = World.fds w ++ [Some d] ->
  exists f, FileDescriptor.file d = Some f /\
    (f < length (World.heap_entries (snd (FileSystem_open c path flag mode w))))%nat /\
    Entry.cls (get_entry (snd (FileSystem_open c path flag mode w)) f) = ClassFile.
Proof.
  intros Hok Hm Hsane Hfds.
  destruct (FileSystem_open c path flag mode w) as [[fd|e] w'] eqn:Hopen; cbn [snd] in *.
  2: { pose proof (open_fds_spec c path flag mode w) as Hspec. unfold wp in Hspec.
       rewrite Hopen in Hspec. rewrite Hspec in Hfds.
       apply (f_equal length) in Hfds. rewrite length_app in Hfds. cbn in Hfds. lia. }
  assert (Hlen : (length (World.heap_entries w) <= length (World.heap_entries w'))%nat).
  { apply (exec_entries c 0 (OpOpen path flag mode)). cbn [exec]. rewrite Hopen. reflexivity. }
  assert (Hkept : forall x, (x < length (World.heap_entries w))%nat ->
            Entry.cls (get_entry w' x) = Entry.cls (get_entry w x)).
  { apply (exec_classes c 0 (OpOpen path flag mode)). cbn [exec]. rewrite Hopen. reflexivity. }
  destruct (open_returns_cases c path flag mode w w' fd Hopen)
    as (parent & name & Hpd & Hcls & [(f & Hget & Hfile & Hexcl)|(Hget & Hacc & Hcreat)]).
  - rewrite (open_existing_eq c path flag mode w parent name f Hpd Hcls Hget Hfile Hexcl)
      in Hopen.
    apply pair_equal_spec in Hopen as [_ Hw]. rewrite <- Hw in Hfds.
    cbn [World.fds World.set_fds] in Hfds.
    assert (Hf : (f < length (World.heap_entries w))%nat).
    { apply Directory_get_Some in Hget as [Hin _]. eapply children_live; eauto. }
    assert (Hd : FileDescriptor.file d = Some f).
    { apply app_inj_tail in Hfds as [_ [= <-]]. reflexivity. }
    exists f. split; [exact Hd|]. split; [lia|]. rewrite Hkept by exact Hf.
    destruct (Hm f Hf) as [_ Hmode].
    destruct (Entry.cls (get_entry w f)); [|reflexivity].
    unfold Entry_isFile in Hfile. rewrite Hmode, Hsane in Hfile. discriminate.
  - rewrite (open_absent_eq c path flag mode w parent name Hpd Hcls Hget Hacc Hcreat)
      in Hopen.
    apply pair_equal_spec in Hopen as [_ Hw]. rewrite <- Hw in Hfds.
    cbn [World.fds World.set_fds] in Hfds.
    assert (Hd : FileDescriptor.file d = Some (length (World.heap_entries w))).
    { apply app_inj_tail in Hfds as [_ [= <-]]. reflexivity. }
    exists (length (World.heap_entries w)). split; [exact Hd|].
    rewrite <- Hw. unfold get_entry. cbn [World.heap_entries World.set_fds].
    destruct (Directory_create_entries c parent name mode w Hget) as (x & -> & _ & Hx).
    rewrite length_app, lookup_total_at_end. cbn. split; [lia|exact Hx].
Qed.

Lemma exec_fds_files (c : Constants) (fuel : nat) (op : Op) (w w' : World.t) :
  tree_ok w -> modes_fixed c w ->
  truthy (js_and (class_mode c ClassDirectory) (S_IFREG c)) = false ->
  fds_files w -> exec c fuel op w = Some w' -> fds_files w'.
Proof.
  intros Hok Hm Hsane Hb Hexec k' d' Hk.
  pose proof (exec_entries c fuel op w w' Hexec) as Hlen.
  pose proof (exec_classes c fuel op w w' Hexec) as Hcls.
  destruct (fds_step_origin op _ _ (exec_fds c fuel op w w' Hexec) k' d' Hk)
    as [(k & d & Hd & Hfile)|(path & flag & mode & -> & Hfds)].
  - destruct (Hb k d Hd) as (f & Hf & Hlive & Hc). exists f.
    split; [congruence|]. split; [lia|]. rewrite Hcls by exact Hlive. exact Hc.
  - cbn [exec] in Hexec. injection Hexec as <-.
    apply (open_binds_a_file c path flag mode w d'); assumption.
Qed.

Lemma fds_files_new (c : Constants) (t : Time) : fds_files (FileSystem_new c t).
Proof. intros k d Hk. cbn in Hk. rewrite lookup_nil in Hk. discriminate. Qed.

Lemma run_fds_files (c : Constants) (fuel : nat) (ops : list Op) :
  truthy (js_and (class_mode c ClassDirectory) (S_IFREG c)) = false ->
  forall w w', tree_ok w -> modes_fixed c w -> fds_files w ->
  Forall (fun op => is_chmod op = false) ops ->
  run c fuel ops w = Some w' -> fds_files w'.
Proof.
  intros Hsane.
  induction ops as [|op ops IH]; intros w w' Hok H Hb Hops; cbn [run].
  - intros [= <-]. exact Hb.
  - apply Forall_cons in Hops as [Hop Hops].
    destruct (exec c fuel op w) as [w1|] eqn:Hex; [|discriminate].
    apply IH; [eapply exec_tree_ok; eauto|eapply exec_modes_fixed; eauto
              |eapply exec_fds_files; eauto|exact Hops].
Qed.

(** ** Which errors a call can throw *)

Lemma never_throws_wp {A} (m : M A) (w : World.t) (E : Error -> World.t -> Prop) :
  never_throws m -> wp m w (fun _ _ => True) E.
Proof. intros H. unfold wp. destruct (H w) as [a Ha]. destruct (m w) as [o w']. cbn in Ha. subst o. exact I. Qed.

Lemma wp_method_pass (k : Class) (x : ref) (w : World.t) (Q : unit -> World.t -> Prop)
    (E : Error -> World.t -> Prop) :
  Entry.cls (get_entry w x) = k -> Q tt w -> wp (method_of k x) w Q E.
Proof. intros Hk HQ. unfold wp. rewrite (method_of_pass k x w Hk). exact HQ. Qed.

Lemma wp_never_throws {A} (m : M A) (w : World.t) (Q : A -> World.t -> Prop)
    (E : Error -> World.t -> Prop) :
  never_throws m -> (forall a w1, Q a w1) -> wp m w Q E.
Proof.
  intros H HQ. unfold wp. destruct (H w) as [a Ha]. destruct (m w) as [o w'].
  cbn in Ha. subst o. apply HQ.
Qed.

Section Errno.
Context (c : Constants) (w : World.t).
Hypothesis Hok : tree_ok w.
Hypothesis Hmodes : modes_fixed c w.
Hypothesis Hfiles : fds_files w.
Hypothesis Hsane : truthy (js_and (class_mode c ClassFile) (S_IFDIR c)) = false.

Let E : Error -> World.t -> Prop := fun e _ => errno e <> None.

Lemma directory_class (e : ref) :
  (e < length (World.heap_entries w))%nat -> Entry_isDirectory c w e = true ->
  Entry.cls (get_entry w e) = ClassDirectory.
Proof.
  intros He Hd. destruct (Hmodes e He) as [_ Hm].
  destruct (Entry.cls (get_entry w e)); [reflexivity|].
  unfold Entry_isDirectory in Hd. rewrite Hm, Hsane in Hd. discriminate.
Qed.

Lemma lookup_from_errno (parts : list string) :
  forall cur, (cur < length (World.heap_entries w))%nat ->
  match lookup_from c w cur parts with
  | Return r => (r < length (World.heap_entries w))%nat
  | Throw e => errno e <> None
  end.
Proof.
  induction parts as [|p parts IH]; intros cur Hcur; cbn [lookup_from]; [exact Hcur|].
  destruct (Entry_isDirectory c w cur) eqn:Hd; cbn [negb]; [|discriminate].
  rewrite (directory_class cur Hcur Hd). cbn [Class_eqb negb].
  destruct (Directory_get w cur p) as [next|] eqn:Hget; [|discriminate].
  apply IH. apply Directory_get_Some in Hget as [Hin _]. eapply children_live; eauto.
Qed.

Lemma wp_lookup_errno (path : string) (Q : ref -> World.t -> Prop) :
  (forall r, (r < length (World.heap_entries w))%nat -> Q r w) ->
  wp (FileSystem_lookup c path) w Q E.
Proof.
  intros HQ. unfold FileSystem_lookup, FileSystem_lookup_parts.
  pose proof (lookup_from_errno (split path) (World.root w) (root_live w Hok)) as H.
  apply wp_lift.
  - intros r Hr. rewrite Hr in H. apply HQ, H.
  - intros e He. rewrite He in H. exact H.
Qed.

Lemma wp_parentDir_errno (path : string) (Q : ref * string -> World.t -> Prop) :
  (forall d p, (d < length (World.heap_entries w))%nat ->
     Entry_isDirectory c w d = true -> Entry.cls (get_entry w d) = ClassDirectory ->
     Q (d, p) w) ->
  wp (FileSystem_parentDir c path) w Q E.
Proof.
  intros HQ. unfold FileSystem_parentDir.
  destruct (last (split path)) as [p|]; [|apply wp_throw; discriminate].
  apply wp_bind. unfold FileSystem_lookup_parts.
  pose proof (lookup_from_errno (removelast (split path)) (World.root w) (root_live w Hok))
    as H.
  apply wp_lift; [|intros e He; rewrite He in H; exact H].
  intros d Hd. rewrite Hd in H.
  apply wp_bind, wp_gets. cbn [id].
  apply wp_bind, wp_throw_if; [discriminate|].
  intros Hdir. apply negb_false_iff in Hdir. apply wp_ret.
  apply HQ; [exact H|exact Hdir|apply directory_class; assumption].
Qed.

Lemma wp_lookupFd_errno (fd : Z) (Q : nat * FileDescriptor.t -> World.t -> Prop) :
  (forall k d f, FileDescriptor.file d = Some f ->
     Entry.cls (get_entry w f) = ClassFile -> Q (k, d) w) ->
  wp (FileSystem_lookupFd fd) w Q E.
Proof.
  intros HQ. unfold FileSystem_lookupFd. apply wp_bind, wp_gets. cbn [id].
  destruct (array_get (World.fds w) (fd - 20)) as [d|] eqn:Hd; [|apply wp_throw; discriminate].
  apply wp_ret. apply array_get_Some in Hd as [_ Hd].
  destruct (Hfiles _ d Hd) as (f & Hf & _ & Hc). eapply HQ; eauto.
Qed.

Lemma errno_stat (path : string) : wp (FileSystem_stat c path) w (fun _ _ => True) E.
Proof.
  unfold FileSystem_stat. apply wp_bind, wp_lookup_errno. intros r _.
  apply wp_gets. exact I.
Qed.

Lemma errno_getxattr (path name : string) :
  wp (FileSystem_getxattr c path name) w (fun _ _ => True) E.
Proof.
  unfold FileSystem_getxattr. apply wp_bind, wp_lookup_errno. intros r _.
  apply wp_gets. exact I.
Qed.

Lemma errno_listxattr (path : string) :
  wp (FileSystem_listxattr c path) w (fun _ _ => True) E.
Proof.
  unfold FileSystem_listxattr. apply wp_bind, wp_lookup_errno. intros r _.
  apply wp_gets. exact I.
Qed.

Lemma errno_setxattr (path name : string) (value : Buffer) :
  wp (FileSystem_setxattr c path name value) w (fun _ _ => True) E.
Proof.
  unfold FileSystem_setxattr. apply wp_bind, wp_lookup_errno. intros r _.
  apply wp_modify. exact I.
Qed.

Lemma errno_removexattr (path name : string) :
  wp (FileSystem_removexattr c path name) w (fun _ _ => True) E.
Proof.
  unfold FileSystem_removexattr. apply wp_bind, wp_lookup_errno. intros r _.
  apply wp_modify. exact I.
Qed.

Lemma errno_readdir (path : string) : wp (FileSystem_readdir c path) w (fun _ _ => True) E.
Proof.
  unfold FileSystem_readdir. apply wp_bind, wp_lookup_errno. intros r Hr.
  apply wp_bind, wp_gets. cbn [id].
  destruct (Entry_isDirectory c w r) eqn:Hd; [|apply wp_throw; discriminate].
  apply wp_bind, wp_method_pass; [exact (directory_class r Hr Hd)|]. exact I.
Qed.

Lemma errno_fstat (fd : Z) : wp (FileSystem_fstat fd) w (fun _ _ => True) E.
Proof.
  unfold FileSystem_fstat. apply wp_bind, wp_lookupFd_errno. intros k d f Hf _.
  cbn [snd]. unfold FileDescriptor_stat. rewrite Hf. apply wp_gets. exact I.
Qed.

Lemma errno_ftruncate (fd size : Z) :
  wp (FileSystem_ftruncate fd size) w (fun _ _ => True) E.
Proof.
  unfold FileSystem_ftruncate. apply wp_bind, wp_lookupFd_errno. intros k d f Hf Hc.
  cbn [snd]. unfold FileDescriptor_truncate, FileDescriptor_file. rewrite Hf.
  apply wp_bind, wp_bind, wp_method_pass; [exact Hc|]. apply wp_ret.
  apply never_throws_wp, never_throws_truncate.
Qed.

Lemma errno_close (fd : Z) : wp (FileSystem_close fd) w (fun _ _ => True) E.
Proof.
  unfold FileSystem_close. apply wp_bind, wp_gets. cbn [id].
  destruct (array_get _ _); [|apply wp_throw; discriminate].
  apply never_throws_wp. repeat never_throws_step.
Qed.

Lemma errno_mkdir (path : string) (mode : Z) :
  wp (FileSystem_mkdir c path mode) w (fun _ _ => True) E.
Proof.
  unfold FileSystem_mkdir. apply wp_bind, wp_parentDir_errno. intros d p Hd Hdir Hcls.
  apply wp_bind, wp_gets. cbn [id fst snd]. rewrite Hdir.
  apply wp_bind, wp_method_pass; [exact Hcls|].
  apply wp_bind. unfold Directory_mkdir.
  apply wp_bind, wp_gets. cbn [id].
  apply wp_bind, wp_throw_if; [discriminate|intros _].
  eapply wp_mono; [apply never_throws_wp| |intros e w' H; exact H].
  - repeat first [apply never_throws_Directory_new | apply never_throws_push
                 | never_throws_step].
  - intros a w' _. apply wp_ret. exact I.
Qed.

Lemma errno_unlink (path : string) : wp (FileSystem_unlink c path) w (fun _ _ => True) E.
Proof.
  unfold FileSystem_unlink. apply wp_bind, wp_parentDir_errno. intros d p Hd Hdir Hcls.
  apply wp_bind, wp_gets. cbn [id fst snd]. rewrite Hdir.
  apply wp_bind, wp_method_pass; [exact Hcls|].
  unfold Directory_unlink. apply wp_bind, wp_gets. cbn [id].
  destruct (Directory_get w d p); [|apply wp_throw; discriminate].
  apply wp_bind, wp_throw_if; [discriminate|intros _].
  apply never_throws_wp, never_throws_remove.
Qed.

Lemma errno_link (from to : string) : wp (FileSystem_link c from to) w (fun _ _ => True) E.
Proof.
  unfold FileSystem_link. apply wp_bind, wp_parentDir_errno. intros fp fname _ _ Hfc.
  apply wp_bind, wp_parentDir_errno. intros tp tname _ _ Htc. cbn [fst snd].
  apply wp_bind, wp_method_pass; [exact Hfc|].
  apply wp_bind, wp_gets. cbn [id].
  destruct (Directory_get w fp fname); [|apply wp_throw; discriminate].
  apply wp_bind, wp_throw_if; [discriminate|intros _].
  apply wp_bind, wp_method_pass; [exact Htc|].
  destruct (Directory_get w tp tname); [apply wp_throw; discriminate|].
  apply never_throws_wp. unfold File_new.
  repeat first [apply never_throws_Entry_new | apply never_throws_push | never_throws_step].
Qed.

Lemma errno_rename (from to : string) :
  wp (FileSystem_rename c from to) w (fun _ _ => True) E.
Proof.
  unfold FileSystem_rename. apply wp_bind, wp_parentDir_errno. intros fp fname _ _ Hfc.
  apply wp_bind, wp_parentDir_errno. intros tp tname _ _ Htc. cbn [fst snd].
  apply wp_bind, wp_method_pass; [exact Hfc|].
  apply wp_bind, wp_gets. cbn [id].
  destruct (Directory_get w fp fname) as [fe|]; [|apply wp_throw; discriminate].
  apply wp_bind, wp_method_pass; [exact Htc|].
  assert (Htail : forall w1, wp (bind (modify (update_entry fe (Entry.set_name tname)))
            (fun _ => bind (Directory_remove fp fe)
               (fun _ => bind (Directory_push tp fe) (fun _ => ret tt))))
            w1 (fun _ _ => True) E).
  { intros w1. apply never_throws_wp.
    repeat first [apply never_throws_remove | apply never_throws_push | never_throws_step]. }
  apply wp_bind.
  destruct (Directory_get w tp tname) as [te|] eqn:Hte; [|apply wp_ret, Htail].
  apply wp_bind, wp_throw_if; [discriminate|intros _].
  apply wp_bind, wp_throw_if; [discriminate|intros _].
  apply wp_bind.
  assert (Hrem : wp (Directory_remove tp te) w
            (fun _ w' => wp (bind (modify (update_entry fe (Entry.set_name tname)))
               (fun _ => bind (Directory_remove fp fe)
                  (fun _ => bind (Directory_push tp fe) (fun _ => ret tt))))
               w' (fun _ _ => True) E) E).
  { eapply wp_mono; [apply (never_throws_wp _ _ E), never_throws_remove| |auto].
    intros a w1 _. apply Htail. }
  destruct (Entry_isDirectory c w fe && Entry_isDirectory c w te) eqn:Hboth.
  - apply andb_true_iff in Hboth as [_ Htd].
    assert (Hlive : (te < length (World.heap_entries w))%nat).
    { apply Directory_get_Some in Hte as [Hin _]. eapply children_live; eauto. }
    apply wp_bind, wp_method_pass; [exact (directory_class te Hlive Htd)|]. apply wp_throw_if; [discriminate|intros _]. exact Hrem.
  - apply wp_ret. exact Hrem.
Qed.

Lemma errno_open (path : string) (flag : Flag) (mode : Z) :
  wp (FileSystem_open c path flag mode) w (fun _ _ => True) E.
Proof.
  unfold FileSystem_open. apply wp_bind, wp_gets. cbn [id].
  apply wp_bind, wp_parentDir_errno. intros d p Hd Hdir Hcls. cbn [fst snd].
  apply wp_bind, wp_method_pass; [exact Hcls|].
  apply wp_bind, wp_gets. cbn [id].
  apply wp_bind, wp_throw_if; [discriminate|intros _].
  apply wp_bind, wp_throw_if; [discriminate|intros _].
  apply wp_bind, wp_throw_if; [discriminate|intros _].
  destruct (Directory_get w d p) as [f|] eqn:Hget.
  - apply never_throws_wp. unfold Entry_reset. repeat never_throws_step.
  - apply wp_bind, wp_ret. apply wp_bind.
    apply wp_bind, wp_throw_if; [discriminate|intros _].
    apply wp_never_throws.
    + unfold Directory_create, File_new, Entry_reset.
      repeat first [apply never_throws_Entry_new | apply never_throws_push
                   | never_throws_step].
    + intros file w1. apply never_throws_wp. repeat never_throws_step.
Qed.

End Errno.

Lemma truncate_throws (c : Constants) (path : string) (size : Z) (w w' : World.t)
    (e : Error) :
  tree_ok w -> modes_fixed c w ->
  truthy (js_and (class_mode c ClassFile) (S_IFDIR c)) = false ->
  FileSystem_truncate c path size w = (Throw e, w') ->
  errno e <> None \/
  exists d, FileSystem_lookup c path w = (Return d, w) /\
            Entry.cls (get_entry w d) = ClassDirectory.
Proof.
  intros Hok Hm Hsane. unfold FileSystem_truncate, bind at 1.
  pose proof (wp_lookup_errno c w Hok Hm Hsane path (fun _ _ => True) (fun _ _ => I)) as Hl.
  unfold wp in Hl. rewrite (lookup_eq c path w _ eq_refl) in Hl |- *.
  destruct (fst (FileSystem_lookup c path w)) as [d|e0] eqn:Hd.
  - unfold bind, method_of.
    destruct (Entry.cls (get_entry w d)) eqn:Hc; cbn [Class_eqb].
    + intros _. right. exists d. split; [reflexivity|exact Hc].
    + destruct (never_throws_truncate d size w) as [a Ha].
      destruct (File_truncate d size w) as [o w1]. cbn in Ha. subst o. discriminate.
  - intros [= <- _]. left. exact Hl.
Qed.

Lemma truncate_directory (c : Constants) (path : string) (size : Z) (w : World.t) (d : ref) :
  FileSystem_lookup c path w = (Return d, w) ->
  Entry.cls (get_entry w d) = ClassDirectory ->
  FileSystem_truncate c path size w = (Throw TypeError, w).
Proof.
  intros Hl Hc. unfold FileSystem_truncate, bind at 1. rewrite Hl.
  unfold bind, method_of. rewrite Hc. reflexivity.
Qed.

Lemma read_throws (fuel : nat) (fd : Z) (buf : Buffer) (offset length position : option Z)
    (w w' : World.t) (e : Error) :
  fds_files w ->
  FileSystem_read fuel fd buf offset length position w = Some (Throw e, w') ->
  errno e <> None.
Proof.
  intros Hf. unfold FileSystem_read, FileSystem_lookupFd, bind, gets. cbn [id].
  destruct (array_get (World.fds w) (fd - 20)) as [d|] eqn:Hd;
    [|intros [= <- _]; discriminate].
  apply array_get_Some in Hd as [_ Hd]. destruct (Hf _ d Hd) as (f & Hfile & _ & Hc).
  unfold ret, FileDescriptor_read, FileDescriptor_file.
  assert (Hfile' : FileDescriptor.file
            (match position with
             | Some p => FileDescriptor.set_position p d
             | None => d
             end) = Some f) by (destruct position; exact Hfile).
  rewrite Hfile'. unfold bind, method_of, ret.
  change (get_entry (update_fd _ _ w) f) with (get_entry w f). rewrite Hc. cbn [Class_eqb].
  destruct (File_read _ _ _ _ _) as [[[? ?] ?]|]; discriminate.
Qed.

Lemma write_throws (fuel : nat) (fd : Z) (buf : Buffer) (offset length position : option Z)
    (w w' : World.t) (e : Error) :
  fds_files w ->
  FileSystem_write fuel fd buf offset length position w = Some (Throw e, w') ->
  errno e <> None.
Proof.
  intros Hf. unfold FileSystem_write, FileSystem_lookupFd, bind, gets. cbn [id].
  destruct (array_get (World.fds w) (fd - 20)) as [d|] eqn:Hd;
    [|intros [= <- _]; discriminate].
  apply array_get_Some in Hd as [_ Hd]. destruct (Hf _ d Hd) as (f & Hfile & _ & Hc).
  unfold ret, FileDescriptor_write, FileDescriptor_file.
  assert (Hfile' : FileDescriptor.file
            (match position with
             | Some p => FileDescriptor.set_position p d
             | None => d
             end) = Some f) by (destruct position; exact Hfile).
  rewrite Hfile'. unfold bind, method_of, ret.
  change (get_entry (update_fd _ _ w) f) with (get_entry w f). rewrite Hc. cbn [Class_eqb].
  destruct (File_write _ _ _ _ _) as [[? ?]|]; discriminate.
Qed.

(** ** The FUSE operations *)

Lemma run_app (c : Constants) (fuel : nat) (a b : list Op) :
  forall w, run c fuel (a ++ b) w =
            match run c fuel a w with Some w1 => run c fuel b w1 | None => None end.
Proof.
  induction a as [|op a IH]; intros w; cbn [app run]; [reflexivity|].
  destruct (exec c fuel op w); [apply IH|reflexivity].
Qed.

Lemma ops_call_run (c : Constants) (fuel : nat) (call : Call) (w : World.t) :
  snd <$> ops_call c fuel call w = run c fuel (call_ops c call) w.
Proof.
  destruct call; cbn [ops_call call_ops run exec answer fmap option_fmap option_map];
    unfold ops_statfs, ops_getxattr, ops_setxattr, ops_removexattr, ops_listxattr,
      ops_readdir, ops_getattr, ops_fgetattr, ops_truncate, ops_ftruncate, ops_link,
      ops_rename, ops_create, ops_unlink, ops_open, ops_release, ops_read, ops_write,
      ops_mkdir, reply_value, reply_done;
    try match goal with
        | |- context [FileSystem_read ?a ?b ?c ?d ?e ?f ?g] =>
          destruct (FileSystem_read a b c d e f g) as [[[[? ?]|?] ?]|]
        | |- context [FileSystem_write ?a ?b ?c ?d ?e ?f ?g] =>
          destruct (FileSystem_write a b c d e f g) as [[[?|?] ?]|]
        | |- context [reply_value (?m ?w)] => destruct (m w) as [[?|?] ?]
        | |- context [match ?m with (_, _) => _ end] => destruct m as [[?|?] ?]
        end; reflexivity.
Qed.

Lemma ops_run_run (c : Constants) (fuel : nat) (calls : list Call) :
  forall w, ops_run c fuel calls w = run c fuel (concat (call_ops c <$> calls)) w.
Proof.
  induction calls as [|call calls IH]; intros w; [reflexivity|].
  cbn [ops_run fmap list_fmap concat]. rewrite run_app, <- ops_call_run.
  destruct (ops_call c fuel call w) as [[code w1]|]; cbn; [apply IH|reflexivity].
Qed.

Lemma call_ops_no_chmod (c : Constants) (calls : list Call) :
  Forall (fun op => is_chmod op = false) (concat (call_ops c <$> calls)).
Proof.
  induction calls as [|call calls IH]; [constructor|].
  cbn [fmap list_fmap concat]. apply Forall_app. split; [|exact IH].
  destruct call; repeat constructor.
Qed.

(** What holds of the worlds the FUSE operations reach. *)
Lemma ops_run_invariants (c : Constants) (t : Time) (fuel : nat) (calls : list Call)
    (w : World.t) :
  truthy (js_and (class_mode c ClassDirectory) (S_IFREG c)) = false ->
  ops_run c fuel calls (FileSystem_new c t) = Some w ->
  tree_ok w /\ modes_fixed c w /\ fds_files w.
Proof.
  intros Hsane Hrun. rewrite ops_run_run in Hrun.
  destruct (run_Inv c t fuel _ w Hrun) as [Hok _].
  assert (Hok0 : tree_ok (FileSystem_new c t)).
  { destruct (run_Inv c t fuel [] (FileSystem_new c t) eq_refl) as [H _]. exact H. }
  split; [exact Hok|]. split.
  - eapply run_modes_fixed; [exact Hok0|apply modes_new|apply call_ops_no_chmod|exact Hrun].
  - eapply run_fds_files; [exact Hsane|exact Hok0|apply modes_new|apply fds_files_new
                          |apply call_ops_no_chmod|exact Hrun].
Qed.

Lemma reply_value_code {A} (m : M A) (w : World.t) :
  wp m w (fun _ _ => True) (fun e _ => errno e <> None) ->
  Reply.code (fst (reply_value (m w))) <> None.
Proof. unfold wp, reply_value. destruct (m w) as [[a|e] w']; cbn; [discriminate|auto]. Qed.

Lemma reply_done_code {A} (m : M A) (w : World.t) :
  wp m w (fun _ _ => True) (fun e _ => errno e <> None) ->
  Reply.code (fst (reply_done (m w))) <> None.
Proof. unfold wp, reply_done. destruct (m w) as [[a|e] w']; cbn; [discriminate|auto]. Qed.

Lemma linux_sane (parse : string -> Z) :
  truthy (js_and (class_mode (linux parse) ClassFile) (S_IFDIR (linux parse))) = false /\
  truthy (js_and (class_mode (linux parse) ClassDirectory) (S_IFREG (linux parse))) = false.
Proof. split; reflexivity. Qed.

(** ** [open] that creates, and the [create] operation *)

Lemma open_absent_world (c : Constants) (w w' : World.t) (path : string) (flag : Flag)
    (mode : Z) (fd : Z) (err : Error) :
  tree_ok w ->
  FileSystem_lookup c path w = (Throw err, w) ->
  FileSystem_open c path flag mode w = (Return fd, w') ->
  exists st d,
    FileSystem_lookup c path w' = (Return (length (World.heap_entries w)), w') /\
    Entry.cls (get_entry w' (length (World.heap_entries w))) = ClassFile /\
    FileSystem_stat c path w' = (Return st, w') /\
    Stat.mode st = js_or (js_or (js_or 0 292) 146) (S_IFREG c) /\
    Stat.size st = 0 /\
    Stat.nlink st = 1 /\
    fd = Z.of_nat (length (World.fds w)) + 20 /\
    World.fds w' = World.fds w ++ [Some d] /\
    FileDescriptor.file d = Some (length (World.heap_entries w)) /\
    FileDescriptor.position d = 0 /\
    FileDescriptor.readable d =
      FileDescriptor.readable
        (FileDescriptor_new c flag (Z.of_nat (length (World.fds w)) + 20)) /\
    FileDescriptor.writable d =
      FileDescriptor.writable
        (FileDescriptor_new c flag (Z.of_nat (length (World.fds w)) + 20)) /\
    (forall q r, FileSystem_lookup c q w = (Return r, w) ->
       FileSystem_lookup c q w' = (Return r, w')).
Proof.
  intros Hok Hmiss Hopen.
  destruct (open_returns_cases c path flag mode w w' fd Hopen)
    as (parent & name & Hp & Hcls & [(f & Hget & _)|(Hget & Hacc & Hcreat)]).
  { exfalso.
    assert (Hp1 : fst (FileSystem_parentDir c path w) = Return (parent, name))
      by (rewrite Hp; reflexivity).
    destruct (parentDir_inv c path w parent name Hp1) as (_ & Hlp & Hdir).
    rewrite (lookup_through_parent c path w w parent name Hp1 Hlp) in Hmiss.
    rewrite lookup_from_one, Hget in Hmiss by assumption. discriminate. }
  rewrite (open_absent_eq c path flag mode w parent name Hp Hcls Hget Hacc Hcreat) in Hopen.
  rewrite (Directory_create_absent c parent name mode w Hget) in Hopen. cbn [snd] in Hopen.
  destruct (create_world c w parent name Hok Hcls Hget)
    as (Hkept & Hroot & Hold & Hnew & Hlist & He & Hi).
  set (w2 := snd (Directory_push _ _ _)) in *.
  set (n := length (World.heap_entries w)) in *.
  injection Hopen as <- <-.
  set (d := FileDescriptor.set_file _ _).
  set (w' := World.set_fds _ w2).
  assert (Hp1 : fst (FileSystem_parentDir c path w) = Return (parent, name))
    by (rewrite Hp; reflexivity).
  destruct (parentDir_inv c path w parent name Hp1) as (Hs & Hlp & Hdir).
  destruct (Hold parent (Directory_live w parent Hcls)) as [Hpe Hpd].
  assert (Hl2 : FileSystem_lookup c path w2 = (Return n, w2)).
  { rewrite (lookup_through_parent c path w w2 parent name Hp1).
    - rewrite lookup_from_one, Hnew; [reflexivity| |].
      + rewrite Hpd. exact Hdir.
      + rewrite Hpe. exact Hcls.
    - rewrite Hroot. eapply lookup_from_kept; eauto. }
  assert (Hl : FileSystem_lookup c path w' = (Return n, w'))
    by (apply lookup_set_fds; exact Hl2).
  assert (Hin : inode_of w' n = get_inode w2 (length (World.heap_inodes w)))
    by (unfold inode_of; change (get_entry w' n) with (get_entry w2 n); rewrite He;
        reflexivity).
  exists (Entry_stat w' n), d.
  split; [exact Hl|].
  split; [change (get_entry w' n) with (get_entry w2 n); rewrite He; reflexivity|].
  split; [apply stat_eq, Hl|].
  unfold Entry_stat. rewrite Hin, Hi.
  cbn [Stat.mode Stat.size Stat.nlink Inode.mode Inode.size Inode.nlink].
  do 4 (split; [reflexivity|]).
  split.
  { assert (Hfds : World.fds w2 = World.fds w).
    { unfold w2. destruct (Directory_push_frame parent n
        (snd (File_new c (Entry.fs (get_entry w parent)) name None w))) as (_ & _ & _ & ->).
      destruct (File_new_allocated c (Entry.fs (get_entry w parent)) name None w)
        as [_ (_ & _ & _ & _ & _ & Hfds)]; [discriminate|]. exact Hfds. }
    change (World.fds w2 ++ [Some d] = World.fds w ++ [Some d]). rewrite Hfds. reflexivity. }
  split; [reflexivity|].
  split.
  { unfold d.
    match goal with
    | |- FileDescriptor.position (FileDescriptor.set_file _ (if ?b then _ else _)) = 0 =>
      destruct b
    end; [|reflexivity].
    change (Inode.size (inode_of w' n) = 0). rewrite Hin, Hi. reflexivity. }
  split.
  { unfold d.
    match goal with
    | |- FileDescriptor.readable (FileDescriptor.set_file _ (if ?b then _ else _)) = _ =>
      destruct b
    end; reflexivity. }
  split.
  { unfold d.
    match goal with
    | |- FileDescriptor.writable (FileDescriptor.set_file _ (if ?b then _ else _)) = _ =>
      destruct b
    end; reflexivity. }
  intros q r Hq. apply lookup_set_fds. apply (lookup_kept c w w2); assumption.
Qed.

(** A change of an inode that no directory entry has keeps every step. *)
Lemma steps_kept_update_file (c : Constants) (r : ref) (g : Inode.t -> Inode.t)
    (w : World.t) :
  (forall cur, Entry_isDirectory c w cur = true -> Entry.inode (get_entry w cur) <> r) ->
  steps_kept c w (update_inode r g w).
Proof.
  intros Hr cur p next Hdir Hcls Hget. pose proof (Hr cur Hdir) as Hne.
  assert (Hi : inode_of (update_inode r g w) cur = inode_of w cur).
  { unfold inode_of. rewrite get_entry_update_inode. apply get_inode_update_ne. congruence. }
  split; [unfold Entry_isDirectory; rewrite Hi; exact Hdir|].
  split; [exact Hcls|].
  unfold Directory_get. rewrite Hi. rewrite <- Hget. apply find_name_same.
  intros x. reflexivity.
Qed.

Lemma file_is_no_directory (c : Constants) (w : World.t) (f : ref) :
  modes_fixed c w ->
  truthy (js_and (class_mode c ClassFile) (S_IFDIR c)) = false ->
  truthy (js_and (class_mode c ClassDirectory) (S_IFREG c)) = false ->
  (f < length (World.heap_entries w))%nat ->
  Entry_isFile c w f = true ->
  Entry.cls (get_entry w f) = ClassFile /\ Entry_isDirectory c w f = false.
Proof.
  intros Hm Hsd Hsr Hf Hfile. destruct (Hm f Hf) as [_ Hmode].
  unfold Entry_isFile, Entry_isDirectory in *. rewrite Hmode in *.
  destruct (Entry.cls (get_entry w f)).
  - rewrite Hsr in Hfile. discriminate.
  - split; [reflexivity|exact Hsd].
Qed.

(** * Bytes through the FUSE operations *)

Lemma Buffer_slice_whole (b : Buffer) : Buffer_slice b 0 (0 + Buffer_length b) = b.
Proof.
  unfold Buffer_slice, Buffer_length. rewrite Z.add_0_l, js_slice_prefix by lia.
  apply take_ge. lia.
Qed.

Lemma write_back_whole (buf view : Buffer) :
  length view = length buf -> write_back buf 0 view = view.
Proof.
  intros Hlen. unfold write_back, adjustOffset, Buffer_length.
  change (0 <? 0) with false. cbv iota.
  rewrite Z.min_l by lia. change (Z.to_nat 0) with 0%nat.
  cbn [take app Nat.add]. rewrite drop_ge by lia. apply app_nil_r.
Qed.

Lemma update_inode_update_fd (r : ref) (g : Inode.t -> Inode.t) (k : nat)
    (h : FileDescriptor.t -> FileDescriptor.t) (w : World.t) :
  update_inode r g (update_fd k h w) = update_fd k h (update_inode r g w).
Proof. destruct w. reflexivity. Qed.

(** [File.read] does not look at the descriptor table. *)
Lemma File_read_update_fd (fuel : nat) (f : ref) (o : Z) (b : Buffer) (k : nat)
    (h : FileDescriptor.t -> FileDescriptor.t) (w w' : World.t) (n : Z) (b' : Buffer) :
  File_read fuel f o b w = Some (n, b', w') ->
  File_read fuel f o b (update_fd k h w) = Some (n, b', update_fd k h w').
Proof.
  unfold File_read.
  change (inode_of (update_fd k h w) f) with (inode_of w f).
  change (get_entry (update_fd k h w) f) with (get_entry w f).
  change (World.clock (update_fd k h w)) with (World.clock w).
  destruct (read_loop _ _ _ _ _ _ _ _) as [[start buffer']|]; [|discriminate].
  intros [= <- <- <-]. rewrite update_inode_update_fd. reflexivity.
Qed.

Lemma lookupFd_eq (fd : Z) (w : World.t) (d : FileDescriptor.t) :
  array_get (World.fds w) (fd - 20) = Some d ->
  FileSystem_lookupFd fd w = (Return (Z.to_nat (fd - 20), d), w).
Proof. intros H. unfold FileSystem_lookupFd, bind, gets. cbn [id]. rewrite H. reflexivity. Qed.

Lemma FileDescriptor_file_eq (d : FileDescriptor.t) (f : ref) (w : World.t) :
  FileDescriptor.file d = Some f -> Entry.cls (get_entry w f) = ClassFile ->
  FileDescriptor_file d w = (Return f, w).
Proof.
  intros Hf Hc. unfold FileDescriptor_file. rewrite Hf. unfold bind.
  rewrite (method_of_pass _ _ _ Hc). reflexivity.
Qed.

Lemma array_get_update_fd (k : nat) (h : FileDescriptor.t -> FileDescriptor.t) (w : World.t)
    (fd : Z) (d : FileDescriptor.t) :
  k = Z.to_nat (fd - 20) ->
  array_get (World.fds w) (fd - 20) = Some d ->
  array_get (World.fds (update_fd k h w)) (fd - 20) = Some (h d).
Proof.
  intros -> H. apply array_get_Some in H as [Hfd H].
  unfold array_get. destruct (Z.ltb_spec (fd - 20) 0); [lia|].
  unfold update_fd. cbn [World.fds World.set_fds].
  rewrite list_lookup_alter_eq, H. reflexivity.
Qed.

(** A write and a read of the same bytes at the same place through one
    descriptor, while the file stays within its first block. *)
Lemma fuse_round_trip (w : World.t) (path path' : string) (fd pos : Z)
    (data : Buffer) (d : FileDescriptor.t) (f : ref) :
  tree_ok w -> files_ok w ->
  array_get (World.fds w) (fd - 20) = Some d ->
  FileDescriptor.file d = Some f ->
  (f < length (World.heap_entries w))%nat ->
  Entry.cls (get_entry w f) = ClassFile ->
  Inode.size (inode_of w f) < BLOCK_SIZE ->
  0 <= pos -> 0 < Buffer_length data -> pos + Buffer_length data < BLOCK_SIZE ->
  exists w1 w2,
    ops_write 1 path fd data (Buffer_length data) pos w =
      Some (Reply.mk (Some (Buffer_length data)) None, w1) /\
    ops_read 1 path' fd (Buffer_alloc (Buffer_length data)) (Buffer_length data) pos w1 =
      Some (Reply.mk (Some (Buffer_length data)) None, data, w2).
Proof.
  intros Hok Hfiles Hd Hf Hlive Hcls Hsize Hpos Hdata Hfit.
  set (n := Buffer_length data) in *.
  set (k := Z.to_nat (fd - 20)).
  set (d1 := FileDescriptor.set_position pos d).
  set (wa := update_fd k (fun _ => d1) w).
  assert (Hino : (Entry.inode (get_entry w f) < length (World.heap_inodes w))%nat)
    by apply (inodes_live w Hok f Hlive).
  destruct (round_trip_small wa f pos data (Hfiles _) Hino Hpos Hdata Hfit Hsize)
    as (wb & wc & Hwrite & Hread).
  assert (Hwb : World.fds wb = World.fds wa /\
                get_entry wb f = get_entry w f).
  { unfold File_write in Hwrite.
    destruct (write_loop _ _ _ _ _ _ _ _) as [[? ?]|]; [|discriminate].
    injection Hwrite as _ <-. split; reflexivity. }
  destruct Hwb as [Hfds_b Hentry_b].
  set (d2 := FileDescriptor.set_position (FileDescriptor.position d1 + n) d1).
  set (w1 := update_fd k (fun x => FileDescriptor.set_position
                                     (FileDescriptor.position x + n) x) wb).
  assert (Hw : FileSystem_write 1 fd data (Some 0) (Some n) (Some pos) w =
               Some (Return n, w1)).
  { unfold FileSystem_write. rewrite (lookupFd_eq fd w d Hd).
    cbn [default]. fold k d1 wa. unfold n at 1. rewrite Buffer_slice_whole.
    unfold FileDescriptor_write.
    rewrite (FileDescriptor_file_eq d1 f wa Hf Hcls).
    change (FileDescriptor.position d1) with pos. rewrite Hwrite. reflexivity. }
  assert (Hd1 : array_get (World.fds w1) (fd - 20) = Some d2).
  { unfold w1. rewrite (array_get_update_fd k _ wb fd d1 eq_refl); [reflexivity|].
    rewrite Hfds_b. unfold wa.
    rewrite (array_get_update_fd k _ w fd d eq_refl Hd). reflexivity. }
  set (d3 := FileDescriptor.set_position pos d2).
  assert (Halloc : Buffer_length (Buffer_alloc n) = n) by (apply Buffer_length_alloc; lia).
  exists w1. eexists. split.
  { unfold ops_write. rewrite Hw. reflexivity. }
  unfold ops_read, FileSystem_read. rewrite (lookupFd_eq fd w1 d2 Hd1).
  cbn [default]. fold k d3.
  rewrite <- Halloc at 2. rewrite Buffer_slice_whole.
  unfold FileDescriptor_read.
  rewrite (FileDescriptor_file_eq d3 f _ Hf)
    by (change (Entry.cls (get_entry wb f) = ClassFile); rewrite Hentry_b; exact Hcls).
  change (FileDescriptor.position d3) with pos.
  unfold w1.
  rewrite (File_read_update_fd 1 f pos (Buffer_alloc n) k _ _ _ n data
             (File_read_update_fd 1 f pos (Buffer_alloc n) k _ _ _ n data Hread)).
  rewrite write_back_whole; [reflexivity|].
  unfold Buffer_alloc. rewrite length_replicate. unfold n, Buffer_length. lia.
Qed.

(** * [readdir] and [lookup] *)

Lemma js_split_app (sep : Ascii.ascii) (a b : string) :
  js_split sep (String.append a (String sep b)) = js_split sep a ++ js_split sep b.
Proof.
  induction a as [|ch a IH].
  - change (String.append EmptyString (String sep b)) with (String sep b).
    cbn [js_split]. rewrite Ascii.eqb_refl. reflexivity.
  - change (String.append (String ch a) (String sep b))
      with (String ch (String.append a (String sep b))).
    cbn [js_split]. rewrite IH.
    destruct (Ascii.eqb ch sep); [reflexivity|].
    pose proof (js_split_not_nil sep a) as Hne.
    destruct (js_split sep a) as [|piece more]; [contradiction|]. reflexivity.
Qed.

Lemma split_child (path name : string) :
  valid_name name ->
  split (String.append path (String "/"%char name)) = split path ++ [name].
Proof.
  intros [Hne Hsl]. unfold split. rewrite js_split_app, filter_app. f_equal.
  rewrite (js_split_whole name Hsl).
  rewrite filter_cons_True by exact Hne. reflexivity.
Qed.

Lemma readdir_get (w : World.t) (d : ref) (name : string) :
  name ∈ Directory_readdir w d <-> is_Some (Directory_get w d name).
Proof.
  split.
  - intros Hin. destruct (Directory_get w d name) as [e|] eqn:Hget; [eauto|].
    apply Directory_get_None in Hget. contradiction.
  - intros [e He]. apply Directory_get_Some in He as [Hin Hn].
    unfold Directory_readdir. apply list_elem_of_fmap. exists e. split; [|exact Hin].
    symmetry. exact Hn.
Qed.

(** * The claims *)

(** C2 (the code departs from the claim).  On the empty file [/f],
    [write(1048576, "x")] returns 1 and makes the file 1048577 bytes long;
    [read(0, buffer)] with a buffer of 1048577 bytes then never returns,
    whatever the number of iterations allowed: the loop takes one byte from
    block 0, one from block 1, and nothing from the blocks after them. *)
Theorem sparse_read_never_returns :
  reachable linux0 world_f /\
  fst (FileSystem_lookup linux0 "/f" world_f) = Return 1%nat /\
  Inode.size (inode_of world_f 1%nat) = 0 /\
  Inode.blocks (inode_of world_f 1%nat) = [] /\
  exists w,
    File_write 1 1%nat 1048576 [x78] world_f = Some (1, w) /\
    Inode.size (inode_of w 1%nat) = 1048577 /\
    forall fuel, File_read fuel 1%nat 0 (Buffer_alloc 1048577) w = None.
Proof.
  split; [exact reachable_world_f|].
  split; [vm_compute; reflexivity|].
  split; [vm_compute; reflexivity|].
  split; [vm_compute; reflexivity|].
  assert (Hb : Inode.blocks (inode_of world_f 1%nat) = []) by (vm_compute; reflexivity).
  rewrite File_write_one_block.
  2: { rewrite Hb. apply blocks_ok_nil. }
  2: lia.
  2: { vm_compute. reflexivity. }
  2: { vm_compute. discriminate. }
  eexists. split; [reflexivity|].
  rewrite inode_of_update_eq by (vm_compute; lia).
  cbn [Inode.size Inode.blocks Inode.set_mtime Inode.set_blocks Inode.set_size].
  split; [vm_compute; reflexivity|].
  apply File_read_never.
  rewrite inode_of_update_eq by (vm_compute; lia).
  cbn [Inode.size Inode.blocks Inode.set_mtime Inode.set_blocks Inode.set_size].
  rewrite Hb.
  change (0 / BLOCK_SIZE) with 0. change (Z.rem 0 BLOCK_SIZE) with 0.
  change (Z.max _ _) with 1048577.
  assert (Hok : blocks_ok (write_block [] (1048576 / BLOCK_SIZE)
                             (Z.rem 1048576 BLOCK_SIZE) 0 [x78]))
    by apply write_block_ok, blocks_ok_nil.
  assert (Hlen : Buffer_length (Buffer_alloc 1048577) = 1048577)
    by (apply Buffer_length_alloc; lia).
  apply read_loop_never_after_step; [assumption|lia|lia|].
  intros fuel1 buffer1 Hlen1.
  change (read_chunk 1048577 0 0) with 1.
  apply read_loop_never_after_step; [assumption|lia|lia|].
  intros fuel2 buffer2 Hlen2.
  change (read_chunk 1048577 (0 + 1) 0) with 1.
  apply read_loop_stuck; [assumption|lia| |lia|lia].
  left. vm_compute. discriminate.
Qed.

(** C3 (the code departs from the claim).  After [open("/f", O_RDWR |
    O_CREAT)] and [ftruncate(20, BLOCK_SIZE)] the file is exactly one block
    long, and [read(20, buf)] with a one-byte buffer never returns: no
    number of loop iterations is enough. *)
Theorem read_never_returns_on_block_multiple :
  reachable linux0 world_f_block /\
  (exists st, fst (FileSystem_fstat 20 world_f_block) = Return st /\
              Stat.size st = BLOCK_SIZE) /\
  forall fuel, FileSystem_read fuel 20 [x00] None None None world_f_block = None.
Proof.
  split; [|split].
  - eapply reachable_step with (op := OpFtruncate 20 BLOCK_SIZE) (fuel := 0%nat).
    + exact reachable_world_f.
    + vm_compute. reflexivity.
  - eexists. split; vm_compute; reflexivity.
  - eapply FileSystem_read_never.
    + vm_compute. reflexivity.
    + vm_compute. reflexivity.
    + vm_compute. reflexivity.
    + intros fuel.
      apply read_loop_stuck.
      * replace (Inode.blocks (inode_of world_f_block 1%nat)) with (@nil (option Buffer))
          by (vm_compute; reflexivity).
        apply blocks_ok_nil.
      * vm_compute. discriminate.
      * right. vm_compute. reflexivity.
      * vm_compute. reflexivity.
      * vm_compute. reflexivity.
Qed.

(** C4 (the code departs from the claim).  On the empty file [/f], writing
    a string [s] of [BLOCK_SIZE] bytes at offset 0 returns [|s|], and the
    [read(0, buffer)] of [|s|] bytes that follows never returns. *)
Theorem write_then_read_never_returns :
  let s : Buffer := replicate (Z.to_nat BLOCK_SIZE) x78 in
  reachable linux0 world_f /\
  exists w,
    File_write 1 1%nat 0 s world_f = Some (Buffer_length s, w) /\
    forall fuel, File_read fuel 1%nat 0 (Buffer_alloc (Buffer_length s)) w = None.
Proof.
  intros s.
  assert (Hs : Buffer_length s = BLOCK_SIZE).
  { unfold s, Buffer_length. rewrite length_replicate. unfold BLOCK_SIZE. lia. }
  assert (Hb : Inode.blocks (inode_of world_f 1%nat) = []) by (vm_compute; reflexivity).
  split; [exact reachable_world_f|].
  rewrite File_write_one_block.
  2: { rewrite Hb. apply blocks_ok_nil. }
  2: lia.
  2: { rewrite Hs. reflexivity. }
  2: { rewrite Hs. change (Z.rem 0 BLOCK_SIZE) with 0. lia. }
  eexists. split; [reflexivity|].
  apply (File_read_block_multiple_never _ _ 0).
  - rewrite inode_of_update_eq by (vm_compute; lia).
    cbn [Inode.blocks Inode.set_mtime Inode.set_blocks Inode.set_size].
    apply write_block_ok. rewrite Hb. apply blocks_ok_nil.
  - lia.
  - rewrite inode_of_update_eq by (vm_compute; lia).
    cbn [Inode.size Inode.set_mtime Inode.set_blocks Inode.set_size].
    rewrite Hs.
    replace (Inode.size (inode_of world_f 1%nat)) with 0 by (vm_compute; reflexivity).
    unfold BLOCK_SIZE. lia.
  - rewrite Buffer_length_alloc; rewrite Hs; unfold BLOCK_SIZE; lia.
Qed.

(** C1 (the code departs from the claim).  [link("/x", "/y")] succeeds and
    binds a second entry to the inode of [/x], so two entries point to that
    inode, yet [stat] reports [nlink = 1] for both paths: [link] increments
    an [nlink] property of the Entry object ([NaN] afterwards), not the
    link count of the inode.  After [unlink("/x")] the count reported for
    [/y] is 0 although [/y] is still bound. *)
Theorem link_does_not_count :
  reachable linux0 world_xy /\
  fst (FileSystem_link linux0 "/x" "/y" world_x) = Return tt /\
  (exists sx sy,
     fst (FileSystem_stat linux0 "/x" world_xy) = Return sx /\
     fst (FileSystem_stat linux0 "/y" world_xy) = Return sy /\
     Stat.ino sx = Stat.ino sy /\
     Stat.nlink sx = 1 /\ Stat.nlink sy = 1) /\
  Entry.inode (get_entry world_xy 1%nat) = 1%nat /\
  Entry.inode (get_entry world_xy 2%nat) = 1%nat /\
  count_links world_xy 1%nat = 2%nat /\
  Entry.nlink (get_entry world_xy 1%nat) = NaN /\
  (let w := snd (FileSystem_unlink linux0 "/x" world_xy) in
   exists sy,
     fst (FileSystem_stat linux0 "/y" w) = Return sy /\
     Stat.nlink sy = 0 /\ count_links w 1%nat = 1%nat).
Proof.
  split.
  { eapply reachable_step with (op := OpLink "/x" "/y") (fuel := 0%nat).
    - eapply reachable_step with (op := OpOpen "/x" O_RDWR_O_CREAT 0) (fuel := 0%nat).
      + apply reachable_new.
      + vm_compute. reflexivity.
    - vm_compute. reflexivity. }
  split; [vm_compute; reflexivity|].
  split.
  { do 2 eexists.
    split; [vm_compute; reflexivity|].
    split; [vm_compute; reflexivity|].
    split; [vm_compute; reflexivity|].
    split; vm_compute; reflexivity. }
  split; [vm_compute; reflexivity|].
  split; [vm_compute; reflexivity|].
  split; [vm_compute; reflexivity|].
  split; [vm_compute; reflexivity|].
  eexists.
  split; [vm_compute; reflexivity|].
  split; vm_compute; reflexivity.
Qed.

(** C6 (the code departs from the claim).  The constructor builds the root
    directory before it sets [this.inodes = 0], so the root's inode number
    is [++undefined], that is [NaN]: it is not a number the next inode's
    number 1 is greater than, and it is not equal to itself. *)
Theorem root_inode_number_is_NaN :
  reachable linux0 world_a /\
  exists sroot sa,
    fst (FileSystem_stat linux0 "/" world_a) = Return sroot /\
    fst (FileSystem_stat linux0 "/a" world_a) = Return sa /\
    Stat.ino sroot = NaN /\
    Stat.ino sa = Num 1 /\
    js_lt (Stat.ino sroot) (Stat.ino sa) = false /\
    js_strict_eq (Stat.ino sroot) (Stat.ino sroot) = false.
Proof.
  split.
  { eapply reachable_step with (op := OpMkdir "/a" 0) (fuel := 0%nat).
    - apply reachable_new.
    - vm_compute. reflexivity. }
  do 2 eexists.
  split; [vm_compute; reflexivity|].
  split; [vm_compute; reflexivity|].
  split; [vm_compute; reflexivity|].
  split; [vm_compute; reflexivity|].
  split; vm_compute; reflexivity.
Qed.

(** C10.  Whenever [open] throws, whatever the error, the world is the one
    it was called in: the heap of inodes and entries (hence the directory
    tree and every file's size and blocks), the descriptor table and the
    inode counter are unchanged. *)
Theorem open_failure_is_atomic (c : Constants) (path : string) (flag : Flag) (mode : Z)
    (w w' : World.t) (e : Error) :
  FileSystem_open c path flag mode w = (Throw e, w') -> w' = w.
Proof.
  unfold FileSystem_open. unfold bind at 1. unfold gets at 1. cbn [id].
  unfold bind at 1.
  pose proof (FileSystem_parentDir_pure c path w) as Hp.
  destruct (FileSystem_parentDir c path w) as [[[parent name]|e0] w1]; cbn in Hp; subst w1;
    [|intros [= _ <-]; reflexivity].
  cbn [fst snd].
  unfold bind at 1. unfold method_of at 1.
  destruct (Class_eqb _ _); [|intros [= _ <-]; reflexivity].
  unfold bind at 1. unfold gets at 1. cbn [id].
  destruct (Directory_get w parent name) as [f|] eqn:Hget.
  - unfold bind at 1. unfold throw_if at 1.
    destruct (negb (Entry_isFile c w f)); [intros [= _ <-]; reflexivity|].
    unfold ret at 1.
    unfold bind at 1. unfold throw_if at 1.
    destruct (_ && _); [intros [= _ <-]; reflexivity|].
    unfold ret at 1.
    unfold bind at 1. unfold throw_if at 1.
    destruct (_ && _); [intros [= _ <-]; reflexivity|].
    unfold ret at 1.
    intros H. exfalso. revert H.
    unfold bind, ret, gets, modify.
    destruct (_ && _); cbn; discriminate.
  - unfold bind at 1. unfold throw_if at 1. unfold ret at 1.
    unfold bind at 1. unfold throw_if at 1.
    destruct (_ && _); [intros [= _ <-]; reflexivity|].
    unfold ret at 1.
    unfold bind at 1. unfold throw_if at 1.
    destruct (_ && _); [intros [= _ <-]; reflexivity|].
    unfold ret at 1.
    unfold bind at 1. unfold ret at 1.
    unfold bind at 1. unfold bind at 1. unfold throw_if at 1.
    destruct (negb _); [intros [= _ <-]; reflexivity|].
    unfold ret at 1.
    destruct (Directory_create_returns c parent name mode w) as [r Hr].
    destruct (Directory_create c parent name mode w) as [o w2]. cbn in Hr. subst o.
    unfold bind, ret, gets, modify. cbn. discriminate.
Qed.

(** C8.  After any sequence of calls on a new file system (mkdir, create
    through open, rename, link, unlink, rmdir and all the others), the
    names listed by [readdir] for any directory entry are pairwise
    distinct. *)
Theorem names_stay_unique (c : Constants) (t : Time) (fuel : nat) (ops : list Op)
    (w : World.t) (d : ref) :
  run c fuel ops (FileSystem_new c t) = Some w ->
  NoDup (Directory_readdir w d).
Proof.
  intros Hrun. destruct (run_Inv c t fuel ops w Hrun) as [Hok _].
  apply (names_unique w Hok (entry_inode w d)).
Qed.

Lemma names_stay_unique_witness :
  exists w,
    run linux0 0 tree_ops (FileSystem_new linux0 0) = Some w /\
    Directory_readdir w 1%nat = ["b"; "c"]%string /\
    NoDup (Directory_readdir w 1%nat).
Proof.
  eexists. split; [vm_compute; reflexivity|].
  split; [vm_compute; reflexivity|].
  apply (names_stay_unique linux0 0 0%nat tree_ops). vm_compute. reflexivity.
Defined.



(** C5 (the code departs from the claim).  For every existing path,
    [chown] and [utimes] throw a [ReferenceError], which carries no errno
    and is none of the eight errors of the taxonomy, and leave the owner
    and the times as they were: both bodies read an undeclared [mode]. *)
Theorem chown_always_throws (c : Constants) (w : World.t) (path : string)
    (uid gid : Z) (atime ctime : Time) (e : ref) :
  fst (FileSystem_lookup c path w) = Return e ->
  FileSystem_chown c path uid gid w = (Throw ReferenceError, w) /\
  FileSystem_utimes c path atime ctime w = (Throw ReferenceError, w) /\
  errno ReferenceError = None.
Proof.
  intros He. unfold FileSystem_chown, FileSystem_utimes.
  rewrite !(bind_returns _ _ _ _ He). rewrite FileSystem_lookup_pure.
  split; [reflexivity|]. split; reflexivity.
Qed.

Lemma chown_always_throws_witness :
  fst (FileSystem_lookup linux0 "/f" world_f) = Return 1%nat /\
  FileSystem_chown linux0 "/f" 1000 1000 world_f = (Throw ReferenceError, world_f) /\
  FileSystem_utimes linux0 "/f" 1 2 world_f = (Throw ReferenceError, world_f) /\
  errno ReferenceError = None.
Proof.
  split; [vm_compute; reflexivity|].
  apply (chown_always_throws linux0 world_f "/f" 1000 1000 1 2 1%nat).
  vm_compute. reflexivity.
Defined.

Lemma open_failure_is_atomic_witness :
  exists w',
    FileSystem_open linux0 "/f" O_WRONLY_O_CREAT_O_EXCL 0 world_f_block = (Throw EEXIST, w') /\
    w' = world_f_block.
Proof.
  eexists. split; [vm_compute; reflexivity|].
  apply (open_failure_is_atomic linux0 "/f" O_WRONLY_O_CREAT_O_EXCL 0 world_f_block _ EEXIST).
  vm_compute. reflexivity.
Defined.

(** C7.  In a world reached by a sequence of calls, take a path whose last
    component is bound to a regular file, and let [n] be the number of the
    flag.  When [n] has the [O_EXCL] bit, [open] throws [EEXIST], returns
    no descriptor and leaves the file as it is.  Otherwise it returns a new
    descriptor bound to that file, and when it returns: if [n] has no
    [O_APPEND] bit and its access mode [n & O_ACCMODE] is [O_WRONLY] or
    [O_RDWR], the file has been reset (no blocks, size 0) and the position
    is 0; if [n] has the [O_APPEND] bit, no inode and no entry has changed
    and the position is the size of the file; without that bit the position
    is 0. *)
Theorem open_existing_file (c : Constants) (t : Time) (fuel : nat) (ops : list Op)
    (w : World.t) (path : string) (flag : Flag) (mode : Z)
    (parent : ref) (name : string) (f : ref) :
  run c fuel ops (FileSystem_new c t) = Some w ->
  FileSystem_parentDir c path w = (Return (parent, name), w) ->
  Entry.cls (get_entry w parent) = ClassDirectory ->
  Directory_get w parent name = Some f ->
  Entry_isFile c w f = true ->
  (flag_has c flag (O_EXCL c) = true ->
   FileSystem_open c path flag mode w = (Throw EEXIST, w)) /\
  (flag_has c flag (O_EXCL c) = false ->
   exists w' d,
     FileSystem_open c path flag mode w =
       (Return (Z.of_nat (length (World.fds w)) + 20), w') /\
     World.fds w' = World.fds w ++ [Some d] /\
     FileDescriptor.file d = Some f /\
     (flag_has c flag (O_APPEND c) = false ->
      flag_access c flag = O_WRONLY c \/ flag_access c flag = O_RDWR c ->
        Inode.blocks (inode_of w' f) = [] /\ Inode.size (inode_of w' f) = 0 /\
        FileDescriptor.position d = 0) /\
     (flag_has c flag (O_APPEND c) = true ->
        World.heap_inodes w' = World.heap_inodes w /\
        World.heap_entries w' = World.heap_entries w /\
        FileDescriptor.position d = Inode.size (inode_of w f)) /\
     (flag_has c flag (O_APPEND c) = false -> FileDescriptor.position d = 0)).
Proof.
  intros Hrun Hpd Hcls Hget Hfile.
  set (desc := FileDescriptor_new c flag (Z.of_nat (length (World.fds w)) + 20)).
  assert (Ha : FileDescriptor.appending desc = flag_has c flag (O_APPEND c)) by reflexivity.
  assert (Hw : FileDescriptor.writable desc =
               (flag_access c flag =? O_WRONLY c) || (flag_access c flag =? O_RDWR c))
    by reflexivity.
  split.
  { intros Hexcl.
    apply (open_existing_exclusive c path flag mode w parent name f); assumption. }
  intros Hexcl.
  destruct (run_Inv c t fuel ops w Hrun) as [Hok _].
  assert (Hlive : (Entry.inode (get_entry w f) < length (World.heap_inodes w))%nat).
  { apply Directory_get_Some in Hget as [Hin _].
    apply (inodes_live w Hok f). eapply children_live; eauto. }
  rewrite (open_existing_eq c path flag mode w parent name f Hpd Hcls Hget Hfile Hexcl).
  fold desc. rewrite Ha, Hw.
  destruct (flag_has c flag (O_APPEND c)) eqn:Happ.
  - cbn [negb andb]. do 2 eexists. split; [reflexivity|].
    split; [reflexivity|]. split; [reflexivity|].
    split; [discriminate|]. split; [|discriminate]. intros _. repeat split.
  - cbn [negb andb].
    destruct ((flag_access c flag =? O_WRONLY c) || (flag_access c flag =? O_RDWR c)) eqn:Hacc.
    + do 2 eexists. split; [reflexivity|].
      split; [reflexivity|]. split; [reflexivity|].
      split; [|split; [discriminate|reflexivity]].
      intros _ _.
      change (inode_of (World.set_fds _ (snd (Entry_reset f w))) f)
        with (inode_of (update_inode (Entry.inode (get_entry w f))
                (fun i => Inode.set_entries []
                   (Inode.set_size 0 (Inode.set_blocks [] (Inode.set_mtime (World.clock w) i)))) w) f).
      rewrite inode_of_update_eq by assumption.
      repeat split.
    + do 2 eexists. split; [reflexivity|].
      split; [reflexivity|]. split; [reflexivity|].
      split; [|split; [discriminate|reflexivity]].
      intros _ [Hm|Hm]; rewrite Hm, Z.eqb_refl in Hacc;
        [discriminate|rewrite orb_true_r in Hacc; discriminate].
Qed.

Lemma open_existing_file_witness :
  run linux0 0 five_bytes_ops (FileSystem_new linux0 0) = Some world_five /\
  Inode.size (inode_of world_five 1%nat) = 5 /\
  (exists w' d,
     FileSystem_open linux0 "/f" O_WRONLY_only 0 world_five = (Return 21, w') /\
     World.fds w' = World.fds world_five ++ [Some d] /\
     FileDescriptor.position d = 0 /\
     Inode.size (inode_of w' 1%nat) = 0 /\ Inode.blocks (inode_of w' 1%nat) = []) /\
  (exists w' d,
     FileSystem_open linux0 "/f" O_WRONLY_O_APPEND 0 world_five = (Return 21, w') /\
     World.fds w' = World.fds world_five ++ [Some d] /\
     FileDescriptor.position d = 5 /\
     World.heap_inodes w' = World.heap_inodes world_five).
Proof.
  split; [vm_compute; reflexivity|].
  split; [vm_compute; reflexivity|].
  split.
  - destruct (open_existing_file linux0 0 0%nat five_bytes_ops world_five "/f" O_WRONLY_only 0
                0%nat "f" 1%nat) as [_ Hnew]; [vm_compute; reflexivity..|].
    destruct Hnew as (w' & d & Hopen & Hfds & _ & Hreset & _); [vm_compute; reflexivity|].
    exists w', d. split; [exact Hopen|]. split; [exact Hfds|].
    destruct Hreset as (Hb & Hs & Hp); [vm_compute; reflexivity|left; vm_compute; reflexivity|].
    auto.
  - destruct (open_existing_file linux0 0 0%nat five_bytes_ops world_five "/f"
                O_WRONLY_O_APPEND 0 0%nat "f" 1%nat) as [_ Hnew]; [vm_compute; reflexivity..|].
    destruct Hnew as (w' & d & Hopen & Hfds & _ & _ & Happ & _); [vm_compute; reflexivity|].
    exists w', d. split; [exact Hopen|]. split; [exact Hfds|].
    destruct Happ as (Hi & _ & Hp); [vm_compute; reflexivity|].
    split; [|exact Hi]. rewrite Hp. vm_compute. reflexivity.
Defined.

(** [open] with [O_WRONLY | O_EXCL] on the existing five-byte file [/f]:
    the flag is writable (access mode [O_WRONLY]) and not appending, yet
    [open] throws [EEXIST], returns no descriptor and the file keeps its
    five bytes. *)
Lemma open_exclusive_does_not_reset :
  run linux0 0 five_bytes_ops (FileSystem_new linux0 0) = Some world_five /\
  FileSystem_lookup linux0 "/f" world_five = (Return 1%nat, world_five) /\
  Entry_isFile linux0 world_five 1%nat = true /\
  flag_access linux0 O_WRONLY_O_EXCL = O_WRONLY linux0 /\
  flag_has linux0 O_WRONLY_O_EXCL (O_APPEND linux0) = false /\
  FileSystem_open linux0 "/f" O_WRONLY_O_EXCL 0 world_five = (Throw EEXIST, world_five) /\
  Inode.size (inode_of world_five 1%nat) = 5 /\
  ~ (exists fd w',
       FileSystem_open linux0 "/f" O_WRONLY_O_EXCL 0 world_five = (Return fd, w') /\
       Inode.size (inode_of w' 1%nat) = 0).
Proof.
  repeat (split; [vm_compute; reflexivity|]).
  intros (fd & w' & Hopen & _).
  vm_compute in Hopen. discriminate.
Qed.

(** * Further properties of the code *)

(** ** [File.read] and [File.write] *)

(** X1.  [File.read] at or past the end of the file, or into an empty
    buffer, takes no iteration of the loop: it returns 0, leaves the buffer
    as it was, and only sets [atime]. *)
Theorem read_at_end_returns_nothing (fuel : nat) (w : World.t) (f : ref) (offset : Z)
    (buffer : Buffer) :
  Inode.size (inode_of w f) <= offset \/ buffer = [] ->
  File_read fuel f offset buffer w =
  Some (0, buffer,
        update_inode (Entry.inode (get_entry w f)) (Inode.set_atime (World.clock w)) w).
Proof.
  intros H. unfold File_read.
  rewrite read_loop_done.
  - replace (Z.min (Buffer_length buffer) 0) with 0 by (unfold Buffer_length; lia).
    reflexivity.
  - destruct H as [H| ->]; [right; exact H|left; unfold Buffer_length; cbn [length]; lia].
Qed.

Lemma read_at_end_returns_nothing_witness :
  Inode.size (inode_of world_five 1%nat) = 5 /\
  File_read 0 1%nat 5 [x01; x02] world_five =
  Some (0, [x01; x02],
        update_inode (Entry.inode (get_entry world_five 1%nat))
          (Inode.set_atime (World.clock world_five)) world_five).
Proof.
  split; [vm_compute; reflexivity|].
  apply (read_at_end_returns_nothing 0 world_five 1%nat 5 [x01; x02]).
  left. vm_compute. discriminate.
Defined.

(** X2.  On a file shorter than one block, [File.read] from an offset
    inside the file returns the number of bytes up to the end of the file,
    at most the length of the buffer, and copies those bytes of block 0 to
    the front of the buffer; it takes one iteration. *)
Theorem read_within_first_block (fuel : nat) (w : World.t) (f : ref) (offset : Z)
    (buffer : Buffer) :
  blocks_ok (Inode.blocks (inode_of w f)) ->
  0 <= offset < Inode.size (inode_of w f) -> Inode.size (inode_of w f) < BLOCK_SIZE ->
  0 < Buffer_length buffer ->
  File_read (S fuel) f offset buffer w =
  Some (Z.min (Buffer_length buffer) (Inode.size (inode_of w f) - offset),
        Buffer_copy (js_slice (first_block (Inode.blocks (inode_of w f))) offset
                       (Inode.size (inode_of w f))) buffer,
        update_inode (Entry.inode (get_entry w f)) (Inode.set_atime (World.clock w)) w).
Proof.
  intros Hok Hoff Hsize Hlen. unfold File_read.
  rewrite read_loop_small by assumption. reflexivity.
Qed.

Lemma read_within_first_block_witness :
  exists r,
    File_read 1 1%nat 2 [x01; x01; x01; x01] world_five = Some r /\
    fst (fst r) = 3.
Proof.
  eexists. split.
  - apply (read_within_first_block 0 world_five 1%nat 2 [x01; x01; x01; x01]).
    + replace (Inode.blocks (inode_of world_five 1%nat)) with (@nil (option Buffer))
        by (vm_compute; reflexivity).
      apply blocks_ok_nil.
    + vm_compute. split; [discriminate|reflexivity].
    + vm_compute. reflexivity.
    + vm_compute. reflexivity.
  - cbn [fst]. vm_compute. reflexivity.
Defined.

(** X3.  A block that was never written reads as zeros: on a file shorter
    than one block whose block 0 is not allocated, [File.read] puts that
    many zero bytes at the front of the buffer and leaves the rest of the
    buffer alone. *)
Theorem unwritten_block_reads_as_zeros (fuel : nat) (w : World.t) (f : ref) (offset : Z)
    (buffer : Buffer) :
  array_get (Inode.blocks (inode_of w f)) 0 = None ->
  blocks_ok (Inode.blocks (inode_of w f)) ->
  0 <= offset < Inode.size (inode_of w f) -> Inode.size (inode_of w f) < BLOCK_SIZE ->
  0 < Buffer_length buffer ->
  let n := Z.min (Buffer_length buffer) (Inode.size (inode_of w f) - offset) in
  File_read (S fuel) f offset buffer w =
  Some (n, replicate (Z.to_nat n) x00 ++ drop (Z.to_nat n) buffer,
        update_inode (Entry.inode (get_entry w f)) (Inode.set_atime (World.clock w)) w).
Proof.
  intros Hhole Hok Hoff Hsize Hlen n. unfold File_read.
  rewrite read_loop_small by assumption.
  unfold first_block. rewrite Hhole. cbn [default].
  pose proof BLOCK_SIZE_pos as Hpos.
  assert (Hz : js_slice (Buffer_alloc BLOCK_SIZE) offset (Inode.size (inode_of w f)) =
               replicate (Z.to_nat (Inode.size (inode_of w f) - offset)) x00).
  { unfold Buffer_alloc. rewrite js_slice_inside by (rewrite ?length_replicate; lia).
    rewrite drop_replicate, take_replicate. f_equal. lia. }
  rewrite Hz. unfold Buffer_copy, Buffer_length in *.
  rewrite take_replicate, length_replicate.
  replace (length buffer `min` Z.to_nat (Inode.size (inode_of w f) - offset))%nat
    with (Z.to_nat n) by (unfold n; lia).
  replace (drop (Z.to_nat (Inode.size (inode_of w f) - offset)) buffer)
    with (drop (Z.to_nat n) buffer); [reflexivity|].
  destruct (Z_le_gt_dec (Z.of_nat (length buffer)) (Inode.size (inode_of w f) - offset)).
  - rewrite !drop_ge by (unfold n; lia). reflexivity.
  - f_equal. unfold n. lia.
Qed.

Lemma unwritten_block_reads_as_zeros_witness :
  exists w',
    File_read 1 1%nat 2 [x01; x01; x01; x01] world_five =
    Some (3, [x00; x00; x00; x01], w').
Proof.
  eexists.
  apply (unwritten_block_reads_as_zeros 0 world_five 1%nat 2 [x01; x01; x01; x01]).
  - vm_compute. reflexivity.
  - replace (Inode.blocks (inode_of world_five 1%nat)) with (@nil (option Buffer))
      by (vm_compute; reflexivity).
    apply blocks_ok_nil.
  - vm_compute. split; [discriminate|reflexivity].
  - vm_compute. reflexivity.
  - vm_compute. reflexivity.
Defined.

(** X4.  While a file stays shorter than one block, what [File.write]
    stores at an offset is what [File.read] then returns from that offset:
    the write returns the length of the string and the read fills a buffer
    of that length with the string. *)
Theorem write_then_read_within_first_block (w : World.t) (f : ref) (o : Z) (s : Buffer) :
  blocks_ok (Inode.blocks (inode_of w f)) ->
  (Entry.inode (get_entry w f) < length (World.heap_inodes w))%nat ->
  0 <= o -> 0 < Buffer_length s ->
  o + Buffer_length s < BLOCK_SIZE -> Inode.size (inode_of w f) < BLOCK_SIZE ->
  exists w1 w2,
    File_write 1 f o s w = Some (Buffer_length s, w1) /\
    File_read 1 f o (Buffer_alloc (Buffer_length s)) w1 = Some (Buffer_length s, s, w2).
Proof.
  intros Hok Hlive Ho Hs Hfit Hsize.
  destruct (round_trip_small w f o s Hok Hlive Ho Hs Hfit Hsize) as (w1 & w2 & Hw & Hr).
  exists w1, w2. split; assumption.
Qed.

Lemma write_then_read_within_first_block_witness :
  exists w1 w2,
    File_write 1 1%nat 3 [x68; x69] world_five = Some (2, w1) /\
    File_read 1 1%nat 3 [x00; x00] w1 = Some (2, [x68; x69], w2).
Proof.
  apply (write_then_read_within_first_block world_five 1%nat 3 [x68; x69]).
  - replace (Inode.blocks (inode_of world_five 1%nat)) with (@nil (option Buffer))
      by (vm_compute; reflexivity).
    apply blocks_ok_nil.
  - vm_compute. lia.
  - lia.
  - vm_compute. reflexivity.
  - vm_compute. reflexivity.
  - vm_compute. reflexivity.
Defined.

(** X5.  Every call other than [read] ends: a sequence of calls on a new
    file system that contains no [read] runs to its end, the loop of each
    [write] taking at most as many iterations as its buffer has bytes. *)
Theorem calls_other_than_read_complete (c : Constants) (t : Time) (fuel : nat)
    (ops : list Op) :
  Forall (fun op => is_read op = false /\ (write_fuel op <= fuel)%nat) ops ->
  exists w, run c fuel ops (FileSystem_new c t) = Some w.
Proof.
  intros Hops. apply run_returns; [|exact Hops].
  apply files_ok_new.
Qed.

Lemma calls_other_than_read_complete_witness :
  exists w,
    run linux0 3
      [OpOpen "/f" O_RDWR_O_CREAT 0; OpWrite 20 [x61; x62; x63] None None (Some 1048575);
       OpFstat 20; OpClose 20]%string
      (FileSystem_new linux0 0) = Some w.
Proof.
  apply (calls_other_than_read_complete linux0 0 3).
  repeat constructor.
Defined.

(** ** Descriptors *)

(** X6.  [write] through a descriptor bound to a [File], in a world reached
    by a sequence of calls, at a position [p] with [-2^53 < p] and
    [p + n < 2^53] for the number [n] of bytes of the slice
    [buf.slice(offset, offset + length)] (there the additions of the source
    are exact): it ends within as many iterations as [buf] has bytes and
    returns [n]; the file grows to cover the bytes written, its [mtime] is
    the time of the call, and the descriptor's position ends right after
    them.  Whether the descriptor was opened for writing is never looked
    at. *)
Theorem write_extends_file_and_advances (c : Constants) (t : Time) (fuel : nat)
    (ops : list Op) (w : World.t) (fd : Z) (d : FileDescriptor.t) (f : ref)
    (buf : Buffer) (offset length position : option Z) :
  run c fuel ops (FileSystem_new c t) = Some w ->
  array_get (World.fds w) (fd - 20) = Some d ->
  FileDescriptor.file d = Some f ->
  Entry.cls (get_entry w f) = ClassFile ->
  let view := Buffer_slice buf (default 0 offset)
                (default 0 offset + default (Buffer_length buf) length) in
  let p := default (FileDescriptor.position d) position in
  - 2 ^ 53 < p -> p + Buffer_length view < 2 ^ 53 ->
  exists w',
    FileSystem_write (List.length buf) fd buf offset length position w =
      Some (Return (Buffer_length view), w') /\
    array_get (World.fds w') (fd - 20) =
      Some (FileDescriptor.set_position (p + Buffer_length view) d) /\
    Inode.size (inode_of w' f) = Z.max (Inode.size (inode_of w f)) (p + Buffer_length view) /\
    Inode.mtime (inode_of w' f) = World.clock w /\
    World.heap_entries w' = World.heap_entries w.
Proof.
  intros Hrun Hd Hf Hcls view p _ _.
  assert (Hreach : reachable c w)
    by (eapply run_reachable; [apply reachable_new|exact Hrun]).
  destruct (run_Inv c t fuel ops w Hrun) as [Hok _].
  apply FileSystem_write_bound; try assumption.
  - apply (reachable_files_ok c). exact Hreach.
  - apply (inodes_live w Hok).
    apply array_get_Some in Hd as [_ Hd].
    destruct (run_fds_bound c t fuel ops w Hrun _ d Hd) as (f' & Hf' & Hlive).
    congruence.
  - lia.
Qed.

Lemma write_extends_file_and_advances_witness :
  run linux0 0 read_only_ops (FileSystem_new linux0 0) = Some world_ro /\
  (exists d, array_get (World.fds world_ro) 0 = Some d /\
             FileDescriptor.writable d = false) /\
  exists w',
    FileSystem_write 2 20 [x68; x69] None None (Some 3) world_ro = Some (Return 2, w') /\
    Inode.size (inode_of w' 1%nat) = 5.
Proof.
  split; [vm_compute; reflexivity|].
  split; [eexists; split; vm_compute; reflexivity|].
  destruct (write_extends_file_and_advances linux0 0 0%nat read_only_ops world_ro 20
              (FileDescriptor.mk (Some 1%nat) 20 true false false false false 0) 1%nat
              [x68; x69] None None (Some 3))
    as (w' & Hw & _ & Hsize & _).
  - vm_compute. reflexivity.
  - vm_compute. reflexivity.
  - reflexivity.
  - vm_compute. reflexivity.
  - vm_compute. reflexivity.
  - vm_compute. reflexivity.
  - exists w'. split; [exact Hw|]. rewrite Hsize. vm_compute. reflexivity.
Defined.

(** X7.  Once [close(fd)] has returned, [fd] names no descriptor: [fstat],
    [ftruncate], [read], [write] and a second [close] on it throw [EBADF]
    and leave the world as it is.  The other descriptors stay in their
    slots, and no inode or entry changes. *)
Theorem closed_descriptor_is_bad (fd : Z) (w w' : World.t) :
  FileSystem_close fd w = (Return tt, w') ->
  FileSystem_close fd w' = (Throw EBADF, w') /\
  FileSystem_fstat fd w' = (Throw EBADF, w') /\
  (forall size, FileSystem_ftruncate fd size w' = (Throw EBADF, w')) /\
  (forall fuel buf offset length position,
     FileSystem_read fuel fd buf offset length position w' = Some (Throw EBADF, w')) /\
  (forall fuel buf offset length position,
     FileSystem_write fuel fd buf offset length position w' = Some (Throw EBADF, w')) /\
  (forall fd', fd' <> fd ->
     array_get (World.fds w') (fd' - 20) = array_get (World.fds w) (fd' - 20)) /\
  World.heap_inodes w' = World.heap_inodes w /\
  World.heap_entries w' = World.heap_entries w.
Proof.
  intros Hclose.
  destruct (close_slots fd w w' Hclose) as (_ & Hi & He & Hslots).
  assert (Hbad : array_get (World.fds w') (fd - 20) = None)
    by (rewrite Hslots, decide_True by reflexivity; reflexivity).
  pose proof (lookupFd_bad fd w' Hbad) as Hl.
  split; [rewrite close_eq, Hbad; reflexivity|].
  split; [unfold FileSystem_fstat, bind; rewrite Hl; reflexivity|].
  split; [intros size; unfold FileSystem_ftruncate, bind; rewrite Hl; reflexivity|].
  split; [intros; unfold FileSystem_read; rewrite Hl; reflexivity|].
  split; [intros; unfold FileSystem_write; rewrite Hl; reflexivity|].
  split; [|split; assumption].
  intros fd' Hne. rewrite Hslots, decide_False by assumption. reflexivity.
Qed.

Lemma closed_descriptor_is_bad_witness :
  FileSystem_close 20 world_f = (Return tt, snd (FileSystem_close 20 world_f)) /\
  FileSystem_fstat 20 (snd (FileSystem_close 20 world_f)) =
  (Throw EBADF, snd (FileSystem_close 20 world_f)).
Proof.
  split; [vm_compute; reflexivity|].
  apply (closed_descriptor_is_bad 20 world_f (snd (FileSystem_close 20 world_f))).
  vm_compute. reflexivity.
Defined.

(** X8.  Descriptor ids are handed out again: in a world reached by a
    sequence of calls, closing the descriptor that [open] has just returned
    puts the table back as it was, so that the next [open] that returns,
    returns the same id. *)
Theorem descriptor_ids_are_reused (c : Constants) (t : Time) (fuel : nat) (ops : list Op)
    (w w1 : World.t) (path : string) (flag : Flag) (mode : Z) (fd : Z) :
  run c fuel ops (FileSystem_new c t) = Some w ->
  FileSystem_open c path flag mode w = (Return fd, w1) ->
  exists w2,
    FileSystem_close fd w1 = (Return tt, w2) /\
    World.fds w2 = World.fds w /\
    forall path' flag' mode' fd' w3,
      FileSystem_open c path' flag' mode' w2 = (Return fd', w3) -> fd' = fd.
Proof.
  intros Hrun Hopen.
  destruct (run_Inv c t fuel ops w Hrun) as [_ Hfds].
  pose proof (open_fds_spec c path flag mode w) as Hspec. unfold wp in Hspec.
  rewrite Hopen in Hspec. destruct Hspec as (-> & d & Hd & _).
  rewrite close_eq.
  replace (Z.of_nat (length (World.fds w)) + 20 - 20) with (Z.of_nat (length (World.fds w)))
    by lia.
  assert (Hget : array_get (World.fds w1) (Z.of_nat (length (World.fds w))) = Some d).
  { apply array_get_lookup; [lia|]. rewrite Nat2Z.id, Hd.
    rewrite lookup_app_r by lia. rewrite Nat.sub_diag. reflexivity. }
  rewrite Hget. eexists. split; [reflexivity|].
  assert (Htable : pop_trailing_nulls
            (<[Z.to_nat (Z.of_nat (length (World.fds w))) := None]> (World.fds w1)) =
          World.fds w).
  { rewrite Nat2Z.id, Hd.
    replace (length (World.fds w)) with (length (World.fds w) + 0)%nat at 1 by lia.
    rewrite insert_app_r. cbn [insert list_insert].
    rewrite pop_snoc_None. apply pop_fds_ok. exact Hfds. }
  split; [exact Htable|].
  intros path' flag' mode' fd' w3 Hopen'.
  pose proof (open_fds_spec c path' flag' mode'
    (World.set_fds (pop_trailing_nulls
       (<[Z.to_nat (Z.of_nat (length (World.fds w))) := None]> (World.fds w1))) w1)) as H.
  unfold wp in H. rewrite Hopen' in H. destruct H as (-> & _).
  cbn [World.fds World.set_fds]. rewrite Htable. reflexivity.
Qed.

Lemma descriptor_ids_are_reused_witness :
  exists w2,
    FileSystem_close 20 world_f = (Return tt, w2) /\
    World.fds w2 = [] /\
    fst (FileSystem_open linux0 "/g" O_RDWR_O_CREAT 0 w2) = Return 20.
Proof.
  destruct (descriptor_ids_are_reused linux0 0 0%nat [] (FileSystem_new linux0 0) world_f
              "/f" O_RDWR_O_CREAT 0 20) as (w2 & Hclose & Hfds & Hnext).
  - reflexivity.
  - vm_compute. reflexivity.
  - exists w2. split; [exact Hclose|]. split; [exact Hfds|].
    destruct (FileSystem_open linux0 "/g" O_RDWR_O_CREAT 0 w2) as [[fd'|e] w3] eqn:Hopen.
    + cbn [fst]. f_equal. apply (Hnext "/g"%string O_RDWR_O_CREAT 0 fd' w3 Hopen).
    + exfalso. revert Hopen. injection Hclose as <-. vm_compute. discriminate.
Defined.

(** ** Inode numbers *)

(** X9.  In a world reached by a sequence of calls the inodes are numbered
    in the order they were made (their order in the heap): the root's inode
    has the number [NaN], the [i]-th inode made after it has the number
    [i], and the counter [this.inodes] holds the number of the last one.
    No number is given twice. *)
Theorem inode_numbers_count_up (c : Constants) (t : Time) (fuel : nat) (ops : list Op)
    (w : World.t) :
  run c fuel ops (FileSystem_new c t) = Some w ->
  Inode.ino (get_inode w 0%nat) = NaN /\
  World.inodes w = Num (Z.of_nat (length (World.heap_inodes w)) - 1) /\
  forall i, (0 < i < length (World.heap_inodes w))%nat ->
            Inode.ino (get_inode w i) = Num (Z.of_nat i).
Proof.
  intros Hrun.
  assert (Hn : numbered w).
  { apply (reachable_numbered c). eapply run_reachable; [apply reachable_new|exact Hrun]. }
  split; [apply numbered_root_ino; exact Hn|].
  split; [|intros i Hi; apply numbered_ino; assumption].
  destruct Hn as [_ (n & Hc & Hl)]. rewrite Hc. f_equal.
  apply (f_equal length) in Hl. rewrite length_fmap in Hl. rewrite Hl.
  unfold numbers. cbn [length]. rewrite length_fmap, length_seq. lia.
Qed.

Lemma inode_numbers_count_up_witness :
  World.inodes world_a = Num 1 /\ Inode.ino (get_inode world_a 1%nat) = Num 1.
Proof.
  destruct (inode_numbers_count_up linux0 0 0%nat [OpMkdir "/a" 0] world_a)
    as (_ & Hc & Hi).
  - vm_compute. reflexivity.
  - split; [rewrite Hc; vm_compute; reflexivity|].
    apply (Hi 1%nat). vm_compute. lia.
Defined.

(** ** Paths *)

(** X10.  [split] cuts a path into its names: every component it yields is
    non-empty and holds no ['/'], a leading ['/'] makes no difference, and
    the path made by joining any such names with ['/'] is split back into
    these names. *)
Theorem split_yields_the_names (path : string) :
  Forall valid_name (split path) /\
  split (String "/"%char path) = split path /\
  forall parts, Forall valid_name parts -> split (String.concat "/" parts) = parts.
Proof.
  split; [apply split_components|].
  split; [apply split_leading_slash|].
  intros parts Hparts. apply split_join. exact Hparts.
Qed.

(** X11.  A path without a name (the empty path, ["/"], ["//"], ...) is
    resolved by [lookup] to the root, and it is refused wherever a name is
    needed: [mkdir], [rmdir], [unlink], [open], [link] and [rename] called
    on it throw [EINVAL] and leave the world as it is. *)
Theorem paths_without_a_name (c : Constants) (path : string) (w : World.t) :
  only_slashes path ->
  FileSystem_lookup c path w = (Return (World.root w), w) /\
  (forall mode, FileSystem_mkdir c path mode w = (Throw EINVAL, w)) /\
  FileSystem_rmdir c path w = (Throw EINVAL, w) /\
  FileSystem_unlink c path w = (Throw EINVAL, w) /\
  (forall flag mode, FileSystem_open c path flag mode w = (Throw EINVAL, w)) /\
  (forall to, FileSystem_link c path to w = (Throw EINVAL, w)) /\
  (forall to, FileSystem_rename c path to w = (Throw EINVAL, w)).
Proof.
  intros Hpath. apply split_nil_iff in Hpath.
  pose proof (parentDir_nameless c path w Hpath) as Hpd.
  split.
  { unfold FileSystem_lookup, FileSystem_lookup_parts, lift. rewrite Hpath. reflexivity. }
  split; [intros mode; unfold FileSystem_mkdir, bind; rewrite Hpd; reflexivity|].
  split; [unfold FileSystem_rmdir, bind; rewrite Hpd; reflexivity|].
  split; [unfold FileSystem_unlink, bind; rewrite Hpd; reflexivity|].
  split.
  { intros flag mode. unfold FileSystem_open.
    unfold bind at 1. unfold gets at 1. cbn [id].
    unfold bind at 1. rewrite Hpd. reflexivity. }
  split; [intros to; unfold FileSystem_link; unfold bind at 1; rewrite Hpd; reflexivity|].
  intros to. unfold FileSystem_rename. unfold bind at 1. rewrite Hpd. reflexivity.
Qed.

Lemma paths_without_a_name_witness :
  FileSystem_lookup linux0 "//" world_a = (Return 0%nat, world_a) /\
  FileSystem_unlink linux0 "//" world_a = (Throw EINVAL, world_a).
Proof.
  destruct (paths_without_a_name linux0 "//" world_a) as (Hl & _ & _ & Hu & _).
  - intros ch [<-|[<-|[]]]; reflexivity.
  - split; [exact Hl|exact Hu].
Defined.

(** ** Extended attributes *)

(** X12.  In a world reached by a sequence of calls, [setxattr] on a path
    that resolves returns, and [getxattr] on that path then yields the
    value for this name and what it yielded before for every other name.
    Attributes belong to the Entry: a path that resolves to another Entry
    keeps its attributes, also when it is a hard link to the same inode,
    and no inode changes. *)
Theorem setxattr_then_getxattr (c : Constants) (t : Time) (fuel : nat) (ops : list Op)
    (w : World.t) (path name : string) (value : Buffer) (e : ref) :
  run c fuel ops (FileSystem_new c t) = Some w ->
  FileSystem_lookup c path w = (Return e, w) ->
  exists w',
    FileSystem_setxattr c path name value w = (Return tt, w') /\
    FileSystem_getxattr c path name w' = (Return (Some value), w') /\
    (forall name', name' <> name ->
       fst (FileSystem_getxattr c path name' w') = fst (FileSystem_getxattr c path name' w)) /\
    (forall path' e' name',
       FileSystem_lookup c path' w = (Return e', w) -> e' <> e ->
       fst (FileSystem_getxattr c path' name' w') =
       fst (FileSystem_getxattr c path' name' w)) /\
    World.heap_inodes w' = World.heap_inodes w.
Proof.
  intros Hrun Hl.
  destruct (run_Inv c t fuel ops w Hrun) as [Hok _].
  pose proof (lookup_live c path w e Hok Hl) as Hlive.
  rewrite (setxattr_eq c path name value w e Hl).
  eexists. split; [reflexivity|].
  pose proof (lookup_after_attributes c path w e (Map_set name value) _ Hl) as Hl'.
  cbv zeta in Hl'.
  split; [|split; [|split; [|reflexivity]]].
  - rewrite (getxattr_eq c path name _ e Hl').
    rewrite (attributes_after w e (Map_set name value) e Hlive).
    rewrite decide_True by reflexivity. rewrite Map_get_set_eq. reflexivity.
  - intros name' Hne.
    rewrite (getxattr_eq c path name' _ e Hl'), (getxattr_eq c path name' w e Hl).
    rewrite (attributes_after w e (Map_set name value) e Hlive).
    rewrite decide_True by reflexivity. rewrite Map_get_set_ne by assumption. reflexivity.
  - intros path' e' name' Hp Hne.
    pose proof (lookup_after_attributes c path' w e (Map_set name value) _ Hp) as Hp'.
    cbv zeta in Hp'.
    rewrite (getxattr_eq c path' name' _ e' Hp'), (getxattr_eq c path' name' w e' Hp).
    rewrite (attributes_after w e (Map_set name value) e' Hlive).
    rewrite decide_False by assumption. reflexivity.
Qed.

Lemma setxattr_then_getxattr_witness :
  run linux0 0 link_ops (FileSystem_new linux0 0) = Some world_xy /\
  Entry.inode (get_entry world_xy 1%nat) = Entry.inode (get_entry world_xy 2%nat) /\
  exists w',
    FileSystem_setxattr linux0 "/x" "user.k" [x01] world_xy = (Return tt, w') /\
    FileSystem_getxattr linux0 "/x" "user.k" w' = (Return (Some [x01]), w') /\
    fst (FileSystem_getxattr linux0 "/y" "user.k" w') = Return None.
Proof.
  split; [vm_compute; reflexivity|].
  split; [vm_compute; reflexivity|].
  destruct (setxattr_then_getxattr linux0 0 0%nat link_ops world_xy "/x" "user.k" [x01] 1%nat)
    as (w' & Hset & Hget & _ & Hother & _).
  - vm_compute. reflexivity.
  - vm_compute. reflexivity.
  - exists w'. split; [exact Hset|]. split; [exact Hget|].
    rewrite (Hother "/y"%string 2%nat "user.k"%string).
    + vm_compute. reflexivity.
    + vm_compute. reflexivity.
    + discriminate.
Defined.

(** X13.  In a world reached by a sequence of calls, [removexattr] on a
    path that resolves returns, [getxattr] then yields [undefined] for the
    name and what it yielded before for every other name; when the name
    was not set, nothing changes at all. *)
Theorem removexattr_then_getxattr (c : Constants) (t : Time) (fuel : nat) (ops : list Op)
    (w : World.t) (path name : string) (e : ref) :
  run c fuel ops (FileSystem_new c t) = Some w ->
  FileSystem_lookup c path w = (Return e, w) ->
  exists w',
    FileSystem_removexattr c path name w = (Return tt, w') /\
    FileSystem_getxattr c path name w' = (Return None, w') /\
    (forall name', name' <> name ->
       fst (FileSystem_getxattr c path name' w') = fst (FileSystem_getxattr c path name' w)) /\
    (FileSystem_getxattr c path name w = (Return None, w) -> w' = w).
Proof.
  intros Hrun Hl.
  destruct (run_Inv c t fuel ops w Hrun) as [Hok _].
  pose proof (run_attrs_ok c t fuel ops w Hrun e) as Hnd.
  pose proof (lookup_live c path w e Hok Hl) as Hlive.
  rewrite (removexattr_eq c path name w e Hl).
  eexists. split; [reflexivity|].
  pose proof (lookup_after_attributes c path w e (Map_delete name) _ Hl) as Hl'.
  cbv zeta in Hl'.
  split; [|split].
  - rewrite (getxattr_eq c path name _ e Hl').
    rewrite (attributes_after w e (Map_delete name) e Hlive).
    rewrite decide_True by reflexivity. rewrite Map_get_delete_eq by assumption. reflexivity.
  - intros name' Hne.
    rewrite (getxattr_eq c path name' _ e Hl'), (getxattr_eq c path name' w e Hl).
    rewrite (attributes_after w e (Map_delete name) e Hlive).
    rewrite decide_True by reflexivity. rewrite Map_get_delete_ne by assumption. reflexivity.
  - rewrite (getxattr_eq c path name w e Hl). intros [= Hnone].
    apply update_entry_same.
    apply Map_get_None in Hnone. rewrite (Map_delete_absent _ _ Hnone).
    destruct (get_entry w e); reflexivity.
Qed.

Lemma removexattr_then_getxattr_witness :
  exists w',
    FileSystem_removexattr linux0 "/x" "user.k" world_xy = (Return tt, w') /\
    FileSystem_getxattr linux0 "/x" "user.k" w' = (Return None, w') /\
    w' = world_xy.
Proof.
  destruct (removexattr_then_getxattr linux0 0 0%nat link_ops world_xy "/x" "user.k" 1%nat)
    as (w' & Hrem & Hget & _ & Hsame).
  - vm_compute. reflexivity.
  - vm_compute. reflexivity.
  - exists w'. split; [exact Hrem|]. split; [exact Hget|].
    apply Hsame. vm_compute. reflexivity.
Defined.

(** X14.  In a world reached by a sequence of calls, [listxattr] on a path
    that resolves lists every attribute name once, in the order the names
    were first set: [setxattr] of a listed name leaves the list as it is,
    [setxattr] of a new name puts it at the end, and [removexattr] takes
    the name out. *)
Theorem listxattr_keeps_insertion_order (c : Constants) (t : Time) (fuel : nat)
    (ops : list Op) (w : World.t) (path : string) (e : ref) :
  run c fuel ops (FileSystem_new c t) = Some w ->
  FileSystem_lookup c path w = (Return e, w) ->
  exists names,
    FileSystem_listxattr c path w = (Return names, w) /\
    NoDup names /\
    (forall name value,
       fst (FileSystem_listxattr c path (snd (FileSystem_setxattr c path name value w))) =
       Return (if decide (name ∈ names) then names else names ++ [name])) /\
    (forall name,
       fst (FileSystem_listxattr c path (snd (FileSystem_removexattr c path name w))) =
       Return (filter (fun k => k <> name) names)).
Proof.
  intros Hrun Hl.
  destruct (run_Inv c t fuel ops w Hrun) as [Hok _].
  pose proof (run_attrs_ok c t fuel ops w Hrun e) as Hnd.
  pose proof (lookup_live c path w e Hok Hl) as Hlive.
  exists (Map_keys (Entry.attributes (get_entry w e))).
  split; [apply listxattr_eq; exact Hl|]. split; [exact Hnd|]. split.
  - intros name value. rewrite (setxattr_eq c path name value w e Hl). cbn [snd].
    pose proof (lookup_after_attributes c path w e (Map_set name value) _ Hl) as Hl'.
    cbv zeta in Hl'.
    rewrite (listxattr_eq c path _ e Hl'). cbn [fst].
    rewrite (attributes_after w e (Map_set name value) e Hlive).
    rewrite decide_True by reflexivity. rewrite Map_keys_set. reflexivity.
  - intros name. rewrite (removexattr_eq c path name w e Hl). cbn [snd].
    pose proof (lookup_after_attributes c path w e (Map_delete name) _ Hl) as Hl'.
    cbv zeta in Hl'.
    rewrite (listxattr_eq c path _ e Hl'). cbn [fst].
    rewrite (attributes_after w e (Map_delete name) e Hlive).
    rewrite decide_True by reflexivity. rewrite Map_keys_delete by assumption. reflexivity.
Qed.

Lemma listxattr_keeps_insertion_order_witness :
  let w1 := snd (FileSystem_setxattr linux0 "/x" "b" [x01] world_xy) in
  let w2 := snd (FileSystem_setxattr linux0 "/x" "a" [x02] w1) in
  let w3 := snd (FileSystem_setxattr linux0 "/x" "b" [x03] w2) in
  fst (FileSystem_listxattr linux0 "/x" w2) = Return ["b"; "a"]%string /\
  fst (FileSystem_listxattr linux0 "/x" w3) = Return ["b"; "a"]%string.
Proof.
  intros w1 w2 w3. split; [vm_compute; reflexivity|].
  destruct (listxattr_keeps_insertion_order linux0 0 0%nat
              (link_ops ++ [OpSetxattr "/x" "b" [x01]; OpSetxattr "/x" "a" [x02]]%string)
              w2 "/x" 1%nat) as (names & Hlist & _ & Hset & _).
  - vm_compute. reflexivity.
  - vm_compute. reflexivity.
  - unfold w3. rewrite (Hset "b"%string [x03]).
    assert (Hn : names = ["b"; "a"]%string).
    { assert (H : fst (FileSystem_listxattr linux0 "/x" w2) = Return names)
        by (rewrite Hlist; reflexivity).
      vm_compute in H. injection H as <-. reflexivity. }
    rewrite Hn. reflexivity.
Defined.

(** ** [truncate] and [chmod] *)

(** X15.  In a world reached by a sequence of calls, [truncate(path, size)]
    on a path that resolves to a [File] returns; [stat] then reports the
    new size, [ceil(size / 512)] blocks and the time of the call as
    [mtime].  When the block array has at most [2^32 - 1] slots (no block
    sits past the largest array index), it is cut to its first
    [ceil(size / BLOCK_SIZE)] blocks: growing a file allocates nothing, and
    the blocks that are kept are the ones that were there. *)
Theorem truncate_sets_the_size (c : Constants) (t : Time) (fuel : nat) (ops : list Op)
    (w : World.t) (path : string) (size : Z) (e : ref) :
  run c fuel ops (FileSystem_new c t) = Some w ->
  FileSystem_lookup c path w = (Return e, w) ->
  Entry.cls (get_entry w e) = ClassFile ->
  exists w' st,
    FileSystem_truncate c path size w = (Return tt, w') /\
    FileSystem_stat c path w' = (Return st, w') /\
    Stat.size st = size /\ Stat.blocks st = ceil_div size 512 /\
    Stat.mtime st = World.clock w /\
    (Z.of_nat (length (Inode.blocks (inode_of w e))) <= 2 ^ 32 - 1 ->
     Inode.blocks (inode_of w' e) =
       js_slice (Inode.blocks (inode_of w e)) 0 (ceil_div size BLOCK_SIZE) /\
     (length (Inode.blocks (inode_of w' e)) <= length (Inode.blocks (inode_of w e)))%nat /\
     (0 <= size -> forall i, i < ceil_div size BLOCK_SIZE ->
        array_get (Inode.blocks (inode_of w' e)) i =
        array_get (Inode.blocks (inode_of w e)) i)).
Proof.
  intros Hrun Hl Hcls.
  destruct (run_Inv c t fuel ops w Hrun) as [Hok _].
  pose proof (lookup_live c path w e Hok Hl) as Hlive.
  pose proof (inodes_live w Hok e Hlive) as Hino. unfold entry_inode in Hino.
  rewrite (FileSystem_truncate_eq c path size w e Hl Hcls), File_truncate_eq.
  set (g := fun i => Inode.set_mtime _ (Inode.set_blocks _ (Inode.set_size size i))).
  assert (Hl' : FileSystem_lookup c path (update_inode (Entry.inode (get_entry w e)) g w) =
                (Return e, update_inode (Entry.inode (get_entry w e)) g w)).
  { apply lookup_after_update_inode; [|exact Hl]. intros x. split; reflexivity. }
  assert (Hi : inode_of (update_inode (Entry.inode (get_entry w e)) g w) e = g (inode_of w e))
    by (apply inode_of_update_eq; exact Hino).
  do 2 eexists. split; [reflexivity|].
  split; [apply stat_eq; exact Hl'|].
  unfold Entry_stat. cbn [Stat.size Stat.blocks Stat.mtime]. rewrite !Hi.
  unfold g. cbn [Inode.size Inode.mtime Inode.blocks Inode.set_mtime Inode.set_blocks
                 Inode.set_size].
  split; [reflexivity|]. split; [reflexivity|]. split; [reflexivity|].
  intros _.
  split; [reflexivity|]. split; [apply js_slice_length_le|].
  intros Hsize i Hi'.
  rewrite js_slice_prefix by (apply ceil_div_nonneg; [assumption|reflexivity]).
  apply array_get_take.
  pose proof (ceil_div_nonneg size BLOCK_SIZE Hsize ltac:(reflexivity)). lia.
Qed.

Lemma truncate_sets_the_size_witness :
  exists w' st,
    FileSystem_truncate linux0 "/f" 3000000 world_five = (Return tt, w') /\
    FileSystem_stat linux0 "/f" w' = (Return st, w') /\
    Stat.size st = 3000000 /\ Inode.blocks (inode_of w' 1%nat) = [].
Proof.
  destruct (truncate_sets_the_size linux0 0 0%nat five_bytes_ops world_five "/f" 3000000 1%nat)
    as (w' & st & Ht & Hs & Hsize & _ & _ & Hblocks).
  - vm_compute. reflexivity.
  - vm_compute. reflexivity.
  - vm_compute. reflexivity.
  - destruct Hblocks as (_ & Hlen & _); [vm_compute; discriminate|].
    exists w', st. split; [exact Ht|]. split; [exact Hs|]. split; [exact Hsize|].
    replace (Inode.blocks (inode_of world_five 1%nat)) with (@nil (option Buffer)) in Hlen
      by (vm_compute; reflexivity).
    destruct (Inode.blocks (inode_of w' 1%nat)); [reflexivity|cbn in Hlen; lia].
Defined.

(** X16.  In a world reached by a sequence of calls, [chmod(path, mode)] on
    a path that resolves returns, and [stat] then reports [mode] or-ed with
    the type bit that [chmod] found.  [chmod] never takes that type away: a
    directory stays a directory, and a regular file that is not a directory
    stays a regular file.  Every path that resolved still resolves to the
    same entry. *)
Theorem chmod_keeps_the_type (c : Constants) (t : Time) (fuel : nat) (ops : list Op)
    (w : World.t) (path : string) (mode : Z) (e : ref) :
  run c fuel ops (FileSystem_new c t) = Some w ->
  FileSystem_lookup c path w = (Return e, w) ->
  exists w' st,
    FileSystem_chmod c path mode w = (Return tt, w') /\
    FileSystem_stat c path w' = (Return st, w') /\
    Stat.mode st = js_or mode (chmod_mask c w e) /\
    (forall x, Entry_isDirectory c w x = true -> Entry_isDirectory c w' x = true) /\
    (Entry_isDirectory c w e = false -> Entry_isFile c w e = true ->
     Entry_isFile c w' e = true) /\
    (forall path' e', FileSystem_lookup c path' w = (Return e', w) ->
                      FileSystem_lookup c path' w' = (Return e', w')).
Proof.
  intros Hrun Hl.
  destruct (run_Inv c t fuel ops w Hrun) as [Hok _].
  pose proof (lookup_live c path w e Hok Hl) as Hlive.
  pose proof (inodes_live w Hok e Hlive) as Hino. unfold entry_inode in Hino.
  rewrite (chmod_eq c path mode w e Hl).
  set (w' := update_inode _ _ w).
  assert (Hkept : forall path' e', FileSystem_lookup c path' w = (Return e', w) ->
                                   FileSystem_lookup c path' w' = (Return e', w')).
  { intros path' e' Hp. apply (lookup_kept c w w'); [|reflexivity|exact Hp].
    apply steps_kept_chmod. }
  assert (Hi : Inode.mode (inode_of w' e) = js_or mode (chmod_mask c w e)).
  { unfold w'. rewrite inode_of_update_eq by exact Hino. reflexivity. }
  do 2 eexists. split; [reflexivity|].
  split; [apply stat_eq, Hkept, Hl|].
  split; [exact Hi|].
  split; [intros x Hx; apply isDirectory_after_chmod; exact Hx|].
  split; [|exact Hkept].
  intros Hdir Hfile. unfold Entry_isFile. rewrite Hi.
  unfold chmod_mask. rewrite Hdir, Hfile.
  apply js_and_or_truthy. eapply truthy_js_and_nonzero. exact Hfile.
Qed.

Lemma chmod_keeps_the_type_witness :
  exists w' st,
    FileSystem_chmod linux0 "/a" 0 world_a = (Return tt, w') /\
    FileSystem_stat linux0 "/a" w' = (Return st, w') /\
    Stat.mode st = 16384 /\ Entry_isDirectory linux0 w' 1%nat = true.
Proof.
  destruct (chmod_keeps_the_type linux0 0 0%nat [OpMkdir "/a" 0] world_a "/a" 0 1%nat)
    as (w' & st & Hc & Hs & Hm & Hd & _).
  - vm_compute. reflexivity.
  - vm_compute. reflexivity.
  - exists w', st. split; [exact Hc|]. split; [exact Hs|].
    split; [rewrite Hm; vm_compute; reflexivity|].
    apply Hd. vm_compute. reflexivity.
Defined.

(** ** The directory tree *)

(** X17.  In a world reached by a sequence of calls, after [mkdir(path, mode)]
    has returned the path resolves to a new Entry.  [readdir] on the path
    returns the empty list and [stat] reports the mode [0o777 | S_IFDIR]
    whatever [mode] was, size 512 and link count 1.  The parent lists the
    new name last, after the names it had. *)
Theorem mkdir_makes_an_empty_directory (c : Constants) (t : Time) (fuel : nat)
    (ops : list Op) (w w' : World.t) (path : string) (mode : Z) :
  run c fuel ops (FileSystem_new c t) = Some w ->
  FileSystem_mkdir c path mode w = (Return tt, w') ->
  exists parent name st,
    FileSystem_parentDir c path w = (Return (parent, name), w) /\
    FileSystem_lookup c path w' = (Return (length (World.heap_entries w)), w') /\
    FileSystem_readdir c path w' = (Return [], w') /\
    FileSystem_stat c path w' = (Return st, w') /\
    Stat.mode st = js_or (js_or (js_or 0 365) 219) (S_IFDIR c) /\
    Stat.size st = 512 /\
    Stat.nlink st = 1 /\
    Directory_readdir w' parent = Directory_readdir w parent ++ [name].
Proof.
  intros Hrun Hmk.
  destruct (run_Inv c t fuel ops w Hrun) as [Hok _].
  destruct (FileSystem_mkdir_inv c path mode w w' Hmk) as (parent & name & Hp & Hcls & Hget & ->).
  destruct (mkdir_world c w parent name Hok Hcls Hget)
    as (Hkept & Hroot & Hold & Hnew & Hlist & He & Hi).
  set (w' := snd (Directory_push _ _ _)) in *.
  set (n := length (World.heap_entries w)) in *.
  assert (Hp1 : fst (FileSystem_parentDir c path w) = Return (parent, name))
    by (rewrite Hp; reflexivity).
  destruct (parentDir_inv c path w parent name Hp1) as (Hs & Hlp & Hdir).
  destruct (Hold parent (Directory_live w parent Hcls)) as [Hpe Hpd].
  assert (Hl : FileSystem_lookup c path w' = (Return n, w')).
  { rewrite (lookup_through_parent c path w w' parent name Hp1).
    - rewrite lookup_from_one, Hnew; [reflexivity| |].
      + rewrite Hpd. exact Hdir.
      + rewrite Hpe. exact Hcls.
    - rewrite Hroot. eapply lookup_from_kept; eauto. }
  assert (Hin : inode_of w' n = get_inode w' (length (World.heap_inodes w)))
    by (unfold inode_of; rewrite He; reflexivity).
  assert (Hnd : Entry_isDirectory c w' n = true).
  { unfold Entry_isDirectory. rewrite Hin, Hi. cbn [Inode.mode].
    apply js_and_or_truthy. eapply truthy_js_and_nonzero. exact Hdir. }
  exists parent, name, (Entry_stat w' n).
  split; [exact Hp|]. split; [exact Hl|].
  split.
  { unfold FileSystem_readdir, bind at 1. rewrite Hl. unfold bind at 1, gets at 1.
    cbn [id]. rewrite Hnd. unfold bind. rewrite method_of_pass by (rewrite He; reflexivity).
    unfold ret, Directory_readdir. rewrite Hin, Hi. reflexivity. }
  split; [apply stat_eq, Hl|].
  unfold Entry_stat. rewrite Hin, Hi. cbn [Stat.mode Stat.size Stat.nlink Inode.mode Inode.size
    Inode.nlink].
  repeat split. exact Hlist.
Qed.

Lemma mkdir_makes_an_empty_directory_witness :
  FileSystem_lookup linux0 "/a/b" (snd (FileSystem_mkdir linux0 "/a/b" 0 world_a)) =
    (Return 2%nat, snd (FileSystem_mkdir linux0 "/a/b" 0 world_a)) /\
  FileSystem_readdir linux0 "/a/b" (snd (FileSystem_mkdir linux0 "/a/b" 0 world_a)) =
    (Return [], snd (FileSystem_mkdir linux0 "/a/b" 0 world_a)).
Proof.
  destruct (mkdir_makes_an_empty_directory linux0 0 0%nat [OpMkdir "/a" 0] world_a
              (snd (FileSystem_mkdir linux0 "/a/b" 0 world_a)) "/a/b" 0)
    as (parent & name & st & _ & Hl & Hr & _).
  - vm_compute. reflexivity.
  - vm_compute. reflexivity.
  - split; [exact Hl|exact Hr].
Defined.

(** X18.  In a world reached by a sequence of calls, a call other than
    [open], [rmdir], [unlink] and [rename] takes no name away: whether it
    returns or throws, every path that resolved before it still resolves to
    the same Entry after it. *)
Theorem other_calls_keep_every_path (c : Constants) (t : Time) (fuel : nat) (ops : list Op)
    (w w' : World.t) (op : Op) (path : string) (e : ref) :
  run c fuel ops (FileSystem_new c t) = Some w ->
  keeps_names op = true ->
  exec c fuel op w = Some w' ->
  FileSystem_lookup c path w = (Return e, w) ->
  FileSystem_lookup c path w' = (Return e, w').
Proof.
  intros Hrun Hop Hex Hl.
  destruct (run_Inv c t fuel ops w Hrun) as [Hok _].
  destruct (exec_steps_kept c fuel op w w' Hok Hop Hex) as [Hk Hr].
  apply (lookup_kept c w w'); assumption.
Qed.

Lemma other_calls_keep_every_path_witness :
  exists w',
    exec linux0 0 (OpLink "/f" "/a") world_f = Some w' /\
    FileSystem_lookup linux0 "/f" w' = (Return 1%nat, w').
Proof.
  eexists. split; [vm_compute; reflexivity|].
  apply (other_calls_keep_every_path linux0 0 0%nat
           [OpOpen "/f" O_RDWR_O_CREAT 0] world_f _ (OpLink "/f" "/a") "/f" 1%nat).
  - vm_compute. reflexivity.
  - reflexivity.
  - vm_compute. reflexivity.
  - vm_compute. reflexivity.
Defined.

(** X19.  A call of [mkdir], [rmdir], [unlink], [link], [rename],
    [truncate], [ftruncate], [close], [setxattr], [removexattr] or [chmod]
    that throws, whatever the error, has changed nothing: every check in
    them comes before the first assignment. *)
Theorem failed_calls_change_nothing (c : Constants) (w w' : World.t) (e : Error) :
  (forall path mode, FileSystem_mkdir c path mode w = (Throw e, w') -> w' = w) /\
  (forall path, FileSystem_rmdir c path w = (Throw e, w') -> w' = w) /\
  (forall path, FileSystem_unlink c path w = (Throw e, w') -> w' = w) /\
  (forall from to, FileSystem_link c from to w = (Throw e, w') -> w' = w) /\
  (forall from to, FileSystem_rename c from to w = (Throw e, w') -> w' = w) /\
  (forall path size, FileSystem_truncate c path size w = (Throw e, w') -> w' = w) /\
  (forall fd size, FileSystem_ftruncate fd size w = (Throw e, w') -> w' = w) /\
  (forall fd, FileSystem_close fd w = (Throw e, w') -> w' = w) /\
  (forall path name value,
     FileSystem_setxattr c path name value w = (Throw e, w') -> w' = w) /\
  (forall path name, FileSystem_removexattr c path name w = (Throw e, w') -> w' = w) /\
  (forall path mode, FileSystem_chmod c path mode w = (Throw e, w') -> w' = w).
Proof.
  split; [intros path mode; apply throws_cleanly_mkdir|].
  split; [intros path; apply throws_cleanly_rmdir|].
  split; [intros path; apply throws_cleanly_unlink|].
  split; [intros from to; apply throws_cleanly_link|].
  split; [intros from to; apply throws_cleanly_rename|].
  split; [intros path size; apply throws_cleanly_truncate|].
  split; [intros fd size; apply throws_cleanly_ftruncate|].
  split; [intros fd; apply throws_cleanly_close|].
  split; [intros path name value; apply throws_cleanly_setxattr|].
  split; [intros path name; apply throws_cleanly_removexattr|].
  intros path mode; apply throws_cleanly_chmod.
Qed.

(** X20.  In a world reached by a sequence of calls, after [unlink(path)]
    has returned, the path, which resolved to an entry that was not a
    directory, throws [ENOENT]; the link count of the inode has been
    decremented; the parent lists the names it had without that one, in the
    same order; and every path that resolved to another entry still
    resolves to it. *)
Theorem unlink_takes_the_name_away (c : Constants) (t : Time) (fuel : nat) (ops : list Op)
    (w w' : World.t) (path : string) :
  run c fuel ops (FileSystem_new c t) = Some w ->
  FileSystem_unlink c path w = (Return tt, w') ->
  exists parent name e,
    FileSystem_parentDir c path w = (Return (parent, name), w) /\
    FileSystem_lookup c path w = (Return e, w) /\
    Entry_isDirectory c w e = false /\
    FileSystem_lookup c path w' = (Throw ENOENT, w') /\
    Inode.nlink (inode_of w' e) = Inode.nlink (inode_of w e) - 1 /\
    Directory_readdir w' parent = filter (fun s => s <> name) (Directory_readdir w parent) /\
    (forall q r, r <> e -> FileSystem_lookup c q w = (Return r, w) ->
       FileSystem_lookup c q w' = (Return r, w')).
Proof.
  intros Hrun Hun.
  destruct (run_Inv c t fuel ops w Hrun) as [Hok _].
  destruct (FileSystem_unlink_inv c path w w' Hun)
    as (parent & name & e & Hp & Hcls & Hget & Hfile & ->).
  destruct (unbound_world c path w parent e name Hok Hp Hcls Hget)
    as (Hl & Hl' & Hn & Hlist & Hkept); [intros q Hd; congruence|].
  exists parent, name, e. auto 10.
Qed.

Lemma unlink_takes_the_name_away_witness :
  FileSystem_lookup linux0 "/f" (snd (FileSystem_unlink linux0 "/f" world_f)) =
    (Throw ENOENT, snd (FileSystem_unlink linux0 "/f" world_f)) /\
  Inode.nlink (inode_of (snd (FileSystem_unlink linux0 "/f" world_f)) 1%nat) = 0.
Proof.
  destruct (unlink_takes_the_name_away linux0 0 0%nat [OpOpen "/f" O_RDWR_O_CREAT 0]
              world_f (snd (FileSystem_unlink linux0 "/f" world_f)) "/f")
    as (parent & name & e & _ & Hl & _ & Hl' & Hn & _).
  - vm_compute. reflexivity.
  - vm_compute. reflexivity.
  - split; [exact Hl'|].
    assert (He : e = 1%nat) by (revert Hl; vm_compute; congruence).
    subst e. rewrite Hn. vm_compute. reflexivity.
Defined.

(** X21.  In a world reached by a sequence of calls, after [rmdir(path)] has
    returned, the path, which resolved to an empty directory, throws
    [ENOENT]; the parent lists the names it had without that one, in the
    same order; and every path that resolved to another entry still
    resolves to it. *)
Theorem rmdir_takes_the_name_away (c : Constants) (t : Time) (fuel : nat) (ops : list Op)
    (w w' : World.t) (path : string) :
  run c fuel ops (FileSystem_new c t) = Some w ->
  FileSystem_rmdir c path w = (Return tt, w') ->
  exists parent name e,
    FileSystem_parentDir c path w = (Return (parent, name), w) /\
    FileSystem_lookup c path w = (Return e, w) /\
    Entry_isDirectory c w e = true /\
    Directory_readdir w e = [] /\
    FileSystem_lookup c path w' = (Throw ENOENT, w') /\
    Directory_readdir w' parent = filter (fun s => s <> name) (Directory_readdir w parent) /\
    (forall q r, r <> e -> FileSystem_lookup c q w = (Return r, w) ->
       FileSystem_lookup c q w' = (Return r, w')).
Proof.
  intros Hrun Hrm.
  destruct (run_Inv c t fuel ops w Hrun) as [Hok _].
  destruct (FileSystem_rmdir_inv c path w w' Hrm)
    as (parent & name & e & Hp & Hcls & Hget & Hdir & Hempty & ->).
  destruct (unbound_world c path w parent e name Hok Hp Hcls Hget)
    as (Hl & Hl' & Hn & Hlist & Hkept); [intros q _ _; apply isEmpty_get; exact Hempty|].
  exists parent, name, e.
  split; [exact Hp|]. split; [exact Hl|]. split; [exact Hdir|].
  split; [|auto].
  unfold Directory_isEmpty in Hempty. apply Nat.eqb_eq in Hempty.
  unfold Directory_readdir. destruct (Inode.entries (inode_of w e)); [reflexivity|discriminate].
Qed.

Lemma rmdir_takes_the_name_away_witness :
  FileSystem_lookup linux0 "/a" (snd (FileSystem_rmdir linux0 "/a" world_a)) =
    (Throw ENOENT, snd (FileSystem_rmdir linux0 "/a" world_a)).
Proof.
  destruct (rmdir_takes_the_name_away linux0 0 0%nat [OpMkdir "/a" 0]
              world_a (snd (FileSystem_rmdir linux0 "/a" world_a)) "/a")
    as (parent & name & e & _ & _ & _ & _ & Hl' & _).
  - vm_compute. reflexivity.
  - vm_compute. reflexivity.
  - exact Hl'.
Defined.

(** X22.  On a path that resolves and is not the root: [mkdir] throws
    [EEXIST]; [unlink] throws [EPERM] when the entry is a directory;
    [rmdir] throws [ENOTDIR] when it is not a directory and [ENOTEMPTY]
    when it is a directory that lists a name.  The world stays as it was. *)
Theorem calls_refused_on_an_existing_name (c : Constants) (w : World.t) (path : string)
    (e : ref) (mode : Z) :
  split path <> [] ->
  FileSystem_lookup c path w = (Return e, w) ->
  FileSystem_mkdir c path mode w = (Throw EEXIST, w) /\
  (Entry_isDirectory c w e = true -> FileSystem_unlink c path w = (Throw EPERM, w)) /\
  (Entry_isDirectory c w e = false -> FileSystem_rmdir c path w = (Throw ENOTDIR, w)) /\
  (Entry_isDirectory c w e = true -> Entry.cls (get_entry w e) = ClassDirectory ->
   Directory_readdir w e <> [] -> FileSystem_rmdir c path w = (Throw ENOTEMPTY, w)).
Proof.
  intros Hs Hl. destruct (last_is_Some _ Hs) as [name Hlast].
  destruct (lookup_parent c path w e name Hlast Hl) as (parent & Hp & Hcls & Hget).
  split; [eapply FileSystem_mkdir_exists; eauto|].
  split; [|split].
  - intros Hd. rewrite (FileSystem_unlink_eq c path w parent name Hp Hcls), Hget, Hd.
    reflexivity.
  - intros Hd. rewrite (FileSystem_rmdir_eq c path w parent name Hp Hcls), Hget, Hd.
    reflexivity.
  - intros Hd Hc Hne.
    rewrite (FileSystem_rmdir_eq c path w parent name Hp Hcls), Hget, Hd, Hc.
    cbn [negb Class_eqb].
    assert (He : Directory_isEmpty w e = false).
    { unfold Directory_isEmpty, Directory_readdir in *.
      destruct (Inode.entries (inode_of w e)); [contradiction|reflexivity]. }
    rewrite He. reflexivity.
Qed.

Lemma calls_refused_on_an_existing_name_witness :
  FileSystem_mkdir linux0 "/f" 0 world_f = (Throw EEXIST, world_f) /\
  FileSystem_rmdir linux0 "/f" world_f = (Throw ENOTDIR, world_f) /\
  FileSystem_unlink linux0 "/a" world_a = (Throw EPERM, world_a).
Proof.
  destruct (calls_refused_on_an_existing_name linux0 world_f "/f" 1%nat 0)
    as (Hm & _ & Hr & _); [vm_compute; discriminate|vm_compute; reflexivity|].
  destruct (calls_refused_on_an_existing_name linux0 world_a "/a" 1%nat 0)
    as (_ & Hu & _); [vm_compute; discriminate|vm_compute; reflexivity|].
  split; [exact Hm|]. split; [apply Hr; vm_compute; reflexivity|].
  apply Hu. vm_compute. reflexivity.
Defined.

(** X23.  In a world reached by a sequence of calls, after [link(from, to)]
    has returned, [from] resolves to the entry it resolved to, [to] resolves
    to a new Entry of class [File] with the same inode object, so [stat]
    gives the same answer for both names, and the parent of [to] lists the
    new name last. *)
Theorem link_makes_a_second_name (c : Constants) (t : Time) (fuel : nat) (ops : list Op)
    (w w' : World.t) (from to : string) :
  run c fuel ops (FileSystem_new c t) = Some w ->
  FileSystem_link c from to w = (Return tt, w') ->
  exists fe tp tname st,
    FileSystem_lookup c from w = (Return fe, w) /\
    FileSystem_lookup c from w' = (Return fe, w') /\
    FileSystem_lookup c to w' = (Return (length (World.heap_entries w)), w') /\
    Entry.cls (get_entry w' (length (World.heap_entries w))) = ClassFile /\
    Entry.inode (get_entry w' (length (World.heap_entries w))) = Entry.inode (get_entry w' fe) /\
    FileSystem_stat c from w' = (Return st, w') /\
    FileSystem_stat c to w' = (Return st, w') /\
    FileSystem_parentDir c to w = (Return (tp, tname), w) /\
    Directory_readdir w' tp = Directory_readdir w tp ++ [tname].
Proof.
  intros Hrun Hlk.
  destruct (run_Inv c t fuel ops w Hrun) as [Hok _].
  destruct (FileSystem_link_inv c from to w w' Hlk)
    as (fp & fname & tp & tname & fe & Hf & Ht & Hfc & Hfe & Hfd & Htc & Hte & ->).
  assert (Hlive : (fe < length (World.heap_entries w))%nat).
  { apply Directory_get_Some in Hfe as [Hin _]. eapply children_live; eauto. }
  destruct (link_world c w tp fe tname Hok Hlive Htc Hte)
    as (Hkept & Hroot & Hold & Hnew & Hlist & He & _).
  set (w' := snd (Directory_push _ _ _)) in *.
  set (n := length (World.heap_entries w)) in *.
  assert (Hf1 : fst (FileSystem_parentDir c from w) = Return (fp, fname))
    by (rewrite Hf; reflexivity).
  assert (Ht1 : fst (FileSystem_parentDir c to w) = Return (tp, tname))
    by (rewrite Ht; reflexivity).
  destruct (parentDir_inv c from w fp fname Hf1) as (_ & Hlf & Hfdir).
  destruct (parentDir_inv c to w tp tname Ht1) as (_ & Hlt & Htdir).
  assert (Hl : FileSystem_lookup c from w = (Return fe, w)).
  { rewrite (lookup_through_parent c from w w fp fname Hf1 Hlf).
    rewrite lookup_from_one, Hfe by assumption. reflexivity. }
  assert (Hl' : FileSystem_lookup c from w' = (Return fe, w'))
    by (apply (lookup_kept c w w'); assumption).
  destruct (Hold tp (Directory_live w tp Htc)) as (Htc' & _ & Htd').
  assert (Hlt' : FileSystem_lookup c to w' = (Return n, w')).
  { rewrite (lookup_through_parent c to w w' tp tname Ht1).
    - rewrite lookup_from_one, Hnew; [reflexivity| |].
      + rewrite Htd'. exact Htdir.
      + rewrite Htc'. exact Htc.
    - rewrite Hroot. eapply lookup_from_kept; eauto. }
  destruct (Hold fe Hlive) as (_ & Hfi & _).
  assert (Hino : Entry.inode (get_entry w' n) = Entry.inode (get_entry w' fe))
    by (rewrite He, Hfi; reflexivity).
  exists fe, tp, tname, (Entry_stat w' fe).
  split; [exact Hl|]. split; [exact Hl'|]. split; [exact Hlt'|].
  split; [rewrite He; reflexivity|]. split; [exact Hino|].
  split; [apply stat_eq, Hl'|].
  split; [|split; [exact Ht|exact Hlist]].
  rewrite (stat_eq c to w' n Hlt'). unfold Entry_stat, inode_of. rewrite Hino. reflexivity.
Qed.

Lemma link_makes_a_second_name_witness :
  exists st,
    FileSystem_stat linux0 "/x" world_xy = (Return st, world_xy) /\
    FileSystem_stat linux0 "/y" world_xy = (Return st, world_xy) /\
    FileSystem_lookup linux0 "/y" world_xy = (Return 2%nat, world_xy).
Proof.
  destruct (link_makes_a_second_name linux0 0 0%nat [OpOpen "/x" O_RDWR_O_CREAT 0]
              world_x world_xy "/x" "/y")
    as (fe & tp & tname & st & _ & _ & Hl & _ & _ & Hs & Hs' & _).
  - vm_compute. reflexivity.
  - vm_compute. reflexivity.
  - exists st. split; [exact Hs|]. split; [exact Hs'|exact Hl].
Defined.

(** X24.  In a world reached by a sequence of calls, when [open(path, flag,
    mode)] returns on a path that did not resolve, it has created the file:
    the path then resolves to a new Entry of class [File], for which [stat]
    reports the mode [0o666 | S_IFREG] whatever [mode] was, size 0 and link
    count 1.  The descriptor returned is the next free id, bound to the new
    entry at position 0, and every path that resolved still resolves to the
    same entry. *)
Theorem open_creates_an_empty_file (c : Constants) (t : Time) (fuel : nat) (ops : list Op)
    (w w' : World.t) (path : string) (flag : Flag) (mode : Z) (fd : Z) (err : Error) :
  run c fuel ops (FileSystem_new c t) = Some w ->
  FileSystem_lookup c path w = (Throw err, w) ->
  FileSystem_open c path flag mode w = (Return fd, w') ->
  exists st d,
    FileSystem_lookup c path w' = (Return (length (World.heap_entries w)), w') /\
    Entry.cls (get_entry w' (length (World.heap_entries w))) = ClassFile /\
    FileSystem_stat c path w' = (Return st, w') /\
    Stat.mode st = js_or (js_or (js_or 0 292) 146) (S_IFREG c) /\
    Stat.size st = 0 /\
    Stat.nlink st = 1 /\
    fd = Z.of_nat (length (World.fds w)) + 20 /\
    World.fds w' = World.fds w ++ [Some d] /\
    FileDescriptor.file d = Some (length (World.heap_entries w)) /\
    FileDescriptor.position d = 0 /\
    (forall q r, FileSystem_lookup c q w = (Return r, w) ->
       FileSystem_lookup c q w' = (Return r, w')).
Proof.
  intros Hrun Hmiss Hopen.
  destruct (run_Inv c t fuel ops w Hrun) as [Hok _].
  destruct (open_absent_world c w w' path flag mode fd err Hok Hmiss Hopen)
    as (st & d & H1 & H2 & H3 & H4 & H5 & H6 & H7 & H8 & H9 & H10 & _ & _ & H11).
  exists st, d. repeat (split; [assumption|]). exact H11.
Qed.

Lemma open_creates_an_empty_file_witness :
  exists st,
    FileSystem_stat linux0 "/f" world_f = (Return st, world_f) /\
    Stat.mode st = 33206 /\ Stat.size st = 0 /\ Stat.nlink st = 1.
Proof.
  destruct (open_creates_an_empty_file linux0 0 0%nat [] (FileSystem_new linux0 0) world_f
              "/f" O_RDWR_O_CREAT 0 20 ENOENT)
    as (st & d & _ & _ & Hs & Hm & Hsz & Hn & _).
  - reflexivity.
  - vm_compute. reflexivity.
  - vm_compute. reflexivity.
  - exists st. split; [exact Hs|]. split; [rewrite Hm; vm_compute; reflexivity|].
    split; assumption.
Defined.

(** X25.  In a world reached by a sequence of calls, after [rename(from, to)]
    has returned, where [from] resolved to an entry that is not a directory
    and [to] did not resolve: [to] resolves to that same Entry object, with
    its attributes, [from] throws [ENOENT], and every path that resolved to
    another entry still resolves to it.  The inode is unchanged but for its
    link count, which [remove] has decremented and nothing restores. *)
Theorem rename_moves_a_file (c : Constants) (t : Time) (fuel : nat) (ops : list Op)
    (w w' : World.t) (from to : string) (fe : ref) (err : Error) :
  run c fuel ops (FileSystem_new c t) = Some w ->
  FileSystem_lookup c from w = (Return fe, w) ->
  Entry_isDirectory c w fe = false ->
  FileSystem_lookup c to w = (Throw err, w) ->
  FileSystem_rename c from to w = (Return tt, w') ->
  FileSystem_lookup c to w' = (Return fe, w') /\
  FileSystem_lookup c from w' = (Throw ENOENT, w') /\
  Entry.attributes (get_entry w' fe) = Entry.attributes (get_entry w fe) /\
  inode_of w' fe = Inode.set_nlink (Inode.nlink (inode_of w fe) - 1) (inode_of w fe) /\
  (forall q r, r <> fe -> FileSystem_lookup c q w = (Return r, w) ->
     FileSystem_lookup c q w' = (Return r, w')).
Proof.
  intros Hrun Hl Hfile Hmiss Hren.
  destruct (run_Inv c t fuel ops w Hrun) as [Hok _].
  destruct (FileSystem_rename_inv c from to w w' Hren)
    as (fp & fname & tp & tname & fe' & Hf & Ht & Hfc & Htc & Hfe).
  assert (Hf1 : fst (FileSystem_parentDir c from w) = Return (fp, fname))
    by (rewrite Hf; reflexivity).
  assert (Ht1 : fst (FileSystem_parentDir c to w) = Return (tp, tname))
    by (rewrite Ht; reflexivity).
  destruct (parentDir_inv c from w fp fname Hf1) as (_ & Hlf & Hfd).
  destruct (parentDir_inv c to w tp tname Ht1) as (_ & Hlt & Htd).
  rewrite (lookup_through_parent c from w w fp fname Hf1 Hlf) in Hl.
  rewrite lookup_from_one, Hfe in Hl by assumption. injection Hl as ->.
  rewrite (lookup_through_parent c to w w tp tname Ht1 Hlt) in Hmiss.
  rewrite lookup_from_one in Hmiss by assumption.
  destruct (Directory_get w tp tname) as [te|] eqn:Hte; [discriminate|].
  rewrite (FileSystem_rename_free_eq c from to w fp tp fe fname tname Hf Ht Hfc Htc Hfe Hte)
    in Hren.
  apply pair_equal_spec in Hren as [_ <-].
  set (w' := snd (Directory_push _ _ _)).
  assert (Hroot : World.root w' = World.root w) by apply moved_root.
  assert (Hkept : forall parts cur r, lookup_from c w cur parts = Return r -> r <> fe ->
            lookup_from c w' cur parts = Return r).
  { apply lookup_from_except.
    - intros cur p next Hd Hc Hg Hne.
      split; [unfold w'; erewrite moved_isDirectory by eauto; exact Hd|].
      split; [unfold w'; erewrite moved_cls by eauto; exact Hc|].
      eapply moved_step; eauto.
    - intros q Hd. congruence. }
  assert (Hne : forall d, Entry_isDirectory c w d = true -> d <> fe) by (intros d Hd ->; congruence).
  split.
  { rewrite (lookup_through_parent c to w w' tp tname Ht1).
    - rewrite lookup_from_one.
      + unfold w'. erewrite moved_target by eauto. reflexivity.
      + unfold w'. erewrite moved_isDirectory by eauto. exact Htd.
      + unfold w'. erewrite moved_cls by eauto. exact Htc.
    - rewrite Hroot. apply Hkept; auto. }
  split.
  { rewrite (lookup_through_parent c from w w' fp fname Hf1).
    - rewrite lookup_from_one.
      + unfold w'. erewrite moved_source by eauto. reflexivity.
      + unfold w'. erewrite moved_isDirectory by eauto. exact Hfd.
      + unfold w'. erewrite moved_cls by eauto. exact Hfc.
    - rewrite Hroot. apply Hkept; auto. }
  split.
  { unfold w'. erewrite moved_get_entry by eauto. rewrite decide_True by reflexivity.
    reflexivity. }
  split; [eapply moved_nlink; eauto|].
  intros q r Hr Hq. apply lookup_eq.
  unfold FileSystem_lookup, FileSystem_lookup_parts, lift in *. cbn [fst].
  injection Hq as Hq. rewrite Hroot. apply Hkept; assumption.
Qed.

Lemma rename_moves_a_file_witness :
  FileSystem_lookup linux0 "/g" (snd (FileSystem_rename linux0 "/f" "/g" world_f)) =
    (Return 1%nat, snd (FileSystem_rename linux0 "/f" "/g" world_f)) /\
  Inode.nlink (inode_of (snd (FileSystem_rename linux0 "/f" "/g" world_f)) 1%nat) = 0.
Proof.
  destruct (rename_moves_a_file linux0 0 0%nat [OpOpen "/f" O_RDWR_O_CREAT 0] world_f
              (snd (FileSystem_rename linux0 "/f" "/g" world_f)) "/f" "/g" 1%nat ENOENT)
    as (Hl & _ & _ & Hn & _).
  - vm_compute. reflexivity.
  - vm_compute. reflexivity.
  - vm_compute. reflexivity.
  - vm_compute. reflexivity.
  - vm_compute. reflexivity.
  - split; [exact Hl|]. rewrite Hn. vm_compute. reflexivity.
Defined.

(** ** Modes and the FUSE operations *)

(** X26.  After any sequence of calls that does not call [chmod], [stat] on
    a path that resolves reports the mode the constructor of the entry's
    class gave it: [0o777 | S_IFDIR] for a [Directory] and
    [0o666 | S_IFREG] for a [File].  No [mode] passed to [mkdir] or [open]
    has had an effect. *)
Theorem only_chmod_changes_a_mode (c : Constants) (t : Time) (fuel : nat) (ops : list Op)
    (w : World.t) (path : string) (st : Stat.t) :
  run c fuel ops (FileSystem_new c t) = Some w ->
  Forall (fun op => is_chmod op = false) ops ->
  FileSystem_stat c path w = (Return st, w) ->
  exists e,
    FileSystem_lookup c path w = (Return e, w) /\
    Stat.mode st = class_mode c (Entry.cls (get_entry w e)).
Proof.
  intros Hrun Hops Hst.
  destruct (run_Inv c t fuel ops w Hrun) as [Hok _].
  assert (Hok0 : tree_ok (FileSystem_new c t)).
  { destruct (run_Inv c t fuel [] (FileSystem_new c t) eq_refl) as [H _]. exact H. }
  pose proof (run_modes_fixed c fuel ops _ w Hok0 (modes_new c t) Hops Hrun) as Hm.
  unfold FileSystem_stat, bind in Hst. rewrite (lookup_eq c path w _ eq_refl) in Hst.
  destruct (fst (FileSystem_lookup c path w)) as [e|err] eqn:Hl; [|discriminate].
  apply lookup_eq in Hl. exists e. split; [exact Hl|].
  unfold gets in Hst. injection Hst as <-. cbn [Stat.mode Entry_stat].
  apply Hm. eapply lookup_live; eauto.
Qed.

Lemma only_chmod_changes_a_mode_witness :
  exists st,
    FileSystem_stat linux0 "/a" world_a = (Return st, world_a) /\ Stat.mode st = 16895.
Proof.
  exists (Entry_stat world_a 1%nat). split; [vm_compute; reflexivity|].
  destruct (only_chmod_changes_a_mode linux0 0 0%nat [OpMkdir "/a" 511] world_a "/a"
              (Entry_stat world_a 1%nat)) as (e & Hl & Hm).
  - vm_compute. reflexivity.
  - repeat constructor.
  - vm_compute. reflexivity.
  - rewrite Hm. assert (e = 1%nat) as -> by (revert Hl; vm_compute; congruence).
    vm_compute. reflexivity.
Defined.

(** X27.  The FUSE operations, with the Linux constants, after any sequence
    of them: an operation calls back with an undefined code exactly when it
    is [truncate] on a path that resolves to a [Directory], which has no
    [truncate] method; nothing has changed then.  Every other failure calls
    back with the negative [errno] of the error thrown. *)
Theorem fuse_replies_carry_an_errno (parse : string -> Z) (t : Time) (fuel : nat)
    (calls : list Call) (w w' : World.t) (fuel' : nat) (call : Call) :
  ops_run (linux parse) fuel calls (FileSystem_new (linux parse) t) = Some w ->
  ops_call (linux parse) fuel' call w = Some (None, w') <->
  exists path size d,
    call = CallTruncate path size /\
    FileSystem_lookup (linux parse) path w = (Return d, w) /\
    Entry.cls (get_entry w d) = ClassDirectory /\
    w' = w.
Proof.
  intros Hrun. set (c := linux parse) in *.
  destruct (linux_sane parse) as [Hsd Hsr]. fold c in Hsd, Hsr.
  destruct (ops_run_invariants c t fuel calls w Hsr Hrun) as (Hok & Hm & Hf).
  split.
  - destruct call; cbn [ops_call]; unfold answer;
      try (intros [= Hcode _]; exfalso; revert Hcode;
           first [ apply reply_value_code | apply reply_done_code ];
           first [ apply errno_getxattr | apply errno_setxattr | apply errno_removexattr
                 | apply errno_listxattr | apply errno_readdir | apply errno_stat
                 | apply errno_fstat | apply errno_ftruncate | apply errno_link
                 | apply errno_rename | apply errno_open | apply errno_unlink
                 | apply errno_close | apply errno_mkdir ]; assumption).
    + unfold answer, ops_truncate, reply_done.
      destruct (FileSystem_truncate c path size w) as [[[]|e] w1] eqn:Htr; cbn [fst snd];
        [discriminate|].
      intros [= Hcode <-].
      destruct (truncate_throws c path size w w1 e Hok Hm Hsd Htr) as [He|(d & Hl & Hc)];
        [contradiction|].
      exists path, size, d. split; [reflexivity|]. split; [exact Hl|]. split; [exact Hc|].
      eapply throws_cleanly_truncate. exact Htr.
    + unfold ops_read.
      destruct (FileSystem_read fuel' fd buf (Some 0) (Some len) (Some pos) w)
        as [[[[n buf']|e] w1]|] eqn:Hr; [discriminate| |discriminate].
      intros [= Hcode _]. exfalso. eapply read_throws; eauto.
    + unfold ops_write.
      destruct (FileSystem_write fuel' fd buf (Some 0) (Some len) (Some pos) w)
        as [[[n|e] w1]|] eqn:Hr; [discriminate| |discriminate].
      intros [= Hcode _]. exfalso. eapply write_throws; eauto.
  - intros (path & size & d & -> & Hl & Hc & ->). cbn [ops_call].
    unfold answer, ops_truncate. rewrite (truncate_directory c path size w d Hl Hc). reflexivity.
Qed.

Lemma fuse_replies_carry_an_errno_witness :
  ops_call linux0 0 (CallTruncate "/a" 0) world_a = Some (None, world_a).
Proof.
  apply (fuse_replies_carry_an_errno (fun _ => 0) 0 0%nat [CallMkdir "/a" 0] world_a world_a
           0%nat (CallTruncate "/a" 0)).
  - vm_compute. reflexivity.
  - exists "/a"%string, 0, 1%nat. repeat split; vm_compute; reflexivity.
Defined.

(** X28.  The FUSE [create] operation, with the Linux constants, after any
    sequence of operations: when it calls back with code 0 and a descriptor,
    the path resolves to a regular file that is empty, whether [create]
    made it or found it and reset it: [getattr] answers with size 0 and
    mode [0o100666], whatever [mode] was passed to [create].  The
    descriptor is the next free id, readable and writable, bound to that
    entry at position 0. *)
Theorem fuse_create_gives_an_empty_file (parse : string -> Z) (t : Time) (fuel : nat)
    (calls : list Call) (w w' : World.t) (path : string) (mode fd : Z) :
  ops_run (linux parse) fuel calls (FileSystem_new (linux parse) t) = Some w ->
  ops_create (linux parse) path mode w = (Reply.mk (Some 0) (Some fd), w') ->
  exists e d st,
    FileSystem_lookup (linux parse) path w' = (Return e, w') /\
    ops_getattr (linux parse) path w' = (Reply.mk (Some 0) (Some st), w') /\
    Stat.size st = 0 /\
    Stat.mode st = 33206 /\
    fd = Z.of_nat (length (World.fds w)) + 20 /\
    World.fds w' = World.fds w ++ [Some d] /\
    FileDescriptor.file d = Some e /\
    FileDescriptor.position d = 0 /\
    FileDescriptor.readable d = true /\
    FileDescriptor.writable d = true.
Proof.
  intros Hrun Hcreate. set (c := linux parse) in *.
  destruct (linux_sane parse) as [Hsd Hsr]. fold c in Hsd, Hsr.
  destruct (ops_run_invariants c t fuel calls w Hsr Hrun) as (Hok & Hm & Hf).
  unfold ops_create, reply_value in Hcreate.
  destruct (FileSystem_open c path _ 0 w) as [[fd'|e] w1] eqn:Hopen; [|discriminate].
  injection Hcreate as -> ->.
  destruct (fst (FileSystem_lookup c path w)) as [f|err] eqn:Hl; apply lookup_eq in Hl.
  - (* the file exists: it is reset *)
    destruct (open_returns_cases c path _ 0 w w' fd Hopen)
      as (parent & name & Hp & Hcls & [(f' & Hget & Hfile & Hexcl)|(Hget & _)]).
    2: { exfalso.
         assert (Hp1 : fst (FileSystem_parentDir c path w) = Return (parent, name))
           by (rewrite Hp; reflexivity).
         destruct (parentDir_inv c path w parent name Hp1) as (_ & Hlp & Hdir).
         rewrite (lookup_through_parent c path w w parent name Hp1 Hlp) in Hl.
         rewrite lookup_from_one, Hget in Hl by assumption. discriminate. }
    assert (Hp1 : fst (FileSystem_parentDir c path w) = Return (parent, name))
      by (rewrite Hp; reflexivity).
    destruct (parentDir_inv c path w parent name Hp1) as (_ & Hlp & Hdir).
    assert (f' = f) as ->.
    { rewrite (lookup_through_parent c path w w parent name Hp1 Hlp) in Hl.
      rewrite lookup_from_one, Hget in Hl by assumption. congruence. }
    assert (Hlive : (f < length (World.heap_entries w))%nat) by (eapply lookup_live; eauto).
    destruct (file_is_no_directory c w f Hm Hsd Hsr Hlive Hfile) as [Hfc Hfd].
    destruct (Hm f Hlive) as [Hil Hmode]. rewrite Hfc in Hmode.
    rewrite (open_existing_eq c path _ 0 w parent name f Hp Hcls Hget Hfile Hexcl) in Hopen.
    apply pair_equal_spec in Hopen as [Hfd' <-]. injection Hfd' as <-.
    set (w1 := update_inode (Entry.inode (get_entry w f))
                 (fun i => Inode.set_entries []
                    (Inode.set_size 0 (Inode.set_blocks [] (Inode.set_mtime (World.clock w) i))))
                 w).
    assert (Hk : steps_kept c w w1).
    { apply steps_kept_update_file. intros cur Hcd Heq.
      unfold Entry_isDirectory, inode_of in Hcd, Hfd. rewrite Heq in Hcd. congruence. }
    assert (Hl1 : FileSystem_lookup c path w1 = (Return f, w1))
      by (apply (lookup_kept c w w1); [exact Hk|reflexivity|exact Hl]).
    assert (Hi : inode_of w1 f =
                 Inode.set_entries []
                   (Inode.set_size 0 (Inode.set_blocks [] (Inode.set_mtime (World.clock w)
                      (inode_of w f)))))
      by (apply inode_of_update_eq; exact Hil).
    eexists f, _, (Entry_stat w1 f).
    split; [apply lookup_set_fds; exact Hl1|].
    split.
    { unfold ops_getattr. erewrite stat_eq by (apply lookup_set_fds; exact Hl1).
      reflexivity. }
    unfold Entry_stat. rewrite Hi. cbn [Stat.size Stat.mode Inode.size Inode.mode
      Inode.set_entries Inode.set_size Inode.set_blocks Inode.set_mtime].
    split; [reflexivity|]. split; [exact Hmode|]. split; [reflexivity|].
    repeat split.
  - (* the file is created *)
    destruct (open_absent_world c w w' path _ 0 fd err Hok Hl Hopen)
      as (st & d & Hl' & _ & Hst & Hmode & Hsize & _ & Hfd & Hfds & Hfile & Hpos & Hr & Hw
          & _).
    exists (length (World.heap_entries w)), d, st.
    split; [exact Hl'|].
    split; [unfold ops_getattr; rewrite Hst; reflexivity|].
    split; [exact Hsize|]. split; [exact Hmode|]. split; [exact Hfd|].
    split; [exact Hfds|]. split; [exact Hfile|]. split; [exact Hpos|].
    rewrite Hr, Hw. split; reflexivity.
Qed.

Lemma fuse_create_gives_an_empty_file_witness :
  exists e st,
    FileSystem_lookup linux0 "/f" world_f = (Return e, world_f) /\
    ops_getattr linux0 "/f" world_f = (Reply.mk (Some 0) (Some st), world_f) /\
    Stat.size st = 0.
Proof.
  destruct (fuse_create_gives_an_empty_file (fun _ => 0) 0 0%nat [] (FileSystem_new linux0 0)
              world_f "/f" 420 20) as (e & d & st & Hl & Hg & Hs & _).
  - reflexivity.
  - vm_compute. reflexivity.
  - exists e, st. split; [exact Hl|]. split; [exact Hg|exact Hs].
Defined.


(** X29.  The FUSE [write] and [read] operations, with the Linux constants,
    after any sequence of operations, on an open descriptor whose file is
    shorter than one block (1 MiB): [write] of [data] at [pos], ending
    inside the first block, calls back with the length of [data], and
    [read] of that many bytes at [pos] through the same descriptor then
    calls back with that length and has filled the buffer with [data]. *)
Theorem fuse_write_then_read (parse : string -> Z) (t : Time) (fuel : nat)
    (calls : list Call) (w : World.t) (path path' : string) (fd pos : Z) (data : Buffer)
    (st : Stat.t) :
  ops_run (linux parse) fuel calls (FileSystem_new (linux parse) t) = Some w ->
  ops_fgetattr path fd w = (Reply.mk (Some 0) (Some st), w) ->
  Stat.size st < BLOCK_SIZE ->
  0 <= pos -> 0 < Buffer_length data -> pos + Buffer_length data < BLOCK_SIZE ->
  exists w1 w2,
    ops_write 1 path fd data (Buffer_length data) pos w =
      Some (Reply.mk (Some (Buffer_length data)) None, w1) /\
    ops_read 1 path' fd (Buffer_alloc (Buffer_length data)) (Buffer_length data) pos w1 =
      Some (Reply.mk (Some (Buffer_length data)) None, data, w2).
Proof.
  intros Hrun Hstat Hsize Hpos Hdata Hfit. set (c := linux parse) in *.
  destruct (linux_sane parse) as [_ Hsr]. fold c in Hsr.
  destruct (ops_run_invariants c t fuel calls w Hsr Hrun) as (Hok & _ & Hf).
  assert (Hfiles : files_ok w).
  { rewrite ops_run_run in Hrun. apply (reachable_files_ok c).
    eapply run_reachable; [apply reachable_new|exact Hrun]. }
  unfold ops_fgetattr, FileSystem_fstat, bind in Hstat.
  destruct (array_get (World.fds w) (fd - 20)) as [d|] eqn:Hd.
  2: { unfold FileSystem_lookupFd, bind, gets in Hstat. cbn [id] in Hstat.
       rewrite Hd in Hstat. discriminate. }
  rewrite (lookupFd_eq fd w d Hd) in Hstat. cbn [snd] in Hstat.
  pose proof Hd as Hd'. apply array_get_Some in Hd' as [_ Hd'].
  destruct (Hf _ d Hd') as (f & Hfile & Hlive & Hcls).
  unfold FileDescriptor_stat in Hstat. rewrite Hfile in Hstat.
  unfold gets, reply_value in Hstat.
  injection Hstat as <-. cbn [Stat.size Entry_stat] in Hsize.
  apply (fuse_round_trip w path path' fd pos data d f); assumption.
Qed.

Lemma fuse_write_then_read_witness :
  exists w1 w2,
    ops_write 1 "/f" 20 [x68; x69] 2 3 world_f = Some (Reply.mk (Some 2) None, w1) /\
    ops_read 1 "/f" 20 [x00; x00] 2 3 w1 = Some (Reply.mk (Some 2) None, [x68; x69], w2).
Proof.
  apply (fuse_write_then_read (fun _ => 0) 0 0%nat [CallCreate "/f" 0] world_f "/f" "/f" 20 3
           [x68; x69] (Entry_stat world_f 1%nat)).
  - vm_compute. reflexivity.
  - vm_compute. reflexivity.
  - vm_compute. reflexivity.
  - lia.
  - vm_compute. reflexivity.
  - vm_compute. reflexivity.
Defined.

(** ** [readdir] and [lookup] *)

(** X30.  [readdir] and [lookup] agree: when [readdir(path)] returns a list,
    a name (not empty, without a slash) is in the list exactly when
    [path + '/' + name] resolves. *)
Theorem readdir_lists_what_resolves (c : Constants) (w : World.t) (path name : string)
    (names : list string) :
  FileSystem_readdir c path w = (Return names, w) ->
  valid_name name ->
  name ∈ names <->
  exists e, FileSystem_lookup c (String.append path (String "/"%char name)) w = (Return e, w).
Proof.
  intros Hrd Hname.
  unfold FileSystem_readdir, bind at 1 in Hrd.
  rewrite (lookup_eq c path w _ eq_refl) in Hrd.
  destruct (fst (FileSystem_lookup c path w)) as [d|err] eqn:Hl; [|discriminate].
  unfold bind at 1, gets at 1 in Hrd. cbn [id] in Hrd.
  destruct (Entry_isDirectory c w d) eqn:Hdir; [|discriminate].
  unfold bind, method_of in Hrd.
  destruct (Class_eqb (Entry.cls (get_entry w d)) ClassDirectory) eqn:Hcls; [|discriminate].
  apply Class_eqb_eq in Hcls. unfold ret in Hrd. injection Hrd as <-.
  assert (Hchild : FileSystem_lookup c (String.append path (String "/"%char name)) w =
                   (match Directory_get w d name with
                    | Some e => Return e
                    | None => Throw ENOENT
                    end, w)).
  { apply lookup_eq. unfold FileSystem_lookup, FileSystem_lookup_parts, lift in *.
    cbn [fst] in *. rewrite (split_child path name Hname), lookup_from_app, Hl.
    apply lookup_from_one; assumption. }
  rewrite Hchild, readdir_get.
  split.
  - intros [e He]. exists e. rewrite He. reflexivity.
  - intros [e He]. destruct (Directory_get w d name) as [x|]; [eauto|discriminate].
Qed.

Lemma readdir_lists_what_resolves_witness :
  "a"%string ∈ ["a"%string] <->
  exists e, FileSystem_lookup linux0 "//a" world_a = (Return e, world_a).
Proof.
  apply (readdir_lists_what_resolves linux0 world_a "/" "a" ["a"%string]).
  - vm_compute. reflexivity.
  - split; [discriminate|]. cbn. intros [H|[]]. discriminate.
Defined.
